(** * AnyDSL2 / Thorin core: a shallow embedding of the CPS graph analyses

    The development follows the C++ sources:
    - [literal.cpp]  ([PrimLit::equal], [PrimLit::hash], the [Lambda] value
      table and the SSA construction of lambda parameters),
    - [analyses/scope.cpp] ([Scope::process], [Scope::number], [~Scope],
      [Scope::backwards_rpo], the [Mangler]),
    - [analyses/domtree.cpp] ([DomTree::create], [DomTree::lca]),
    - the CFF lowering pass ([lower2cff] and its [is_bad] closure).

    Machine integers ([size_t], [u64]) are integers of [Z] with the
    wrap-around modulo [2^64] written out. *)

From Stdlib Require Import String.
From Stdlib Require Import ZArith List Bool Arith Lia Permutation Sorted.
Import ListNotations.

Set Warnings "-register-all".

Local Open Scope Z_scope.

(** ** Machine words *)

Definition size_t_modulus : Z := 2 ^ 64.

(** Reduction of an integer to the range of [size_t]. *)
Definition wrap (x : Z) : Z := x mod size_t_modulus.

(** [size_t(-1)], the invalid index the sources write as bottom. *)
Definition size_t_bottom : Z := wrap (-1).

(** Outcome of a run of imperative code: a value, a fault (a failed
    [assert], an out-of-range access, a null dereference, an exception
    that nothing catches), or a loop that is still running when the step
    budget is used up. *)
Inductive outcome (A : Type) : Type :=
| Done (a : A)
| Fault
| OutOfFuel.
Arguments Done {A} a.
Arguments Fault {A}.
Arguments OutOfFuel {A}.

Definition bind {A B : Type} (m : outcome A) (k : A -> outcome B) : outcome B :=
  match m with
  | Done a => k a
  | Fault => Fault
  | OutOfFuel => OutOfFuel
  end.

Notation "'do' x <- m ; k" := (bind m (fun x => k))
  (at level 10, x pattern, m at level 100, k at level 200).

(** ** Literals: [PrimLit::equal] and [PrimLit::hash] *)

Module Literal.

(** A [Box] is the 64-bit payload union of a literal; [bcast<u64, Box>]
    reads it back as its 64 bits, which is how the model stores it. *)
Record Box : Type := mkBox { bits : Z }.

Definition bcast_u64 (b : Box) : Z := wrap (bits b).

(** Modelled from the spec: [Box::operator==] is declared outside the
    available sources; the payloads are equal when they are bit-identical. *)
Definition Box_eqb (a b : Box) : bool := bcast_u64 a =? bcast_u64 b.

Record PrimLit : Type := mkPrimLit {
  kind : nat;       (* node kind tag *)
  type : nat;       (* hash-consed type, by its identity *)
  box : Box
}.

(** Modelled from the spec: [Literal::equal] (inherited from the node base
    class, declared outside the available sources) is base-equality: same
    kind and same type; a literal has no operands. *)
Definition Literal_equal (a b : PrimLit) : bool :=
  (kind a =? kind b)%nat && (type a =? type b)%nat.

(** [PrimLit::equal]. *)
Definition PrimLit_equal (a other : PrimLit) : bool :=
  if negb (Literal_equal a other) then false
  else Box_eqb (box a) (box other).

(** [boost::hash_combine] on a 64-bit [size_t] seed; [boost::hash] of a
    [u64] is the value itself. *)
Definition hash_combine (seed v : Z) : Z :=
  Z.lxor seed
    (wrap (v + 2654435769 + wrap (Z.shiftl seed 6) + Z.shiftr seed 2)).

Section Hash.

(** [Literal::hash], the hash of the base fields (kind and type). *)
Variable Literal_hash : nat -> nat -> Z.

(** [PrimLit::hash]. *)
Definition PrimLit_hash (p : PrimLit) : Z :=
  let seed := Literal_hash (kind p) (type p) in
  hash_combine seed (bcast_u64 (box p)).

End Hash.

(** Modelled from the spec: the world's [literal] factory is hash-consing:
    "an existing equivalent node is returned if present", equivalence being
    [PrimLit::equal]; otherwise the new node is interned. *)
Definition literal (world : list PrimLit) (l : PrimLit) : list PrimLit * PrimLit :=
  match find (PrimLit_equal l) world with
  | Some r => (world, r)
  | None => (l :: world, l)
  end.

End Literal.

(** ** CFF lowering: the [is_bad] closure of [lower2cff] *)

Module CFF.

(** What [is_bad] reads of a callee lambda. *)
Record Lambda : Type := mkLambda {
  gid : nat;
  num_ops : nat;            (* size of [ops()]; 0 for an unterminated lambda *)
  is_basicblock : bool;
  is_returning : bool
}.

Definition empty (l : Lambda) : bool := (num_ops l =? 0)%nat.

(** The scope under consideration, as far as [is_bad] queries it. *)
Record Scope : Type := mkScope {
  inner_contains : Lambda -> bool;
  outer_contains : Lambda -> bool
}.

(** [LambdaSet top], by the gids of its members. *)
Definition LambdaSet := list nat.

Definition contains (top : LambdaSet) (l : Lambda) : bool :=
  existsb (Nat.eqb (gid l)) top.

(** The closure [is_bad], with its captured variables [local], [scope] and
    [top] made explicit. *)
Definition is_bad (local : bool) (scope : Scope) (top : LambdaSet) (to : Lambda) : bool :=
  if empty to then false
  else if local then inner_contains scope to && negb (is_basicblock to)
  else if contains top to
       then negb (is_returning to) && negb (outer_contains scope to)
       else negb (is_basicblock to).

(** The classification of the global phase in the words of the
    specification: a known top-level lambda that is neither a basic block
    nor returning and that the current scope does not enclose. *)
Definition spec_bad_global (scope : Scope) (top : LambdaSet) (to : Lambda) : bool :=
  contains top to && negb (is_basicblock to) && negb (is_returning to)
  && negb (outer_contains scope to).

Definition spec_bad_local (scope : Scope) (to : Lambda) : bool :=
  inner_contains scope to && negb (is_basicblock to).

End CFF.

(** ** The definition graph *)

Module IR.

(** Types are opaque hash-consed values; a function type [Pi] is kept as
    the list of its element types. *)
Definition Ty := nat.

(** Definitions.  Lambdas and parameters are nominal: a lambda is named by
    its gid, a parameter by its lambda and its index (the parameter list of
    a lambda only grows).  Structural nodes are hash-consed, so that
    pointer equality of two of them is equality of their kind, type,
    payload and operands: they are kept by value. *)
Inductive Def : Type :=
| DLambda (gid : nat)
| DParam (lambda : nat) (index : nat)
| DBottom (ty : Ty)
| DPrimLit (ty : Ty) (box : Z)
| DSelect (cond tval fval : Def)
| DPrimOp (kind : nat) (ty : Ty) (ops : list Def).

(** Pointer comparison [a == b]. *)
Fixpoint Def_eqb (a b : Def) {struct a} : bool :=
  match a, b with
  | DLambda g, DLambda g' => (g =? g')%nat
  | DParam l i, DParam l' i' => (l =? l')%nat && (i =? i')%nat
  | DBottom t, DBottom t' => (t =? t')%nat
  | DPrimLit t x, DPrimLit t' x' => (t =? t')%nat && (x =? x')
  | DSelect c t f, DSelect c' t' f' => Def_eqb c c' && Def_eqb t t' && Def_eqb f f'
  | DPrimOp k t ops, DPrimOp k' t' ops' =>
      (k =? k')%nat && (t =? t')%nat &&
      (fix go (l l' : list Def) {struct l} : bool :=
         match l, l' with
         | [], [] => true
         | x :: r, y :: r' => Def_eqb x y && go r r'
         | _, _ => false
         end) ops ops'
  | _, _ => false
  end.

(** Comparison of two possibly null pointers. *)
Definition ptr_eqb (a b : option Def) : bool :=
  match a, b with
  | None, None => true
  | Some x, Some y => Def_eqb x y
  | _, _ => false
  end.

Definition isa_lambda (d : Def) : option nat :=
  match d with DLambda g => Some g | _ => None end.

(** The operands of a structural node. *)
Definition primop_ops (d : Def) : list Def :=
  match d with
  | DSelect c t f => [c; t; f]
  | DPrimOp _ _ ops => ops
  | _ => []
  end.

(** [l.resize(n, nullptr)] on a vector of nullable pointers. *)
Definition resize {A : Type} (l : list (option A)) (n : nat) : list (option A) :=
  firstn n l ++ repeat None (n - length l).

(** [l[i] = x] on a vector; the caller checks the range. *)
Fixpoint list_set {A : Type} (l : list A) (i : nat) (x : A) : list A :=
  match l, i with
  | [], _ => []
  | _ :: r, O => x :: r
  | y :: r, S i' => y :: list_set r i' x
  end.

(** A pending fix-up of a lazily created parameter. *)
Record Todo : Type := mkTodo {
  todo_handle : Z;
  todo_index : nat;
  todo_type : Ty;
  todo_name : string
}.

(** The mutable state of a lambda.  [ops_] is [callee :: args], with null
    slots after a [resize]; [tracked_values_] is the value table, a null
    slot being an unbound handle and a tracker being kept as the
    definition it tracks. *)
Record Lambda : Type := mkLambda {
  ops_ : list (option Def);
  pi_ : list Ty;
  parent_ : option nat;
  is_sealed_ : bool;
  is_visited_ : bool;
  tracked_values_ : list (option Def);
  todos_ : list Todo
}.

(** The world owns the lambdas (a lambda's gid is its position) and the
    diagnostic stream [std::cerr]. *)
Record World : Type := mkWorld {
  lambdas : list Lambda;
  cerr : list string
}.

Definition get_lambda (w : World) (l : nat) : outcome Lambda :=
  match nth_error (lambdas w) l with
  | Some r => Done r
  | None => Fault
  end.

Definition set_lambda (w : World) (l : nat) (r : Lambda) : World :=
  mkWorld (list_set (lambdas w) l r) (cerr w).

Definition with_ops (r : Lambda) (ops : list (option Def)) : Lambda :=
  mkLambda ops (pi_ r) (parent_ r) (is_sealed_ r) (is_visited_ r)
    (tracked_values_ r) (todos_ r).

Definition with_pi (r : Lambda) (pi : list Ty) : Lambda :=
  mkLambda (ops_ r) pi (parent_ r) (is_sealed_ r) (is_visited_ r)
    (tracked_values_ r) (todos_ r).

Definition with_sealed (r : Lambda) (b : bool) : Lambda :=
  mkLambda (ops_ r) (pi_ r) (parent_ r) b (is_visited_ r)
    (tracked_values_ r) (todos_ r).

Definition with_visited (r : Lambda) (b : bool) : Lambda :=
  mkLambda (ops_ r) (pi_ r) (parent_ r) (is_sealed_ r) b
    (tracked_values_ r) (todos_ r).

Definition with_tracked (r : Lambda) (tv : list (option Def)) : Lambda :=
  mkLambda (ops_ r) (pi_ r) (parent_ r) (is_sealed_ r) (is_visited_ r)
    tv (todos_ r).

Definition with_todos (r : Lambda) (t : list Todo) : Lambda :=
  mkLambda (ops_ r) (pi_ r) (parent_ r) (is_sealed_ r) (is_visited_ r)
    (tracked_values_ r) t.

(** [world().bottom(type)], the hash-consed bottom literal. *)
Definition bottom (type : Ty) : Def := DBottom type.

(** *** Operands *)

(** [op(i)]: asserts [i < size()]. *)
Definition op (r : Lambda) (i : nat) : outcome (option Def) :=
  match nth_error (ops_ r) i with
  | Some d => Done d
  | None => Fault
  end.

(** [arg(i)] is [op(i + 1)]. *)
Definition arg (r : Lambda) (i : nat) : outcome (option Def) := op r (S i).

Definition empty (r : Lambda) : bool :=
  match ops_ r with [] => true | _ => false end.

(** [num_args()] is [size() - 1]. *)
Definition num_args (r : Lambda) : nat := (length (ops_ r) - 1)%nat.

(** [param(i)] is [params_[i]]. *)
Definition param (this : nat) (r : Lambda) (i : nat) : outcome Def :=
  if (i <? length (pi_ r))%nat then Done (DParam this i) else Fault.

(** Modelled from the spec: [set_op] is defined outside the available
    sources; it assigns the operand slot (and keeps the use index, which
    this model derives from the operands, in lock-step). *)
Definition set_op (this : nat) (i : nat) (d : Def) (w : World) : outcome World :=
  do r <- get_lambda w this;
  if (i <? length (ops_ r))%nat
  then Done (set_lambda w this (with_ops r (list_set (ops_ r) i (Some d))))
  else Fault.

(** [Lambda::update_op]: [unset_op(i); set_op(i, def)]. *)
Definition update_op (this : nat) (i : nat) (d : Def) (w : World) : outcome World :=
  set_op this i d w.

(** [update_arg(i, def)] is [update_op(i + 1, def)]. *)
Definition update_arg (this : nat) (i : nat) (d : Def) (w : World) : outcome World :=
  update_op this (S i) d w.

(** [Lambda::jump]. *)
Definition jump (this : nat) (to : Def) (args : list Def) (w : World) : outcome World :=
  do r <- get_lambda w this;
  Done (set_lambda w this (with_ops r (Some to :: map Some args))).

(** [Lambda::append_param]: the type grows by one element and the new
    parameter takes the next index. *)
Definition append_param (this : nat) (type : Ty) (w : World) : outcome (World * Def) :=
  do r <- get_lambda w this;
  let size := length (pi_ r) in
  Done (set_lambda w this (with_pi r (pi_ r ++ [type])), DParam this size).

(** *** Successors and predecessors *)

(** The inner loop of [Lambda::succs]: push every operand that is not in
    [done] yet. *)
Fixpoint enqueue (ops : list Def) (queue done : list Def) : list Def * list Def :=
  match ops with
  | [] => (queue, done)
  | o :: rest =>
      if existsb (Def_eqb o) done then enqueue rest queue done
      else enqueue rest (queue ++ [o]) (o :: done)
  end.

(** The work-list loop of [Lambda::succs]. *)
Fixpoint succs_loop (fuel : nat) (queue done : list Def) (result : list nat)
  : outcome (list nat) :=
  match queue with
  | [] => Done result
  | def :: queue' =>
      match fuel with
      | O => OutOfFuel
      | S fuel' =>
          match isa_lambda def with
          | Some lambda => succs_loop fuel' queue' done (result ++ [lambda])
          | None =>
              let '(q, d) := enqueue (primop_ops def) queue' done in
              succs_loop fuel' q d result
          end
      end
  end.

Fixpoint Def_size (d : Def) : nat :=
  match d with
  | DSelect c t f => S (Def_size c + Def_size t + Def_size f)
  | DPrimOp _ _ ops => S (fold_right (fun o n => Def_size o + n)%nat O ops)
  | _ => 1%nat
  end.

(** The number of nodes below a list of definitions. *)
Definition total_size (l : list Def) : nat :=
  fold_right (fun o n => Def_size o + n)%nat O l.

(** All operand slots of a lambda, a null slot being a fault for whoever
    walks them. *)
Fixpoint non_null (ops : list (option Def)) : outcome (list Def) :=
  match ops with
  | [] => Done []
  | None :: _ => Fault
  | Some d :: rest => do r <- non_null rest; Done (d :: r)
  end.

(** [Lambda::succs]: breadth-first over the operands, down to the first
    lambda on every branch.  The budget of the work-list loop is the
    number of nodes below the operands, which bounds the pops. *)
Definition succs (w : World) (this : nat) : outcome (list nat) :=
  do r <- get_lambda w this;
  do ops <- non_null (ops_ r);
  let '(q, d) := enqueue ops [] [] in
  succs_loop (total_size ops) q d [].

(** *** Uses *)

(** A use [(index, user)] of a definition (class [Use]). *)
Definition Use : Type := (nat * Def)%type.

(** The operand slots of every lambda of a world, by gid. *)
Definition OpTable : Type := list (list (option Def)).

Definition all_ops (w : World) : OpTable := map ops_ (lambdas w).

Fixpoint indexed {A : Type} (i : nat) (l : list A) : list (nat * A) :=
  match l with
  | [] => []
  | x :: r => (i, x) :: indexed (S i) r
  end.

(** The nodes at and below a definition. *)
Fixpoint subterms (d : Def) : list Def :=
  d :: match d with
       | DSelect c t f => subterms c ++ subterms t ++ subterms f
       | DPrimOp _ _ ops => flat_map subterms ops
       | _ => []
       end.

Definition slot_nodes (s : option Def) : list Def :=
  match s with Some d => subterms d | None => [] end.

(** A list without its repetitions, in order of first occurrence. *)
Fixpoint distinct (l : list Def) : list Def :=
  match l with
  | [] => []
  | x :: r => x :: filter (fun y => negb (Def_eqb x y)) (distinct r)
  end.

(** The nodes that are live in a world: whatever some lambda reaches
    through its operands. *)
Definition world_nodes (t : OpTable) : list Def :=
  distinct (flat_map (flat_map slot_nodes) t).

(** The uses that the operand list [ops] of [user] contributes to [d]. *)
Definition uses_in (user : Def) (ops : list (option Def)) (d : Def) : list Use :=
  map (fun p => (fst p, user))
      (filter (fun p => ptr_eqb (snd p) (Some d)) (indexed 0 ops)).

(** The gids of the run at hand: "a single monotonically increasing
    counter produces gids", one for every definition at its construction.
    A structural node, being kept by value, is one node of the world and
    has one gid.  The table of the world counts the lambdas only (what is
    called the gid of a lambda elsewhere is its place in the table); [gid]
    counts all definitions, and the lambdas come in the same order in
    both counts. *)
Class Gids : Type := mkGids {
  gid : Def -> nat;
  gid_lambdas : forall a b : nat,
      (a < b)%nat -> (gid (DLambda a) < gid (DLambda b))%nat
}.

Section Uses.

Context {gids : Gids}.

(** The order of the uses of a definition: by the gid of the user, then
    by the operand index. *)
Definition use_lt (use1 use2 : Use) : bool :=
  (gid (snd use1) <? gid (snd use2))%nat
  || ((gid (snd use1) =? gid (snd use2))%nat && (fst use1 <? fst use2)%nat).

Fixpoint insert_use (u : Use) (l : list Use) : list Use :=
  match l with
  | [] => [u]
  | v :: r => if use_lt v u then v :: insert_use u r else u :: v :: r
  end.

Definition sort_uses (l : list Use) : list Use := fold_right insert_use [] l.

(** Modelled from the spec: [Def::uses] is declared in [def.h] but
    defined, like [set_op] which maintains it, outside the available
    sources.  "[uses] is the set of [(user, operand_index)] pairs,
    maintained in lock-step with [ops] assignments" (I1: if
    [d.ops[i] = o] then [(d, i)] is in [o.uses]), so the uses are read off
    the operands: the lambdas that hold [d] in a slot and the live
    structural nodes that have [d] as an operand; and "iteration over
    [uses] is in [(gid, index)] order". *)
Definition uses_of (t : OpTable) (d : Def) : list Use :=
  sort_uses
    (flat_map (fun p => uses_in (DLambda (fst p)) (snd p) d) (indexed 0 t)
     ++ flat_map (fun s => uses_in s (map Some (primop_ops s)) d) (world_nodes t)).

Definition uses (w : World) (d : Def) : list Use := uses_of (all_ops w) d.

(** Every definition that the walk of [preds] can meet. *)
Definition users (t : OpTable) : list Def :=
  map DLambda (seq 0 (length t)) ++ world_nodes t.

(** The work-list loop of [Lambda::preds]. *)
Fixpoint preds_loop (fuel : nat) (t : OpTable) (queue done : list Def)
  (result : list nat) : outcome (list nat) :=
  match queue with
  | [] => Done result
  | def :: queue' =>
      match fuel with
      | O => OutOfFuel
      | S fuel' =>
          match isa_lambda def with
          | Some lambda => preds_loop fuel' t queue' done (result ++ [lambda])
          | None =>
              let '(q, d) := enqueue (map snd (uses_of t def)) queue' done in
              preds_loop fuel' t q d result
          end
      end
  end.

(** [Lambda::preds]: breadth-first over the uses, up to the first lambda
    on every branch.  A definition enters the queue once, so the
    number of lambdas and live nodes bounds the pops. *)
Definition preds_of (t : OpTable) (this : nat) : outcome (list nat) :=
  let '(q, d) := enqueue (map snd (uses_of t (DLambda this))) [] [] in
  preds_loop (length t + length (world_nodes t)) t q d [].

Definition preds (w : World) (this : nat) : outcome (list nat) :=
  preds_of (all_ops w) this.

(** The loop of [find_preds] over the users of a [Select]. *)
Fixpoint select_users (us : list Use) : outcome (list nat) :=
  match us with
  | [] => Done []
  | (index, user) :: rest =>
      if negb (index =? 0)%nat then Fault
      else match isa_lambda user with
           | Some lambda => do r <- select_users rest; Done (lambda :: r)
           | None => Fault
           end
  end.

(** [find_preds<direct>], over the uses of the lambda. *)
Fixpoint find_preds (direct : bool) (t : OpTable) (us : list Use) : outcome (list nat) :=
  match us with
  | [] => Done []
  | (index, user) :: rest =>
      match user with
      | DSelect _ _ _ =>
          do s <- select_users (uses_of t user);
          do r <- find_preds direct t rest;
          Done (s ++ r)
      | _ =>
          if negb direct || (index =? 0)%nat
          then match isa_lambda user with
               | Some ulambda => do r <- find_preds direct t rest; Done (ulambda :: r)
               | None => find_preds direct t rest
               end
          else find_preds direct t rest
      end
  end.

(** [Lambda::direct_preds] is [find_preds<true>]. *)
Definition direct_preds (w : World) (this : nat) : outcome (list nat) :=
  find_preds true (all_ops w) (uses w (DLambda this)).

End Uses.

(** *** Direct successors *)

(** [Lambda::direct_succs]: the callee when it is a lambda, the two
    branches when it is a [Select]; [as_lambda] asserts that a branch is
    a lambda. *)
Definition direct_succs (w : World) (this : nat) : outcome (list nat) :=
  do r <- get_lambda w this;
  match ops_ r with
  | [] => Done []
  | None :: _ => Fault
  | Some (DLambda succ) :: _ => Done [succ]
  | Some (DSelect _ tval fval) :: _ =>
      match isa_lambda tval, isa_lambda fval with
      | Some t, Some f => Done [t; f]
      | _, _ => Fault
      end
  | Some _ :: _ => Done []
  end.

(** Does the operand tree [d] reach the lambda [l] without passing
    through a lambda? *)
Fixpoint mentions (l : nat) (d : Def) : bool :=
  match d with
  | DLambda g => (g =? l)%nat
  | DSelect c t f => mentions l c || mentions l t || mentions l f
  | DPrimOp _ _ ops => existsb (mentions l) ops
  | _ => false
  end.

(** *** Vocabulary of the work lists *)

(** The state of a work list, of [succs] or of [preds], is consistent:
    the queue is a part of [done] without repetition; a lambda of the
    result has left the queue; whatever of [done] has left the queue has
    been dealt with (a lambda is in the result, the neighbours [next] of
    another node are in [done]); everything in [done] is [good]; and
    [done] holds the definitions [start] that were pushed first. *)
Record worked (next : Def -> list Def) (good : Def -> Prop)
  (start queue done : list Def) (result : list nat) : Prop := mkWorked {
  queued_done : incl queue done;
  queued_once : NoDup queue;
  result_once : NoDup result;
  result_left : forall l, In l result -> In (DLambda l) done /\ ~ In (DLambda l) queue;
  done_dealt : forall d, In d done ->
                 In d queue \/
                 match isa_lambda d with
                 | Some l => In l result
                 | None => incl (next d) done
                 end;
  done_good : forall d, In d done -> good d;
  done_start : incl start done
}.

(** What the walk of [succs] meets: nothing that reaches a lambda the
    operands [ops] do not reach. *)
Definition below (ops : list Def) (d : Def) : Prop :=
  forall l, mentions l d = true -> exists o, In o ops /\ mentions l o = true.

(** The lambda [p] holds, in an operand slot, a definition that reaches
    the lambda [l]. *)
Definition holds (t : OpTable) (p l : nat) : Prop :=
  exists ops o, nth_error t p = Some ops /\ In (Some o) ops /\ mentions l o = true.

(** What the walk of [preds] from the lambda [l] meets: a lambda that
    holds a definition reaching [l], or a live node that reaches [l]. *)
Definition upward (t : OpTable) (l : nat) (d : Def) : Prop :=
  match d with
  | DLambda g => holds t g l
  | _ => In d (world_nodes t) /\ mentions l d = true
  end.

(** The neighbours that the walk of [preds] pushes: the users. *)
Definition users_of {gids : Gids} (t : OpTable) (d : Def) : list Def :=
  map snd (uses_of t d).

End IR.

(** ** SSA construction of lambda parameters ([lambda.cpp]) *)

Module SSA.
Import IR.

(** *** The value table *)

(** What [std::vector::resize] can deliver.  A request to grow a vector
    beyond [max_size()] elements throws [std::length_error], and one that
    the allocator cannot serve throws [std::bad_alloc]; [Lambda] catches
    neither, so that the call does not return.  [slots_limit] is the
    largest size to which a vector grows in the run at hand. *)
Class Memory : Type := mkMemory {
  slots_limit : Z
}.

Section Machine.

Context {memory : Memory} {gids : Gids}.

(** [tracked_values_.resize(n)]: growing beyond the limit throws. *)
Definition resize_table (tv : list (option Def)) (n : Z) : outcome (list (option Def)) :=
  if (Z.of_nat (length tv) <? n) && (slots_limit <? n) then Fault
  else Done (resize tv (Z.to_nat n)).

(** [Lambda::find_tracker]: the table is resized to [handle + 1] slots
    (in [size_t] arithmetic) when the handle is not below its size; then
    the slot is read. *)
Definition find_tracker (this : nat) (handle : Z) (w : World)
  : outcome (World * option Def) :=
  do r <- get_lambda w this;
  let tv := tracked_values_ r in
  do tv' <- (if handle >=? Z.of_nat (length tv)
             then resize_table tv (wrap (handle + 1))
             else Done tv);
  match nth_error tv' (Z.to_nat handle) with
  | Some slot => Done (set_lambda w this (with_tracked r tv'), slot)
  | None => Fault
  end.

(** [Lambda::set_value]: the old tracker, if any, is deleted and a new one
    takes the slot. *)
Definition set_value (this : nat) (handle : Z) (def : Def) (w : World)
  : outcome (World * Def) :=
  do (w1, _) <- find_tracker this handle w;
  do r <- get_lambda w1 this;
  Done (set_lambda w1 this
          (with_tracked r (list_set (tracked_values_ r) (Z.to_nat handle) (Some def))),
        def).

(** The diagnostic of [return_bottom]. *)
Definition may_be_undefined (name : string) : string :=
  ("'" ++ name ++ "' may be undefined")%string.

(** The label [return_bottom] of [Lambda::get_value]. *)
Definition return_bottom (this : nat) (handle : Z) (type : Ty) (name : string)
  (w : World) : outcome (World * Def) :=
  let w1 := mkWorld (lambdas w) (cerr w ++ [may_be_undefined name]) in
  set_value this handle (bottom type) w1.

(** *** Replacement *)

(** Substitution of [b] for [a] in an operand tree. *)
Fixpoint subst (a b d : Def) {struct d} : Def :=
  if Def_eqb d a then b
  else match d with
       | DSelect c t f => DSelect (subst a b c) (subst a b t) (subst a b f)
       | DPrimOp k ty ops => DPrimOp k ty (map (subst a b) ops)
       | _ => d
       end.

(** Modelled from the spec: [Def::replace] is defined outside the
    available sources.  "[A.replace(B)] sets [A.representative = B]" and
    every handle then dereferences to the representative: every operand
    and every tracked binding that reached [A] reaches [B]. *)
Definition replace (a b : Def) (w : World) : World :=
  mkWorld
    (map (fun r => with_tracked
                     (with_ops r (map (option_map (subst a b)) (ops_ r)))
                     (map (option_map (subst a b)) (tracked_values_ r)))
         (lambdas w))
    (cerr w).

(** Modelled from the spec: [Def::tracked_uses] is declared outside the
    available sources: one tracker per use of the definition, in the order
    of the uses, each tracking the user.  The users that matter to the
    caller are lambdas, which no replacement moves, so that a tracker is
    kept as the user it tracks. *)
Definition tracked_uses (w : World) (d : Def) : list Def :=
  map snd (uses w d).

(** Modelled from the spec: [Param::peek] is defined outside the available
    sources: "for each direct predecessor [P] of [L], the pair
    [(P.arg(i), P)]". *)
Fixpoint peek_from (w : World) (index : nat) (froms : list nat)
  : outcome (list (option Def * nat)) :=
  match froms with
  | [] => Done []
  | p :: rest =>
      do r <- get_lambda w p;
      do d <- arg r index;
      do ps <- peek_from w index rest;
      Done ((d, p) :: ps)
  end.

Definition peek (w : World) (lambda index : nat) : outcome (list (option Def * nat)) :=
  do froms <- direct_preds w lambda;
  peek_from w index froms.

(** *** Trivial parameters *)

(** The loop of [try_remove_trivial_param] that looks for the single
    value a parameter stands for.  [Done None] is the early
    [return param]; [Done (Some same)] is the end of the loop. *)
Fixpoint find_same (w : World) (index : nat) (param : Def) (preds : list nat)
  (same : option Def) : outcome (option (option Def)) :=
  match preds with
  | [] => Done (Some same)
  | pred :: rest =>
      do r <- get_lambda w pred;
      do def <- arg r index;
      if ptr_eqb def (Some param) || ptr_eqb same def
      then find_same w index param rest same
      else match same with
           | Some _ => Done None
           | None => find_same w index param rest def
           end
  end.

(** The argument of predecessor [pred] at [index] is the definition [a]. *)
Definition pred_arg (w : World) (index : nat) (pred : nat) (a : Def) : Prop :=
  exists pr, get_lambda w pred = Done pr /\ arg pr index = Done (Some a).

(** The decisions of that loop, read off the argument values when every
    predecessor has a non-null argument at the index. *)
Fixpoint same_of_args (param : Def) (args : list Def) (same : option Def)
  : option (option Def) :=
  match args with
  | [] => Some same
  | def :: rest =>
      if Def_eqb def param || ptr_eqb same (Some def)
      then same_of_args param rest same
      else match same with
           | Some _ => None
           | None => same_of_args param rest (Some def)
           end
  end.

(** The search [for (i = 0; i != succ->num_args(); ++i)] for the first
    argument of [succ] that is [user]. *)
Fixpoint index_of (user : Def) (args : list (option Def)) (i : nat) : option nat :=
  match args with
  | [] => None
  | a :: rest => if ptr_eqb a (Some user) then Some i else index_of user rest (S i)
  end.

Section Retry.

(** The recursive call [succ->try_remove_trivial_param(...)]. *)
Variable rec : nat -> Def -> World -> outcome (World * Def).

(** The body of the loop over the successors of a user. *)
Definition retry_succ (param user : Def) (succ : nat) (w : World) : outcome World :=
  do r <- get_lambda w succ;
  if empty r then Fault
  else match index_of user (tl (ops_ r)) 0 with
       | None => Done w
       | Some index =>
           do sp <- IR.param succ r index;
           if negb (Def_eqb param sp)
           then do (w', _) <- rec succ sp w; Done w'
           else Done w
       end.

Fixpoint retry_succs (param user : Def) (succs : list nat) (w : World) : outcome World :=
  match succs with
  | [] => Done w
  | s :: rest => do w' <- retry_succ param user s w; retry_succs param user rest w'
  end.

(** The body of the loop over the tracked uses. *)
Definition retry_use (param tracker : Def) (w : World) : outcome World :=
  match isa_lambda tracker with
  | Some lambda => do ss <- succs w lambda; retry_succs param tracker ss w
  | None => Done w
  end.

Fixpoint retry_uses (param : Def) (uses : list Def) (w : World) : outcome World :=
  match uses with
  | [] => Done w
  | t :: rest => do w' <- retry_use param t w; retry_uses param rest w'
  end.

End Retry.

(** The loop over [param->peek()] that overwrites the argument slots. *)
Fixpoint update_peeks (index : nat) (b : Def) (peeks : list (option Def * nat))
  (w : World) : outcome World :=
  match peeks with
  | [] => Done w
  | (_, from) :: rest => do w' <- update_arg from index b w; update_peeks index b rest w'
  end.

(** [Lambda::try_remove_trivial_param]. *)
Fixpoint try_remove_trivial_param (fuel : nat) (this : nat) (param : Def) (w : World)
  {struct fuel} : outcome (World * Def) :=
  match fuel with
  | O => OutOfFuel
  | S fuel' =>
      match param with
      | DParam lambda index =>
          if negb (lambda =? this)%nat then Fault else
          do r <- get_lambda w this;
          if negb (is_sealed_ r) then Fault else
          do preds <- preds w this;
          do found <- find_same w index param preds None;
          match found with
          | None => Done (w, param)
          | Some None => Fault
          | Some (Some same) =>
              let uses := tracked_uses w param in
              let w1 := replace param same w in
              do peeks <- peek w1 this index;
              do type <- match nth_error (pi_ r) index with
                         | Some t => Done t
                         | None => Fault
                         end;
              do w2 <- update_peeks index (bottom type) peeks w1;
              do w3 <- retry_uses (try_remove_trivial_param fuel') param uses w2;
              Done (w3, same)
          end
      | _ => Fault
      end
  end.

(** *** Reading a value *)

(** The three states of [same] in [get_value]: null, a definition, or
    [(const Def* )-1]. *)
Inductive Same : Type :=
| SameNull
| SameDef (d : Def)
| SameDiffer.

Section Loops.

(** The recursive call [pred->get_value(handle, type, name)]. *)
Variable get : nat -> World -> outcome (World * Def).

(** The loop of [get_value] over two or more predecessors. *)
Fixpoint same_of_preds (preds : list nat) (same : Same) (w : World)
  : outcome (World * Same) :=
  match preds with
  | [] => Done (w, same)
  | pred :: rest =>
      do (w1, def) <- get pred w;
      match same with
      | SameDef s =>
          if negb (Def_eqb s def) then Done (w1, SameDiffer)
          else same_of_preds rest (SameDef def) w1
      | _ => same_of_preds rest (SameDef def) w1
      end
  end.

(** The body of the loop of [fix] over the predecessors. *)
Definition wire_pred (index : nat) (pred : nat) (w : World) : outcome World :=
  do pr <- get_lambda w pred;
  if empty pr then Fault else
  do ss <- succs w pred;
  if negb (length ss =? 1)%nat then Fault else
  let w1 := if (num_args pr <=? index)%nat
            then set_lambda w pred (with_ops pr (resize (ops_ pr) (index + 2)))
            else w in
  do pr1 <- get_lambda w1 pred;
  do a <- arg pr1 index;
  match a with
  | Some _ => Fault
  | None => do (w2, d) <- get pred w1; set_op pred (index + 1) d w2
  end.

Fixpoint wire_preds (index : nat) (preds : list nat) (w : World) : outcome World :=
  match preds with
  | [] => Done w
  | p :: rest => do w' <- wire_pred index p w; wire_preds index rest w'
  end.

End Loops.

(** [Lambda::get_value] and [Lambda::fix]. *)
Fixpoint get_value (fuel : nat) (this : nat) (handle : Z) (type : Ty) (name : string)
  (w : World) {struct fuel} : outcome (World * Def) :=
  match fuel with
  | O => OutOfFuel
  | S fuel' =>
      do (w, tracker) <- find_tracker this handle w;
      match tracker with
      | Some def => Done (w, def)
      | None =>
          do r <- get_lambda w this;
          match parent_ r with
          | None => return_bottom this handle type name w
          | Some parent =>
              if negb (parent =? this)%nat
              then get_value fuel' parent handle type name w
              else if negb (is_sealed_ r) then
                do (w1, param) <- append_param this type w;
                do r1 <- get_lambda w1 this;
                let w2 := set_lambda w1 this
                            (with_todos r1 (todos_ r1 ++
                               [mkTodo handle (length (pi_ r)) type name])) in
                set_value this handle param w2
              else
                do preds <- preds w this;
                match preds with
                | [] => return_bottom this handle type name w
                | [pred] =>
                    do (w1, def) <- get_value fuel' pred handle type name w;
                    set_value this handle def w1
                | _ =>
                    if is_visited_ r then
                      do (w1, param) <- append_param this type w;
                      set_value this handle param w1
                    else
                      let w1 := set_lambda w this (with_visited r true) in
                      do (w2, same) <-
                         same_of_preds
                           (fun pred => get_value fuel' pred handle type name)
                           preds SameNull w1;
                      do r2 <- get_lambda w2 this;
                      let w3 := set_lambda w2 this (with_visited r2 false) in
                      match same with
                      | SameNull => Fault
                      | SameDef d => Done (w3, d)
                      | SameDiffer =>
                          do (w4, tracker) <- find_tracker this handle w3;
                          do (w5, index) <-
                             match tracker with
                             | Some (DParam _ index) => Done (w4, index)
                             | Some _ => Fault
                             | None =>
                                 do r4 <- get_lambda w4 this;
                                 do (w5, _) <- append_param this type w4;
                                 Done (w5, length (pi_ r4))
                             end;
                          do (w6, d) <- fix_todo fuel' this
                                           (mkTodo handle index type name) w5;
                          set_value this handle d w6
                      end
                end
          end
      end
  end

with fix_todo (fuel : nat) (this : nat) (todo : Todo) (w : World)
  {struct fuel} : outcome (World * Def) :=
  match fuel with
  | O => OutOfFuel
  | S fuel' =>
      let index := todo_index todo in
      do r <- get_lambda w this;
      do param <- IR.param this r index;
      if negb (is_sealed_ r) then Fault else
      do preds <- preds w this;
      do w1 <- wire_preds
                 (fun pred => get_value fuel' pred (todo_handle todo)
                                (todo_type todo) (todo_name todo))
                 index preds w;
      try_remove_trivial_param fuel' this param w1
  end.

(** The loop of [seal] over the pending todos. *)
Fixpoint fix_todos (fuel : nat) (this : nat) (todos : list Todo) (w : World)
  : outcome World :=
  match todos with
  | [] => Done w
  | t :: rest => do (w', _) <- fix_todo fuel this t w; fix_todos fuel this rest w'
  end.

(** [Lambda::seal]. *)
Definition seal (fuel : nat) (this : nat) (w : World) : outcome World :=
  do r <- get_lambda w this;
  if is_sealed_ r then Fault else
  let w1 := set_lambda w this (with_sealed r true) in
  do w2 <- fix_todos fuel this (todos_ r) w1;
  do r2 <- get_lambda w2 this;
  Done (set_lambda w2 this (with_todos r2 [])).

(** [Lambda::clear]: the trackers are deleted and the table is emptied. *)
Definition clear (this : nat) (w : World) : outcome World :=
  do r <- get_lambda w this;
  Done (set_lambda w this (with_tracked r [])).

End Machine.

(** *** Vocabulary of the frame of the construction *)

(** A lambda is still sealed or not as it was, has the parent it had,
    has kept its parameters, with more after them at most, and has a
    value table that is no shorter. *)
Definition settled (r r' : Lambda) : Prop :=
  is_sealed_ r' = is_sealed_ r /\
  parent_ r' = parent_ r /\
  (exists more, pi_ r' = pi_ r ++ more) /\
  (length (tracked_values_ r) <= length (tracked_values_ r'))%nat.

(** The world has the lambdas it had, each settled, and the diagnostics
    it had, with more after them at most. *)
Definition stable (w w' : World) : Prop :=
  length (lambdas w') = length (lambdas w) /\
  (forall l r, get_lambda w l = Done r ->
               exists r', get_lambda w' l = Done r' /\ settled r r') /\
  exists more, cerr w' = cerr w ++ more.

End SSA.

(** ** Scope analysis ([analyses/scope.cpp]) *)

Module Scope.

(** A lambda, by its gid. *)
Definition Lambda := nat.

(** The fields of a lambda that a [Scope] reads and writes: the two
    reverse-postorder indices, the back pointer to the scope the lambda is
    a member of (a scope is named by its address) and the pass mark. *)
Record Fields : Type := mkFields {
  sid_ : Z;
  backwards_sid_ : Z;
  scope_ : option nat;
  cur_pass_ : nat
}.

(** The fields as [Lambda::Lambda] leaves them. *)
Definition fresh_fields : Fields := mkFields size_t_bottom size_t_bottom None 0.

Definition Heap := Lambda -> Fields.

Definition upd (h : Heap) (l : Lambda) (f : Fields) : Heap :=
  fun x => if (x =? l)%nat then f else h x.

Definition set_sid (l : Lambda) (s : Z) (h : Heap) : Heap :=
  upd h l (mkFields s (backwards_sid_ (h l)) (scope_ (h l)) (cur_pass_ (h l))).

Definition set_scope (l : Lambda) (s : option nat) (h : Heap) : Heap :=
  upd h l (mkFields (sid_ (h l)) (backwards_sid_ (h l)) s (cur_pass_ (h l))).

(** [visit_first(pass)]: the lambda carries the mark of the pass. *)
Definition visit_first (pass : nat) (l : Lambda) (h : Heap) : Heap :=
  upd h l (mkFields (sid_ (h l)) (backwards_sid_ (h l)) (scope_ (h l)) pass).

Definition is_visited (pass : nat) (l : Lambda) (h : Heap) : bool :=
  (cur_pass_ (h l) =? pass)%nat.

(** The world: the lambdas' fields and the counter of [new_pass]. *)
Record World : Type := mkWorld {
  heap : Heap;
  pass_counter : nat
}.

Definition new_pass (w : World) : World * nat :=
  (mkWorld (heap w) (S (pass_counter w)), S (pass_counter w)).

(** The scope object. *)
Record Scope : Type := mkScope {
  this : nat;
  rpo_ : list Lambda;
  num_entries_ : nat;
  num_exits_ : Z;
  succs_ : option (list (list Lambda));
  preds_ : option (list (list Lambda));
  backwards_rpo_ : option (list (option Lambda))
}.

Definition with_rpo (sc : Scope) (rpo : list Lambda) : Scope :=
  mkScope (this sc) rpo (num_entries_ sc) (num_exits_ sc) (succs_ sc) (preds_ sc)
    (backwards_rpo_ sc).

(** [size()] is the size of [rpo_]; [rpo()] is [rpo_]. *)
Definition size (sc : Scope) : nat := length (rpo_ sc).
Definition rpo (sc : Scope) : list Lambda := rpo_ sc.

(** Modelled from the spec: [contains] is declared outside the available
    sources; a lambda is a member when its back pointer [scope_] is this
    scope. *)
Definition contains (sc : Scope) (l : Lambda) (h : Heap) : bool :=
  match scope_ (h l) with
  | Some s => (s =? this sc)%nat
  | None => false
  end.

(** Modelled from the spec: [insert] is declared outside the available
    sources; it marks the lambda for the pass, makes it a member and
    appends it to [rpo_]. *)
Definition insert (pass : nat) (l : Lambda) (st : Scope * Heap) : Scope * Heap :=
  let '(sc, h) := st in
  (with_rpo sc (rpo_ sc ++ [l]), set_scope l (Some (this sc)) (visit_first pass l h)).

(** [Scope::analyze], given the sequence of the [insert] calls that the
    walk over the parameter users makes. *)
Definition analyze (found : list Lambda) (sc : Scope) (w : World) : Scope * World :=
  let '(w1, pass) := new_pass w in
  let '(sc1, h1) := fold_left (fun st l => insert pass l st) found (sc, heap w1) in
  (sc1, mkWorld h1 (pass_counter w1)).

Section Graph.

(** [Lambda::succs()] and [Lambda::preds()] of the graph under analysis;
    a scope does not change them. *)
Variable lam_succs lam_preds : Lambda -> list Lambda.

Section NumberLoop.

(** The recursive call [number(forwards, pass, succ, i)]. *)
Variable rec : Lambda -> Z -> Heap -> outcome (Heap * Z).
Variable sc : Scope.
Variable pass : nat.

(** The loop "for each successor in scope". *)
Fixpoint number_succs (succs : list Lambda) (i : Z) (h : Heap) : outcome (Heap * Z) :=
  match succs with
  | [] => Done (h, i)
  | succ :: rest =>
      if contains sc succ h && negb (is_visited pass succ h)
      then do (h', i') <- rec succ i h; number_succs rest i' h'
      else number_succs rest i h
  end.

End NumberLoop.

(** [Scope::number]. *)
Fixpoint number (fuel : nat) (sc : Scope) (forwards : bool) (pass : nat)
  (cur : Lambda) (i : Z) (h : Heap) {struct fuel} : outcome (Heap * Z) :=
  match fuel with
  | O => OutOfFuel
  | S fuel' =>
      let h1 := visit_first pass cur h in
      do (h2, i2) <- number_succs (number fuel' sc forwards pass) sc pass
                       (if forwards then lam_succs cur else lam_preds cur) i h1;
      Done (set_sid cur i2 h2, wrap (i2 + 1))
  end.

(** The first loop nest of [process]: the walk from the successors of
    every entry. *)
Fixpoint number_entries (fuel : nat) (sc : Scope) (pass : nat)
  (entries : list Lambda) (num : Z) (h : Heap) : outcome (Heap * Z) :=
  match entries with
  | [] => Done (h, num)
  | entry :: rest =>
      do (h', num') <- number_succs (number fuel sc true pass) sc pass
                         (lam_succs entry) num h;
      number_entries fuel sc pass rest num' h'
  end.

(** [for (size_t i = entries.size(); i-- != 0;) entries[i]->sid_ = num++],
    over the reversed list of entries. *)
Fixpoint number_back (rev_entries : list Lambda) (num : Z) (h : Heap) : Heap * Z :=
  match rev_entries with
  | [] => (h, num)
  | e :: rest => number_back rest (wrap (num + 1)) (set_sid e num h)
  end.

(** The conversion of the postorder numbers into reverse-postorder
    numbers. *)
Definition convert (pass : nat) (num : Z) (h : Heap) (lambda : Lambda) : Heap :=
  if is_visited pass lambda h
  then set_sid lambda (wrap (num - 1 - sid_ (h lambda))) h
  else set_sid lambda size_t_bottom (set_scope lambda None h).

(** [ScopeLess]. *)
Definition ScopeLess (h : Heap) (l1 l2 : Lambda) : bool :=
  sid_ (h l1) <? sid_ (h l2).

(** [std::sort(rpo_.begin(), rpo_.end(), ScopeLess())] as an insertion
    sort.  The order among lambdas of equal [sid_] is not fixed by
    [std::sort]; [process] only keeps the part of the vector where the
    indices are pairwise different. *)
Fixpoint sort_insert (h : Heap) (x : Lambda) (l : list Lambda) : list Lambda :=
  match l with
  | [] => [x]
  | y :: r => if ScopeLess h y x then y :: sort_insert h x r else x :: y :: r
  end.

Definition sort (h : Heap) (l : list Lambda) : list Lambda :=
  fold_right (sort_insert h) [] l.

(** [Scope::process]. *)
Definition process (fuel : nat) (entries : list Lambda) (sc : Scope) (w : World)
  : outcome (Scope * World) :=
  let '(w1, pass) := new_pass w in
  let h1 := fold_left (fun h e => visit_first pass e h) entries (heap w1) in
  do (h2, num0) <- number_entries fuel sc pass entries 0 h1;
  let '(h3, num) := number_back (rev entries) num0 h2 in
  if negb (num <=? Z.of_nat (size sc)) then Fault else
  if negb (1 <=? num) then Fault else
  let h4 := fold_left (convert pass num) (rpo sc) h3 in
  let sorted := sort h4 (rpo_ sc) in
  Done (with_rpo sc (firstn (Z.to_nat num) sorted), mkWorld h4 (pass_counter w1)).

(** The constructors [Scope(Lambda* entry)] and
    [Scope(World&, ArrayRef<Lambda*>)]: [analyze], then [process]. *)
Definition Scope_new (fuel : nat) (addr : nat) (entries found : list Lambda)
  (w : World) : outcome (Scope * World) :=
  let sc0 := mkScope addr [] (length entries)
               (if (length entries =? 1)%nat then size_t_bottom else 0)
               None None None in
  let '(sc1, w1) := analyze found sc0 w in
  process fuel entries sc1 w1.

(** [Scope::~Scope]. *)
Definition Scope_delete (sc : Scope) (w : World) : World :=
  mkWorld (fold_left (fun h lambda => set_scope lambda None h) (rpo_ sc) (heap w))
          (pass_counter w).

(** The table the macro [ANYDSL2_SCOPE_SUCC_PRED] fills: slot [sid] of
    every lambda of [rpo_] takes the members among its successors
    (predecessors). *)
Definition restricted (all : Lambda -> list Lambda) (sc : Scope) (h : Heap)
  : list (list Lambda) :=
  fold_left
    (fun table lambda =>
       IR.list_set table (Z.to_nat (sid_ (h lambda)))
         (filter (fun s => contains sc s h) (all lambda)))
    (rpo_ sc) (repeat [] (size sc)).

(** [Scope::succs], memoized in [succs_]. *)
Definition succs (sc : Scope) (lambda : Lambda) (h : Heap) : outcome (Scope * list Lambda) :=
  if negb (contains sc lambda h) then Fault else
  let table := match succs_ sc with
               | Some t => t
               | None => restricted lam_succs sc h
               end in
  match nth_error table (Z.to_nat (sid_ (h lambda))) with
  | Some l => Done (mkScope (this sc) (rpo_ sc) (num_entries_ sc) (num_exits_ sc)
                      (Some table) (preds_ sc) (backwards_rpo_ sc), l)
  | None => Fault
  end.

(** [Scope::preds], memoized in [preds_]. *)
Definition preds (sc : Scope) (lambda : Lambda) (h : Heap) : outcome (Scope * list Lambda) :=
  if negb (contains sc lambda h) then Fault else
  let table := match preds_ sc with
               | Some t => t
               | None => restricted lam_preds sc h
               end in
  match nth_error table (Z.to_nat (sid_ (h lambda))) with
  | Some l => Done (mkScope (this sc) (rpo_ sc) (num_entries_ sc) (num_exits_ sc)
                      (succs_ sc) (Some table) (backwards_rpo_ sc), l)
  | None => Fault
  end.

(** The loop of [backwards_rpo] that collects the exits; [num_succs] is
    the size of [succs(lambda)]. *)
Fixpoint collect_exits (lambdas : list Lambda) (sc : Scope) (h : Heap)
  (exits : list Lambda) : outcome (Scope * list Lambda) :=
  match lambdas with
  | [] => Done (sc, exits)
  | lambda :: rest =>
      do (sc', ss) <- succs sc lambda h;
      collect_exits rest sc' h
        (if (length ss =? 0)%nat then exits ++ [lambda] else exits)
  end.

(** [Scope::backwards_rpo]: the array is allocated with [size()] slots,
    the exits are counted, and the array is returned.  The state of the
    lambdas is threaded through to show what the call leaves of it. *)
Definition backwards_rpo (sc : Scope) (w : World)
  : outcome (Scope * World * list (option Lambda)) :=
  match backwards_rpo_ sc with
  | Some a => Done (sc, w, a)
  | None =>
      let a := repeat None (size sc) in
      do (sc1, exits) <- collect_exits (rpo sc) sc (heap w) [];
      Done (mkScope (this sc1) (rpo_ sc1) (num_entries_ sc1)
              (Z.of_nat (length exits)) (succs_ sc1) (preds_ sc1) (Some a),
            w, a)
  end.

End Graph.

(** *** Vocabulary of the numbering proof *)

(** The members that the walk of pass [pass] has not reached. *)
Definition unvisited (pass : nat) (members : list Lambda) (h : Heap) : list Lambda :=
  filter (fun l => negb (is_visited pass l h)) members.

(** What a stretch of the walk does, from heap [h] and counter [i] to
    [h'] and [i']: the counter advances by the number of members newly
    reached; marks are only added; a lambda reached before keeps its
    number; a lambda newly reached is a member and takes a number of the
    stretch; and membership is left alone. *)
Record walk (pass : nat) (members : list Lambda) (h : Heap) (i : Z) (h' : Heap) (i' : Z)
  : Prop := mkWalk {
  walk_count : i <= i' /\
               Z.of_nat (length (unvisited pass members h')) + (i' - i) =
               Z.of_nat (length (unvisited pass members h));
  walk_marks : forall l, is_visited pass l h = true -> is_visited pass l h' = true;
  walk_old : forall l, is_visited pass l h = true -> sid_ (h' l) = sid_ (h l);
  walk_new : forall l, is_visited pass l h = false -> is_visited pass l h' = true ->
                       In l members /\ i <= sid_ (h' l) < i';
  walk_scope : forall l, scope_ (h' l) = scope_ (h l)
}.

(** The states on which the walk runs without wrap-around on a budget of
    [f] nested calls. *)
Definition ready (sc : Scope) (pass : nat) (members : list Lambda)
  (f : nat) (h : Heap) (i : Z) : Prop :=
  (length (unvisited pass members h) <= f)%nat /\
  (forall l, contains sc l h = true -> In l members) /\
  0 <= i /\
  i + Z.of_nat (length (unvisited pass members h)) < size_t_modulus.

(** The order that [std::sort] establishes. *)
Definition sid_le (h : Heap) (a b : Lambda) : Prop := sid_ (h a) <= sid_ (h b).

(** What a stretch of the walk does besides, when it started from the
    successors of the lambdas [owner]: the members newly reached take
    pairwise different numbers, and each of them is a successor of an
    owner or of a member newly reached that takes a greater number. *)
Record tread (lam_succs : Lambda -> list Lambda) (pass : nat) (owner : Lambda -> Prop)
  (h h' : Heap) : Prop := mkTread {
  tread_distinct : forall a b,
      is_visited pass a h = false -> is_visited pass a h' = true ->
      is_visited pass b h = false -> is_visited pass b h' = true ->
      sid_ (h' a) = sid_ (h' b) -> a = b;
  tread_parent : forall l,
      is_visited pass l h = false -> is_visited pass l h' = true ->
      exists p, In l (lam_succs p) /\
                (owner p \/
                 (is_visited pass p h = false /\ is_visited pass p h' = true /\
                  sid_ (h' l) < sid_ (h' p)))
}.

(** *** The numbering in the words of the specification *)

Section Reference.

Variable succs : Lambda -> list Lambda.
Variable members : list Lambda.

Definition among (l : Lambda) (s : list Lambda) : bool := existsb (Nat.eqb l) s.

(** The state of a depth-first traversal: the lambdas seen so far, and
    the lambdas finished, in the order in which they were finished. *)
Definition Trail : Type := (list Lambda * list Lambda)%type.

(** "Perform a depth-first postorder over successor edges restricted to
    the scope": [cur] is seen, every successor that is a member and has
    not been seen is traversed in turn, and [cur] is finished after
    them.  A member is traversed once, so that the depth of the
    traversal is bounded by the number of members; [fuel] is that
    bound. *)
Fixpoint spec_dfs (fuel : nat) (cur : Lambda) (t : Trail) : Trail :=
  match fuel with
  | O => t
  | S fuel' =>
      let t' := fold_left
                  (fun t s => if among s members && negb (among s (fst t))
                              then spec_dfs fuel' s t else t)
                  (succs cur) (cur :: fst t, snd t) in
      (fst t', snd t' ++ [cur])
  end.

Definition spec_visit (fuel : nat) (t : Trail) (s : Lambda) : Trail :=
  if among s members && negb (among s (fst t)) then spec_dfs fuel s t else t.

(** The postorder of the specification: "starting from each entry", the
    members below the entries are finished in depth-first postorder.
    "Entries always receive the lowest sids in the order they were
    presented", and a sid is [num - 1 - post]: the entries are the last of
    the postorder, the first entry the very last. *)
Definition spec_postorder (entries : list Lambda) : list Lambda :=
  let t := fold_left (fun t e => fold_left (spec_visit (length members)) (succs e) t)
             entries (entries, []) in
  snd t ++ rev entries.

(** A lambda is reachable in the scope: it is an entry, or a member that
    is a successor of a reachable lambda. *)
Inductive reaches (entries : list Lambda) : Lambda -> Prop :=
| reaches_entry e : In e entries -> reaches entries e
| reaches_succ p l :
    reaches entries p -> In l (succs p) -> In l members -> reaches entries l.

(** What a stretch of the traversal does to the trail: what was seen
    stays seen; the lambdas finished in the stretch are those newly seen,
    each of them once; and every member among the successors of a lambda
    newly seen has been seen. *)
Record extends (t t' : Trail) : Prop := mkExtends {
  extends_seen : incl (fst t) (fst t');
  extends_done : exists news, snd t' = snd t ++ news /\ NoDup news /\
                   forall x, In x news <-> In x (fst t') /\ ~ In x (fst t);
  extends_closed : forall l, In l (fst t') -> ~ In l (fst t) ->
                     forall s, In s (succs l) -> In s members -> In s (fst t')
}.

End Reference.

(** The walk of [number] in the heap [h] with the counter [i] stands
    where the traversal of the specification stands with the trail [t]:
    the members are the same, the lambdas marked are the lambdas seen,
    the counter is the number of lambdas finished, each of them carries
    its position in the order of finishing as its number, and whatever
    has been seen is a member that is reachable. *)
Record agrees (lam_succs : Lambda -> list Lambda) (sc : Scope) (pass : nat)
  (members entries : list Lambda) (h : Heap) (i : Z) (t : Trail) : Prop := mkAgrees {
  agrees_members : forall l, contains sc l h = true <-> In l members;
  agrees_seen : forall l, is_visited pass l h = true <-> In l (fst t);
  agrees_count : i = Z.of_nat (length (snd t));
  agrees_sid : forall k l, nth_error (snd t) k = Some l -> sid_ (h l) = Z.of_nat k;
  agrees_done : incl (snd t) (fst t);
  agrees_in : incl (fst t) members;
  agrees_reach : forall l, In l (fst t) -> reaches lam_succs members entries l
}.

End Scope.

(** ** Dominator trees ([analyses/domtree.cpp]) *)

Module DomTree.

Definition Lambda := nat.

(** What a [DomTree] reads of its scope.  [entries()] and [body()] are
    the two slices of [rpo()] at [num_entries()]. *)
Record ScopeView : Type := mkView {
  rpo : list Lambda;
  num_entries : nat;
  preds : Lambda -> list Lambda;
  succs : Lambda -> list Lambda;
  sid : Lambda -> Z;
  backwards_sid : Lambda -> Z;
  exits : list Lambda;
  backwards_body : list Lambda
}.

Definition size (v : ScopeView) : Z := Z.of_nat (length (rpo v)).

(** Modelled from the spec: [entries()] and [body()] are declared outside
    the available sources: "entries always receive the lowest sids", and
    the body is every non-entry lambda in RPO order. *)
Definition entries (v : ScopeView) : list Lambda := firstn (num_entries v) (rpo v).
Definition body (v : ScopeView) : list Lambda := skipn (num_entries v) (rpo v).

(** A [DomNode].  A [DomNode*] is the slot of the node in [nodes_]; a
    null pointer is [None]. *)
Record DomNode : Type := mkNode {
  lambda_ : Lambda;
  idom_ : option Z;
  children_ : list Z
}.

(** [Array<DomNode*> nodes_], of [size()] slots. *)
Definition Nodes := Z -> option DomNode.

Definition store (nodes : Nodes) (i : Z) (n : option DomNode) : Nodes :=
  fun k => if k =? i then n else nodes k.

Section Tree.

Variable v : ScopeView.
Variable forwards : bool.

(** [DomTree::index(Lambda* )]. *)
Definition index (lambda : Lambda) : Z :=
  if forwards then sid v lambda else backwards_sid v lambda.

(** [nodes_[i]], with the range check of [Array]. *)
Definition at_ (nodes : Nodes) (i : Z) : outcome (option DomNode) :=
  if (0 <=? i) && (i <? size v) then Done (nodes i) else Fault.

(** [lookup(lambda)], that is [nodes_[index(lambda)]], as the slot when
    the pointer found there is not null. *)
Definition lookup (nodes : Nodes) (lambda : Lambda) : outcome (option Z) :=
  do n <- at_ nodes (index lambda);
  Done (match n with Some _ => Some (index lambda) | None => None end).

(** Dereference of a [DomNode*]. *)
Definition deref (nodes : Nodes) (p : option Z) : outcome DomNode :=
  match p with
  | None => Fault
  | Some i => match nodes i with Some n => Done n | None => Fault end
  end.

(** [DomTree::index(DomNode* )] is [index(n->lambda())]. *)
Definition node_index (nodes : Nodes) (p : option Z) : outcome Z :=
  do n <- deref nodes p; Done (index (lambda_ n)).

Definition set_idom (nodes : Nodes) (i : Z) (n : DomNode) (d : option Z) : Nodes :=
  store nodes i (Some (mkNode (lambda_ n) d (children_ n))).

(** [DomTree::lca].  Every turn of the three [while] loops moves the
    pointer of greater index one step up; one step is one unit of fuel. *)
Fixpoint lca (fuel : nat) (nodes : Nodes) (i j : option Z) {struct fuel}
  : outcome (option Z) :=
  match fuel with
  | O => OutOfFuel
  | S fuel' =>
      do ii <- node_index nodes i;
      do ij <- node_index nodes j;
      if ii =? ij then Done i
      else if ii <? ij
           then do nj <- deref nodes j; lca fuel' nodes i (idom_ nj)
           else do ni <- deref nodes i; lca fuel' nodes (idom_ ni) j
  end.

(** "for_all (lambda, scope_.rpo()) nodes_[index(lambda)] = new DomNode(lambda)". *)
Fixpoint alloc_nodes (lambdas : list Lambda) (nodes : Nodes) : outcome Nodes :=
  match lambdas with
  | [] => Done nodes
  | lambda :: rest =>
      do _ <- at_ nodes (index lambda);
      alloc_nodes rest (store nodes (index lambda) (Some (mkNode lambda None [])))
  end.

(** "Map entries' initial idoms to themselves." *)
Fixpoint init_entries (es : list Lambda) (nodes : Nodes) : outcome Nodes :=
  match es with
  | [] => Done nodes
  | entry :: rest =>
      do p <- lookup nodes entry;
      do n <- deref nodes p;
      init_entries rest (set_idom nodes (index entry) n p)
  end.

(** The predecessors of the tree: [scope_.preds] forwards, [scope_.succs]
    backwards. *)
Definition tree_preds (lambda : Lambda) : list Lambda :=
  if forwards then preds v lambda else succs v lambda.

(** The first predecessor of smaller index. *)
Fixpoint first_dominating (lambda : Lambda) (ps : list Lambda) : option Lambda :=
  match ps with
  | [] => None
  | pred :: rest =>
      if index pred <? index lambda then Some pred else first_dominating lambda rest
  end.

(** "All others' idoms are set to their first found dominating pred";
    running off the end of the inner loop is [ANYDSL2_UNREACHABLE]. *)
Fixpoint init_body (ls : list Lambda) (nodes : Nodes) : outcome Nodes :=
  match ls with
  | [] => Done nodes
  | lambda :: rest =>
      match first_dominating lambda (tree_preds lambda) with
      | None => Fault
      | Some pred =>
          do p <- lookup nodes lambda;
          do n <- deref nodes p;
          do q <- lookup nodes pred;
          init_body rest (set_idom nodes (index lambda) n q)
      end
  end.

(** The loop that folds [lca] over the predecessors of a lambda. *)
Fixpoint new_idom_of (fuel : nat) (nodes : Nodes) (ps : list Lambda)
  (new_idom : option Z) : outcome (option Z) :=
  match ps with
  | [] => Done new_idom
  | pred :: rest =>
      do pred_node <- lookup nodes pred;
      match pred_node with
      | None => Fault
      | Some _ =>
          do n <- match new_idom with
                  | Some _ => lca fuel nodes new_idom pred_node
                  | None => Done pred_node
                  end;
          new_idom_of fuel nodes rest n
      end
  end.

Definition option_Z_eqb (a b : option Z) : bool :=
  match a, b with
  | Some x, Some y => x =? y
  | None, None => true
  | _, _ => false
  end.

(** One pass of the fixed-point loop over the body. *)
Fixpoint sweep (fuel : nat) (ls : list Lambda) (nodes : Nodes) (changed : bool)
  : outcome (Nodes * bool) :=
  match ls with
  | [] => Done (nodes, changed)
  | lambda :: rest =>
      do p <- lookup nodes lambda;
      do lambda_node <- deref nodes p;
      do new_idom <- new_idom_of fuel nodes (tree_preds lambda) None;
      match new_idom with
      | None => Fault
      | Some _ =>
          if negb (option_Z_eqb (idom_ lambda_node) new_idom)
          then sweep fuel rest (set_idom nodes (index lambda) lambda_node new_idom) true
          else sweep fuel rest nodes changed
      end
  end.

(** "for (bool changed = true; changed;)": one unit of fuel is one pass;
    the calls of [lca] in a pass run on [lca_fuel]. *)
Fixpoint iterate (fuel lca_fuel : nat) (ls : list Lambda) (nodes : Nodes)
  : outcome Nodes :=
  match fuel with
  | O => OutOfFuel
  | S fuel' =>
      do (nodes', changed) <- sweep lca_fuel ls nodes false;
      if changed then iterate fuel' lca_fuel ls nodes' else Done nodes'
  end.

(** "add children". *)
Fixpoint add_children (ls : list Lambda) (nodes : Nodes) : outcome Nodes :=
  match ls with
  | [] => Done nodes
  | lambda :: rest =>
      do p <- lookup nodes lambda;
      do n <- deref nodes p;
      do parent <- deref nodes (idom_ n);
      match idom_ n, p with
      | Some d, Some me =>
          add_children rest
            (store nodes d (Some (mkNode (lambda_ parent) (idom_ parent)
                                    (children_ parent ++ [me]))))
      | _, _ => Fault
      end
  end.

(** [DomTree::create]. *)
Definition create (fuel : nat) : outcome Nodes :=
  let roots := if forwards then entries v else exits v in
  let others := if forwards then body v else backwards_body v in
  do n1 <- alloc_nodes (rpo v) (fun _ => None);
  do n2 <- init_entries roots n1;
  do n3 <- init_body others n2;
  do n4 <- iterate fuel fuel others n3;
  add_children others n4.

(** [DomTree::idom(lambda)]: [lookup(lambda)->idom()->lambda()]. *)
Definition idom (nodes : Nodes) (lambda : Lambda) : outcome Lambda :=
  do p <- lookup nodes lambda;
  do n <- deref nodes p;
  do d <- deref nodes (idom_ n);
  Done (lambda_ d).

End Tree.

(** A path of the scope from [a] to [b]: consecutive lambdas are joined
    by an edge of the scope (the earlier one is among the scope's
    predecessors of the later one) and all of them are in [rpo()]. *)
Inductive path (v : ScopeView) : Lambda -> list Lambda -> Lambda -> Prop :=
| path_one a : In a (rpo v) -> path v a [a] a
| path_step a p b c :
    path v a p b -> In c (rpo v) -> In b (preds v c) -> path v a (p ++ [c]) c.

(** *** Vocabulary of the dominator proof *)

(** [d] is [x] or a node above [x] in the tree of the [idom_] pointers. *)
Inductive above (nodes : Nodes) (d : Z) : Z -> Prop :=
| above_self : above nodes d d
| above_idom x n y :
    nodes x = Some n -> idom_ n = Some y -> above nodes d y -> above nodes d x.

(** Every node sits in the slot of its lambda's index. *)
Definition slotted (v : ScopeView) (forwards : bool) (nodes : Nodes) : Prop :=
  forall k n, nodes k = Some n -> index v forwards (lambda_ n) = k.

(** The nodes of [nodes'] are those of [nodes], with the same lambdas. *)
Definition keeps (nodes nodes' : Nodes) : Prop :=
  forall k, match nodes k with
            | None => nodes' k = None
            | Some n => exists n', nodes' k = Some n' /\ lambda_ n' = lambda_ n
            end.

(** *** Vocabulary of the termination proof *)

(** The sid of every lambda of [rpo()] is its position there. *)
Definition numbered (v : ScopeView) : Prop :=
  forall i l, nth_error (rpo v) i = Some l -> sid v l = Z.of_nat i.

(** The slot that the [idom_] pointer of slot [k] points to. *)
Definition idom_at (nodes : Nodes) (k : Z) : Z :=
  match nodes k with
  | Some n => match idom_ n with Some d => d | None => 0 end
  | None => 0
  end.

(** Every lambda of [rpo()] has its node, whose [idom_] points to a slot
    of smaller index, or to itself in slot 0. *)
Definition rooted (v : ScopeView) (nodes : Nodes) : Prop :=
  forall l, In l (rpo v) ->
    exists n d, nodes (sid v l) = Some n /\ lambda_ n = l /\ idom_ n = Some d /\
                0 <= d /\ (d < sid v l \/ (d = 0 /\ sid v l = 0)).

(** The measure that every change of the fixed-point loop lowers. *)
Definition weight (v : ScopeView) (nodes : Nodes) : nat :=
  list_sum (map (fun i => Z.to_nat (idom_at nodes (Z.of_nat i)))
                (seq 0 (length (rpo v)))).

(** Whatever is above all the predecessors of a body lambda is above the
    lambda. *)
Definition meets_above (v : ScopeView) (nodes : Nodes) : Prop :=
  forall l, In l (body v) ->
    forall d, (forall p, In p (preds v l) -> above nodes d (sid v p)) ->
              above nodes d (sid v l).

(** While the sweep stands at slot [pos]: every body lambda has a
    predecessor of smaller index that lies below whatever is above the
    lambda's [idom_]; for a lambda that the sweep has yet to reach, as far
    as the slots from [pos] on are concerned. *)
Definition anchored (v : ScopeView) (nodes : Nodes) (pos : Z) : Prop :=
  forall l, In l (body v) ->
    exists p, In p (preds v l) /\ sid v p < sid v l /\
      forall a, above nodes a (idom_at nodes (sid v l)) ->
                sid v l < pos \/ pos <= a ->
                above nodes a (sid v p).

(** Every lambda of [rpo()] has its node. *)
Definition owned (v : ScopeView) (nodes : Nodes) : Prop :=
  forall l, In l (rpo v) -> exists n, nodes (sid v l) = Some n /\ lambda_ n = l.

(** Every slot holds a node whose [idom_] is a slot. *)
Definition linked (v : ScopeView) (nodes : Nodes) : Prop :=
  forall k, 0 <= k < size v ->
    exists n d, nodes k = Some n /\ idom_ n = Some d /\ 0 <= d < size v.

(** *** The queries of a tree *)

(** [DomNode::entry()]: the node is its own [idom_]. *)
Definition entry (i : option Z) (n : DomNode) : bool := option_Z_eqb (idom_ n) i.

Definition INT_MAX : Z := 2147483647.

(** [DomNode::depth]: one turn of the loop is one unit of fuel; the
    counter is an [int], whose overflow is a fault. *)
Fixpoint depth_from (fuel : nat) (nodes : Nodes) (i : option Z) (result : Z)
  {struct fuel} : outcome Z :=
  match fuel with
  | O => OutOfFuel
  | S fuel' =>
      do n <- deref nodes i;
      if entry i n then Done result
      else if result <? INT_MAX
           then depth_from fuel' nodes (idom_ n) (result + 1)
           else Fault
  end.

(** [DomTree::depth(lambda)] is [node(lambda)->depth()]. *)
Definition depth (v : ScopeView) (forwards : bool) (fuel : nat) (nodes : Nodes)
  (lambda : Lambda) : outcome Z :=
  do p <- lookup v forwards nodes lambda;
  depth_from fuel nodes p 0.

(** [DomTree::lca(Lambda*, Lambda* )] is
    [lca(lookup(i), lookup(j))->lambda()]. *)
Definition lca_lambda (v : ScopeView) (forwards : bool) (fuel : nat) (nodes : Nodes)
  (i j : Lambda) : outcome Lambda :=
  do pi <- lookup v forwards nodes i;
  do pj <- lookup v forwards nodes j;
  do c <- lca v forwards fuel nodes pi pj;
  do n <- deref nodes c;
  Done (lambda_ n).

(** *** Vocabulary of the shape of a tree *)

(** No node has a child yet. *)
Definition childless (nodes : Nodes) : Prop :=
  forall k n, nodes k = Some n -> children_ n = [].

(** [t] has the nodes of [nodes], with the same lambdas and [idom_]s. *)
Definition same_tree (nodes t : Nodes) : Prop :=
  forall k, match nodes k with
            | None => t k = None
            | Some n => exists n', t k = Some n' /\ lambda_ n' = lambda_ n /\
                                   idom_ n' = idom_ n
            end.

(** The body lambdas whose [idom_] is the slot [k], as slots. *)
Definition children_of (v : ScopeView) (nodes : Nodes) (ls : list Lambda) (k : Z)
  : list Z :=
  map (sid v) (filter (fun l => idom_at nodes (sid v l) =? k) ls).

(** What [create] leaves on a scope with one entry: a tree on the slots,
    in which the [idom_] of a body lambda is the deepest node above all
    its predecessors, and the children of a node are the body lambdas
    that point to it. *)
Definition shaped (v : ScopeView) (t : Nodes) : Prop :=
  slotted v true t /\ rooted v t /\
  (forall l, In l (body v) ->
     (forall q, In q (preds v l) -> above t (idom_at t (sid v l)) (sid v q)) /\
     (forall d, (forall q, In q (preds v l) -> above t d (sid v q)) ->
                above t d (idom_at t (sid v l)))) /\
  (forall k n, t k = Some n -> children_ n = children_of v t (body v) k).

(** The view [v] is the one a [DomTree] takes of the scope [sc] in the
    heap [h], over a graph whose predecessor lists are [lam_preds]:
    [rpo()] and [num_entries()] are the scope's, [preds(l)] is what
    [Scope::preds] returns, the members among the predecessors, and
    [sid] is read from the lambda. *)
Definition views (lam_preds : Lambda -> list Lambda) (v : ScopeView)
  (sc : Scope.Scope) (h : Scope.Heap) : Prop :=
  rpo v = Scope.rpo sc /\
  num_entries v = Scope.num_entries_ sc /\
  (forall l, preds v l = filter (fun p => Scope.contains sc p h) (lam_preds l)) /\
  (forall l, sid v l = Scope.sid_ (h l)).

End DomTree.

(** ** The mangler ([analyses/scope.cpp]) *)

Module Mangler.
Import IR.

(** The fields of a [Mangler] that do not change during a run. *)
Record Mangler : Type := mkMangler {
  scope_rpo : list nat;
  scope_contains : nat -> bool;
  to_drop : list nat;
  drop_with : list Def;
  to_lift : list Def;
  oentry : nat;
  nentry : nat
}.

(** The mutable part: the world, and the marks of the pass with their
    payload pointers [cptr], as an association from old to new. *)
Record State : Type := mkState {
  world : World;
  marks : list (Def * Def)
}.

(** [def->is_visited(pass)] with [lookup(def)]. *)
Fixpoint lookup (marks : list (Def * Def)) (def : Def) : option Def :=
  match marks with
  | [] => None
  | (o, n) :: rest => if Def_eqb o def then Some n else lookup rest def
  end.

(** [Mangler::map]. *)
Definition map_to (def to : Def) (st : State) : Def * State :=
  (to, mkState (world st) ((def, to) :: marks st)).

(** Modelled from the spec: [World::lambda] is defined outside the
    available sources; it creates an unsealed, unterminated lambda of the
    given type with a fresh gid, which is its own parent. *)
Definition new_lambda (pi : list Ty) (w : World) : World * nat :=
  let g := length (lambdas w) in
  (IR.mkWorld (lambdas w ++ [mkLambda [] pi (Some g) false false [] []]) (cerr w), g).

(** Modelled from the spec: [Array::cut] is defined outside the available
    sources; the result is the array without the elements at the given
    indices ("args \ dropped"). *)
Fixpoint cut_from {A : Type} (i : nat) (l : list A) (indices : list nat) : list A :=
  match l with
  | [] => []
  | x :: r =>
      if existsb (Nat.eqb i) indices then cut_from (S i) r indices
      else x :: cut_from (S i) r indices
  end.

Definition cut {A : Type} (l : list A) (indices : list nat) : list A :=
  cut_from 0 l indices.

(** Modelled from the spec: [World::select] is defined outside the
    available sources: "if [cond] is a known boolean literal, return [t] or
    [f] directly; otherwise intern a Select node". *)
Definition select (cond t f : Def) : Def :=
  match cond with
  | DPrimLit _ b => if Z.testbit b 0 then t else f
  | _ => DSelect cond t f
  end.

Section Mangle.

(** [Pi::specialize(generic_map)] on the elements of a function type,
    [Def::type], and [World::rebuild]: the collaborators of the mangler in
    the type system and the world. *)
Variable specialize : list Ty -> list Ty.
Variable type_of : Def -> Ty.
Variable rebuild : Def -> list Def -> Def.

Variable m : Mangler.

(** [Lambda::stub]. *)
Definition stub (olambda : nat) (w : World) : outcome (World * nat) :=
  do r <- get_lambda w olambda;
  Done (new_lambda (specialize (pi_ r)) w).

(** The loop [for_all2] of [mangle_head] over the two parameter lists. *)
Fixpoint map_params (olambda nlambda : nat) (i n : nat) (st : State) : State :=
  match n with
  | O => st
  | S n' => map_params olambda nlambda (S i) n'
              (snd (map_to (DParam olambda i) (DParam nlambda i) st))
  end.

(** [Mangler::mangle_head]. *)
Definition mangle_head (olambda : nat) (st : State) : outcome (Def * State) :=
  do (w, nlambda) <- stub olambda (world st);
  do r <- get_lambda w olambda;
  do nr <- get_lambda w nlambda;
  let (_, st1) := map_to (DLambda olambda) (DLambda nlambda) (mkState w (marks st)) in
  Done (DLambda nlambda,
        map_params olambda nlambda 0 (Nat.min (length (pi_ r)) (length (pi_ nr))) st1).

Definition list_Def_eqb (a b : list Def) : bool :=
  (length a =? length b)%nat && forallb (fun p => Def_eqb (fst p) (snd p)) (combine a b).

(** [Mangler::mangle(const Def* )]. *)
Fixpoint mangle (odef : Def) (st : State) {struct odef} : outcome (Def * State) :=
  match lookup (marks st) odef with
  | Some n => Done (n, st)
  | None =>
      match odef with
      | DLambda olambda =>
          if scope_contains m olambda then mangle_head olambda st
          else Done (map_to odef odef st)
      | DParam _ _ => Done (map_to odef odef st)
      | DSelect c t f =>
          do (c', st1) <- mangle c st;
          do (t', st2) <- mangle t st1;
          do (f', st3) <- mangle f st2;
          let nops := [c'; t'; f'] in
          let is_new := negb (list_Def_eqb nops [c; t; f]) in
          Done (map_to odef (if is_new then rebuild odef nops else odef) st3)
      | DPrimOp _ _ ops =>
          do (nops, st1) <-
             (fix mangle_ops (ops : list Def) (st : State) {struct ops}
                : outcome (list Def * State) :=
                match ops with
                | [] => Done ([], st)
                | o :: rest =>
                    do (n, st1) <- mangle o st;
                    do (ns, st2) <- mangle_ops rest st1;
                    Done (n :: ns, st2)
                end) ops st;
          let is_new := negb (list_Def_eqb nops ops) in
          Done (map_to odef (if is_new then rebuild odef nops else odef) st1)
      | DBottom _ | DPrimLit _ _ => Done (map_to odef odef st)
      end
  end.

(** The loop of [mangle_body] over the arguments. *)
Fixpoint mangle_args (args : list (option Def)) (st : State)
  : outcome (list Def * State) :=
  match args with
  | [] => Done ([], st)
  | None :: _ => Fault
  | Some a :: rest =>
      do (n, st1) <- mangle a st;
      do (ns, st2) <- mangle_args rest st1;
      Done (n :: ns, st2)
  end.

(** "fold branch if possible". *)
Definition mangle_to (to : Def) (st : State) : outcome (Def * State) :=
  match to with
  | DSelect c t f =>
      do (cond, st1) <- mangle c st;
      match cond with
      | DPrimLit _ b => mangle (if Z.testbit b 0 then t else f) st1
      | _ =>
          do (t', st2) <- mangle t st1;
          do (f', st3) <- mangle f st2;
          Done (select cond t' f', st3)
      end
  | _ => mangle to st
  end.

(** The first half of [mangle_body]: the array [ops] of the rewritten
    operands of [olambda]. *)
Definition rewritten_ops (olambda : nat) (st : State) : outcome (list Def * State) :=
  do r <- get_lambda (world st) olambda;
  match ops_ r with
  | [] => Fault
  | to :: args =>
      do (nargs, st1) <- mangle_args args st;
      match to with
      | None => Fault
      | Some t => do (ntarget, st2) <- mangle_to t st1; Done (ntarget :: nargs, st2)
      end
  end.

(** The loop "for (i = 0; i != e && substitute; ++i)
    substitute &= nargs[to_drop[i]] == drop_with[i]". *)
Fixpoint substitute_loop (nargs : list Def) (to_drop : list nat) (drop_with : list Def)
  : outcome bool :=
  match to_drop with
  | [] => Done true
  | d :: rest =>
      match nth_error nargs d, drop_with with
      | Some a, w :: ws =>
          if Def_eqb a w then substitute_loop nargs rest ws else Done false
      | _, _ => Fault
      end
  end.

(** The dropped arguments are the dropped constants. *)
Definition dropped_match (nargs : list Def) (to_drop : list nat) (drop_with : list Def)
  : Prop :=
  Forall2 (fun i c => nth_error nargs i = Some c) to_drop drop_with.

(** The second half of [mangle_body]: "check whether we can optimize tail
    recursion", and the jump. *)
Definition jump_rewritten (nlambda : nat) (ops : list Def) (st : State) : outcome State :=
  match ops with
  | [] => Fault
  | ntarget :: nargs =>
      do substitute <-
         (if Def_eqb ntarget (DLambda (oentry m))
          then substitute_loop nargs (to_drop m) (drop_with m)
          else Done false);
      do w <- (if substitute
               then jump nlambda (DLambda (nentry m)) (cut nargs (to_drop m)) (world st)
               else jump nlambda ntarget nargs (world st));
      Done (mkState w (marks st))
  end.

(** [Mangler::mangle_body]. *)
Definition mangle_body (olambda nlambda : nat) (st : State) : outcome State :=
  do (ops, st1) <- rewritten_ops olambda st;
  jump_rewritten nlambda ops st1.

(** The loop of [mangle()] over the body of the scope. *)
Fixpoint mangle_bodies (curs : list nat) (st : State) : outcome State :=
  match curs with
  | [] => Done st
  | cur :: rest =>
      match lookup (marks st) (DLambda cur) with
      | Some (DLambda n) => do st1 <- mangle_body cur n st; mangle_bodies rest st1
      | Some _ => Fault
      | None => mangle_bodies rest st
      end
  end.

End Mangle.

(** The loop of [mangle()] that maps the parameters of the old entry:
    [op] runs over the old parameters, [np] over the new ones and the
    dropped indices are consumed in order. *)
Fixpoint map_entry_params (oentry nentry : nat) (n op np : nat)
  (to_drop : list nat) (drop_with : list Def) (st : State) : outcome State :=
  match n with
  | O => Done st
  | S n' =>
      match to_drop with
      | d :: ds =>
          if (d =? op)%nat
          then match drop_with with
               | w :: ws => map_entry_params oentry nentry n' (S op) np ds ws
                              (snd (map_to (DParam oentry op) w st))
               | [] => Fault
               end
          else map_entry_params oentry nentry n' (S op) (S np) to_drop drop_with
                 (snd (map_to (DParam oentry op) (DParam nentry np) st))
      | [] => map_entry_params oentry nentry n' (S op) (S np) to_drop drop_with
                (snd (map_to (DParam oentry op) (DParam nentry np) st))
      end
  end.

(** The loop of [mangle()] that maps the lifted definitions. *)
Fixpoint map_lifted (nentry : nat) (i : nat) (to_lift : list Def) (st : State) : State :=
  match to_lift with
  | [] => st
  | d :: rest => map_lifted nentry (S i) rest (snd (map_to d (DParam nentry i) st))
  end.

(** [Mangler::mangle()], for a scope of entry [entry]. *)
Definition mangle_scope (specialize : list Ty -> list Ty) (type_of : Def -> Ty)
  (rebuild : Def -> list Def -> Def)
  (rpo : list nat) (contains : nat -> bool) (drop : list nat) (with_ : list Def)
  (lift : list Def) (w : World) : outcome (State * nat) :=
  match rpo with
  | [] => Fault
  | entry :: body =>
      do r <- get_lambda w entry;
      let o_elems := pi_ r in
      let nelems := cut o_elems drop ++ map type_of lift in
      let offset := (length o_elems - length drop)%nat in
      let (w1, n) := new_lambda (specialize nelems) w in
      let m := mkMangler rpo contains drop with_ lift entry n in
      do st1 <- map_entry_params entry n (length o_elems) 0 0 drop with_ (mkState w1 []);
      let st2 := map_lifted n offset lift st1 in
      let (_, st3) := map_to (DLambda entry) (DLambda entry) st2 in
      do st4 <- mangle_body specialize rebuild m entry n st3;
      do st5 <- mangle_bodies specialize rebuild m body st4;
      Done (st5, n)
  end.

(** *** Vocabulary of the mangler's invariants *)

(** A lambda as [Lambda::stub] leaves it: unterminated, unsealed, without
    values or todos. *)
Definition is_stub (r : Lambda) : Prop :=
  ops_ r = [] /\ is_sealed_ r = false /\ tracked_values_ r = [] /\ todos_ r = [].

(** The position of [k] in [l]. *)
Fixpoint position (k : nat) (l : list nat) : option nat :=
  match l with
  | [] => None
  | d :: ds => if (d =? k)%nat then Some O
               else match position k ds with
                    | Some i => Some (S i)
                    | None => None
                    end
  end.

(** What the old parameter [op] of the entry stands for in the new
    entry: the constant it is dropped with, or the new parameter whose
    index is [op] less the number of dropped indices below it. *)
Definition entry_param (nentry : nat) (to_drop : list nat) (drop_with : list Def)
  (op : nat) : option Def :=
  match position op to_drop with
  | Some i => nth_error drop_with i
  | None => Some (DParam nentry (op - length (filter (fun d => d <? op)%nat to_drop)))
  end.

(** The frame of [mangle]: marks are only added, and the world grows by
    stubs. *)
Definition grows (st st' : State) : Prop :=
  (forall d, lookup (marks st) d <> None -> lookup (marks st') d <> None) /\
  exists more, lambdas (world st') = lambdas (world st) ++ more /\
               Forall is_stub more /\
               cerr (world st') = cerr (world st).

End Mangler.

(** ** The pass manager ([thorin/pass/pass.h]) *)

Module PassMgr.

(** A [Def*], by address. *)
Definition Def := nat.

(** [Def2Def], a hash map from definitions to definitions: what [find]
    gives for every key. *)
Definition Def2Def := Def -> option Def.

(** [old2new.emplace(k, v)]: the pair is inserted unless the key is
    there. *)
Definition emplace (m : Def2Def) (k v : Def) : Def2Def :=
  match m k with
  | Some _ => m
  | None => fun x => if (x =? k)%nat then Some v else m x
  end.

(** [i->second = v], for the iterator [i] at key [k]. *)
Definition assign (m : Def2Def) (k v : Def) : Def2Def :=
  fun x => if (x =? k)%nat then Some v else m x.

(** The private [lookup(old2new, i)], for the iterator [i] at key [k]:
    "path compression + transitive replacements".  One nested call is one
    unit of fuel. *)
Fixpoint lookup_at (fuel : nat) (m : Def2Def) (k : Def) {struct fuel}
  : outcome (Def2Def * Def) :=
  match fuel with
  | O => OutOfFuel
  | S fuel' =>
      match m k with
      | None => Fault
      | Some second =>
          match m second with
          | Some _ =>
              if negb (second =? k)%nat
              then do (m', r) <- lookup_at fuel' m second; Done (assign m' k r, r)
              else Done (m, second)
          | None => Done (m, second)
          end
      end
  end.

(** [PassMgr::State]. *)
Record State : Type := mkState {
  queue : list Def;
  old2new : Def2Def;
  analyzed : Def -> bool;
  nominal : option Def;
  old_ops : list Def
}.

(** [State() = default]. *)
Definition State_default : State :=
  mkState [] (fun _ => None) (fun _ => false) None [].

(** [State(prev, nominal, old_ops)]. *)
Definition State_next (prev : State) (nominal : Def) (old_ops : list Def) : State :=
  mkState (queue prev) (old2new prev) (analyzed prev) (Some nominal) old_ops.

Definition with_old2new (s : State) (m : Def2Def) : State :=
  mkState (queue s) m (analyzed s) (nominal s) (old_ops s).

Section Passes.

(** A registered [Pass], as the state it keeps, and its [new_state]. *)
Variable Pass : Type.
Variable pass_new_state : Pass -> Pass.

(** [PassMgr]; the back of the deque [states_] is the last element. *)
Record PassMgr : Type := mkMgr {
  passes_ : list Pass;
  states_ : list State;
  cur_nominal_ : option Def;
  undo_ : Z
}.

(** [No_Undo] is [std::numeric_limits<size_t>::max()]. *)
Definition No_Undo : Z := size_t_bottom.

(** The constructor: "states_.emplace_back()". *)
Definition PassMgr_new : PassMgr := mkMgr [] [State_default] None No_Undo.

(** [undo(u)]. *)
Definition undo (u : Z) (mgr : PassMgr) : PassMgr :=
  mkMgr (passes_ mgr) (states_ mgr) (cur_nominal_ mgr) (Z.min (undo_ mgr) u).

Definition num_states (mgr : PassMgr) : nat := length (states_ mgr).

(** [cur_state()]: "assert(!states_.empty()); return states_.back()". *)
Definition cur_state (mgr : PassMgr) : outcome State :=
  match rev (states_ mgr) with
  | [] => Fault
  | s :: _ => Done s
  end.

(** An assignment through the reference that [cur_state()] returns. *)
Definition set_cur_state (mgr : PassMgr) (s : State) : PassMgr :=
  mkMgr (passes_ mgr) (removelast (states_ mgr) ++ [s]) (cur_nominal_ mgr) (undo_ mgr).

(** The public [lookup(old_def)]. *)
Definition lookup (fuel : nat) (old_def : Def) (mgr : PassMgr)
  : outcome (PassMgr * option Def) :=
  do s <- cur_state mgr;
  match old2new s old_def with
  | Some _ =>
      do (m, r) <- lookup_at fuel (old2new s) old_def;
      Done (set_cur_state mgr (with_old2new s m), Some r)
  | None => Done (mgr, None)
  end.

(** [map(old_def, new_def)]. *)
Definition map (old_def new_def : Def) (mgr : PassMgr) : outcome (PassMgr * Def) :=
  do s <- cur_state mgr;
  Done (set_cur_state mgr (with_old2new s (emplace (old2new s) old_def new_def)), new_def).

(** [new_state(nominal, old_ops)]. *)
Definition new_state (nominal : Def) (old_ops : list Def) (mgr : PassMgr)
  : outcome PassMgr :=
  let passes := List.map pass_new_state (passes_ mgr) in
  do s <- cur_state mgr;
  Done (mkMgr passes (states_ mgr ++ [State_next s nominal old_ops])
          (cur_nominal_ mgr) (undo_ mgr)).

End Passes.

(** The chain of replacements from the key [k] ends in [r]: [k] maps to
    [r], which is no key or is [k] itself, or [k] maps to another key
    whose chain ends in [r]. *)
Inductive resolves (m : Def2Def) : Def -> Def -> Prop :=
| resolves_stop k v :
    m k = Some v -> m v = None \/ v = k -> resolves m k v
| resolves_step k v r :
    m k = Some v -> m v <> None -> v <> k -> resolves m v r -> resolves m k r.

End PassMgr.

(** ** Uses and their order ([thorin/def.h]) *)

Module UseOrder.

(** What the order reads of a [DefNode]: its gid. *)
Record DefNode : Type := mkDefNode {
  gid : Z
}.

(** [Use]: "a Def u which uses Def d as i^th operand is a Use with index_
    i of Def d". *)
Record Use : Type := mkUse {
  index_ : Z;
  def_ : DefNode
}.

(** [UseLT::operator()]. *)
Definition UseLT (use1 use2 : Use) : bool :=
  let gid1 := gid (def_ use1) in
  let gid2 := gid (def_ use2) in
  (gid1 <? gid2) || ((gid1 =? gid2) && (index_ use1 <? index_ use2)).

(** [GIDHash] and [GIDEq]. *)
Definition GIDHash (n : DefNode) : Z := gid n.
Definition GIDEq (n1 n2 : DefNode) : bool := gid n1 =? gid n2.

End UseOrder.

(** * Concrete inputs *)

Module Examples.

(** ** CFF lowering *)

Section CFFInputs.
Import CFF.

(** A higher-order lambda that is not a scope entry, called in the global
    phase from a scope that does not contain it. *)
Definition inner_higher_order : Lambda := mkLambda 7 2 false false.
Definition other_scope : Scope := mkScope (fun _ => false) (fun _ => false).

End CFFInputs.

(** ** SSA construction *)

Section SSAInputs.
Import IR.

(** A world with one sealed head lambda and an empty value table. *)
Definition lone_head : Lambda := mkLambda [] [] (Some 0%nat) true false [] [].
Definition lone_world : World := mkWorld [lone_head] [].

Definition seven : Def := DPrimLit 0%nat 7.

(** A lambda [L] (gid 0) with one parameter [p], entered from [P1] (gid 1)
    with the literal 7; [U] (gid 2) passes [p] on to [T] (gid 3), whose
    parameter [q] takes it; [T] passes [q] to [X] (gid 4), which calls
    its own parameter. *)
Definition p_of_L : Def := DParam 0 0.
Definition q_of_T : Def := DParam 3 0.
Definition chain_world : World :=
  mkWorld
    [ mkLambda [Some (DLambda 2)] [0%nat] (Some 0%nat) true false [] [];
      mkLambda [Some (DLambda 0); Some seven] [] (Some 1%nat) true false [] [];
      mkLambda [Some (DLambda 3); Some p_of_L] [] (Some 2%nat) true false [] [];
      mkLambda [Some (DLambda 4); Some q_of_T] [0%nat] (Some 3%nat) true false [] [];
      mkLambda [Some (DParam 4 0)] [0%nat] (Some 4%nat) true false [] [] ]
    [].

(** The same lambda [L] entered from [P1] with 7 and from [P2] (gid 2)
    with 8. *)
Definition eight : Def := DPrimLit 0%nat 8.
Definition join_world : World :=
  mkWorld
    [ mkLambda [] [0%nat] (Some 0%nat) true false [] [];
      mkLambda [Some (DLambda 0); Some seven] [] (Some 1%nat) true false [] [];
      mkLambda [Some (DLambda 0); Some eight] [] (Some 2%nat) true false [] [] ]
    [].

(** A run in which a vector of pointers grows to [2^60 - 1] slots at
    most. *)
Definition test_memory : SSA.Memory := SSA.mkMemory (2 ^ 60 - 1).

(** A run in which the literals are made first, a lambda is made a
    hundred definitions after the lambda before it, its parameters right
    after it, and every other node after its operands. *)
Fixpoint test_gid (d : Def) : nat :=
  match d with
  | DLambda g => 100 * S g
  | DParam l i => 100 * S l + S i
  | DSelect c t f => S (Nat.max (test_gid c) (Nat.max (test_gid t) (test_gid f)))
  | DPrimOp _ _ ops => S (fold_right (fun o n => Nat.max (test_gid o) n) 0%nat ops)
  | _ => 0%nat
  end.

Definition test_gids : Gids :=
  mkGids test_gid ltac:(intros a b H; cbn [test_gid]; lia).

End SSAInputs.

(** ** Mangling *)

Section ManglerInputs.
Import IR Mangler.

(** A rebuild that interns the node of the same kind and type over the
    new operands, without folding. *)
Definition plain_rebuild (d : Def) (nops : list Def) : Def :=
  match d, nops with
  | DPrimOp k t _, _ => DPrimOp k t nops
  | DSelect _ _ _, [c; t; f] => DSelect c t f
  | _, _ => d
  end.

(** A loop [F(x, n) = F(x, n - 1)] (gid 0), to be specialised for
    [x = 7] into the new entry [F'] (gid 1). *)
Definition n_minus_1 (n : Def) : Def := DPrimOp 3 0%nat [n; DPrimLit 0%nat 1].
Definition loop_F : Lambda :=
  mkLambda [Some (DLambda 0); Some (DParam 0 0); Some (n_minus_1 (DParam 0 1))]
    [0%nat; 0%nat] (Some 0%nat) true false [] [].
Definition loop_world : World := mkWorld [loop_F] [].
Definition loop_mangler : Mangler :=
  mkMangler [0%nat] (fun l => (l =? 0)%nat) [0%nat] [seven] [] 0 1.
Definition loop_state : State :=
  mkState (fst (new_lambda [0%nat] loop_world))
    [ (DLambda 0, DLambda 0); (DParam 0 1, DParam 1 0); (DParam 0 0, seven) ].

(** The same loop when the recursive call passes 8 for [x]. *)
Definition loop_F8 : Lambda :=
  mkLambda [Some (DLambda 0); Some eight; Some (n_minus_1 (DParam 0 1))]
    [0%nat; 0%nat] (Some 0%nat) true false [] [].
Definition loop_state8 : State :=
  mkState (fst (new_lambda [0%nat] (mkWorld [loop_F8] [])))
    [ (DLambda 0, DLambda 0); (DParam 0 1, DParam 1 0); (DParam 0 0, seven) ].

(** The terminator that [mangle_body] gives the new lambda. *)
Definition new_terminator (st : State) (olambda nlambda : nat)
  : outcome (list (option Def)) :=
  do st' <- mangle_body (fun t => t) plain_rebuild loop_mangler olambda nlambda st;
  do r <- get_lambda (world st') nlambda;
  Done (ops_ r).

End ManglerInputs.

(** ** Scopes *)

Section ScopeInputs.
Import Scope.

(** A world of fresh lambdas, and a graph without edges. *)
Definition fresh_world : World := mkWorld (fun _ => fresh_fields) 0.
Definition no_edges : Lambda -> list Lambda := fun _ => [].

(** The diamond [A -> {B, C} -> D] (gids 0 to 3), and a lambda [E]
    (gid 4) that uses a parameter of the scope without being reachable
    from [A]. *)
Definition diamond_succs (l : Lambda) : list Lambda :=
  match l with
  | 0%nat => [1%nat; 2%nat]
  | 1%nat => [3%nat]
  | 2%nat => [3%nat]
  | _ => []
  end.
Definition diamond_preds (l : Lambda) : list Lambda :=
  match l with
  | 1%nat => [0%nat]
  | 2%nat => [0%nat]
  | 3%nat => [1%nat; 2%nat]
  | _ => []
  end.

(** Two lambdas [E0] and [E1] (gids 0 and 1) that both jump to [L]
    (gid 2). *)
Definition join_succs (l : Lambda) : list Lambda :=
  match l with
  | 0%nat => [2%nat]
  | 1%nat => [2%nat]
  | _ => []
  end.
Definition join_preds (l : Lambda) : list Lambda :=
  match l with
  | 2%nat => [0%nat; 1%nat]
  | _ => []
  end.

(** The scope object between [analyze] and [process]. *)
Definition analyzed (addr : nat) (entries found : list Lambda) (w : World)
  : Scope * World :=
  analyze found
    (mkScope addr [] (length entries)
       (if (length entries =? 1)%nat then size_t_bottom else 0) None None None) w.

(** The diamond with the stray member [E]: the members as [analyze]
    inserted them, before [process]. *)
Definition diamond_analyzed : Scope * World :=
  analyzed 1 [0%nat] [0; 3; 1; 4; 2]%nat fresh_world.

End ScopeInputs.

(** ** Dominator trees *)

Section DomInputs.
Import DomTree.

(** The view of the scope of the two entries [E0], [E1] and the lambda
    [L] that both jump to. *)
Definition two_entries : ScopeView :=
  mkView [0; 1; 2]%nat 2 join_preds join_succs
    (fun l => if (l <? 3)%nat then Z.of_nat l else size_t_bottom)
    (fun _ => size_t_bottom) [] [].

Definition diamond_view : ScopeView :=
  mkView [0; 2; 1; 3]%nat 1 diamond_preds diamond_succs
    (fun l => match l with
              | 0%nat => 0 | 2%nat => 1 | 1%nat => 2 | 3%nat => 3
              | _ => size_t_bottom
              end)
    (fun _ => size_t_bottom) [] [].

End DomInputs.

(** ** The pass manager *)

Section PassInputs.
Import PassMgr.

(** The replacements 1 -> 2 -> 3, and the cycle 5 -> 6 -> 5. *)
Definition chain_map : Def2Def :=
  fun k => match k with
           | 1%nat => Some 2%nat
           | 2%nat => Some 3%nat
           | 5%nat => Some 6%nat
           | 6%nat => Some 5%nat
           | _ => None
           end.

Definition chain_state : State := mkState [] chain_map (fun _ => false) None [].

Definition chain_mgr : PassMgr unit := mkMgr unit [] [chain_state] None No_Undo.

End PassInputs.

(** ** More inputs of the SSA construction *)

Section OpenInputs.
Import IR.

(** An unsealed head lambda [L] (gid 0) without parameters or values, and
    a sealed lambda [P] (gid 1) that jumps to [L] and holds 7 under
    handle 0. *)
Definition open_world : World :=
  mkWorld
    [ mkLambda [] [] (Some 0%nat) false false [] [];
      mkLambda [Some (DLambda 0)] [] (Some 1%nat) true false [Some seven] [] ]
    [].

(** The same world after handle 0 has been read in [L]: the parameter
    stands for the value, and the todo is pending. *)
Definition pending_world : World :=
  mkWorld
    [ mkLambda [] [5%nat] (Some 0%nat) false false [Some (DParam 0 0)]
        [mkTodo 0 0 5%nat "x"];
      mkLambda [Some (DLambda 0)] [] (Some 1%nat) true false [Some seven] [] ]
    [].

End OpenInputs.

(** ** The diamond as a scope *)

Section ProcessedInputs.
Import Scope.

(** The scope of the diamond after [process], and the world it leaves. *)
Definition diamond_processed : Scope * World :=
  match process diamond_succs diamond_preds 5 [0%nat]
          (fst diamond_analyzed) (snd diamond_analyzed) with
  | Done p => p
  | _ => diamond_analyzed
  end.

End ProcessedInputs.

End Examples.

(** * Properties *)

(** ** Machine words *)

Lemma size_t_bottom_eq : size_t_bottom = 18446744073709551615.
Proof. reflexivity. Qed.

Lemma wrap_small (x : Z) : 0 <= x < size_t_modulus -> wrap x = x.
Proof. intros H. unfold wrap. now apply Z.mod_small. Qed.

Lemma wrap_range (x : Z) : 0 <= wrap x < size_t_modulus.
Proof. unfold wrap. apply Z.mod_pos_bound. reflexivity. Qed.

(** ** Literals *)

Section LiteralFacts.
Import Literal.

Lemma PrimLit_equal_iff (a b : PrimLit) :
  PrimLit_equal a b = true <->
  Literal_equal a b = true /\ bcast_u64 (box a) = bcast_u64 (box b).
Proof.
  unfold PrimLit_equal, Box_eqb.
  destruct (Literal_equal a b); simpl.
  - rewrite Z.eqb_eq. tauto.
  - split; [discriminate | intros [H _]; discriminate].
Qed.

Lemma literal_keeps_bits (world : list PrimLit) (l : PrimLit) :
  bcast_u64 (box (snd (literal world l))) = bcast_u64 (box l).
Proof.
  unfold literal. destruct (find (PrimLit_equal l) world) as [r|] eqn:E; simpl.
  - apply find_some in E. destruct E as [_ E].
    apply PrimLit_equal_iff in E. symmetry. apply E.
  - reflexivity.
Qed.

(** C9: two [PrimLit] nodes are equal exactly when they are base-equal
    (same kind and type) and their payloads are bit-identical; the hash
    of a [PrimLit] is [hash_combine] of the base hash and the payload read
    as a [u64]; and interning two literals whose payloads differ in a bit
    never yields one node, whatever their types. *)
Theorem PrimLit_equal_and_hash (Literal_hash : nat -> nat -> Z) :
  (forall a b : PrimLit,
      PrimLit_equal a b = true <->
      (kind a = kind b /\ type a = type b) /\
      bcast_u64 (box a) = bcast_u64 (box b)) /\
  (forall p : PrimLit,
      PrimLit_hash Literal_hash p =
      hash_combine (Literal_hash (kind p) (type p)) (bcast_u64 (box p))) /\
  (forall (world : list PrimLit) (a b : PrimLit),
      bcast_u64 (box a) <> bcast_u64 (box b) ->
      PrimLit_equal a b = false /\
      snd (literal world a) <> snd (literal (fst (literal world a)) b)).
Proof.
  split; [| split].
  - intros a b. rewrite PrimLit_equal_iff. unfold Literal_equal.
    rewrite andb_true_iff, !Nat.eqb_eq. tauto.
  - intros p. reflexivity.
  - intros world a b Hne. split.
    + destruct (PrimLit_equal a b) eqn:E; [| reflexivity].
      apply PrimLit_equal_iff in E. tauto.
    + intros Heq. apply Hne.
      rewrite <- (literal_keeps_bits world a).
      rewrite <- (literal_keeps_bits (fst (literal world a)) b).
      now rewrite Heq.
Qed.

End LiteralFacts.

(** ** CFF lowering *)

Section CFFFacts.
Import CFF Examples.

(** C6, as the code has it: a call to a non-empty lambda [to] is bad in
    the local phase exactly when [to] is inside the current scope and is
    not a basic block; in the global phase, when [to] is a known top-level
    lambda, exactly when it is not returning and the current scope does
    not enclose it, and when [to] is not a known top-level lambda, exactly
    when it is not a basic block. *)
Theorem is_bad_classification (scope : Scope) (top : LambdaSet) (to : Lambda) :
  empty to = false ->
  (is_bad true scope top to = true <->
   inner_contains scope to = true /\ is_basicblock to = false) /\
  (is_bad false scope top to = true <->
   (contains top to = true /\
    is_returning to = false /\ outer_contains scope to = false) \/
   (contains top to = false /\ is_basicblock to = false)).
Proof.
  intros He. unfold is_bad. rewrite He. split.
  - rewrite andb_true_iff, negb_true_iff. tauto.
  - destruct (contains top to).
    + rewrite andb_true_iff, !negb_true_iff. split.
      * intros [H1 H2]. left. auto.
      * intros [[_ H] | [H _]]; [exact H | discriminate].
    + rewrite negb_true_iff. split.
      * intros H. right. auto.
      * intros [[H _] | [_ H]]; [discriminate | exact H].
Qed.

Lemma is_bad_classification_witness :
  (is_bad true other_scope [] inner_higher_order = true <->
   inner_contains other_scope inner_higher_order = true /\
   is_basicblock inner_higher_order = false) /\
  (is_bad false other_scope [] inner_higher_order = true <->
   (contains [] inner_higher_order = true /\
    is_returning inner_higher_order = false /\
    outer_contains other_scope inner_higher_order = false) \/
   (contains [] inner_higher_order = false /\ is_basicblock inner_higher_order = false)).
Proof.
  apply (is_bad_classification other_scope [] inner_higher_order). reflexivity.
Defined.

(** C6, as stated, fails in the global phase: a lambda that is not a
    known top-level lambda and not a basic block is classified as bad,
    although the specification's condition does not hold of it. *)
Lemma is_bad_global_not_top :
  empty inner_higher_order = false /\
  is_bad false other_scope [] inner_higher_order = true /\
  spec_bad_global other_scope [] inner_higher_order = false.
Proof. repeat split. Qed.

End CFFFacts.

(** ** Vectors and the world *)

Section IRFacts.
Import IR.

Context {gids : Gids}.

Lemma length_list_set {A : Type} (l : list A) (i : nat) (x : A) :
  length (list_set l i x) = length l.
Proof.
  revert i. induction l as [|y l IH]; intros [|i]; simpl; auto.
Qed.

Lemma nth_error_list_set_eq {A : Type} (l : list A) (i : nat) (x : A) :
  (i < length l)%nat -> nth_error (list_set l i x) i = Some x.
Proof.
  revert i. induction l as [|y l IH]; intros [|i] H; simpl in *; try lia; auto.
  apply IH. lia.
Qed.

Lemma nth_error_list_set_neq {A : Type} (l : list A) (i k : nat) (x : A) :
  k <> i -> nth_error (list_set l i x) k = nth_error l k.
Proof.
  revert i k. induction l as [|y l IH]; intros [|i] [|k] H; simpl; auto.
  congruence.
Qed.

Lemma list_set_same {A : Type} (l : list A) (i : nat) (x : A) :
  nth_error l i = Some x -> list_set l i x = l.
Proof.
  revert i. induction l as [|y l IH]; intros [|i] H; simpl in *; try discriminate.
  - congruence.
  - f_equal. auto.
Qed.

Lemma resize_grow {A : Type} (l : list (option A)) (n : nat) :
  (length l <= n)%nat -> resize l n = l ++ repeat None (n - length l).
Proof.
  intros H. unfold resize. now rewrite firstn_all2.
Qed.

Lemma get_lambda_Done (w : World) (l : nat) (r : Lambda) :
  get_lambda w l = Done r <-> nth_error (lambdas w) l = Some r.
Proof.
  unfold get_lambda. destruct (nth_error (lambdas w) l); split; congruence.
Qed.

Lemma get_set_lambda (w : World) (l : nat) (r r' : Lambda) :
  get_lambda w l = Done r -> get_lambda (set_lambda w l r') l = Done r'.
Proof.
  rewrite !get_lambda_Done. intros H. simpl.
  apply nth_error_list_set_eq. apply nth_error_Some. congruence.
Qed.

Lemma set_lambda_same (w : World) (l : nat) (r : Lambda) :
  get_lambda w l = Done r -> set_lambda w l r = w.
Proof.
  rewrite get_lambda_Done. intros H. destruct w as [ls ce]. unfold set_lambda. simpl in *.
  f_equal. now apply list_set_same.
Qed.

Lemma with_tracked_same (r : Lambda) : with_tracked r (tracked_values_ r) = r.
Proof. now destruct r. Qed.

(** [preds] reads the operands only. *)
Lemma preds_ops (w w' : World) (this : nat) :
  map ops_ (lambdas w) = map ops_ (lambdas w') -> preds w this = preds w' this.
Proof.
  intros H. unfold preds, all_ops. now rewrite H.
Qed.

Lemma map_list_set {A B : Type} (f : A -> B) (l : list A) (i : nat) (x y : A) :
  nth_error l i = Some y -> f x = f y -> map f (list_set l i x) = map f l.
Proof.
  revert i. induction l as [|z l IH]; intros [|i] H E; simpl in *; try discriminate.
  - inversion H; subst. now rewrite E.
  - f_equal. eauto.
Qed.

Lemma preds_set_tracked (w : World) (l : nat) (r : Lambda) (tv : list (option Def))
  (ce : list string) (this : nat) :
  get_lambda w l = Done r ->
  preds (mkWorld (lambdas (set_lambda w l (with_tracked r tv))) ce) this = preds w this.
Proof.
  intros H. apply preds_ops. simpl.
  apply get_lambda_Done in H. now apply map_list_set with (y := r).
Qed.

End IRFacts.

(** ** The value table *)

Section ValueTable.
Import IR SSA.

Context {memory : Memory} {gids : Gids}.

Lemma list_set_twice {A : Type} (l : list A) (i : nat) (x y : A) :
  list_set (list_set l i x) i y = list_set l i y.
Proof.
  revert i. induction l as [|z l IH]; intros [|i]; simpl; auto. now rewrite IH.
Qed.

Lemma set_lambda_twice (w : World) (l : nat) (a b : Lambda) :
  set_lambda (set_lambda w l a) l b = set_lambda w l b.
Proof. unfold set_lambda. simpl. now rewrite list_set_twice. Qed.

(** A handle inside the table is read where it is; nothing is resized. *)
Lemma find_tracker_in_range (w : World) (this : nat) (r : Lambda) (h : Z)
  (slot : option Def) :
  get_lambda w this = Done r ->
  nth_error (tracked_values_ r) (Z.to_nat h) = Some slot ->
  find_tracker this h w = Done (w, slot).
Proof.
  intros Hg N. unfold find_tracker. rewrite Hg. cbn [bind]. cbv zeta.
  assert (L : (Z.to_nat h < length (tracked_values_ r))%nat).
  { apply nth_error_Some. congruence. }
  assert (G : (h >=? Z.of_nat (length (tracked_values_ r))) = false).
  { rewrite Z.geb_leb. apply Z.leb_gt. lia. }
  rewrite G. cbn [bind]. rewrite N, with_tracked_same, (set_lambda_same _ _ _ Hg).
  reflexivity.
Qed.

(** A [find_tracker] that returns has changed the table of the lambda
    only, has not shortened it, and has read the slot of the handle. *)
Lemma find_tracker_inv (w w1 : World) (this : nat) (r : Lambda) (h : Z)
  (slot : option Def) :
  get_lambda w this = Done r ->
  find_tracker this h w = Done (w1, slot) ->
  exists tv, w1 = set_lambda w this (with_tracked r tv) /\
             nth_error tv (Z.to_nat h) = Some slot /\
             (length (tracked_values_ r) <= length tv)%nat.
Proof.
  intros Hg. unfold find_tracker. rewrite Hg. cbn [bind]. cbv zeta.
  destruct (h >=? Z.of_nat (length (tracked_values_ r))) eqn:G.
  - unfold resize_table.
    destruct ((Z.of_nat (length (tracked_values_ r)) <? wrap (h + 1))
              && (slots_limit <? wrap (h + 1))); cbn [bind]; [discriminate |].
    match goal with |- context [nth_error ?t _] => set (tv := t) end.
    destruct (nth_error tv (Z.to_nat h)) as [s|] eqn:N; [| discriminate].
    intros E. inversion E; subst. exists tv. repeat split; auto.
    assert (Z.to_nat h < length tv)%nat by (apply nth_error_Some; congruence).
    rewrite Z.geb_leb in G. apply Z.leb_le in G. lia.
  - cbn [bind].
    destruct (nth_error (tracked_values_ r) (Z.to_nat h)) as [s|] eqn:N; [| discriminate].
    intros E. inversion E; subst. exists (tracked_values_ r). auto.
Qed.

(** What [find_tracker] does on a handle whose successor is representable
    and within what [resize] delivers: the table is padded with null
    slots up to the handle when it is too short, and the slot of the
    handle is read. *)
Lemma find_tracker_spec (w : World) (this : nat) (r : Lambda) (h : Z) :
  get_lambda w this = Done r ->
  0 <= h < size_t_modulus - 1 ->
  h < slots_limit ->
  let tv := tracked_values_ r in
  let tv' := tv ++ repeat None (Z.to_nat h + 1 - length tv) in
  nth_error tv' (Z.to_nat h) = Some (nth (Z.to_nat h) tv None) /\
  find_tracker this h w =
  Done (set_lambda w this (with_tracked r tv'), nth (Z.to_nat h) tv None).
Proof.
  intros Hg Hh Hl tv tv'.
  destruct (Nat.lt_ge_cases (Z.to_nat h) (length tv)) as [E | E].
  - assert (T : tv' = tv).
    { subst tv'. replace (Z.to_nat h + 1 - length tv)%nat with 0%nat by lia.
      apply app_nil_r. }
    destruct (nth_error tv (Z.to_nat h)) as [slot|] eqn:N;
      [| apply nth_error_None in N; lia].
    assert (S0 : nth (Z.to_nat h) tv None = slot) by (apply nth_error_nth; exact N).
    rewrite T, S0. split; [exact N |].
    rewrite (find_tracker_in_range w this r h slot Hg N).
    now rewrite with_tracked_same, (set_lambda_same _ _ _ Hg).
  - assert (S0 : nth (Z.to_nat h) tv None = None) by (apply nth_overflow; exact E).
    assert (N : nth_error tv' (Z.to_nat h) = Some (@None Def)).
    { subst tv'. rewrite nth_error_app2 by lia. apply nth_error_repeat. lia. }
    rewrite S0. split; [exact N |].
    unfold find_tracker. rewrite Hg. cbn [bind]. cbv zeta. fold tv.
    assert (G : (h >=? Z.of_nat (length tv)) = true).
    { rewrite Z.geb_leb. apply Z.leb_le. lia. }
    rewrite G. unfold resize_table. rewrite (wrap_small (h + 1)) by lia.
    assert (Q : (slots_limit <? h + 1) = false) by (apply Z.ltb_ge; lia).
    rewrite Q, andb_false_r. cbn [bind].
    replace (Z.to_nat (h + 1)) with (Z.to_nat h + 1)%nat by lia.
    rewrite resize_grow by lia. fold tv'. rewrite N. reflexivity.
Qed.

Lemma set_value_spec (w : World) (this : nat) (r : Lambda) (h : Z) (v : Def) :
  get_lambda w this = Done r ->
  0 <= h < size_t_modulus - 1 ->
  h < slots_limit ->
  let tv := tracked_values_ r in
  let tv' := tv ++ repeat None (Z.to_nat h + 1 - length tv) in
  set_value this h v w =
  Done (set_lambda w this (with_tracked r (list_set tv' (Z.to_nat h) (Some v))), v).
Proof.
  intros Hg Hh Hl tv tv'.
  destruct (find_tracker_spec w this r h Hg Hh Hl) as (N & F).
  unfold set_value. rewrite F. cbn [bind].
  rewrite (get_set_lambda _ _ _ _ Hg). cbn [bind].
  now rewrite set_lambda_twice.
Qed.

(** On a handle inside the table [set_value] overwrites its slot. *)
Lemma set_value_in_range (w : World) (this : nat) (r : Lambda) (h : Z) (v : Def) :
  get_lambda w this = Done r ->
  (Z.to_nat h < length (tracked_values_ r))%nat ->
  set_value this h v w =
  Done (set_lambda w this
          (with_tracked r (list_set (tracked_values_ r) (Z.to_nat h) (Some v))), v).
Proof.
  intros Hg L.
  destruct (nth_error (tracked_values_ r) (Z.to_nat h)) as [slot|] eqn:N;
    [| apply nth_error_None in N; lia].
  unfold set_value. rewrite (find_tracker_in_range w this r h slot Hg N). cbn [bind].
  rewrite Hg. reflexivity.
Qed.

Lemma bound_get_value (w : World) (this : nat) (r : Lambda) (h : Z) (v : Def)
  (fuel : nat) (type : Ty) (name : string) :
  get_lambda w this = Done r ->
  nth_error (tracked_values_ r) (Z.to_nat h) = Some (Some v) ->
  get_value (S fuel) this h type name w = Done (w, v).
Proof.
  intros Hg N. cbn [get_value].
  rewrite (find_tracker_in_range w this r h (Some v) Hg N). reflexivity.
Qed.

(** C10, for every handle but [size_t(-1)] whose table [resize] can
    deliver ([handle + 1] slots are within the limit): [find_tracker]
    pads the table with unbound slots up to the handle instead of
    faulting and reads the slot; a value that is set is the value that is
    read, and the read changes nothing; and a second [set_value] on the
    handle, now bound, overwrites its slot: the table keeps its length and
    its other slots, and the new value is the one that is read. *)
Theorem value_table_set_get (w : World) (this : nat) (r : Lambda) (h : Z) (v v' : Def) :
  get_lambda w this = Done r ->
  0 <= h < size_t_modulus - 1 ->
  h < slots_limit ->
  let tv := tracked_values_ r in
  let grown := tv ++ repeat None (Z.to_nat h + 1 - length tv) in
  exists w0 w1 w2,
    find_tracker this h w = Done (w0, nth (Z.to_nat h) tv None) /\
    get_lambda w0 this = Done (with_tracked r grown) /\
    set_value this h v w = Done (w1, v) /\
    get_lambda w1 this =
      Done (with_tracked r (list_set grown (Z.to_nat h) (Some v))) /\
    (forall fuel type name, get_value (S fuel) this h type name w1 = Done (w1, v)) /\
    set_value this h v' w1 = Done (w2, v') /\
    get_lambda w2 this =
      Done (with_tracked r (list_set grown (Z.to_nat h) (Some v'))) /\
    (forall fuel type name, get_value (S fuel) this h type name w2 = Done (w2, v')).
Proof.
  intros Hg Hh Hl tv grown.
  destruct (find_tracker_spec w this r h Hg Hh Hl) as (N & F). fold tv grown in N, F.
  pose proof (set_value_spec w this r h v Hg Hh Hl) as S1. cbv zeta in S1.
  fold tv grown in S1.
  assert (Lg : (Z.to_nat h < length grown)%nat) by (apply nth_error_Some; congruence).
  set (r1 := with_tracked r (list_set grown (Z.to_nat h) (Some v))) in *.
  set (w1 := set_lambda w this r1) in *.
  assert (G1 : get_lambda w1 this = Done r1) by (eapply get_set_lambda; eauto).
  assert (L1 : (Z.to_nat h < length (tracked_values_ r1))%nat).
  { unfold r1. cbn [tracked_values_ with_tracked]. now rewrite length_list_set. }
  pose proof (set_value_in_range w1 this r1 h v' G1 L1) as S2.
  set (r2 := with_tracked r (list_set grown (Z.to_nat h) (Some v'))).
  assert (E2 : with_tracked r1 (list_set (tracked_values_ r1) (Z.to_nat h) (Some v'))
               = r2).
  { unfold r1, r2, with_tracked. cbn. now rewrite list_set_twice. }
  rewrite E2 in S2.
  assert (G2 : get_lambda (set_lambda w1 this r2) this = Done r2)
    by (eapply get_set_lambda; eauto).
  exists (set_lambda w this (with_tracked r grown)), w1, (set_lambda w1 this r2).
  split; [exact F |]. split; [eapply get_set_lambda; eauto |].
  split; [exact S1 |]. split; [exact G1 |]. split.
  { intros fuel type name. apply (bound_get_value w1 this r1); auto.
    unfold r1. cbn [tracked_values_ with_tracked]. now apply nth_error_list_set_eq. }
  split; [exact S2 |]. split; [exact G2 |].
  intros fuel type name. apply (bound_get_value _ this r2); auto.
  unfold r2. cbn [tracked_values_ with_tracked]. now apply nth_error_list_set_eq.
Qed.

End ValueTable.

Section ValueTableExamples.
Import IR SSA Examples.

#[local] Existing Instance test_memory.
#[local] Existing Instance test_gids.

Lemma value_table_set_get_witness :
  exists w0 w1 w2,
    find_tracker 0%nat 2 lone_world = Done (w0, None) /\
    get_lambda w0 0%nat = Done (with_tracked lone_head [None; None; None]) /\
    set_value 0%nat 2 seven lone_world = Done (w1, seven) /\
    get_lambda w1 0%nat = Done (with_tracked lone_head [None; None; Some seven]) /\
    (forall fuel type name,
        get_value (S fuel) 0%nat 2 type name w1 = Done (w1, seven)) /\
    set_value 0%nat 2 eight w1 = Done (w2, eight) /\
    get_lambda w2 0%nat = Done (with_tracked lone_head [None; None; Some eight]) /\
    (forall fuel type name,
        get_value (S fuel) 0%nat 2 type name w2 = Done (w2, eight)).
Proof.
  apply (value_table_set_get lone_world 0%nat lone_head 2 seven eight).
  - reflexivity.
  - unfold size_t_modulus. lia.
  - reflexivity.
Defined.

Lemma nth_error_nil_any {A : Type} (n : nat) : nth_error (@nil A) n = None.
Proof. now destruct n. Qed.

(** C10, as stated, fails at the handle [size_t(-1)]: [handle + 1] wraps
    around to 0, the table is resized to no slot at all, and the read of
    slot [handle] is out of range.  And it fails at a handle whose table
    [resize] cannot deliver: the request throws, and nothing is grown. *)
Lemma find_tracker_wraps :
  find_tracker 0%nat size_t_bottom lone_world = Fault /\
  find_tracker 0%nat slots_limit lone_world = Fault.
Proof.
  split.
  - unfold find_tracker.
    replace (get_lambda lone_world 0%nat) with (Done lone_head) by reflexivity.
    cbn [bind]. cbv zeta.
    assert (E : (if size_t_bottom >=? Z.of_nat (length (tracked_values_ lone_head))
                 then resize_table (tracked_values_ lone_head) (wrap (size_t_bottom + 1))
                 else Done (tracked_values_ lone_head)) = Done []) by reflexivity.
    rewrite E. cbn [bind]. now rewrite nth_error_nil_any.
  - reflexivity.
Qed.

End ValueTableExamples.

(** ** Undefined values *)

Section Undefined.
Import IR SSA.

Context {memory : Memory} {gids : Gids}.

(** C4, for every handle but [size_t(-1)] whose table [resize] can
    deliver: on a sealed head lambda without predecessors, reading a
    handle that has no binding writes the diagnostic to [std::cerr], binds
    the handle to [bottom(type)] and returns it; the call returns
    normally, and later reads find the cached binding. *)
Theorem get_value_undefined (w : World) (this : nat) (r : Lambda) (h : Z)
  (type : Ty) (name : string) (fuel : nat) :
  get_lambda w this = Done r ->
  parent_ r = Some this ->
  is_sealed_ r = true ->
  preds w this = Done [] ->
  0 <= h < size_t_modulus - 1 ->
  h < slots_limit ->
  (forall d, nth_error (tracked_values_ r) (Z.to_nat h) <> Some (Some d)) ->
  exists w', get_value (S fuel) this h type name w = Done (w', bottom type) /\
             cerr w' = cerr w ++ [may_be_undefined name] /\
             find_tracker this h w' = Done (w', Some (bottom type)) /\
             forall fuel' type' name',
               get_value (S fuel') this h type' name' w' = Done (w', bottom type).
Proof.
  intros Hg Hp Hs Hpreds Hh Hl Hn.
  destruct (find_tracker_spec w this r h Hg Hh Hl) as (N & Hf). cbv zeta in N, Hf.
  set (tv := tracked_values_ r ++
             repeat None (Z.to_nat h + 1 - length (tracked_values_ r))) in *.
  assert (S0 : nth (Z.to_nat h) (tracked_values_ r) None = None).
  { destruct (nth_error (tracked_values_ r) (Z.to_nat h)) as [[d|]|] eqn:Q.
    - exfalso. apply (Hn d). reflexivity.
    - now apply nth_error_nth.
    - apply nth_overflow. now apply nth_error_None. }
  rewrite S0 in N, Hf.
  set (r0 := with_tracked r tv).
  assert (G0 : get_lambda (set_lambda w this r0) this = Done r0)
    by now apply get_set_lambda with (r := r).
  set (w1 := mkWorld (lambdas (set_lambda w this r0)) (cerr w ++ [may_be_undefined name])).
  assert (G1 : get_lambda w1 this = Done r0) by exact G0.
  assert (F1 : find_tracker this h w1 = Done (w1, None))
    by now apply find_tracker_in_range with (r := r0).
  set (r2 := with_tracked r0 (list_set tv (Z.to_nat h) (Some (bottom type)))).
  set (w2 := set_lambda w1 this r2).
  assert (G2 : get_lambda w2 this = Done r2)
    by now apply get_set_lambda with (r := r0).
  assert (N2 : nth_error (tracked_values_ r2) (Z.to_nat h) = Some (Some (bottom type))).
  { simpl. apply nth_error_list_set_eq. apply nth_error_Some. congruence. }
  assert (F2 : find_tracker this h w2 = Done (w2, Some (bottom type)))
    by now apply find_tracker_in_range with (r := r2).
  exists w2. repeat split; auto.
  - cbn [get_value]. rewrite Hf. cbn [bind]. fold r0. rewrite G0. cbn [bind].
    change (parent_ r0) with (parent_ r). rewrite Hp, Nat.eqb_refl. cbn [negb].
    change (is_sealed_ r0) with (is_sealed_ r). rewrite Hs. cbn [negb].
    assert (P : preds (set_lambda w this r0) this = Done []).
    { rewrite <- Hpreds.
      apply (preds_set_tracked w this r tv (cerr w) this Hg). }
    rewrite P. cbn [bind].
    change (return_bottom this h type name (set_lambda w this r0))
      with (set_value this h (bottom type) w1).
    unfold set_value. rewrite F1. cbn [bind]. rewrite G1. reflexivity.
  - intros fuel' type' name'. cbn [get_value]. rewrite F2. reflexivity.
Qed.

End Undefined.

Section UndefinedExamples.
Import IR SSA Examples.

#[local] Existing Instance test_memory.
#[local] Existing Instance test_gids.

Lemma get_value_undefined_witness :
  exists w', get_value 1 0%nat 0 5%nat "x" lone_world = Done (w', bottom 5%nat) /\
             cerr w' = cerr lone_world ++ [may_be_undefined "x"] /\
             find_tracker 0%nat 0 w' = Done (w', Some (bottom 5%nat)) /\
             forall fuel' type' name',
               get_value (S fuel') 0%nat 0 type' name' w' = Done (w', bottom 5%nat).
Proof.
  apply (get_value_undefined lone_world 0%nat lone_head 0 5%nat "x" 0%nat).
  - reflexivity.
  - reflexivity.
  - reflexivity.
  - reflexivity.
  - unfold size_t_modulus. lia.
  - reflexivity.
  - intros d. discriminate.
Defined.

(** C4, as stated, fails at the handle [size_t(-1)], which has no
    binding in the sealed head lambda without predecessors: the first
    step of the read, [find_tracker], resizes the table to no slot and
    reads slot [handle] out of range; no diagnostic is written and no
    bottom is returned.  It fails as well at a handle whose table
    [resize] cannot deliver. *)
Lemma get_value_undefined_wraps :
  (forall fuel, get_value (S fuel) 0%nat size_t_bottom 5%nat "x" lone_world = Fault) /\
  (forall fuel, get_value (S fuel) 0%nat slots_limit 5%nat "x" lone_world = Fault).
Proof. split; intros fuel; reflexivity. Qed.

End UndefinedExamples.

(** ** Pointer equality *)

Section DefEquality.
Import IR.

(** Induction on definitions, with the operands of a primop covered. *)
Fixpoint Def_induction (P : Def -> Prop)
  (HL : forall g, P (DLambda g))
  (HP : forall l i, P (DParam l i))
  (HB : forall t, P (DBottom t))
  (HI : forall t b, P (DPrimLit t b))
  (HS : forall c t f, P c -> P t -> P f -> P (DSelect c t f))
  (HO : forall k t ops, Forall P ops -> P (DPrimOp k t ops))
  (d : Def) {struct d} : P d :=
  match d with
  | DLambda g => HL g
  | DParam l i => HP l i
  | DBottom t => HB t
  | DPrimLit t b => HI t b
  | DSelect c t f =>
      HS c t f (Def_induction P HL HP HB HI HS HO c)
        (Def_induction P HL HP HB HI HS HO t)
        (Def_induction P HL HP HB HI HS HO f)
  | DPrimOp k t ops =>
      HO k t ops
        ((fix all (l : list Def) : Forall P l :=
            match l with
            | [] => Forall_nil P
            | x :: r => Forall_cons x (Def_induction P HL HP HB HI HS HO x) (all r)
            end) ops)
  end.

Lemma Def_eqb_eq (a b : Def) : Def_eqb a b = true <-> a = b.
Proof.
  revert b.
  induction a as [g|l i|t|t x|c t f IHc IHt IHf|k t ops IH] using Def_induction;
    intros d2; destruct d2 as [g'|l' i'|t'|t' x'|c' t' f'|k' t' ops']; simpl;
    try (split; [discriminate | intros E; discriminate E]).
  - rewrite Nat.eqb_eq. split; congruence.
  - rewrite andb_true_iff, !Nat.eqb_eq. split; [intros []|intros E; inversion E]; subst; auto.
  - rewrite Nat.eqb_eq. split; congruence.
  - rewrite andb_true_iff, Nat.eqb_eq, Z.eqb_eq.
    split; [intros []|intros E; inversion E]; subst; auto.
  - rewrite !andb_true_iff, IHc, IHt, IHf.
    split; [intros [[]]|intros E; inversion E]; subst; auto.
  - rewrite !andb_true_iff, !Nat.eqb_eq.
    match goal with |- context [?f ops ops'] => set (go := f) end.
    assert (G : go ops ops' = true <-> ops = ops').
    { clear k t k' t'. revert ops'.
      induction IH as [|y r Hy _ IHr]; intros [|y' r']; simpl;
        try (split; [discriminate | intros E; discriminate E]).
      - tauto.
      - rewrite andb_true_iff, Hy, IHr.
        split; [intros []|intros E; inversion E]; subst; auto. }
    rewrite G. split; [intros [[]]|intros E; inversion E]; subst; auto.
Qed.

Lemma Def_eqb_refl (a : Def) : Def_eqb a a = true.
Proof. now apply Def_eqb_eq. Qed.

Lemma Def_eqb_neq (a b : Def) : a <> b -> Def_eqb a b = false.
Proof.
  intros H. destruct (Def_eqb a b) eqn:E; auto. apply Def_eqb_eq in E. contradiction.
Qed.

Lemma ptr_eqb_eq (a b : option Def) : ptr_eqb a b = true <-> a = b.
Proof.
  destruct a, b; simpl; try rewrite Def_eqb_eq; split; congruence.
Qed.

End DefEquality.

(** ** The work lists of [succs] and [preds] *)

Section WorkLists.
Import IR.

Context {gids : Gids}.
Local Open Scope nat_scope.

Lemma Def_size_pos (d : Def) : 1 <= Def_size d.
Proof. destruct d; simpl; lia. Qed.

Lemma total_size_app (a b : list Def) :
  total_size (a ++ b) = total_size a + total_size b.
Proof.
  induction a as [|x a IH]; simpl; [reflexivity |].
  unfold total_size in *. simpl. lia.
Qed.

Lemma enqueue_size (ops queue done : list Def) :
  total_size (fst (enqueue ops queue done)) <= total_size queue + total_size ops.
Proof.
  revert queue done. induction ops as [|o ops IH]; intros queue done; simpl.
  - lia.
  - change (total_size (o :: ops)) with (Def_size o + total_size ops).
    destruct (existsb (Def_eqb o) done).
    + specialize (IH queue done). lia.
    + specialize (IH (queue ++ [o]) (o :: done)). rewrite total_size_app in IH.
      change (total_size [o]) with (Def_size o + 0) in IH. lia.
Qed.

Lemma primop_ops_size (d : Def) : total_size (primop_ops d) < Def_size d.
Proof. destruct d; unfold total_size; simpl; lia. Qed.

Lemma succs_loop_returns (fuel : nat) (queue done : list Def) (result : list nat) :
  total_size queue <= fuel -> exists r, succs_loop fuel queue done result = Done r.
Proof.
  revert queue done result. induction fuel as [|fuel IH]; intros [|def queue] done result H.
  - simpl. eauto.
  - change (total_size (def :: queue)) with (Def_size def + total_size queue) in H.
    pose proof (Def_size_pos def). lia.
  - simpl. eauto.
  - change (total_size (def :: queue)) with (Def_size def + total_size queue) in H.
    cbn [succs_loop]. destruct (isa_lambda def).
    + apply IH. pose proof (Def_size_pos def). lia.
    + pose proof (enqueue_size (primop_ops def) queue done) as E.
      destruct (enqueue (primop_ops def) queue done) as [q d]. apply IH.
      simpl in E. pose proof (primop_ops_size def). lia.
Qed.

(** [succs] returns on a lambda without null operands: the budget of its
    work-list loop is enough. *)
Lemma succs_returns (w : World) (this : nat) (r : Lambda) (ops : list Def) :
  get_lambda w this = Done r -> non_null (ops_ r) = Done ops ->
  exists ss, succs w this = Done ss.
Proof.
  intros G N. unfold succs. rewrite G. cbn [bind]. rewrite N. cbn [bind].
  pose proof (enqueue_size ops [] []) as E.
  destruct (enqueue ops [] []) as [q d]. apply succs_loop_returns. simpl in E. exact E.
Qed.

Lemma indexed_In {A : Type} (l : list A) (i k : nat) (x : A) :
  In (k, x) (indexed i l) -> i <= k < i + length l.
Proof.
  revert i. induction l as [|y l IH]; intros i; simpl.
  - contradiction.
  - intros [E | H].
    + inversion E; subst. lia.
    + apply IH in H. lia.
Qed.

Lemma uses_in_user (user : Def) (ops : list (option Def)) (d : Def) (u : Use) :
  In u (uses_in user ops d) -> snd u = user.
Proof.
  unfold uses_in. rewrite in_map_iff. intros (p & <- & _). reflexivity.
Qed.

(** Sorting the uses changes their order only. *)
Lemma insert_use_In (u x : Use) (l : list Use) :
  In x (insert_use u l) <-> x = u \/ In x l.
Proof.
  induction l as [|v r IH]; simpl.
  - intuition.
  - destruct (use_lt v u); simpl; [| intuition]. rewrite IH. intuition.
Qed.

Lemma sort_uses_In (x : Use) (l : list Use) : In x (sort_uses l) <-> In x l.
Proof.
  induction l as [|u r IH]; simpl; [tauto |].
  rewrite insert_use_In, IH. intuition.
Qed.

Lemma sort_uses_users (x : Def) (l : list Use) :
  In x (map snd (sort_uses l)) <-> In x (map snd l).
Proof.
  rewrite !in_map_iff. split; intros (u & E & H); exists u; split; auto;
    now apply sort_uses_In.
Qed.

Lemma uses_of_users (t : OpTable) (d : Def) :
  incl (map snd (uses_of t d)) (users t).
Proof.
  intros u. rewrite in_map_iff. intros ([i u'] & <- & H). simpl.
  unfold uses_of in H. rewrite sort_uses_In in H. unfold users. apply in_app_iff.
  apply in_app_iff in H. destruct H as [H | H]; apply in_flat_map in H.
  - destruct H as ([k ops] & Hk & H). apply uses_in_user in H. simpl in H. subst u'.
    left. apply in_map. apply in_seq. apply indexed_In in Hk. simpl. lia.
  - destruct H as (s & Hs & H). apply uses_in_user in H. simpl in H. subst u'.
    now right.
Qed.

Lemma existsb_Def_eqb (o : Def) (l : list Def) :
  existsb (Def_eqb o) l = true <-> In o l.
Proof.
  rewrite existsb_exists. split.
  - intros (x & Hx & E). apply Def_eqb_eq in E. now subst.
  - intros H. exists o. split; auto. apply Def_eqb_refl.
Qed.

Lemma enqueue_inv (U ops queue done : list Def) :
  NoDup done -> incl done U -> incl ops U ->
  NoDup (snd (enqueue ops queue done)) /\
  incl (snd (enqueue ops queue done)) U /\
  length (fst (enqueue ops queue done)) + length done =
  length queue + length (snd (enqueue ops queue done)).
Proof.
  revert queue done. induction ops as [|o ops IH]; intros queue done N I O; simpl.
  - auto.
  - assert (O' : incl ops U) by (intros x Hx; apply O; now right).
    destruct (existsb (Def_eqb o) done) eqn:E.
    + now apply IH.
    + assert (Ho : ~ In o done).
      { intros H. apply existsb_Def_eqb in H. congruence. }
      destruct (IH (queue ++ [o]) (o :: done)) as (N' & I' & L); auto.
      * now constructor.
      * intros x [<- | Hx]; [apply O; now left | now apply I].
      * repeat split; auto. rewrite length_app in L. simpl in L. lia.
Qed.

Lemma preds_loop_returns (t : OpTable) (fuel : nat) (queue done : list Def)
  (result : list nat) :
  NoDup done -> incl done (users t) ->
  length queue + length (users t) <= fuel + length done ->
  exists r, preds_loop fuel t queue done result = Done r.
Proof.
  revert queue done result.
  induction fuel as [|fuel IH]; intros [|def queue] done result N I L;
    try (simpl; eauto; fail).
  - pose proof (NoDup_incl_length N I). simpl in L. lia.
  - cbn [preds_loop]. destruct (isa_lambda def).
    + apply IH; auto. simpl in L. lia.
    + destruct (enqueue_inv (users t) (map snd (uses_of t def)) queue done N I
                  (uses_of_users t def)) as (N' & I' & L').
      destruct (enqueue (map snd (uses_of t def)) queue done) as [q d].
      simpl in *. apply IH; auto. lia.
Qed.

(** [preds] returns: the budget of its work-list loop is enough. *)
Lemma preds_returns (w : World) (this : nat) : exists ps, preds w this = Done ps.
Proof.
  unfold preds, preds_of.
  destruct (enqueue_inv (users (all_ops w)) (map snd (uses_of (all_ops w) (DLambda this)))
              [] [] (NoDup_nil _) (incl_nil_l _) (uses_of_users _ _)) as (N & I & L).
  destruct (enqueue (map snd (uses_of (all_ops w) (DLambda this))) [] []) as [q d].
  simpl in *. apply preds_loop_returns; auto.
  unfold users. rewrite length_app, length_map, length_seq. lia.
Qed.

End WorkLists.

(** ** Trivial parameters *)

Section TrivialParam.
Import IR SSA.

Context {gids : Gids}.

Lemma find_same_args (w : World) (index : nat) (param : Def) (preds : list nat)
  (args : list Def) (same : option Def) :
  Forall2 (pred_arg w index) preds args ->
  find_same w index param preds same = Done (same_of_args param args same).
Proof.
  intros H. revert same. induction H as [|pred a preds args (pr & Hg & Ha) _ IH];
    intros same; simpl.
  - reflexivity.
  - rewrite Hg. simpl. rewrite Ha. simpl.
    destruct (Def_eqb a param || ptr_eqb same (Some a)); [apply IH|].
    destruct same; [reflexivity | apply IH].
Qed.

Lemma same_of_args_conflict (param c a : Def) (args : list Def) :
  In a args -> a <> param -> a <> c ->
  same_of_args param args (Some c) = None.
Proof.
  intros Hin Hp Hc. induction args as [|x args IH]; simpl.
  - contradiction.
  - destruct (Def_eqb x param) eqn:E1; simpl.
    + apply Def_eqb_eq in E1. destruct Hin as [-> | Hin]; [contradiction | auto].
    + destruct (Def_eqb c x) eqn:E2; [| reflexivity].
      apply Def_eqb_eq in E2. destruct Hin as [-> | Hin]; [congruence | auto].
Qed.

Lemma same_of_args_distinct (param a b : Def) (args : list Def) :
  In a args -> In b args -> a <> param -> b <> param -> a <> b ->
  same_of_args param args None = None.
Proof.
  intros Ha Hb Hap Hbp Hab. induction args as [|x args IH]; simpl.
  - contradiction.
  - destruct (Def_eqb x param) eqn:E1; simpl.
    + apply Def_eqb_eq in E1.
      destruct Ha as [-> | Ha]; [contradiction|].
      destruct Hb as [-> | Hb]; [contradiction|]. auto.
    + destruct (Def_eqb_eq a x) as [_ Dax].
      destruct (Def_eqb a x) eqn:E2.
      * apply Def_eqb_eq in E2. subst x.
        apply same_of_args_conflict with (a := b); auto.
        destruct Hb as [E | Hb]; [congruence | auto].
      * apply same_of_args_conflict with (a := a); auto.
        -- destruct Ha as [E | Ha]; [| auto].
           symmetry in E. discriminate (Dax E).
        -- intros E. discriminate (Dax E).
Qed.

(** X28: a parameter that two predecessors supply with two different
    values, neither of them the parameter itself, is not trivial:
    [try_remove_trivial_param] returns the parameter and leaves the world
    as it was. *)
Theorem try_remove_trivial_param_keeps (w : World) (this index : nat) (r : Lambda)
  (preds : list nat) (args : list Def) (fuel : nat) :
  get_lambda w this = Done r ->
  is_sealed_ r = true ->
  IR.preds w this = Done preds ->
  Forall2 (pred_arg w index) preds args ->
  (exists a b, In a args /\ In b args /\
               a <> DParam this index /\ b <> DParam this index /\ a <> b) ->
  try_remove_trivial_param (S fuel) this (DParam this index) w =
  Done (w, DParam this index).
Proof.
  intros Hg Hs Hpreds Hargs (a & b & Ha & Hb & Hap & Hbp & Hab).
  cbn [try_remove_trivial_param].
  rewrite Nat.eqb_refl. cbn [negb]. rewrite Hg. cbn [bind]. rewrite Hs. cbn [negb].
  rewrite Hpreds. cbn [bind].
  rewrite (find_same_args _ _ _ _ _ _ Hargs).
  now rewrite (same_of_args_distinct _ a b args).
Qed.

End TrivialParam.

Section TrivialParamExamples.
Import IR SSA Examples.

#[local] Existing Instance test_gids.

Lemma try_remove_trivial_param_keeps_witness :
  try_remove_trivial_param 1 0 p_of_L join_world = Done (join_world, p_of_L).
Proof.
  refine (try_remove_trivial_param_keeps join_world 0 0
            (mkLambda [] [0%nat] (Some 0%nat) true false [] [])
            [1%nat; 2%nat] [seven; eight] 0
            eq_refl eq_refl eq_refl _ _).
  - repeat constructor; eexists; split; reflexivity.
  - exists seven, eight. cbn [In]. repeat split; auto; discriminate.
Defined.

(** C3: the recursion of the code misses the parameters it is meant to
    retry.  In [chain_world] the lambda [L] has the parameter [p] and the
    single predecessor [P1], which passes 7; [U] uses [p] as the argument
    of its jump to [T], whose parameter [q] takes it, and [U] is the only
    predecessor of [T].  The call on [p] returns 7: [p] is replaced by 7
    in the jump of [U] and the argument slot of [P1] is overwritten with
    bottom.  [U] is the one tracked use of [p] and [T] its one successor,
    so [q] is the parameter of a successor of a lambda that had used [p]
    as an argument, and it is trivial now, its only argument being 7.
    But the loop of the code looks for [U] itself among the arguments of
    [T], finds nothing, and makes no attempt on [q]: the jump of [T] still
    passes [q], although the attempt on [q], made by hand afterwards,
    replaces it by 7. *)
Theorem retry_skips_successor_param :
  exists w',
    try_remove_trivial_param 3 0 p_of_L chain_world = Done (w', seven) /\
    (exists ru, get_lambda chain_world 2 = Done ru /\
                ops_ ru = [Some (DLambda 3); Some p_of_L]) /\
    tracked_uses chain_world p_of_L = [DLambda 2] /\
    (exists ru', get_lambda w' 2 = Done ru' /\
                 ops_ ru' = [Some (DLambda 3); Some seven]) /\
    (exists rp, get_lambda w' 1 = Done rp /\
                ops_ rp = [Some (DLambda 0); Some (bottom 0%nat)]) /\
    succs w' 2 = Done [3%nat] /\
    preds w' 3 = Done [2%nat] /\
    (exists rt, get_lambda w' 3 = Done rt /\
                ops_ rt = [Some (DLambda 4); Some q_of_T]) /\
    (exists w'' rt',
        try_remove_trivial_param 3 3 q_of_T w' = Done (w'', seven) /\
        get_lambda w'' 3 = Done rt' /\
        ops_ rt' = [Some (DLambda 4); Some seven]).
Proof.
  eexists. split; [vm_compute; reflexivity|].
  split; [eexists; split; reflexivity|].
  split; [reflexivity|].
  split; [eexists; split; reflexivity|].
  split; [eexists; split; reflexivity|].
  split; [reflexivity|]. split; [reflexivity|]. split.
  - eexists. split; reflexivity.
  - eexists. eexists. split; [vm_compute; reflexivity|]. split; reflexivity.
Qed.

End TrivialParamExamples.

(** ** The tail call of the mangler *)

Section TailCall.
Import IR Mangler Examples.

Variable specialize : list Ty -> list Ty.
Variable rebuild : Def -> list Def -> Def.

Lemma substitute_loop_match (nargs : list Def) (to_drop : list nat)
  (drop_with : list Def) :
  dropped_match nargs to_drop drop_with ->
  substitute_loop nargs to_drop drop_with = Done true.
Proof.
  induction 1 as [|i c to_drop drop_with Hi _ IH]; simpl.
  - reflexivity.
  - now rewrite Hi, Def_eqb_refl.
Qed.

Lemma substitute_loop_mismatch (nargs : list Def) (to_drop : list nat)
  (drop_with : list Def) :
  length drop_with = length to_drop ->
  Forall (fun i => (i < length nargs)%nat) to_drop ->
  ~ dropped_match nargs to_drop drop_with ->
  substitute_loop nargs to_drop drop_with = Done false.
Proof.
  revert drop_with. induction to_drop as [|i to_drop IH]; intros [|c drop_with] Hl Hr Hn;
    simpl in *; try discriminate.
  - exfalso. apply Hn. constructor.
  - inversion Hr as [|? ? Hi Hr']; subst.
    destruct (nth_error nargs i) as [a|] eqn:N.
    + destruct (Def_eqb a c) eqn:E; [| reflexivity].
      apply Def_eqb_eq in E. subst a.
      apply IH; auto. intros H. apply Hn. now constructor.
    + apply nth_error_None in N. lia.
Qed.

Lemma In_cut_from {A : Type} (x : A) (l : list A) (indices : list nat) (i : nat) :
  In x (cut_from i l indices) <->
  exists k, nth_error l k = Some x /\ ~ In (i + k)%nat indices.
Proof.
  revert i. induction l as [|y l IH]; intros i; simpl.
  - split; [contradiction | intros (k & H & _); destruct k; discriminate].
  - destruct (existsb (Nat.eqb i) indices) eqn:E.
    + rewrite IH. split.
      * intros (k & H & Hn). exists (S k). split; auto.
        now replace (i + S k)%nat with (S i + k)%nat by lia.
      * intros ([|k] & H & Hn).
        -- exfalso. apply Hn. apply existsb_exists in E. destruct E as (j & Hj & Ej).
           apply Nat.eqb_eq in Ej. subst j. now rewrite Nat.add_0_r.
        -- exists k. split; auto.
           now replace (S i + k)%nat with (i + S k)%nat by lia.
    + simpl. rewrite IH. split.
      * intros [-> | (k & H & Hn)].
        -- exists 0%nat. split; auto. rewrite Nat.add_0_r. intros Hin.
           assert (T : existsb (Nat.eqb i) indices = true).
           { apply existsb_exists. exists i. split; auto. apply Nat.eqb_refl. }
           congruence.
        -- exists (S k). split; auto.
           now replace (i + S k)%nat with (S i + k)%nat by lia.
      * intros ([|k] & H & Hn).
        -- left. simpl in H. congruence.
        -- right. exists k. split; auto.
           now replace (S i + k)%nat with (i + S k)%nat by lia.
Qed.

(** C5: once the operands of a body lambda are rewritten into
    [ntarget :: nargs], the new lambda jumps to the new entry with the
    dropped positions removed from [nargs] when [ntarget] is the old entry
    and every dropped position of [nargs] holds its [drop_with] constant;
    in every other case it jumps to [ntarget] with all of [nargs]. *)
Theorem mangle_body_tail_call (m : Mangler) (olambda nlambda : nat) (st st1 : State)
  (ntarget : Def) (nargs : list Def) (nr : Lambda) :
  rewritten_ops specialize rebuild m olambda st = Done (ntarget :: nargs, st1) ->
  get_lambda (world st1) nlambda = Done nr ->
  let jumps (to : Def) (args : list Def) :=
    mangle_body specialize rebuild m olambda nlambda st =
    Done (mkState (set_lambda (world st1) nlambda
                     (with_ops nr (Some to :: map Some args)))
                  (marks st1)) in
  (ntarget = DLambda (oentry m) ->
   dropped_match nargs (to_drop m) (drop_with m) ->
   jumps (DLambda (nentry m)) (cut nargs (to_drop m)) /\
   forall a, In a (cut nargs (to_drop m)) <->
             exists k, nth_error nargs k = Some a /\ ~ In k (to_drop m)) /\
  (ntarget <> DLambda (oentry m) -> jumps ntarget nargs) /\
  (length (drop_with m) = length (to_drop m) ->
   Forall (fun i => (i < length nargs)%nat) (to_drop m) ->
   ~ dropped_match nargs (to_drop m) (drop_with m) ->
   jumps ntarget nargs).
Proof.
  intros Hops Hn jumps. unfold jumps, mangle_body. rewrite Hops. cbn [bind].
  unfold jump_rewritten, jump.
  split; [| split].
  - intros -> Hm. split.
    + rewrite Def_eqb_refl, (substitute_loop_match _ _ _ Hm). cbn [bind].
      now rewrite Hn.
    + intros a. unfold cut. now rewrite In_cut_from.
  - intros Hne. rewrite (Def_eqb_neq _ _ Hne). cbn [bind]. now rewrite Hn.
  - intros Hl Hr Hm.
    destruct (Def_eqb ntarget (DLambda (oentry m))).
    + rewrite (substitute_loop_mismatch _ _ _ Hl Hr Hm). cbn [bind]. now rewrite Hn.
    + cbn [bind]. now rewrite Hn.
Qed.

End TailCall.

Section TailCallExamples.
Import IR Mangler Examples.

Lemma mangle_body_tail_call_witness :
  new_terminator loop_state 0 1 =
  Done [Some (DLambda 1); Some (n_minus_1 (DParam 1 0))] /\
  new_terminator loop_state8 0 1 =
  Done [Some (DLambda 0); Some eight; Some (n_minus_1 (DParam 1 0))].
Proof.
  split; unfold new_terminator.
  - rewrite (proj1 (proj1 (mangle_body_tail_call (fun t => t) plain_rebuild
                             loop_mangler 0 1 loop_state _ (DLambda 0)
                             [seven; n_minus_1 (DParam 1 0)] _ eq_refl eq_refl)
                      eq_refl
                      (Forall2_cons 0%nat seven eq_refl (Forall2_nil _)))).
    reflexivity.
  - rewrite (proj2 (proj2 (mangle_body_tail_call (fun t => t) plain_rebuild
                             loop_mangler 0 1 loop_state8 _ (DLambda 0)
                             [eight; n_minus_1 (DParam 1 0)] _ eq_refl eq_refl))
                   eq_refl
                   (Forall_cons 0%nat (Nat.lt_0_succ 1) (Forall_nil _))).
    + reflexivity.
    + intros H. inversion H as [|? ? ? ? E _]; subst. discriminate E.
Defined.

End TailCallExamples.

(** ** Reverse-postorder numbering *)

Section HeapFacts.
Import Scope.

Variable pass : nat.

Lemma is_visited_visit_first (l x : Lambda) (h : Heap) :
  is_visited pass x (visit_first pass l h) = (x =? l)%nat || is_visited pass x h.
Proof.
  unfold is_visited, visit_first, upd. destruct (x =? l)%nat; simpl; auto.
  apply Nat.eqb_refl.
Qed.

Lemma is_visited_set_sid (l x : Lambda) (s : Z) (h : Heap) :
  is_visited pass x (set_sid l s h) = is_visited pass x h.
Proof.
  unfold is_visited, set_sid, upd. destruct (x =? l)%nat eqn:E; simpl; auto.
  apply Nat.eqb_eq in E. now subst.
Qed.

Lemma is_visited_set_scope (l x : Lambda) (s : option nat) (h : Heap) :
  is_visited pass x (set_scope l s h) = is_visited pass x h.
Proof.
  unfold is_visited, set_scope, upd. destruct (x =? l)%nat eqn:E; simpl; auto.
  apply Nat.eqb_eq in E. now subst.
Qed.

Lemma sid_set_sid (l x : Lambda) (s : Z) (h : Heap) :
  sid_ (set_sid l s h x) = if (x =? l)%nat then s else sid_ (h x).
Proof. unfold set_sid, upd. now destruct (x =? l)%nat. Qed.

Lemma sid_visit_first (l x : Lambda) (h : Heap) :
  sid_ (visit_first pass l h x) = sid_ (h x).
Proof.
  unfold visit_first, upd. destruct (x =? l)%nat eqn:E; simpl; auto.
  apply Nat.eqb_eq in E. now subst.
Qed.

Lemma sid_set_scope (l x : Lambda) (s : option nat) (h : Heap) :
  sid_ (set_scope l s h x) = sid_ (h x).
Proof.
  unfold set_scope, upd. destruct (x =? l)%nat eqn:E; simpl; auto.
  apply Nat.eqb_eq in E. now subst.
Qed.

Lemma scope_set_sid (l x : Lambda) (s : Z) (h : Heap) :
  scope_ (set_sid l s h x) = scope_ (h x).
Proof.
  unfold set_sid, upd. destruct (x =? l)%nat eqn:E; simpl; auto.
  apply Nat.eqb_eq in E. now subst.
Qed.

Lemma scope_visit_first (l x : Lambda) (h : Heap) :
  scope_ (visit_first pass l h x) = scope_ (h x).
Proof.
  unfold visit_first, upd. destruct (x =? l)%nat eqn:E; simpl; auto.
  apply Nat.eqb_eq in E. now subst.
Qed.

Lemma backwards_sid_set_scope (l x : Lambda) (s : option nat) (h : Heap) :
  backwards_sid_ (set_scope l s h x) = backwards_sid_ (h x).
Proof.
  unfold set_scope, upd. destruct (x =? l)%nat eqn:E; simpl; auto.
  apply Nat.eqb_eq in E. now subst.
Qed.

Lemma contains_scope (sc : Scope) (l : Lambda) (h h' : Heap) :
  scope_ (h' l) = scope_ (h l) -> contains sc l h' = contains sc l h.
Proof. unfold contains. now intros ->. Qed.

End HeapFacts.

Section Counting.
Import Scope.

Lemma filter_remove_one (f : Lambda -> bool) (l : Lambda) (L : list Lambda) :
  NoDup L -> In l L -> f l = true ->
  S (length (filter (fun x => negb (x =? l)%nat && f x) L)) = length (filter f L).
Proof.
  induction 1 as [|y L Hy Hnd IH]; intros Hin Hf; simpl.
  - contradiction.
  - destruct Hin as [-> | Hin].
    + rewrite Nat.eqb_refl, Hf. simpl. f_equal. f_equal.
      apply filter_ext_in. intros x Hx.
      assert (x <> l) by (intros ->; contradiction).
      apply Nat.eqb_neq in H. now rewrite H.
    + assert (y <> l) by (intros ->; contradiction).
      apply Nat.eqb_neq in H. rewrite H. simpl.
      destruct (f y); simpl; auto.
Qed.

Variable pass : nat.
Variable M : list Lambda.
Hypothesis M_nodup : NoDup M.

Lemma unvisited_visit_first (l : Lambda) (h : Heap) :
  In l M -> is_visited pass l h = false ->
  S (length (unvisited pass M (visit_first pass l h))) = length (unvisited pass M h).
Proof.
  intros Hin Hv. unfold unvisited.
  rewrite <- (filter_remove_one (fun x => negb (is_visited pass x h)) l M); auto.
  - f_equal. f_equal. apply filter_ext. intros x.
    now rewrite is_visited_visit_first, negb_orb.
  - now rewrite Hv.
Qed.

Lemma unvisited_ext (h h' : Heap) :
  (forall l, is_visited pass l h' = is_visited pass l h) ->
  unvisited pass M h' = unvisited pass M h.
Proof. intros H. unfold unvisited. apply filter_ext. intros l. now rewrite H. Qed.

Lemma walk_refl (h : Heap) (i : Z) : walk pass M h i h i.
Proof.
  constructor; auto.
  - lia.
  - intros l H1 H2. congruence.
Qed.

Lemma walk_trans (h h1 h2 : Heap) (i i1 i2 : Z) :
  walk pass M h i h1 i1 -> walk pass M h1 i1 h2 i2 -> walk pass M h i h2 i2.
Proof.
  intros [C1 K1 O1 N1 S1] [C2 K2 O2 N2 S2]. constructor.
  - lia.
  - auto.
  - intros l H. rewrite O2, O1; auto.
  - intros l H H2. destruct (is_visited pass l h1) eqn:E.
    + destruct (N1 l H E) as [Hin Hr]. split; auto. rewrite O2; auto. lia.
    + destruct (N2 l E H2) as [Hin Hr]. split; auto. lia.
  - intros l. now rewrite S2, S1.
Qed.

End Counting.

Section Numbering.
Import Scope.

Variable lam_succs lam_preds : Lambda -> list Lambda.
Variable sc : Scope.
Variable pass : nat.
Variable M : list Lambda.
Hypothesis M_nodup : NoDup M.

Local Abbreviation ready := (Scope.ready sc pass M).

Lemma ready_walk (f : nat) (h h' : Heap) (i i' : Z) :
  ready f h i -> walk pass M h i h' i' -> ready f h' i'.
Proof.
  intros (Hf & Hc & Hi & Hw) [C K O N S]. repeat split; try lia.
  intros l Hl. apply Hc. now rewrite <- (contains_scope sc l h h' (S l)).
Qed.

Lemma number_succs_walk (f : nat)
  (rec : Lambda -> Z -> Heap -> outcome (Heap * Z)) :
  (forall cur i h,
      ready f h i -> In cur M -> is_visited pass cur h = false ->
      exists h' i', rec cur i h = Done (h', i') /\ walk pass M h i h' i') ->
  forall succs i h,
    ready f h i ->
    exists h' i', number_succs rec sc pass succs i h = Done (h', i') /\
                  walk pass M h i h' i'.
Proof.
  intros Hrec succs. induction succs as [|succ rest IH]; intros i h Hr; simpl.
  - exists h, i. split; auto. apply walk_refl.
  - destruct (contains sc succ h) eqn:Ec; simpl; [| now apply IH].
    destruct (is_visited pass succ h) eqn:Ev; simpl; [now apply IH |].
    destruct (Hrec succ i h Hr) as (h1 & i1 & E1 & W1); auto.
    { destruct Hr as (_ & Hc & _). now apply Hc. }
    rewrite E1. simpl.
    destruct (IH i1 h1 (ready_walk _ _ _ _ _ Hr W1)) as (h2 & i2 & E2 & W2).
    exists h2, i2. split; auto. eapply walk_trans; eauto.
Qed.

Lemma walk_visit_first (cur : Lambda) (h : Heap) (i : Z) (f : nat) :
  ready (S f) h i -> In cur M -> is_visited pass cur h = false ->
  ready f (visit_first pass cur h) i /\
  S (length (unvisited pass M (visit_first pass cur h))) = length (unvisited pass M h).
Proof.
  intros (Hf & Hc & Hi & Hw) Hin Hv.
  pose proof (unvisited_visit_first pass M M_nodup cur h Hin Hv) as U.
  split; auto. repeat split; try lia.
  intros l Hl. apply Hc.
  now rewrite <- (contains_scope sc l h _ (scope_visit_first pass cur l h)).
Qed.

Lemma number_walk (fuel : nat) :
  forall cur i h,
    ready fuel h i -> In cur M -> is_visited pass cur h = false ->
    exists h' i', number lam_succs lam_preds fuel sc true pass cur i h = Done (h', i') /\
                  walk pass M h i h' i'.
Proof.
  induction fuel as [|f IH]; intros cur i h Hr Hin Hv.
  - exfalso. destruct Hr as (Hf & _).
    assert (In cur (unvisited pass M h)).
    { apply filter_In. split; auto. now rewrite Hv. }
    destruct (unvisited pass M h); [contradiction | simpl in Hf; lia].
  - destruct (walk_visit_first cur h i f Hr Hin Hv) as (Hr1 & U).
    cbn [number].
    destruct (number_succs_walk f _ IH (lam_succs cur) i _ Hr1) as (h2 & i2 & E2 & W2).
    rewrite E2. cbn [bind].
    destruct W2 as [C K O N S]. destruct Hr as (Hf & Hc & Hi & Hw).
    assert (Wi : wrap (i2 + 1) = i2 + 1) by (apply wrap_small; lia).
    rewrite Wi. eexists. eexists. split; [reflexivity|].
    constructor.
    + rewrite (unvisited_ext pass M h2 (set_sid cur i2 h2))
        by (intros; apply is_visited_set_sid). lia.
    + intros l Hl. rewrite is_visited_set_sid. apply K.
      rewrite is_visited_visit_first, Hl. apply orb_true_r.
    + intros l Hl. rewrite sid_set_sid.
      destruct (l =? cur)%nat eqn:E.
      * apply Nat.eqb_eq in E. subst. congruence.
      * rewrite O, sid_visit_first; auto.
        rewrite is_visited_visit_first, Hl. apply orb_true_r.
    + intros l Hl Hl'. rewrite is_visited_set_sid in Hl'. rewrite sid_set_sid.
      destruct (l =? cur)%nat eqn:E.
      * apply Nat.eqb_eq in E. subst. split; auto. lia.
      * destruct (N l) as [Hm Hs]; auto.
        { rewrite is_visited_visit_first, E, Hl. reflexivity. }
        split; auto. lia.
    + intros l. now rewrite scope_set_sid, S, scope_visit_first.
Qed.

Lemma number_entries_walk (fuel : nat) (entries : list Lambda) :
  forall i h,
    ready fuel h i ->
    exists h' i', number_entries lam_succs lam_preds fuel sc pass entries i h
                  = Done (h', i') /\
                  walk pass M h i h' i'.
Proof.
  induction entries as [|e rest IH]; intros i h Hr; simpl.
  - exists h, i. split; auto. apply walk_refl.
  - destruct (number_succs_walk fuel _ (number_walk fuel) (lam_succs e) i h Hr)
      as (h1 & i1 & E1 & W1).
    rewrite E1. simpl.
    destruct (IH i1 h1 (ready_walk _ _ _ _ _ Hr W1)) as (h2 & i2 & E2 & W2).
    exists h2, i2. split; auto. eapply walk_trans; eauto.
Qed.

End Numbering.

Section Phases.
Import Scope.

Variable pass : nat.

Lemma mark_entries (entries : list Lambda) (h : Heap) :
  let h1 := fold_left (fun h e => visit_first pass e h) entries h in
  (forall l, is_visited pass l h1 = existsb (Nat.eqb l) entries || is_visited pass l h) /\
  (forall l, sid_ (h1 l) = sid_ (h l)) /\
  (forall l, scope_ (h1 l) = scope_ (h l)).
Proof.
  revert h. induction entries as [|e rest IH]; intros h; simpl.
  - auto.
  - destruct (IH (visit_first pass e h)) as (V & S & C). repeat split; intros l.
    + rewrite V, is_visited_visit_first. now rewrite orb_assoc, (orb_comm (l =? e)%nat).
    + now rewrite S, sid_visit_first.
    + now rewrite C, scope_visit_first.
Qed.

Lemma mark_entries_count (M entries : list Lambda) (h : Heap) :
  NoDup M -> NoDup entries -> incl entries M ->
  (forall l, In l entries -> is_visited pass l h = false) ->
  (length (unvisited pass M (fold_left (fun h e => visit_first pass e h) entries h))
   + length entries = length (unvisited pass M h))%nat.
Proof.
  intros HM. revert h.
  induction entries as [|e rest IH]; intros h Hnd Hinc Hv; cbn [fold_left length].
  - lia.
  - inversion Hnd as [|? ? Hne Hnd']; subst.
    assert (U : S (length (unvisited pass M (visit_first pass e h)))
                = length (unvisited pass M h)).
    { apply unvisited_visit_first; auto.
      - apply Hinc. now left.
      - apply Hv. now left. }
    assert (I : (length (unvisited pass M
                           (fold_left (fun h e => visit_first pass e h) rest
                              (visit_first pass e h)))
                 + length rest
                 = length (unvisited pass M (visit_first pass e h)))%nat).
    { apply IH; auto.
      - intros l Hl. apply Hinc. now right.
      - intros l Hl. rewrite is_visited_visit_first.
        assert (l <> e) by (intros ->; contradiction).
        apply Nat.eqb_neq in H. rewrite H. apply Hv. now right. }
    lia.
Qed.

Lemma number_back_spec (l : list Lambda) :
  forall n h,
    NoDup l -> 0 <= n -> n + Z.of_nat (length l) < size_t_modulus ->
    let '(h', n') := number_back l n h in
    n' = n + Z.of_nat (length l) /\
    (forall j e, nth_error l j = Some e -> sid_ (h' e) = n + Z.of_nat j) /\
    (forall x, ~ In x l -> sid_ (h' x) = sid_ (h x)) /\
    (forall x, is_visited pass x h' = is_visited pass x h) /\
    (forall x, scope_ (h' x) = scope_ (h x)).
Proof.
  induction l as [|e rest IH]; intros n h Hnd Hn Hb; simpl.
  - repeat split; auto; try lia. intros [|j] e H; discriminate.
  - inversion Hnd as [|? ? Hne Hnd']; subst. simpl length in Hb.
    assert (W : wrap (n + 1) = n + 1) by (apply wrap_small; lia).
    rewrite W.
    specialize (IH (n + 1) (set_sid e n h) Hnd').
    destruct (number_back rest (n + 1) (set_sid e n h)) as [h' n'].
    destruct IH as (E & J & X & V & C); try lia.
    repeat split.
    + lia.
    + intros [|j] e' H; simpl in H.
      * inversion H; subst e'. rewrite X by auto.
        rewrite sid_set_sid, Nat.eqb_refl. lia.
      * rewrite (J j e' H). lia.
    + intros x Hx. rewrite X by tauto. rewrite sid_set_sid.
      destruct (x =? e)%nat eqn:Ex; auto.
      apply Nat.eqb_eq in Ex. subst. tauto.
    + intros x. now rewrite V, is_visited_set_sid.
    + intros x. now rewrite C, scope_set_sid.
Qed.

Lemma convert_other (num : Z) (h : Heap) (x l : Lambda) :
  l <> x ->
  sid_ (convert pass num h x l) = sid_ (h l) /\
  is_visited pass l (convert pass num h x) = is_visited pass l h.
Proof.
  intros Hne. apply Nat.eqb_neq in Hne. unfold convert.
  destruct (is_visited pass x h).
  - now rewrite sid_set_sid, Hne, is_visited_set_sid.
  - now rewrite sid_set_sid, Hne, sid_set_scope, is_visited_set_sid, is_visited_set_scope.
Qed.

Lemma convert_self (num : Z) (h : Heap) (x : Lambda) :
  sid_ (convert pass num h x x) =
    (if is_visited pass x h then wrap (num - 1 - sid_ (h x)) else size_t_bottom) /\
  is_visited pass x (convert pass num h x) = is_visited pass x h.
Proof.
  unfold convert. destruct (is_visited pass x h) eqn:E.
  - now rewrite sid_set_sid, Nat.eqb_refl, is_visited_set_sid.
  - now rewrite sid_set_sid, Nat.eqb_refl, is_visited_set_sid, is_visited_set_scope.
Qed.

Lemma convert_all (num : Z) (L : list Lambda) :
  forall h,
    NoDup L ->
    let h4 := fold_left (convert pass num) L h in
    (forall l, In l L ->
               sid_ (h4 l) = if is_visited pass l h
                             then wrap (num - 1 - sid_ (h l)) else size_t_bottom) /\
    (forall l, ~ In l L -> sid_ (h4 l) = sid_ (h l)) /\
    (forall l, is_visited pass l h4 = is_visited pass l h).
Proof.
  induction L as [|x rest IH]; intros h Hnd; simpl.
  - repeat split; auto. contradiction.
  - inversion Hnd as [|? ? Hx Hnd']; subst.
    destruct (IH (convert pass num h x) Hnd') as (A & B & C).
    repeat split.
    + intros l [-> | Hl].
      * rewrite B by auto. apply convert_self.
      * assert (Hne : l <> x) by (intros ->; contradiction).
        destruct (convert_other num h x l Hne) as [S V].
        now rewrite (A l Hl), V, S.
    + intros l Hl.
      assert (Hne : l <> x) by (intros ->; apply Hl; now left).
      rewrite B by (intros Q; apply Hl; now right).
      apply (convert_other num h x l Hne).
    + intros l. rewrite C. destruct (Nat.eq_dec l x) as [-> | Hne].
      * apply convert_self.
      * apply (convert_other num h x l Hne).
Qed.

End Phases.

Section Sorting.
Import Scope.

Variable h : Heap.

Local Abbreviation sid_le := (Scope.sid_le h).

Lemma sort_insert_perm (x : Lambda) (l : list Lambda) :
  Permutation (sort_insert h x l) (x :: l).
Proof.
  induction l as [|y r IH]; simpl; auto.
  destruct (ScopeLess h y x); auto.
  rewrite IH. apply perm_swap.
Qed.

Lemma sort_perm (l : list Lambda) : Permutation (sort h l) l.
Proof.
  induction l as [|x r IH]; simpl; auto.
  unfold sort in *. simpl. rewrite sort_insert_perm. now constructor.
Qed.

Lemma sort_insert_sorted (x : Lambda) (l : list Lambda) :
  StronglySorted sid_le l -> StronglySorted sid_le (sort_insert h x l).
Proof.
  induction 1 as [|y r Hr IH Hy]; simpl.
  - repeat constructor.
  - unfold ScopeLess. destruct (sid_ (h y) <? sid_ (h x)) eqn:E.
    + apply Z.ltb_lt in E. constructor; auto.
      apply (Permutation_Forall (Permutation_sym (sort_insert_perm x r))).
      constructor; auto. unfold sid_le. lia.
    + apply Z.ltb_ge in E. constructor.
      * now constructor.
      * constructor; [exact E|].
        eapply Forall_impl; [| exact Hy]. unfold sid_le. intros a Ha. simpl in Ha. lia.
Qed.

Lemma sort_sorted (l : list Lambda) : StronglySorted sid_le (sort h l).
Proof.
  induction l as [|x r IH]; simpl.
  - constructor.
  - now apply sort_insert_sorted.
Qed.

Lemma sorted_prefix (B : Z) (l : list Lambda) :
  StronglySorted sid_le l ->
  firstn (length (filter (fun x => sid_ (h x) <? B) l)) l =
  filter (fun x => sid_ (h x) <? B) l.
Proof.
  induction 1 as [|a r Hr IH Ha]; simpl; auto.
  destruct (sid_ (h a) <? B) eqn:E; simpl.
  - now rewrite IH.
  - assert (N : filter (fun x => sid_ (h x) <? B) r = []).
    { apply Z.ltb_ge in E. clear IH Hr. induction Ha as [|y r Hy _ IHr]; simpl; auto.
      unfold sid_le in Hy. assert (Q : (sid_ (h y) <? B) = false) by (apply Z.ltb_ge; lia).
      now rewrite Q. }
    rewrite N. reflexivity.
Qed.

End Sorting.

Section Process.
Import Scope.

Variable lam_succs lam_preds : Lambda -> list Lambda.

Lemma filter_split_length {A : Type} (f : A -> bool) (l : list A) :
  (length (filter f l) + length (filter (fun x => negb (f x)) l) = length l)%nat.
Proof.
  induction l as [|x r IH]; simpl; auto. destruct (f x); simpl; lia.
Qed.

Lemma filter_perm_length {A : Type} (f : A -> bool) (l l' : list A) :
  Permutation l l' -> length (filter f l) = length (filter f l').
Proof.
  induction 1 as [| x l l' _ IH | x y l | l l' l'' _ IH1 _ IH2]; simpl; auto.
  - destruct (f x); simpl; auto.
  - destruct (f x), (f y); simpl; auto.
  - congruence.
Qed.

Lemma In_existsb_eqb (l : Lambda) (L : list Lambda) :
  existsb (Nat.eqb l) L = true <-> In l L.
Proof.
  rewrite existsb_exists. split.
  - intros (x & Hx & E). apply Nat.eqb_eq in E. now subst.
  - intros H. exists l. split; auto. apply Nat.eqb_refl.
Qed.

End Process.

Section ScopeExamples.
Import Scope Examples.

(** The diamond of the specification's scenario: reverse postorder
    [A, C, B, D] with [sid(A) = 0] and [sid(D) = 3]; the member [E] that
    the walk does not reach is dropped and carries [size_t(-1)]. *)
Example process_diamond :
  exists sc' w',
    process diamond_succs diamond_preds 5 [0%nat]
      (fst diamond_analyzed) (snd diamond_analyzed) = Done (sc', w') /\
    rpo sc' = [0; 2; 1; 3]%nat /\
    map (fun l => sid_ (heap w' l)) [0; 1; 2; 3; 4]%nat = [0; 2; 1; 3; size_t_bottom] /\
    scope_ (heap w' 4%nat) = None.
Proof.
  eexists. eexists. split; [vm_compute; reflexivity |].
  repeat split.
Qed.

(** [~Scope] writes [scope_] only. *)
Lemma Scope_delete_sid (sc : Scope) (w : World) (l : Lambda) :
  sid_ (heap (Scope_delete sc w) l) = sid_ (heap w l) /\
  backwards_sid_ (heap (Scope_delete sc w) l) = backwards_sid_ (heap w l).
Proof.
  unfold Scope_delete. cbn [heap]. generalize (heap w). clear w.
  induction (rpo_ sc) as [|x r IH]; intros h; simpl; auto.
  destruct (IH (set_scope x None h)) as [A B].
  now rewrite A, B, sid_set_scope, backwards_sid_set_scope.
Qed.

(** C7, at a scope of the single lambda [A]: the constructor numbers
    [A] with sid 0; the destructor resets its back pointer [scope_] and
    leaves [sid_] at 0, not at [size_t(-1)]. *)
Theorem Scope_delete_leaves_sid :
  exists sc w,
    Scope_new no_edges no_edges 1 1 [0%nat] [0%nat] fresh_world = Done (sc, w) /\
    rpo sc = [0%nat] /\
    sid_ (heap w 0%nat) = 0 /\
    scope_ (heap w 0%nat) = Some 1%nat /\
    scope_ (heap (Scope_delete sc w) 0%nat) = None /\
    sid_ (heap (Scope_delete sc w) 0%nat) = 0 /\
    sid_ (heap (Scope_delete sc w) 0%nat) <> size_t_bottom.
Proof.
  eexists. eexists. split; [vm_compute; reflexivity |].
  repeat split. discriminate.
Qed.

(** [backwards_rpo] returns the world it was given. *)
Lemma backwards_rpo_world (succs : Lambda -> list Lambda) (sc sc' : Scope)
  (w w' : World) (a : list (option Lambda)) :
  backwards_rpo succs sc w = Done (sc', w', a) -> w' = w.
Proof.
  unfold backwards_rpo. destruct (backwards_rpo_ sc).
  - intros E. now inversion E.
  - destruct (collect_exits succs (rpo sc) sc (heap w) []) as [[sc1 exits]| |];
      simpl; try discriminate.
    intros E. now inversion E.
Qed.

(** C8, at a scope of the single lambda [A], which is an exit:
    [backwards_rpo] counts the exit and returns an array of one empty
    slot; no lambda is numbered, and the [backwards_sid] of [A] is still
    [size_t(-1)]. *)
Theorem backwards_rpo_numbers_nothing :
  exists sc w sc' w' a,
    Scope_new no_edges no_edges 1 1 [0%nat] [0%nat] fresh_world = Done (sc, w) /\
    backwards_rpo no_edges sc w = Done (sc', w', a) /\
    num_exits_ sc' = 1 /\
    a = [None] /\
    w' = w /\
    backwards_sid_ (heap w' 0%nat) = size_t_bottom.
Proof.
  do 5 eexists. split; [vm_compute; reflexivity |].
  split; [vm_compute; reflexivity |]. repeat split.
Qed.

End ScopeExamples.

(** ** Dominator trees *)

Section Dominators.
Import DomTree.

Variable v : ScopeView.
Variable forwards : bool.

Local Abbreviation index := (DomTree.index v forwards).
Local Abbreviation slotted := (DomTree.slotted v forwards).


Lemma above_trans (nodes : Nodes) (c b a : Z) :
  above nodes c b -> above nodes b a -> above nodes c a.
Proof.
  intros Hcb Hba. induction Hba as [| x n y Hx Hy _ IH]; auto.
  eapply above_idom; eauto.
Qed.

Lemma above_root (nodes : Nodes) (r d : Z) (n : DomNode) :
  nodes r = Some n -> idom_ n = Some r -> above nodes d r -> d = r.
Proof.
  intros Hr Hi H. remember r as x eqn:E in H.
  induction H as [| x n' y Hx Hy _ IH]; auto.
  subst x. rewrite Hr in Hx. inversion Hx; subst n'.
  rewrite Hi in Hy. inversion Hy; subst y. auto.
Qed.


Lemma deref_Some (nodes : Nodes) (p : option Z) (n : DomNode) :
  deref nodes p = Done n -> exists i, p = Some i /\ nodes i = Some n.
Proof.
  unfold deref. destruct p as [i|]; [| discriminate].
  destruct (nodes i) as [m|] eqn:E; [| discriminate].
  intros H. inversion H; subst. eauto.
Qed.

Lemma lookup_Done (nodes : Nodes) (l : Lambda) (p : option Z) :
  lookup v forwards nodes l = Done p ->
  0 <= index l < size v /\
  (p = None \/ p = Some (index l)).
Proof.
  unfold lookup, at_.
  destruct ((0 <=? index l) && (index l <? size v)) eqn:E; [| discriminate].
  apply andb_true_iff in E. destruct E as [E1 E2].
  apply Z.leb_le in E1. apply Z.ltb_lt in E2. simpl.
  intros H. inversion H. split; [lia |].
  destruct (nodes (index l)); auto.
Qed.

Lemma lookup_deref (nodes : Nodes) (l : Lambda) (p : option Z) (n : DomNode) :
  lookup v forwards nodes l = Done p -> deref nodes p = Done n ->
  p = Some (index l) /\ nodes (index l) = Some n /\ 0 <= index l < size v.
Proof.
  intros L D. destruct (lookup_Done _ _ _ L) as [R [-> | ->]].
  - discriminate.
  - apply deref_Some in D. destruct D as (i & E & N). inversion E; subst. auto.
Qed.

Lemma lca_above (fuel : nat) (nodes : Nodes) :
  slotted nodes ->
  forall i j r,
    lca v forwards fuel nodes i j = Done r ->
    exists a b c, i = Some a /\ j = Some b /\ r = Some c /\
                  above nodes c a /\ above nodes c b.
Proof.
  intros Hs. induction fuel as [|f IH]; intros i j r; simpl; [discriminate|].
  unfold node_index.
  destruct (deref nodes i) as [ni| |] eqn:Di; simpl; try discriminate.
  destruct (deref nodes j) as [nj| |] eqn:Dj; simpl; try discriminate.
  destruct (deref_Some _ _ _ Di) as (a & -> & Na).
  destruct (deref_Some _ _ _ Dj) as (b & -> & Nb).
  rewrite (Hs a ni Na), (Hs b nj Nb).
  destruct (a =? b) eqn:E.
  - apply Z.eqb_eq in E. subst b. intros H. inversion H; subst.
    exists a, a, a. repeat split; constructor.
  - destruct (a <? b).
    + intros H. destruct (IH _ _ _ H) as (a' & b' & c & Ea & Eb & -> & Ha & Hb).
      inversion Ea; subst a'.
      exists a, b, c. repeat split; auto.
      eapply above_idom; eauto.
    + intros H. destruct (IH _ _ _ H) as (a' & b' & c & Ea & Eb & -> & Ha & Hb).
      inversion Eb; subst b'.
      exists a, b, c. repeat split; auto.
      eapply above_idom; eauto.
Qed.

Lemma new_idom_of_above (fuel : nat) (nodes : Nodes) :
  slotted nodes ->
  forall ps acc r,
    new_idom_of v forwards fuel nodes ps acc = Done r ->
    (forall a, acc = Some a -> exists c, r = Some c /\ above nodes c a) /\
    (forall p, In p ps -> exists c, r = Some c /\ above nodes c (index p)).
Proof.
  intros Hs ps. induction ps as [|pred rest IH]; intros acc r; simpl.
  - intros H. inversion H; subst. split.
    + intros a ->. exists a. split; auto. constructor.
    + contradiction.
  - destruct (lookup v forwards nodes pred) as [q| |] eqn:L; simpl; try discriminate.
    destruct q as [q|]; [| discriminate].
    destruct (lookup_Done _ _ _ L) as [_ [Q | Q]]; [discriminate |].
    inversion Q; subst q. clear Q.
    destruct acc as [a|].
    + destruct (lca v forwards fuel nodes (Some a) (Some (index pred))) as [n| |] eqn:C;
        simpl; try discriminate.
      destruct (lca_above fuel nodes Hs _ _ _ C) as (a' & b' & c0 & Ea & Eb & -> & Ha & Hb).
      inversion Ea; inversion Eb; subst a' b'.
      intros H. destruct (IH _ _ H) as [A P].
      destruct (A c0 eq_refl) as (c & -> & Hc).
      split.
      * intros x Hx. inversion Hx; subst x. exists c. split; auto.
        eapply above_trans; eauto.
      * intros p [<- | Hp].
        -- exists c. split; auto. eapply above_trans; eauto.
        -- now apply P.
    + intros H. destruct (IH _ _ H) as [A P].
      destruct (A (index pred) eq_refl) as (c & -> & Hc).
      split; [discriminate |].
      intros p [<- | Hp]; [| now apply P].
      exists c. auto.
Qed.


Lemma keeps_refl (nodes : Nodes) : keeps nodes nodes.
Proof. intros k. destruct (nodes k); eauto. Qed.

Lemma keeps_trans (a b c : Nodes) : keeps a b -> keeps b c -> keeps a c.
Proof.
  intros Hab Hbc k. specialize (Hab k). specialize (Hbc k).
  destruct (a k) as [n|].
  - destruct Hab as (n' & E & L). rewrite E in Hbc.
    destruct Hbc as (n'' & E' & L'). exists n''. split; auto. congruence.
  - now rewrite Hab in Hbc.
Qed.

Lemma keeps_slotted (nodes nodes' : Nodes) :
  keeps nodes nodes' -> slotted nodes -> slotted nodes'.
Proof.
  intros K S k n' H. specialize (K k). destruct (nodes k) as [n|] eqn:E.
  - destruct K as (m & Em & L). rewrite H in Em. inversion Em; subst m.
    rewrite L. now apply S.
  - congruence.
Qed.

Lemma set_idom_keeps (nodes : Nodes) (i : Z) (n : DomNode) (d : option Z) :
  nodes i = Some n -> keeps nodes (set_idom nodes i n d).
Proof.
  intros H k. unfold set_idom, store. destruct (k =? i) eqn:E.
  - apply Z.eqb_eq in E. subst k. rewrite H. eauto.
  - destruct (nodes k); eauto.
Qed.

Lemma set_idom_other (nodes : Nodes) (i k : Z) (n : DomNode) (d : option Z) :
  k <> i -> set_idom nodes i n d k = nodes k.
Proof.
  intros H. unfold set_idom, store. apply Z.eqb_neq in H. now rewrite H.
Qed.

Lemma set_idom_self (nodes : Nodes) (i : Z) (n : DomNode) (d : option Z) :
  set_idom nodes i n d i = Some (mkNode (lambda_ n) d (children_ n)).
Proof. unfold set_idom, store. now rewrite Z.eqb_refl. Qed.

(** *** The phases of [create] *)

Lemma alloc_nodes_range (ls : list Lambda) :
  forall nodes n1,
    alloc_nodes v forwards ls nodes = Done n1 ->
    forall l, In l ls -> 0 <= index l < size v.
Proof.
  induction ls as [|x rest IH]; intros nodes n1; simpl.
  - contradiction.
  - unfold at_ at 1.
    destruct ((0 <=? index x) && (index x <? size v)) eqn:E; simpl; [| discriminate].
    intros H l [<- | Hl].
    + apply andb_true_iff in E. destruct E as [E1 E2].
      apply Z.leb_le in E1. apply Z.ltb_lt in E2. lia.
    + eapply IH; eauto.
Qed.

Lemma alloc_nodes_other (ls : list Lambda) :
  forall nodes n1 k,
    alloc_nodes v forwards ls nodes = Done n1 ->
    (forall l, In l ls -> index l <> k) ->
    n1 k = nodes k.
Proof.
  induction ls as [|x rest IH]; intros nodes n1 k; simpl.
  - intros H _. now inversion H.
  - destruct (at_ v nodes (index x)); simpl; try discriminate.
    intros H Hk. rewrite (IH _ _ k H).
    + unfold store. assert (Q : k <> index x) by (intros ->; apply (Hk x); auto).
      apply Z.eqb_neq in Q. now rewrite Q.
    + intros l Hl. apply Hk. now right.
Qed.

Lemma alloc_nodes_slotted (ls : list Lambda) :
  forall nodes n1,
    alloc_nodes v forwards ls nodes = Done n1 -> slotted nodes -> slotted n1.
Proof.
  induction ls as [|x rest IH]; intros nodes n1; simpl.
  - intros H. now inversion H.
  - destruct (at_ v nodes (index x)); simpl; try discriminate.
    intros H S. apply (IH _ _ H).
    intros k n. unfold store. destruct (k =? index x) eqn:E.
    + apply Z.eqb_eq in E. intros Q. inversion Q; subst. reflexivity.
    + apply S.
Qed.

Lemma alloc_nodes_owned (ls : list Lambda) :
  NoDup (map index ls) ->
  forall nodes n1,
    alloc_nodes v forwards ls nodes = Done n1 ->
    forall l, In l ls -> exists n, n1 (index l) = Some n /\ lambda_ n = l.
Proof.
  induction ls as [|x rest IH]; intros Hnd nodes n1; simpl.
  - contradiction.
  - inversion Hnd as [|? ? Hx Hnd']; subst.
    destruct (at_ v nodes (index x)); simpl; try discriminate.
    intros H l [<- | Hl].
    + rewrite (alloc_nodes_other _ _ _ (index x) H).
      * unfold store. rewrite Z.eqb_refl. eauto.
      * intros l Hl E. apply Hx. rewrite <- E. now apply in_map.
    + eapply IH; eauto.
Qed.

Lemma init_entries_spec (es : list Lambda) :
  forall nodes n2,
    init_entries v forwards es nodes = Done n2 ->
    keeps nodes n2 /\
    (forall k n, nodes k = Some n -> idom_ n = Some k ->
                 exists n', n2 k = Some n' /\ idom_ n' = Some k) /\
    (forall e, In e es -> exists n, n2 (index e) = Some n /\ idom_ n = Some (index e)).
Proof.
  induction es as [|e rest IH]; intros nodes n2; simpl.
  - intros H. inversion H; subst. repeat split.
    + apply keeps_refl.
    + eauto.
    + contradiction.
  - destruct (lookup v forwards nodes e) as [p| |] eqn:L; simpl; try discriminate.
    destruct (deref nodes p) as [n| |] eqn:D; simpl; try discriminate.
    destruct (lookup_deref _ _ _ _ L D) as (-> & N & _).
    intros H. destruct (IH _ _ H) as (K & Self & Es).
    assert (Here : exists n', n2 (index e) = Some n' /\ idom_ n' = Some (index e)).
    { apply (Self (index e) (mkNode (lambda_ n) (Some (index e)) (children_ n))).
      - apply set_idom_self.
      - reflexivity. }
    repeat split.
    + eapply keeps_trans; [| exact K]. now apply set_idom_keeps.
    + intros k m Hm Hi. destruct (Z.eq_dec k (index e)) as [-> | Hne]; auto.
      apply (Self k m); auto. now rewrite set_idom_other.
    + intros x [<- | Hx]; auto.
Qed.

Lemma init_body_spec (ls : list Lambda) :
  forall nodes n3,
    init_body v forwards ls nodes = Done n3 ->
    keeps nodes n3 /\
    (forall k, (forall l, In l ls -> index l <> k) -> n3 k = nodes k).
Proof.
  induction ls as [|x rest IH]; intros nodes n3; simpl.
  - intros H. inversion H; subst. split; auto. apply keeps_refl.
  - destruct (first_dominating v forwards x (tree_preds v forwards x)); [| discriminate].
    destruct (lookup v forwards nodes x) as [p| |] eqn:L; simpl; try discriminate.
    destruct (deref nodes p) as [n| |] eqn:D; simpl; try discriminate.
    destruct (lookup v forwards nodes l) as [q| |]; simpl; try discriminate.
    destruct (lookup_deref _ _ _ _ L D) as (-> & N & _).
    intros H. destruct (IH _ _ H) as (K & O). split.
    + eapply keeps_trans; [| exact K]. now apply set_idom_keeps.
    + intros k Hk. rewrite O.
      * apply set_idom_other. intros ->. apply (Hk x); auto.
      * intros y Hy. apply Hk. now right.
Qed.

Lemma sweep_spec (fuel : nat) (ls : list Lambda) :
  forall nodes changed nodes' changed',
    sweep v forwards fuel ls nodes changed = Done (nodes', changed') ->
    keeps nodes nodes' /\
    (forall k, (forall l, In l ls -> index l <> k) -> nodes' k = nodes k) /\
    (changed = true -> changed' = true) /\
    (changed' = false -> nodes' = nodes).
Proof.
  induction ls as [|x rest IH]; intros nodes changed nodes' changed'; simpl.
  - intros H. inversion H; subst. repeat split; auto. apply keeps_refl.
  - destruct (lookup v forwards nodes x) as [p| |] eqn:L; simpl; try discriminate.
    destruct (deref nodes p) as [n| |] eqn:D; simpl; try discriminate.
    destruct (new_idom_of v forwards fuel nodes (tree_preds v forwards x) None)
      as [ni| |]; simpl; try discriminate.
    destruct ni as [c|]; [| discriminate].
    destruct (lookup_deref _ _ _ _ L D) as (-> & N & _).
    destruct (negb (option_Z_eqb (idom_ n) (Some c))).
    + intros H. destruct (IH _ _ _ _ H) as (K & O & T & F). repeat split.
      * eapply keeps_trans; [| exact K]. now apply set_idom_keeps.
      * intros k Hk. rewrite O.
        -- apply set_idom_other. intros ->. apply (Hk x); auto.
        -- intros y Hy. apply Hk. now right.
      * auto.
      * intros E. rewrite T in E by auto. discriminate.
    + intros H. destruct (IH _ _ _ _ H) as (K & O & T & F). repeat split; auto.
Qed.

Lemma sweep_fixed (fuel : nat) (ls : list Lambda) (nodes : Nodes) :
  sweep v forwards fuel ls nodes false = Done (nodes, false) ->
  forall l, In l ls ->
    exists n c, nodes (index l) = Some n /\ idom_ n = Some c /\
                new_idom_of v forwards fuel nodes (tree_preds v forwards l) None
                = Done (Some c).
Proof.
  induction ls as [|x rest IH]; simpl.
  - contradiction.
  - destruct (lookup v forwards nodes x) as [p| |] eqn:L; simpl; try discriminate.
    destruct (deref nodes p) as [n| |] eqn:D; simpl; try discriminate.
    destruct (new_idom_of v forwards fuel nodes (tree_preds v forwards x) None)
      as [ni| |] eqn:NI; simpl; try discriminate.
    destruct ni as [c|]; [| discriminate].
    destruct (lookup_deref _ _ _ _ L D) as (-> & N & _).
    destruct (option_Z_eqb (idom_ n) (Some c)) eqn:E; simpl.
    + intros H l [<- | Hl]; [| now apply IH].
      exists n, c. repeat split; auto.
      destruct (idom_ n) as [d|]; simpl in E; [| discriminate].
      apply Z.eqb_eq in E. now subst.
    + intros H. destruct (sweep_spec _ _ _ _ _ _ H) as (_ & _ & T & _).
      discriminate (T eq_refl).
Qed.

Lemma iterate_spec (fuel lca_fuel : nat) (ls : list Lambda) :
  forall nodes n4,
    iterate v forwards fuel lca_fuel ls nodes = Done n4 ->
    keeps nodes n4 /\
    (forall k, (forall l, In l ls -> index l <> k) -> n4 k = nodes k) /\
    sweep v forwards lca_fuel ls n4 false = Done (n4, false).
Proof.
  induction fuel as [|f IH]; intros nodes n4; simpl; [discriminate |].
  destruct (sweep v forwards lca_fuel ls nodes false) as [[nodes' changed]| |] eqn:S;
    simpl; try discriminate.
  destruct (sweep_spec _ _ _ _ _ _ S) as (K & O & _ & F).
  destruct changed.
  - intros H. destruct (IH _ _ H) as (K' & O' & S'). repeat split; auto.
    + eapply keeps_trans; eauto.
    + intros k Hk. rewrite O', O; auto.
  - intros H. inversion H; subst n4. rewrite (F eq_refl) in *. auto.
Qed.

Lemma add_children_spec (ls : list Lambda) :
  forall nodes t,
    add_children v forwards ls nodes = Done t ->
    forall k, match nodes k with
              | None => t k = None
              | Some n => exists n', t k = Some n' /\ lambda_ n' = lambda_ n /\
                                     idom_ n' = idom_ n
              end.
Proof.
  induction ls as [|x rest IH]; intros nodes t; simpl.
  - intros H k. inversion H; subst. destruct (t k); eauto.
  - destruct (lookup v forwards nodes x) as [p| |] eqn:L; simpl; try discriminate.
    destruct (deref nodes p) as [n| |] eqn:D; simpl; try discriminate.
    destruct (deref nodes (idom_ n)) as [parent| |] eqn:P; simpl; try discriminate.
    destruct (idom_ n) as [d|] eqn:I; [| discriminate].
    destruct p as [me|]; [| discriminate].
    destruct (deref_Some _ _ _ P) as (d' & Ed & Nd). inversion Ed; subst d'.
    intros H k. specialize (IH _ _ H k). unfold store in IH.
    destruct (k =? d) eqn:E.
    + apply Z.eqb_eq in E. subst k. rewrite Nd.
      destruct IH as (n' & A & B & C). eauto.
    + exact IH.
Qed.

Lemma above_add_children (nodes t : Nodes) (c x : Z) :
  (forall k, match nodes k with
             | None => t k = None
             | Some n => exists n', t k = Some n' /\ lambda_ n' = lambda_ n /\
                                    idom_ n' = idom_ n
             end) ->
  above nodes c x -> above t c x.
Proof.
  intros K H. induction H as [| x n y Hx Hy _ IH]; [constructor |].
  specialize (K x). rewrite Hx in K. destruct K as (n' & A & _ & C).
  eapply above_idom; eauto. congruence.
Qed.

End Dominators.

(** *** [create] returns on a scope with one entry *)

(** The fixed-point loop ends because every change moves an [idom_]
    pointer to a proper ancestor of its old target in the current tree,
    so that the set of nodes above any node only shrinks.  Two invariants
    carry this through a sweep: [meets_above] (the new [idom_] of a
    lambda is above the old one) and [anchored] (a lambda below the node
    that is being moved still has a predecessor below that node). *)

Section DominatorTermination.
Import DomTree.

Variable v : ScopeView.

(** The scope has one entry and is numbered as [Scope] numbers it. *)
Hypothesis Hnum : numbered v.
Hypothesis Hone : num_entries v = 1%nat.

(** Every body lambda has a predecessor of smaller sid (the code marks
    the other case unreachable), and predecessors are taken inside the
    scope. *)
Hypothesis Hlow : forall l, In l (body v) -> exists p, In p (preds v l) /\ sid v p < sid v l.
Hypothesis Hin : forall l p, In l (rpo v) -> In p (preds v l) -> In p (rpo v).

Lemma numbered_range (l : Lambda) : In l (rpo v) -> 0 <= sid v l < size v.
Proof.
  intros H. apply In_nth_error in H. destruct H as (i & H).
  rewrite (Hnum i l H). unfold size.
  assert (i < length (rpo v))%nat by (apply nth_error_Some; congruence). lia.
Qed.

Lemma numbered_at (k : Z) :
  0 <= k < size v -> exists l, nth_error (rpo v) (Z.to_nat k) = Some l /\ sid v l = k.
Proof.
  intros H. unfold size in H.
  destruct (nth_error (rpo v) (Z.to_nat k)) as [l|] eqn:E.
  - exists l. split; auto. rewrite (Hnum _ _ E). lia.
  - apply nth_error_None in E. lia.
Qed.

Lemma numbered_inj (l l' : Lambda) :
  In l (rpo v) -> In l' (rpo v) -> sid v l = sid v l' -> l = l'.
Proof.
  intros H H' E. apply In_nth_error in H, H'.
  destruct H as (i & H). destruct H' as (i' & H').
  rewrite (Hnum _ _ H), (Hnum _ _ H') in E.
  assert (i = i') by lia. subst. congruence.
Qed.

Lemma numbered_NoDup : NoDup (map (sid v) (rpo v)).
Proof.
  assert (G : forall l0 k, (forall i l, nth_error l0 i = Some l -> sid v l = Z.of_nat (k + i)) ->
                           NoDup (map (sid v) l0)).
  { induction l0 as [|x r IH]; intros k H; simpl; constructor.
    - intros Hx. apply in_map_iff in Hx. destruct Hx as (y & E & Hy).
      apply In_nth_error in Hy. destruct Hy as (i & Hi).
      pose proof (H 0%nat x eq_refl) as H0. pose proof (H (S i) y Hi) as H1. lia.
    - apply (IH (S k)). intros i l Hl. rewrite (H (S i) l Hl). lia. }
  apply (G (rpo v) 0%nat). intros i l H. now apply Hnum.
Qed.

Lemma skipn_cons {A : Type} (l : list A) (i : nat) (x : A) (r : list A) :
  skipn i l = x :: r -> nth_error l i = Some x /\ skipn (S i) l = r.
Proof.
  revert i. induction l as [|y l IH]; intros [|i]; simpl; try discriminate.
  - intros H. inversion H; subst. auto.
  - intros H. apply IH in H. exact H.
Qed.

Lemma body_members (l : Lambda) : In l (body v) -> In l (rpo v) /\ 1 <= sid v l.
Proof.
  unfold body. rewrite Hone. intros H.
  apply In_nth_error in H. destruct H as (i & H).
  rewrite nth_error_skipn in H. split.
  - eapply nth_error_In; eauto.
  - rewrite (Hnum _ _ H). lia.
Qed.

Lemma body_or_root (l : Lambda) : In l (rpo v) -> sid v l = 0 \/ In l (body v).
Proof.
  intros H. apply In_nth_error in H. destruct H as ([|i] & H).
  - left. now rewrite (Hnum _ _ H).
  - right. unfold body. rewrite Hone. apply nth_error_In with (n := i).
    now rewrite nth_error_skipn.
Qed.

(** *** Well-formed forests *)

Lemma rooted_node (nodes : Nodes) (k : Z) :
  rooted v nodes -> 0 <= k < size v ->
  exists n d, nodes k = Some n /\ In (lambda_ n) (rpo v) /\ sid v (lambda_ n) = k /\
              idom_ n = Some d /\ 0 <= d /\ (d < k \/ (d = 0 /\ k = 0)).
Proof.
  intros R Hk. destruct (numbered_at k Hk) as (l & Hl & E).
  apply nth_error_In in Hl. destruct (R l Hl) as (n & d & N & L & I & D0 & D1).
  rewrite E in *. exists n, d. subst l. auto 10.
Qed.

Lemma idom_at_eq (nodes : Nodes) (k d : Z) (n : DomNode) :
  nodes k = Some n -> idom_ n = Some d -> idom_at nodes k = d.
Proof. intros N I. unfold idom_at. now rewrite N, I. Qed.

Lemma above_range (nodes : Nodes) (d x : Z) :
  rooted v nodes -> 0 <= x < size v -> above nodes d x -> 0 <= d <= x.
Proof.
  intros R Hx H. induction H as [|x n y N I _ IH]; [lia |].
  destruct (rooted_node nodes x R Hx) as (n' & d' & N' & _ & _ & I' & D0 & D1).
  rewrite N in N'. inversion N'; subst n'. rewrite I in I'. inversion I'; subst d'.
  assert (0 <= y < size v) by lia. specialize (IH H). lia.
Qed.

Lemma above_inv (nodes : Nodes) (d x : Z) :
  above nodes d x -> d = x \/ above nodes d (idom_at nodes x).
Proof.
  intros H. inversion H as [|x' n y N I A]; subst; auto.
  right. now rewrite (idom_at_eq _ _ _ _ N I).
Qed.

(** *** [lca] returns the deepest common ancestor *)

Lemma lca_returns (nodes : Nodes) :
  slotted v true nodes -> rooted v nodes ->
  forall fuel i j,
    0 <= i < size v -> 0 <= j < size v ->
    (Z.to_nat i + Z.to_nat j < fuel)%nat ->
    exists c, lca v true fuel nodes (Some i) (Some j) = Done (Some c) /\
              above nodes c i /\ above nodes c j /\
              forall d, above nodes d i -> above nodes d j -> above nodes d c.
Proof.
  intros S R. induction fuel as [|fuel IH]; intros i j Hi Hj F; [lia |].
  destruct (rooted_node nodes i R Hi) as (ni & di & Ni & _ & Ei & Ii & Di0 & Di1).
  destruct (rooted_node nodes j R Hj) as (nj & dj & Nj & _ & Ej & Ij & Dj0 & Dj1).
  cbn [lca]. unfold node_index. cbn [deref]. rewrite Ni, Nj. cbn [bind].
  unfold index. rewrite Ei, Ej.
  destruct (i =? j) eqn:E.
  - apply Z.eqb_eq in E. rewrite <- E. exists i.
    split; [reflexivity |]. split; [apply above_self |]. split; [apply above_self | auto].
  - apply Z.eqb_neq in E. destruct (i <? j) eqn:L.
    + apply Z.ltb_lt in L. rewrite Ij.
      destruct (IH i dj) as (c & C & Ai & Aj & G); try lia.
      exists c. repeat split; auto.
      * eapply above_idom; eauto.
      * intros d Hdi Hdj. apply G; auto.
        destruct (above_inv _ _ _ Hdj) as [-> | Hd].
        -- pose proof (above_range _ _ _ R Hi Hdi). lia.
        -- now rewrite (idom_at_eq _ _ _ _ Nj Ij) in Hd.
    + apply Z.ltb_ge in L. rewrite Ii.
      destruct (IH di j) as (c & C & Ai & Aj & G); try lia.
      exists c. repeat split; auto.
      * eapply above_idom; eauto.
      * intros d Hdi Hdj. apply G; auto.
        destruct (above_inv _ _ _ Hdi) as [-> | Hd].
        -- pose proof (above_range _ _ _ R Hj Hdj). lia.
        -- now rewrite (idom_at_eq _ _ _ _ Ni Ii) in Hd.
Qed.

Lemma lookup_returns (nodes : Nodes) (l : Lambda) :
  rooted v nodes -> In l (rpo v) ->
  lookup v true nodes l = Done (Some (sid v l)).
Proof.
  intros R Hl. unfold lookup, at_, index.
  pose proof (numbered_range l Hl) as Rg.
  assert (E : (0 <=? sid v l) && (sid v l <? size v) = true).
  { apply andb_true_iff. split; [apply Z.leb_le | apply Z.ltb_lt]; lia. }
  rewrite E. cbn [bind].
  destruct (R l Hl) as (n & d & N & _). now rewrite N.
Qed.

(** The fold of [lca] over the predecessors returns their deepest common
    ancestor. *)
Lemma new_idom_of_returns (nodes : Nodes) (fuel : nat) :
  slotted v true nodes -> rooted v nodes ->
  (2 * length (rpo v) <= fuel)%nat ->
  forall ps a,
    (forall p, In p ps -> In p (rpo v)) ->
    0 <= a < size v ->
    exists c, new_idom_of v true fuel nodes ps (Some a) = Done (Some c) /\
              above nodes c a /\
              (forall p, In p ps -> above nodes c (sid v p)) /\
              forall d, above nodes d a ->
                        (forall p, In p ps -> above nodes d (sid v p)) ->
                        above nodes d c.
Proof.
  intros S R F. induction ps as [|p ps IH]; intros a Hps Ha.
  - exists a. simpl. split; [reflexivity |]. split; [apply above_self |].
    split; [contradiction | auto].
  - cbn [new_idom_of]. rewrite (lookup_returns nodes p R) by (apply Hps; now left).
    cbn [bind].
    assert (Hp : 0 <= sid v p < size v) by (apply numbered_range, Hps; now left).
    destruct (lca_returns nodes S R fuel a (sid v p) Ha Hp) as (c0 & C0 & A0 & P0 & G0).
    { unfold size in *. lia. }
    rewrite C0. cbn [bind].
    assert (Hc0 : 0 <= c0 < size v).
    { pose proof (above_range _ _ _ R Ha A0). lia. }
    destruct (IH c0) as (c & C & Ac & Pc & G); auto.
    { intros q Hq. apply Hps. now right. }
    exists c. repeat split; auto.
    + eapply above_trans; eauto.
    + intros q [<- | Hq]; [eapply above_trans; eauto | auto].
    + intros d Hd Hall. apply G.
      * apply G0; auto. apply Hall. now left.
      * intros q Hq. apply Hall. now right.
Qed.

Lemma new_idom_returns (nodes : Nodes) (fuel : nat) (l : Lambda) :
  slotted v true nodes -> rooted v nodes ->
  (2 * length (rpo v) <= fuel)%nat ->
  In l (body v) ->
  exists c, new_idom_of v true fuel nodes (preds v l) None = Done (Some c) /\
            (forall p, In p (preds v l) -> above nodes c (sid v p)) /\
            forall d, (forall p, In p (preds v l) -> above nodes d (sid v p)) ->
                      above nodes d c.
Proof.
  intros S R F Hl. destruct (body_members l Hl) as (Hr & _).
  assert (Hps : forall p, In p (preds v l) -> In p (rpo v)) by (intros p; apply Hin; auto).
  destruct (Hlow l Hl) as (p0 & Hp0 & _).
  destruct (preds v l) as [|p ps]; [contradiction |].
  cbn [new_idom_of]. rewrite (lookup_returns nodes p R) by (apply Hps; now left).
  cbn [bind].
  destruct (new_idom_of_returns nodes fuel S R F ps (sid v p)) as (c & C & A & P & G).
  { intros q Hq. apply Hps. now right. }
  { apply numbered_range, Hps. now left. }
  exists c. split; [exact C |]. split.
  - intros q [<- | Hq]; auto.
  - intros d Hd. apply G.
    + apply Hd. now left.
    + intros q Hq. apply Hd. now right.
Qed.

(** *** Moving a node up

    The node [m] is re-hung from its old [idom_], [dm], to the node [c]
    above [dm]. *)

Section MoveUp.

Variable nodes : Nodes.
Variable m dm c : Z.
Variable nm : DomNode.
Hypothesis Rt : rooted v nodes.
Hypothesis Hm : 0 <= m < size v.
Hypothesis Nm : nodes m = Some nm.
Hypothesis Im : idom_ nm = Some dm.
Hypothesis Hc : above nodes c dm.

Local Abbreviation nodes' := (set_idom nodes m nm (Some c)).

Lemma moved_self : nodes' m = Some (mkNode (lambda_ nm) (Some c) (children_ nm)).
Proof. apply set_idom_self. Qed.

Lemma moved_other (k : Z) : k <> m -> nodes' k = nodes k.
Proof. apply set_idom_other. Qed.

Lemma moved_shrinks (d x : Z) : above nodes' d x -> above nodes d x.
Proof.
  intros H. induction H as [|x n y N I _ IH]; [constructor |].
  destruct (Z.eq_dec x m) as [-> | Hne].
  - rewrite moved_self in N. inversion N; subst n. simpl in I. inversion I; subst y.
    eapply above_idom; eauto. eapply above_trans; eauto.
  - rewrite moved_other in N by auto. eapply above_idom; eauto.
Qed.

Lemma moved_outside (d x : Z) :
  above nodes d x -> ~ above nodes m x -> above nodes' d x.
Proof.
  intros H. induction H as [|x n y N I _ IH]; intros Hn; [constructor |].
  assert (x <> m) by (intros ->; apply Hn; constructor).
  eapply above_idom; [rewrite moved_other; eauto | eauto |].
  apply IH. intros A. apply Hn. eapply above_idom; eauto.
Qed.

Lemma dm_range : 0 <= dm /\ (dm < m \/ (dm = 0 /\ m = 0)).
Proof.
  destruct (rooted_node nodes m Rt Hm) as (n & d & N & _ & _ & I & D0 & D1).
  rewrite Nm in N. inversion N; subst n. rewrite Im in I. inversion I; subst d. auto.
Qed.

Lemma moved_high (d x : Z) :
  0 <= x < size v -> above nodes d x -> m <= d -> above nodes' d x.
Proof.
  intros Hx H. revert Hx. induction H as [|x n y N I A IH]; intros Hx Hd; [constructor |].
  destruct (rooted_node nodes x Rt Hx) as (n' & d' & N' & _ & _ & I' & D0 & D1).
  rewrite N in N'. inversion N'; subst n'. rewrite I in I'. inversion I'; subst d'.
  assert (Hy : 0 <= y < size v) by lia.
  pose proof (above_range _ _ _ Rt Hy A) as Ry.
  destruct (Z.eq_dec x m) as [-> | Hne].
  - assert (d = m) by lia. subst d. constructor.
  - eapply above_idom; [rewrite moved_other; eauto | eauto |]. now apply IH.
Qed.

Lemma moved_through (d x : Z) :
  0 <= x < size v -> above nodes' d x -> above nodes m x -> d < m -> above nodes' d c.
Proof.
  intros Hx H. revert Hx. induction H as [|x n y N I A IH]; intros Hx Hmx Hd.
  - pose proof (above_range _ _ _ Rt Hx Hmx). lia.
  - destruct (Z.eq_dec x m) as [-> | Hne].
    + rewrite moved_self in N. inversion N; subst n. simpl in I. inversion I; subst y.
      exact A.
    + rewrite moved_other in N by auto.
      destruct (rooted_node nodes x Rt Hx) as (n' & d' & N' & _ & _ & I' & D0 & D1).
      rewrite N in N'. inversion N'; subst n'. rewrite I in I'. inversion I'; subst d'.
      apply IH; auto; [lia |].
      destruct (above_inv _ _ _ Hmx) as [-> | Hup]; [contradiction |].
      now rewrite (idom_at_eq _ _ _ _ N I) in Hup.
Qed.

End MoveUp.

Lemma moved_low (nodes : Nodes) (m c : Z) (nm : DomNode) (d x : Z) :
  nodes m = Some nm ->
  above nodes d x ->
  (above nodes m x -> above (set_idom nodes m nm (Some c)) d c) ->
  above (set_idom nodes m nm (Some c)) d x.
Proof.
  intros Nm H. induction H as [|x n y N I A IH]; intros Hc; [constructor |].
  destruct (Z.eq_dec x m) as [-> | Hne].
  - eapply above_idom; [apply set_idom_self | reflexivity |].
    apply Hc. constructor.
  - eapply above_idom; [rewrite set_idom_other; eauto | eauto |].
    apply IH. intros Hm. apply Hc. eapply above_idom; eauto.
Qed.

Lemma list_sum_lt {A : Type} (f g : A -> nat) (l : list A) (x : A) :
  (forall i, In i l -> (g i <= f i)%nat) -> In x l -> (g x < f x)%nat ->
  (list_sum (map g l) < list_sum (map f l))%nat.
Proof.
  intros Hle Hx Hlt.
  assert (Le : forall l', (forall i, In i l' -> (g i <= f i)%nat) ->
                          (list_sum (map g l') <= list_sum (map f l'))%nat).
  { induction l' as [|y l' IH]; intros H; simpl; [lia |].
    pose proof (H y (or_introl eq_refl)). 
    assert (list_sum (map g l') <= list_sum (map f l'))%nat
      by (apply IH; intros i Hi; apply H; now right). lia. }
  induction l as [|y l IH]; simpl; [contradiction |].
  destruct Hx as [-> | Hx].
  - assert (list_sum (map g l) <= list_sum (map f l))%nat
      by (apply Le; intros i Hi; apply Hle; now right). lia.
  - pose proof (Hle y (or_introl eq_refl)).
    assert (list_sum (map g l) < list_sum (map f l))%nat
      by (apply IH; auto; intros i Hi; apply Hle; now right). lia.
Qed.

(** *** One step of the sweep *)

Section Step.

Variable nodes : Nodes.
Variable l : Lambda.
Variable nm : DomNode.
Variable dm c : Z.
Hypothesis St : slotted v true nodes.
Hypothesis Rt : rooted v nodes.
Hypothesis MA : meets_above v nodes.
Hypothesis AN : anchored v nodes (sid v l).
Hypothesis Hl : In l (body v).
Hypothesis Nm : nodes (sid v l) = Some nm.
Hypothesis Im : idom_ nm = Some dm.
Hypothesis Cp : forall p, In p (preds v l) -> above nodes c (sid v p).
Hypothesis Cg : forall d, (forall p, In p (preds v l) -> above nodes d (sid v p)) ->
                          above nodes d c.

Local Abbreviation m := (sid v l).
Local Abbreviation nodes' := (set_idom nodes (sid v l) nm (Some c)).

Lemma step_m : 0 <= m < size v.
Proof. apply numbered_range. now apply body_members. Qed.

Lemma step_c : 0 <= c < m.
Proof.
  destruct (Hlow l Hl) as (p & Hp & Lt).
  assert (Hr : 0 <= sid v p < size v).
  { apply numbered_range. apply (Hin l); auto. now apply body_members. }
  pose proof (above_range _ _ _ Rt Hr (Cp p Hp)). lia.
Qed.

Lemma step_c_dm : above nodes c dm.
Proof.
  pose proof (MA l Hl c Cp) as H. apply above_inv in H.
  rewrite (idom_at_eq _ _ _ _ Nm Im) in H. destruct H as [E | H]; auto.
  pose proof step_c. lia.
Qed.

Lemma step_not_below (x : Z) : 0 <= x < size v -> x < m -> ~ above nodes m x.
Proof. intros Hx Lt A. pose proof (above_range _ _ _ Rt Hx A). lia. Qed.

Lemma step_slotted : slotted v true nodes'.
Proof. eapply keeps_slotted; [| exact St]. now apply set_idom_keeps. Qed.

Lemma step_rooted : rooted v nodes'.
Proof.
  intros k Hk. destruct (Z.eq_dec (sid v k) m) as [E | Hne].
  - rewrite E. rewrite set_idom_self.
    destruct (Rt l (proj1 (body_members l Hl))) as (n & d & N & L & _).
    rewrite Nm in N. inversion N; subst n.
    assert (k = l).
    { apply numbered_inj; auto. now apply body_members. }
    subst k. pose proof step_c.
    eexists. exists c. split; [reflexivity |]. simpl. repeat split; auto; lia.
  - rewrite set_idom_other by auto. now apply Rt.
Qed.

Lemma step_meets : meets_above v nodes'.
Proof.
  intros k Hk d Hd.
  pose proof step_m as Rm. pose proof step_c as Rc. pose proof step_c_dm as Cd.
  destruct (body_members k Hk) as (Hkr & _).
  assert (Rk : 0 <= sid v k < size v) by now apply numbered_range.
  assert (Old : forall p, In p (preds v k) -> above nodes d (sid v p)).
  { intros p Hp. eapply moved_shrinks; eauto. }
  pose proof (MA k Hk d Old) as Ak.
  destruct (Z_lt_le_dec d m) as [Lt | Le].
  - apply moved_low; auto. intros Hmk.
    destruct (Z.eq_dec (sid v k) m) as [E | Hne].
    + assert (k = l) by (apply numbered_inj; auto; now apply body_members). subst k.
      apply moved_outside; auto.
      apply step_not_below; lia.
    + destruct (AN k Hk) as (pk & Hpk & Lpk & Apk).
      assert (Rp : 0 <= sid v pk < size v).
      { apply numbered_range. apply (Hin k); auto. }
      apply moved_through with (x := sid v pk); auto.
      apply Apk; [| right; lia].
      destruct (above_inv _ _ _ Hmk) as [E | Up]; [congruence | exact Up].
  - apply moved_high; auto.
Qed.

Lemma step_anchored : anchored v nodes' (m + 1).
Proof.
  intros k Hk.
  pose proof step_m as Rm. pose proof step_c as Rc. pose proof step_c_dm as Cd.
  destruct (body_members k Hk) as (Hkr & _).
  destruct (Z.eq_dec (sid v k) m) as [E | Hne].
  - assert (k = l) by (apply numbered_inj; auto; now apply body_members). subst k.
    destruct (Hlow l Hl) as (p & Hp & Lt). exists p. repeat split; auto.
    intros a Ha _.
    assert (Rp : 0 <= sid v p < size v).
    { apply numbered_range. apply (Hin l); auto. }
    rewrite (idom_at_eq _ _ _ _ (set_idom_self _ _ _ _) eq_refl) in Ha.
    apply moved_outside; auto.
    + eapply above_trans; [| apply Cp; auto]. eapply moved_shrinks; eauto.
    + apply step_not_below; auto.
  - destruct (AN k Hk) as (p & Hp & Lt & Ap). exists p. repeat split; auto.
    assert (Rp : 0 <= sid v p < size v).
    { apply numbered_range. apply (Hin k); auto. }
    intros a Ha Hcase.
    assert (Ea : idom_at nodes' (sid v k) = idom_at nodes (sid v k)).
    { unfold idom_at. now rewrite set_idom_other. }
    rewrite Ea in Ha.
    assert (Old : above nodes a (idom_at nodes (sid v k))) by (eapply moved_shrinks; eauto).
    destruct Hcase as [Lk | La].
    + apply moved_outside; auto.
      * apply Ap; auto. left. lia.
      * apply step_not_below; auto. lia.
    + apply moved_high; auto; [| lia].
      apply Ap; auto. right. lia.
Qed.

Lemma step_same : c = dm -> anchored v nodes (m + 1).
Proof.
  intros E k Hk.
  destruct (Z.eq_dec (sid v k) m) as [Ek | Hne].
  - assert (k = l).
    { apply numbered_inj; auto; now apply body_members. }
    subst k. destruct (Hlow l Hl) as (p & Hp & Lt). exists p. repeat split; auto.
    intros a Ha _. rewrite (idom_at_eq _ _ _ _ Nm Im) in Ha. subst dm.
    eapply above_trans; [exact Ha | now apply Cp].
  - destruct (AN k Hk) as (p & Hp & Lt & Ap). exists p. repeat split; auto.
    intros a Ha Hcase. apply Ap; auto. lia.
Qed.

Lemma step_weight : c <> dm -> (weight v nodes' < weight v nodes)%nat.
Proof.
  intros Hne. pose proof step_m as Rm. pose proof step_c as Rc.
  pose proof step_c_dm as Cd.
  assert (Rd : 0 <= dm < size v).
  { destruct (dm_range nodes m dm nm Rt Rm Nm Im). lia. }
  pose proof (above_range _ _ _ Rt Rd Cd) as Rcd.
  unfold weight. apply list_sum_lt with (x := Z.to_nat m).
  - intros i _. unfold idom_at.
    destruct (Z.eq_dec (Z.of_nat i) m) as [E | Ne].
    + rewrite E, set_idom_self, Nm, Im. simpl. lia.
    + rewrite set_idom_other by auto. lia.
  - apply in_seq. unfold size in Rm. lia.
  - rewrite Z2Nat.id by lia. unfold idom_at. rewrite set_idom_self, Nm, Im. simpl. lia.
Qed.

End Step.

(** *** A sweep returns *)

Lemma anchored_any (nodes : Nodes) (pos pos' : Z) :
  size v <= pos -> anchored v nodes pos -> anchored v nodes pos'.
Proof.
  intros Hp A l Hl. destruct (A l Hl) as (p & Hp' & Lt & Ap).
  exists p. repeat split; auto. intros a Ha _. apply Ap; auto.
  left. pose proof (numbered_range l (proj1 (body_members l Hl))). lia.
Qed.

Lemma sweep_returns (fuel : nat) :
  (2 * length (rpo v) <= fuel)%nat ->
  forall ls pos nodes changed,
    ls = skipn pos (rpo v) -> (1 <= pos)%nat ->
    slotted v true nodes -> rooted v nodes -> meets_above v nodes ->
    anchored v nodes (Z.of_nat pos) ->
    exists nodes' changed',
      sweep v true fuel ls nodes changed = Done (nodes', changed') /\
      slotted v true nodes' /\ rooted v nodes' /\ meets_above v nodes' /\
      anchored v nodes' (size v) /\
      (weight v nodes' <= weight v nodes)%nat /\
      (changed' = true -> changed = true \/ (weight v nodes' < weight v nodes)%nat).
Proof.
  intros F. induction ls as [|l rest IH]; intros pos nodes changed E Hpos St R MA AN.
  - exists nodes, changed. simpl. repeat split; auto.
    apply anchored_any with (pos := Z.of_nat pos); auto.
    symmetry in E. apply skipn_all_iff in E. unfold size. lia.
  - symmetry in E. apply skipn_cons in E. destruct E as (Hn & Er).
    pose proof (Hnum _ _ Hn) as Sl.
    assert (Hl : In l (body v)).
    { unfold body. rewrite Hone. apply nth_error_In with (n := (pos - 1)%nat).
      rewrite nth_error_skipn. now replace (1 + (pos - 1))%nat with pos by lia. }
    destruct (body_members l Hl) as (Hr & _).
    destruct (R l Hr) as (nm & dm & Nm & Lm & Im & D0 & D1).
    destruct (new_idom_returns nodes fuel l St R F Hl) as (c & C & Cp & Cg).
    rewrite <- Sl in AN.
    cbn [sweep]. rewrite (lookup_returns nodes l R Hr). cbn [bind deref].
    unfold index. rewrite Nm. cbn [bind]. unfold tree_preds. rewrite C. cbn [bind].
    rewrite Im. cbn [option_Z_eqb].
    destruct (dm =? c) eqn:Q; cbn [negb].
    + apply Z.eqb_eq in Q.
      destruct (IH (Datatypes.S pos) nodes changed) as (n' & ch' & Sw & S' & R' & M' & A' & W & Ch);
        auto.
      { replace (Z.of_nat (Datatypes.S pos)) with (sid v l + 1) by lia.
        eapply step_same; eauto. }
      exists n', ch'. repeat split; auto.
    + apply Z.eqb_neq in Q.
      assert (Wt : (weight v (set_idom nodes (sid v l) nm (Some c)) < weight v nodes)%nat).
      { eapply step_weight; eauto. }
      destruct (IH (Datatypes.S pos) (set_idom nodes (sid v l) nm (Some c)) true)
        as (n' & ch' & Sw & S' & R' & M' & A' & W & Ch); auto.
      { eapply step_slotted; eauto. }
      { eapply step_rooted; eauto. }
      { eapply step_meets; eauto. }
      { replace (Z.of_nat (Datatypes.S pos)) with (sid v l + 1) by lia.
        eapply step_anchored; eauto. }
      exists n', ch'. repeat split; auto; [lia |].
      intros _. right. lia.
Qed.

Lemma iterate_returns (lca_fuel : nat) :
  (2 * length (rpo v) <= lca_fuel)%nat ->
  forall fuel nodes,
    slotted v true nodes -> rooted v nodes -> meets_above v nodes ->
    anchored v nodes 1 ->
    (weight v nodes < fuel)%nat ->
    exists t, iterate v true fuel lca_fuel (body v) nodes = Done t /\
              slotted v true t /\ rooted v t.
Proof.
  intros F. induction fuel as [|fuel IH]; intros nodes St R MA AN W; [lia |].
  cbn [iterate].
  destruct (sweep_returns lca_fuel F (body v) 1%nat nodes false)
    as (n' & ch' & Sw & S' & R' & M' & A' & Wl & Ch); auto.
  { unfold body. now rewrite Hone. }
  rewrite Sw. cbn [bind]. destruct ch'.
  - destruct (Ch eq_refl) as [Q | Q]; [discriminate |].
    apply IH; auto; [| lia].
    apply anchored_any with (pos := size v); auto. lia.
  - eauto.
Qed.

(** *** The phases before and after the fixed point return *)

Lemma keeps_owned (nodes nodes' : Nodes) : keeps nodes nodes' -> owned v nodes -> owned v nodes'.
Proof.
  intros K O l Hl. destruct (O l Hl) as (n & N & L). specialize (K (sid v l)).
  rewrite N in K. destruct K as (n' & N' & L'). exists n'. split; auto. congruence.
Qed.

Lemma lookup_owned (nodes : Nodes) (l : Lambda) :
  owned v nodes -> In l (rpo v) -> lookup v true nodes l = Done (Some (sid v l)).
Proof.
  intros O Hl. unfold lookup, at_, index.
  pose proof (numbered_range l Hl) as Rg.
  assert (E : (0 <=? sid v l) && (sid v l <? size v) = true).
  { apply andb_true_iff. split; [apply Z.leb_le | apply Z.ltb_lt]; lia. }
  rewrite E. cbn [bind]. destruct (O l Hl) as (n & N & _). now rewrite N.
Qed.

Lemma alloc_nodes_returns (ls : list Lambda) :
  (forall l, In l ls -> In l (rpo v)) ->
  forall nodes, exists n1, alloc_nodes v true ls nodes = Done n1.
Proof.
  induction ls as [|l ls IH]; intros H nodes; simpl; [eauto |].
  unfold at_, index. pose proof (numbered_range l (H l (or_introl eq_refl))) as Rg.
  assert (E : (0 <=? sid v l) && (sid v l <? size v) = true).
  { apply andb_true_iff. split; [apply Z.leb_le | apply Z.ltb_lt]; lia. }
  rewrite E. cbn [bind]. apply IH. intros x Hx. apply H. now right.
Qed.

Lemma init_entries_returns (es : list Lambda) :
  (forall e, In e es -> In e (rpo v)) ->
  forall nodes, owned v nodes -> exists n2, init_entries v true es nodes = Done n2.
Proof.
  induction es as [|e es IH]; intros H nodes O; simpl; [eauto |].
  rewrite (lookup_owned nodes e O) by (apply H; now left). cbn [bind deref].
  destruct (O e (H e (or_introl eq_refl))) as (n & N & L). rewrite N. cbn [bind].
  apply IH.
  - intros x Hx. apply H. now right.
  - eapply keeps_owned; [| exact O]. now apply set_idom_keeps.
Qed.

Lemma first_dominating_finds (l : Lambda) (ps : list Lambda) :
  (exists p, In p ps /\ sid v p < sid v l) ->
  exists p, first_dominating v true l ps = Some p /\ In p ps /\ sid v p < sid v l.
Proof.
  induction ps as [|q ps IH]; intros (p & Hp & Lt); simpl; [contradiction |].
  unfold index. destruct (sid v q <? sid v l) eqn:E.
  - apply Z.ltb_lt in E. exists q. auto.
  - apply Z.ltb_ge in E. destruct Hp as [-> | Hp]; [lia |].
    destruct (IH (ex_intro _ p (conj Hp Lt))) as (p' & F & Hp' & Lt'). exists p'. auto.
Qed.

Lemma init_body_returns (ls : list Lambda) :
  (forall l, In l ls -> In l (body v)) ->
  NoDup (map (sid v) ls) ->
  forall nodes, owned v nodes ->
    exists n3, init_body v true ls nodes = Done n3 /\
               keeps nodes n3 /\
               (forall k, (forall l, In l ls -> sid v l <> k) -> n3 k = nodes k) /\
               forall l, In l ls ->
                 exists n p, n3 (sid v l) = Some n /\ lambda_ n = l /\
                             idom_ n = Some (sid v p) /\
                             In p (preds v l) /\ sid v p < sid v l.
Proof.
  induction ls as [|l ls IH]; intros H Nd nodes O.
  - exists nodes. simpl. repeat split; auto; try contradiction. apply keeps_refl.
  - inversion Nd as [|? ? Hnot Nd']; subst.
    assert (Hl : In l (body v)) by (apply H; now left).
    destruct (body_members l Hl) as (Hr & _).
    destruct (first_dominating_finds l (preds v l) (Hlow l Hl)) as (p & Fd & Hp & Lt).
    cbn [init_body]. unfold tree_preds. rewrite Fd.
    rewrite (lookup_owned nodes l O Hr). cbn [bind deref].
    destruct (O l Hr) as (n & N & L). unfold index. rewrite N. cbn [bind].
    rewrite (lookup_owned nodes p O (Hin l p Hr Hp)). cbn [bind].
    destruct (IH (fun x Hx => H x (or_intror Hx)) Nd'
                 (set_idom nodes (sid v l) n (Some (sid v p)))) as (n3 & E & K & Oth & Ids).
    { eapply keeps_owned; [| exact O]. now apply set_idom_keeps. }
    exists n3. split; [exact E |]. split; [| split].
    + eapply keeps_trans; [| exact K]. now apply set_idom_keeps.
    + intros k Hk. rewrite Oth.
      * apply set_idom_other. intros ->. apply (Hk l); [now left | reflexivity].
      * intros x Hx. apply Hk. now right.
    + intros x [<- | Hx]; [| now apply Ids].
      exists (mkNode (lambda_ n) (Some (sid v p)) (children_ n)), p.
      repeat split; auto.
      rewrite Oth; [apply set_idom_self |].
      intros y Hy E'. apply Hnot. rewrite <- E'. now apply in_map.
Qed.

Lemma rooted_linked (nodes : Nodes) : rooted v nodes -> linked v nodes.
Proof.
  intros R k Hk. destruct (rooted_node nodes k R Hk) as (n & d & N & _ & _ & I & D0 & D1).
  exists n, d. repeat split; auto; lia.
Qed.

Lemma add_children_returns (ls : list Lambda) :
  (forall l, In l ls -> In l (rpo v)) ->
  forall nodes, linked v nodes -> exists t, add_children v true ls nodes = Done t.
Proof.
  induction ls as [|l ls IH]; intros H nodes Lk; simpl; [eauto |].
  pose proof (numbered_range l (H l (or_introl eq_refl))) as Rg.
  destruct (Lk _ Rg) as (n & d & N & I & Rd).
  destruct (Lk _ Rd) as (parent & dp & Np & Ip & Rp).
  unfold lookup, at_, index.
  assert (E : (0 <=? sid v l) && (sid v l <? size v) = true).
  { apply andb_true_iff. split; [apply Z.leb_le | apply Z.ltb_lt]; lia. }
  rewrite E. cbn [bind]. rewrite N. cbn [bind deref]. rewrite N. cbn [bind].
  rewrite I. cbn [deref]. rewrite Np. cbn [bind].
  apply IH.
  - intros x Hx. apply H. now right.
  - intros k Hk. unfold store. destruct (k =? d) eqn:Q.
    + eexists. exists dp. split; [reflexivity |]. simpl. auto.
    + now apply Lk.
Qed.

(** *** The bound of the fixed-point loop *)

Lemma list_sum_bound {A : Type} (f : A -> nat) (l : list A) (b : nat) :
  (forall i, In i l -> (f i <= b)%nat) -> (list_sum (map f l) <= length l * b)%nat.
Proof.
  induction l as [|x l IH]; intros H; simpl; [lia |].
  pose proof (H x (or_introl eq_refl)).
  assert (list_sum (map f l) <= length l * b)%nat by (apply IH; intros i Hi; apply H; now right).
  lia.
Qed.

Lemma weight_bound (nodes : Nodes) :
  rooted v nodes -> (weight v nodes <= length (rpo v) * length (rpo v))%nat.
Proof.
  intros R. unfold weight.
  eapply Nat.le_trans;
    [apply list_sum_bound with (b := length (rpo v)) | rewrite length_seq; lia].
  intros i Hi. apply in_seq in Hi.
  assert (Hk : 0 <= Z.of_nat i < size v) by (unfold size; lia).
  destruct (rooted_node nodes _ R Hk) as (n & d & N & _ & _ & I & D0 & D1).
  rewrite (idom_at_eq _ _ _ _ N I). lia.
Qed.

Lemma create_returns (fuel : nat) :
  ((length (rpo v) + 1) * (length (rpo v) + 1) <= fuel)%nat ->
  exists t, create v true fuel = Done t.
Proof.
  intros F.
  assert (Split : rpo v = entries v ++ body v)
    by (unfold entries, body; symmetry; apply firstn_skipn).
  assert (He : forall e, In e (entries v) -> In e (rpo v)).
  { intros e H. rewrite Split. apply in_or_app. now left. }
  assert (Hb : forall l, In l (body v) -> In l (rpo v)).
  { intros l H. now apply body_members. }
  assert (He0 : forall e, In e (entries v) -> sid v e = 0).
  { intros e H. unfold entries in H. rewrite Hone in H.
    destruct (rpo v) as [|x r] eqn:Er; simpl in H; [contradiction |].
    destruct H as [<- | H]; [| destruct r; contradiction].
    apply (Hnum 0%nat). now rewrite Er. }
  destruct (alloc_nodes_returns (rpo v) (fun l H => H) (fun _ => None)) as (n1 & E1).
  assert (S1 : slotted v true n1).
  { apply (alloc_nodes_slotted v true _ _ _ E1). intros k n H. discriminate. }
  assert (O1 : owned v n1) by exact (alloc_nodes_owned v true _ numbered_NoDup _ _ E1).
  destruct (init_entries_returns (entries v) He n1 O1) as (n2 & E2).
  destruct (init_entries_spec v true _ _ _ E2) as (K2 & _ & Es2).
  assert (O2 : owned v n2) by (eapply keeps_owned; eauto).
  assert (Nb : NoDup (map (sid v) (body v))).
  { pose proof numbered_NoDup as Nd. rewrite Split, map_app in Nd.
    eapply NoDup_app_remove_l; eauto. }
  destruct (init_body_returns (body v) (fun l H => H) Nb n2 O2) as (n3 & E3 & K3 & Oth3 & Id3).
  assert (S3 : slotted v true n3).
  { eapply keeps_slotted; [exact K3 |]. eapply keeps_slotted; eauto. }
  assert (R3 : rooted v n3).
  { intros l Hl. destruct (body_or_root l Hl) as [Z0 | Hbl].
    - assert (Hle : In l (entries v)).
      { rewrite Split in Hl. apply in_app_or in Hl. destruct Hl as [|Hbl]; auto.
        destruct (body_members l Hbl). lia. }
      destruct (Es2 l Hle) as (n & N & I). unfold index in *.
      destruct (O2 l Hl) as (n' & N' & L'). rewrite N in N'. inversion N'; subst n'.
      exists n, (sid v l). rewrite Oth3.
      + repeat split; auto; lia.
      + intros x Hx. destruct (body_members x Hx). lia.
    - destruct (Id3 l Hbl) as (n & p & N & L & I & Hp & Lt).
      exists n, (sid v p). repeat split; auto.
      apply numbered_range. now apply (Hin l). }
  assert (M3 : meets_above v n3).
  { intros l Hl d Hd. destruct (Id3 l Hl) as (n & p & N & L & I & Hp & Lt).
    eapply above_idom; eauto. }
  assert (A3 : anchored v n3 1).
  { intros l Hl. destruct (Id3 l Hl) as (n & p & N & L & I & Hp & Lt).
    exists p. repeat split; auto. intros a Ha _.
    now rewrite (idom_at_eq _ _ _ _ N I) in Ha. }
  pose proof (weight_bound n3 R3) as Wb.
  destruct (iterate_returns fuel) with (fuel := fuel) (nodes := n3)
    as (n4 & E4 & S4 & R4); auto; try lia.
  destruct (add_children_returns (body v) Hb n4 (rooted_linked n4 R4)) as (t & E5).
  exists t. unfold create. rewrite E1. cbn [bind]. rewrite E2. cbn [bind].
  rewrite E3. cbn [bind]. rewrite E4. cbn [bind]. exact E5.
Qed.

(** *** The shape of the tree that [create] returns *)

Lemma store_childless (nodes : Nodes) (i : Z) (n : DomNode) (d : option Z) :
  childless nodes -> nodes i = Some n -> childless (set_idom nodes i n d).
Proof.
  intros C N k n' H. unfold set_idom, store in H. destruct (k =? i).
  - inversion H; subst. simpl. now apply (C i).
  - now apply (C k).
Qed.

Lemma alloc_nodes_childless (ls : list Lambda) :
  forall nodes n1,
    alloc_nodes v true ls nodes = Done n1 -> childless nodes -> childless n1.
Proof.
  induction ls as [|x rest IH]; intros nodes n1; simpl.
  - intros H. now inversion H.
  - destruct (at_ v nodes _); cbn [bind]; try discriminate.
    intros H C. apply (IH _ _ H). intros k n. unfold store.
    destruct (k =? _).
    + intros Q. now inversion Q.
    + apply C.
Qed.

Lemma init_entries_childless (es : list Lambda) :
  forall nodes n2,
    init_entries v true es nodes = Done n2 -> childless nodes -> childless n2.
Proof.
  induction es as [|e rest IH]; intros nodes n2; cbn [init_entries].
  - intros H. now inversion H.
  - destruct (lookup v true nodes e) as [p| |] eqn:L; cbn [bind]; try discriminate.
    destruct (deref nodes p) as [n| |] eqn:D; cbn [bind]; try discriminate.
    destruct (lookup_deref _ _ _ _ _ _ L D) as (-> & N & _).
    intros H C. apply (IH _ _ H). now apply store_childless.
Qed.

Lemma init_body_childless (ls : list Lambda) :
  forall nodes n3,
    init_body v true ls nodes = Done n3 -> childless nodes -> childless n3.
Proof.
  induction ls as [|x rest IH]; intros nodes n3; cbn [init_body].
  - intros H. now inversion H.
  - destruct (first_dominating v true x (tree_preds v true x)); [| discriminate].
    destruct (lookup v true nodes x) as [p| |] eqn:L; cbn [bind]; try discriminate.
    destruct (deref nodes p) as [n| |] eqn:D; cbn [bind]; try discriminate.
    destruct (lookup v true nodes l) as [q| |]; cbn [bind]; try discriminate.
    destruct (lookup_deref _ _ _ _ _ _ L D) as (-> & N & _).
    intros H C. apply (IH _ _ H). now apply store_childless.
Qed.

Lemma sweep_childless (fuel : nat) (ls : list Lambda) :
  forall nodes changed nodes' changed',
    sweep v true fuel ls nodes changed = Done (nodes', changed') ->
    childless nodes -> childless nodes'.
Proof.
  induction ls as [|x rest IH]; intros nodes changed nodes' changed'; cbn [sweep].
  - intros H. now inversion H.
  - destruct (lookup v true nodes x) as [p| |] eqn:L; cbn [bind]; try discriminate.
    destruct (deref nodes p) as [n| |] eqn:D; cbn [bind]; try discriminate.
    destruct (new_idom_of v true fuel nodes (tree_preds v true x) None)
      as [ni| |]; cbn [bind]; try discriminate.
    destruct ni as [c|]; [| discriminate].
    destruct (lookup_deref _ _ _ _ _ _ L D) as (-> & N & _).
    destruct (negb (option_Z_eqb (idom_ n) (Some c))).
    + intros H C. apply (IH _ _ _ _ H). now apply store_childless.
    + intros H C. now apply (IH _ _ _ _ H).
Qed.

Lemma iterate_childless (fuel lca_fuel : nat) (ls : list Lambda) :
  forall nodes n4,
    iterate v true fuel lca_fuel ls nodes = Done n4 -> childless nodes -> childless n4.
Proof.
  induction fuel as [|f IH]; intros nodes n4; cbn [iterate]; [discriminate |].
  destruct (sweep v true lca_fuel ls nodes false) as [[nodes' changed]| |] eqn:S;
    cbn [bind]; try discriminate.
  intros H C. pose proof (sweep_childless _ _ _ _ _ _ S C) as C'.
  destruct changed.
  - now apply (IH _ _ H).
  - now inversion H; subst.
Qed.

Lemma same_tree_above (nodes t : Nodes) (d x : Z) :
  same_tree nodes t -> (above nodes d x <-> above t d x).
Proof.
  intros K. split.
  - intros H. induction H as [| x n y Hx Hy _ IH]; [constructor |].
    specialize (K x). rewrite Hx in K. destruct K as (n' & A & _ & C).
    eapply above_idom; eauto. congruence.
  - intros H. induction H as [| x n y Hx Hy _ IH]; [constructor |].
    specialize (K x). destruct (nodes x) as [n0|] eqn:E; [| congruence].
    destruct K as (n' & A & _ & C). rewrite Hx in A. inversion A; subst n'.
    eapply above_idom; eauto. congruence.
Qed.

Lemma same_tree_idom_at (nodes t : Nodes) (k : Z) :
  same_tree nodes t -> idom_at t k = idom_at nodes k.
Proof.
  intros K. specialize (K k). unfold idom_at.
  destruct (nodes k) as [n|]; [| now rewrite K].
  destruct K as (n' & -> & _ & ->). reflexivity.
Qed.

Lemma same_tree_rooted (nodes t : Nodes) :
  same_tree nodes t -> rooted v nodes -> rooted v t.
Proof.
  intros K R l Hl. destruct (R l Hl) as (n & d & N & L & I & D).
  specialize (K (sid v l)). rewrite N in K. destruct K as (n' & N' & L' & I').
  exists n', d. repeat split; try tauto; congruence.
Qed.

Lemma same_tree_slotted (nodes t : Nodes) :
  same_tree nodes t -> slotted v true nodes -> slotted v true t.
Proof.
  intros K S k n' H. specialize (K k). destruct (nodes k) as [n|] eqn:E; [| congruence].
  destruct K as (m & Em & L & _). rewrite H in Em. inversion Em; subst m.
  rewrite L. now apply S.
Qed.

Lemma children_of_ext (nodes t : Nodes) (ls : list Lambda) (k : Z) :
  (forall x, idom_at t x = idom_at nodes x) ->
  children_of v t ls k = children_of v nodes ls k.
Proof.
  intros E. unfold children_of. f_equal. apply filter_ext. intros l. now rewrite E.
Qed.

(** "add children": every node gets the body lambdas that point to it, in
    the order of the body. *)
Lemma add_children_lists (ls : list Lambda) :
  forall nodes t,
    add_children v true ls nodes = Done t ->
    forall k n, nodes k = Some n ->
      exists n', t k = Some n' /\
                 children_ n' = children_ n ++ children_of v nodes ls k.
Proof.
  induction ls as [|x rest IH]; intros nodes t; cbn [add_children].
  - intros H k n N. inversion H; subst. exists n. split; auto.
    unfold children_of. simpl. now rewrite app_nil_r.
  - destruct (lookup v true nodes x) as [p| |] eqn:L; cbn [bind]; try discriminate.
    destruct (deref nodes p) as [n| |] eqn:D; cbn [bind]; try discriminate.
    destruct (deref nodes (idom_ n)) as [parent| |] eqn:P; cbn [bind]; try discriminate.
    destruct (idom_ n) as [d|] eqn:I; [| discriminate].
    destruct p as [me|]; [| discriminate].
    destruct (lookup_deref _ _ _ _ _ _ L D) as (Eme & N & _).
    inversion Eme; subst me. clear Eme. unfold index in N.
    destruct (deref_Some _ _ _ P) as (d' & Ed & Nd). inversion Ed; subst d'.
    intros H k m M.
    set (nodes1 := store nodes d
                     (Some (mkNode (lambda_ parent) (idom_ parent)
                              (children_ parent ++ [index v true x])))) in *.
    assert (Ia : forall y, idom_at nodes1 y = idom_at nodes y).
    { intros y. unfold idom_at, nodes1, store. destruct (y =? d) eqn:E; auto.
      apply Z.eqb_eq in E. subst y. now rewrite Nd. }
    assert (Ix : idom_at nodes (sid v x) = d) by exact (idom_at_eq _ _ _ _ N I).
    unfold children_of. cbn [filter]. rewrite Ix.
    destruct (Z.eq_dec k d) as [-> | Hne].
    + rewrite Nd in M. inversion M; subst m.
      destruct (IH nodes1 t H d _ ltac:(unfold nodes1, store; now rewrite Z.eqb_refl))
        as (n' & T & C).
      exists n'. split; auto. rewrite C. cbn [children_]. rewrite Z.eqb_refl.
      rewrite <- app_assoc. cbn [List.map app]. f_equal. f_equal.
      now apply children_of_ext.
    + destruct (IH nodes1 t H k m) as (n' & T & C).
      { unfold nodes1, store. apply Z.eqb_neq in Hne. now rewrite Hne. }
      exists n'. split; auto. rewrite C.
      assert (Q : (d =? k) = false) by (apply Z.eqb_neq; congruence).
      rewrite Q. f_equal. now apply children_of_ext.
Qed.

(** [create] returns a tree of the shape [shaped]. *)
Lemma create_shaped (fuel : nat) :
  ((length (rpo v) + 1) * (length (rpo v) + 1) <= fuel)%nat ->
  exists t, create v true fuel = Done t /\ shaped v t.
Proof.
  intros F.
  assert (Split : rpo v = entries v ++ body v)
    by (unfold entries, body; symmetry; apply firstn_skipn).
  assert (He : forall e, In e (entries v) -> In e (rpo v)).
  { intros e H. rewrite Split. apply in_or_app. now left. }
  assert (Hb : forall l, In l (body v) -> In l (rpo v)).
  { intros l H. now apply body_members. }
  destruct (alloc_nodes_returns (rpo v) (fun l H => H) (fun _ => None)) as (n1 & E1).
  assert (S1 : slotted v true n1).
  { apply (alloc_nodes_slotted v true _ _ _ E1). intros k n H. discriminate. }
  assert (C1 : childless n1).
  { apply (alloc_nodes_childless _ _ _ E1). intros k n H. discriminate. }
  assert (O1 : owned v n1) by exact (alloc_nodes_owned v true _ numbered_NoDup _ _ E1).
  destruct (init_entries_returns (entries v) He n1 O1) as (n2 & E2).
  destruct (init_entries_spec v true _ _ _ E2) as (K2 & _ & Es2).
  assert (O2 : owned v n2) by (eapply keeps_owned; eauto).
  assert (Nb : NoDup (List.map (sid v) (body v))).
  { pose proof numbered_NoDup as Nd. rewrite Split, map_app in Nd.
    eapply NoDup_app_remove_l; eauto. }
  destruct (init_body_returns (body v) (fun l H => H) Nb n2 O2) as (n3 & E3 & K3 & Oth3 & Id3).
  assert (S3 : slotted v true n3).
  { eapply keeps_slotted; [exact K3 |]. eapply keeps_slotted; eauto. }
  assert (R3 : rooted v n3).
  { intros l Hl. destruct (body_or_root l Hl) as [Z0 | Hbl].
    - assert (Hle : In l (entries v)).
      { rewrite Split in Hl. apply in_app_or in Hl. destruct Hl as [|Hbl]; auto.
        destruct (body_members l Hbl). lia. }
      destruct (Es2 l Hle) as (n & N & I). unfold index in *.
      destruct (O2 l Hl) as (n' & N' & L'). rewrite N in N'. inversion N'; subst n'.
      exists n, (sid v l). rewrite Oth3.
      + repeat split; auto; lia.
      + intros x Hx. destruct (body_members x Hx). lia.
    - destruct (Id3 l Hbl) as (n & p & N & L & I & Hp & Lt).
      exists n, (sid v p). repeat split; auto.
      apply numbered_range. now apply (Hin l). }
  assert (M3 : meets_above v n3).
  { intros l Hl d Hd. destruct (Id3 l Hl) as (n & p & N & L & I & Hp & Lt).
    eapply above_idom; eauto. }
  assert (A3 : anchored v n3 1).
  { intros l Hl. destruct (Id3 l Hl) as (n & p & N & L & I & Hp & Lt).
    exists p. repeat split; auto. intros a Ha _.
    now rewrite (idom_at_eq _ _ _ _ N I) in Ha. }
  pose proof (weight_bound n3 R3) as Wb.
  destruct (iterate_returns fuel) with (fuel := fuel) (nodes := n3)
    as (n4 & E4 & S4 & R4); auto; try lia.
  destruct (add_children_returns (body v) Hb n4 (rooted_linked n4 R4)) as (t & E5).
  exists t. split.
  { unfold create. rewrite E1. cbn [bind]. rewrite E2. cbn [bind].
    rewrite E3. cbn [bind]. rewrite E4. cbn [bind]. exact E5. }
  pose proof (add_children_spec v true _ _ _ E5) as ST.
  change (same_tree n4 t) in ST.
  assert (C4 : childless n4).
  { apply (iterate_childless _ _ _ _ _ E4), (init_body_childless _ _ _ E3),
      (init_entries_childless _ _ _ E2), C1. }
  destruct (iterate_spec v true _ _ _ _ _ E4) as (_ & _ & Fix).
  split; [now apply same_tree_slotted with (nodes := n4) |].
  split; [now apply same_tree_rooted with (nodes := n4) |].
  split.
  - intros l Hl.
    destruct (sweep_fixed v true _ _ _ Fix l Hl) as (n & c & N & I & NI).
    destruct (new_idom_returns n4 fuel l S4 R4 ltac:(lia) Hl) as (c' & NI' & Cp & Cg).
    unfold tree_preds in NI. rewrite NI' in NI. inversion NI; subst c'.
    rewrite (same_tree_idom_at n4 t _ ST). unfold index in N.
    rewrite (idom_at_eq _ _ _ _ N I). split.
    + intros q Hq. apply (same_tree_above n4 t _ _ ST). now apply Cp.
    + intros d Hd. apply (same_tree_above n4 t _ _ ST). apply Cg.
      intros q Hq. apply (same_tree_above n4 t _ _ ST). now apply Hd.
  - intros k n T. pose proof (ST k) as STk.
    destruct (n4 k) as [n0|] eqn:N0; [| congruence].
    destruct (add_children_lists _ _ _ E5 k n0 N0) as (n' & T' & Ch).
    rewrite T in T'. inversion T'; subst n'. rewrite Ch, (C4 k n0 N0). cbn [app].
    symmetry. apply children_of_ext. intros x. now apply same_tree_idom_at.
Qed.

(** *** What a finished tree answers *)

Lemma above_antisym (nodes : Nodes) (c d : Z) :
  rooted v nodes -> 0 <= c < size v -> 0 <= d < size v ->
  above nodes c d -> above nodes d c -> c = d.
Proof.
  intros R Hc Hd A B.
  pose proof (above_range _ _ _ R Hd A). pose proof (above_range _ _ _ R Hc B). lia.
Qed.

Lemma entry_root (e : Lambda) : In e (entries v) -> In e (rpo v) /\ sid v e = 0.
Proof.
  intros He. unfold entries in He. rewrite Hone in He.
  destruct (rpo v) as [|x r] eqn:Er; simpl in He; [contradiction |].
  destruct He as [<- | He]; [| destruct r; contradiction].
  split; [now left |]. apply (Hnum 0%nat). now rewrite Er.
Qed.

Lemma idom_value (t : Nodes) (l : Lambda) :
  rooted v t -> In l (rpo v) ->
  exists d, idom v true t l = Done d /\ In d (rpo v) /\
            sid v d = idom_at t (sid v l) /\
            (sid v d < sid v l \/ (sid v d = 0 /\ sid v l = 0)).
Proof.
  intros R Hl. pose proof (numbered_range l Hl) as Rl.
  destruct (rooted_node t _ R Rl) as (n & d & N & _ & _ & I & D0 & D1).
  assert (Rd : 0 <= d < size v) by lia.
  destruct (rooted_node t _ R Rd) as (nd & dd & Nd & Hd & Sd & _).
  exists (lambda_ nd). split; [| split; [exact Hd | split]].
  - unfold idom. rewrite (lookup_returns t l R Hl). cbn [bind deref].
    rewrite N. cbn [bind]. rewrite I. cbn [deref]. now rewrite Nd.
  - rewrite Sd. symmetry. exact (idom_at_eq _ _ _ _ N I).
  - rewrite Sd. exact D1.
Qed.

(** X1: in the tree that [create] returns on a scope with one entry, the
    entry is its own immediate dominator and the immediate dominator of
    every other lambda is a lambda of the scope that comes before it in
    reverse postorder. *)
Theorem idom_precedes (fuel : nat) :
  ((length (rpo v) + 1) * (length (rpo v) + 1) <= fuel)%nat ->
  exists t, create v true fuel = Done t /\
    (forall e, In e (entries v) -> idom v true t e = Done e) /\
    (forall l, In l (body v) ->
       exists d, idom v true t l = Done d /\ In d (rpo v) /\ sid v d < sid v l).
Proof.
  intros F. destruct (create_shaped fuel F) as (t & C & _ & R & _).
  exists t. split; [exact C |]. split.
  - intros e He.
    destruct (entry_root e He) as (Hr & Z0).
    destruct (idom_value t e R Hr) as (d & I & Hd & _ & Lt).
    pose proof (numbered_range d Hd).
    rewrite I. f_equal. apply numbered_inj; auto. lia.
  - intros l Hl. destruct (body_members l Hl) as (Hr & Pos).
    destruct (idom_value t l R Hr) as (d & I & Hd & _ & Lt).
    exists d. repeat split; auto. lia.
Qed.

(** X2: the tree is a fixed point of the loop of [create]: folding [lca]
    over the predecessors of a body lambda, in the finished tree, gives
    the node of its immediate dominator again. *)
Theorem idom_is_lca_of_preds (fuel : nat) :
  ((length (rpo v) + 1) * (length (rpo v) + 1) <= fuel)%nat ->
  exists t, create v true fuel = Done t /\
    forall l, In l (body v) ->
      exists d, idom v true t l = Done d /\
                new_idom_of v true fuel t (preds v l) None = Done (Some (sid v d)).
Proof.
  intros F. destruct (create_shaped fuel F) as (t & C & St & R & Fix & _).
  exists t. split; [exact C |]. intros l Hl.
  destruct (body_members l Hl) as (Hr & Pos).
  destruct (idom_value t l R Hr) as (d & I & Hd & Ed & Lt).
  exists d. split; [exact I |].
  destruct (new_idom_returns t fuel l St R ltac:(lia) Hl) as (c & NI & Cp & Cg).
  rewrite NI. do 2 f_equal.
  destruct (Fix l Hl) as (Up & Deep). rewrite <- Ed in Up, Deep.
  destruct (Hlow l Hl) as (p & Hp & Lp).
  assert (Rp : 0 <= sid v p < size v) by (apply numbered_range; eauto).
  pose proof (above_range _ _ _ R Rp (Cp p Hp)).
  apply above_antisym with (nodes := t); auto.
  - lia.
  - now apply numbered_range.
Qed.

Lemma NoDup_map_filter {A B : Type} (f : A -> B) (P : A -> bool) (l : list A) :
  NoDup (List.map f l) -> NoDup (List.map f (filter P l)).
Proof.
  induction l as [|x l IH]; simpl; intros H; [constructor |].
  inversion H as [|? ? Hx Hl]; subst. destruct (P x); simpl; auto.
  constructor; auto. intros Q. apply Hx. apply in_map_iff in Q.
  destruct Q as (y & E & Hy). apply filter_In in Hy. rewrite <- E. apply in_map. tauto.
Qed.

(** X3: "add children" lists under every node exactly the lambdas whose
    immediate dominator it is, each once: the child lists and the [idom]
    pointers describe the same tree, and the entry is nobody's child. *)
Theorem children_follow_idom (fuel : nat) :
  ((length (rpo v) + 1) * (length (rpo v) + 1) <= fuel)%nat ->
  exists t, create v true fuel = Done t /\
    forall l, In l (rpo v) ->
      exists n, t (sid v l) = Some n /\ lambda_ n = l /\
                NoDup (children_ n) /\
                forall x, In x (rpo v) ->
                  (In (sid v x) (children_ n) <->
                   In x (body v) /\ idom v true t x = Done l).
Proof.
  intros F. destruct (create_shaped fuel F) as (t & C & St & R & _ & Ch).
  exists t. split; [exact C |]. intros l Hl.
  destruct (R l Hl) as (n & d & N & L & _).
  exists n. split; [exact N |]. split; [exact L |].
  rewrite (Ch _ _ N). unfold children_of.
  assert (Nb : NoDup (List.map (sid v) (body v))).
  { pose proof numbered_NoDup as Nd.
    assert (Split : rpo v = entries v ++ body v)
      by (unfold entries, body; symmetry; apply firstn_skipn).
    rewrite Split, map_app in Nd. eapply NoDup_app_remove_l; eauto. }
  split; [now apply NoDup_map_filter |].
  intros x Hx. destruct (idom_value t x R Hx) as (dx & I & Hd & Ed & _).
  rewrite in_map_iff. split.
  - intros (y & E & Hy). apply filter_In in Hy. destruct Hy as (Hy & Q).
    assert (y = x) by (apply numbered_inj; auto; now apply body_members).
    subst y. split; auto. rewrite I. f_equal. apply Z.eqb_eq in Q.
    apply numbered_inj; auto. congruence.
  - intros (Hb & Il). exists x. split; auto. apply filter_In. split; auto.
    rewrite I in Il. inversion Il; subst dx. apply Z.eqb_eq. congruence.
Qed.

Lemma depth_from_steps (t : Nodes) :
  rooted v t ->
  forall b x, (Z.to_nat x < b)%nat -> 0 <= x < size v ->
    exists k, 0 <= k <= x /\
      forall fuel acc, (Z.to_nat x < fuel)%nat -> 0 <= acc -> acc + x <= INT_MAX ->
        depth_from fuel t (Some x) acc = Done (acc + k).
Proof.
  intros R. induction b as [|b IH]; intros x Hb Hx; [lia |].
  destruct (rooted_node t _ R Hx) as (n & d & N & _ & _ & I & D0 & D1).
  destruct D1 as [Lt | [-> ->]].
  - destruct (IH d) as (k & Rk & Run); try lia.
    exists (k + 1). split; [lia |]. intros [|fuel] acc Hf Ha Hm; [lia |].
    cbn [depth_from deref]. rewrite N. cbn [bind]. unfold entry. rewrite I.
    cbn [option_Z_eqb].
    assert (E : (d =? x) = false) by (apply Z.eqb_neq; lia). rewrite E.
    assert (E2 : (acc <? INT_MAX) = true) by (apply Z.ltb_lt; lia). rewrite E2.
    rewrite Run by lia. f_equal. lia.
  - exists 0. split; [lia |]. intros [|fuel] acc Hf Ha Hm; [lia |].
    cbn [depth_from deref]. rewrite N. cbn [bind]. unfold entry. rewrite I.
    cbn [option_Z_eqb Z.eqb]. f_equal. lia.
Qed.

(** X4: on a scope of at most [INT_MAX] lambdas, [depth] returns in the
    finished tree: 0 for the entry, and for every other lambda one more
    than the depth of its immediate dominator; the depth of a lambda is
    at most its sid. *)
Theorem depth_counts_idoms (fuel : nat) :
  ((length (rpo v) + 1) * (length (rpo v) + 1) <= fuel)%nat ->
  size v <= INT_MAX ->
  exists t, create v true fuel = Done t /\
    forall l, In l (rpo v) ->
      exists k, depth v true fuel t l = Done k /\ 0 <= k <= sid v l /\
        (In l (entries v) -> k = 0) /\
        (In l (body v) ->
           exists d k', idom v true t l = Done d /\
                        depth v true fuel t d = Done k' /\ k = k' + 1).
Proof.
  intros F Hsz. destruct (create_shaped fuel F) as (t & C & St & R & _).
  exists t. split; [exact C |]. intros l Hl.
  pose proof (numbered_range l Hl) as Rl.
  assert (Ff : forall x, 0 <= x < size v -> (Z.to_nat x < fuel)%nat).
  { intros x Hx. unfold size in Hx. nia. }
  assert (Dp : forall x, In x (rpo v) ->
                 forall k, (forall fuel acc, (Z.to_nat (sid v x) < fuel)%nat -> 0 <= acc ->
                              acc + sid v x <= INT_MAX ->
                              depth_from fuel t (Some (sid v x)) acc = Done (acc + k)) ->
                 depth v true fuel t x = Done k).
  { intros x Hx k Run. unfold depth. rewrite (lookup_returns t x R Hx). cbn [bind].
    pose proof (numbered_range x Hx). rewrite Run; auto; try lia. }
  destruct (depth_from_steps t R (S (Z.to_nat (sid v l))) (sid v l)) as (k & Rk & Run);
    try lia.
  exists k. split; [now apply Dp |]. split; [exact Rk |]. split.
  - intros He. destruct (entry_root l He) as (_ & Z0). lia.
  - intros Hb. destruct (body_members l Hb) as (_ & Pos).
    destruct (idom_value t l R Hl) as (d & I & Hd & Ed & Lt).
    pose proof (numbered_range d Hd) as Rd.
    destruct (depth_from_steps t R (S (Z.to_nat (sid v d))) (sid v d)) as (k' & Rk' & Run');
      try lia.
    exists d, k'. split; [exact I |]. split; [now apply Dp |].
    destruct (rooted_node t _ R Rl) as (n & dd & N & _ & _ & In_ & D0 & D1).
    assert (dd = sid v d).
    { rewrite Ed. symmetry. exact (idom_at_eq _ _ _ _ N In_). }
    subst dd.
    specialize (Run (S (Z.to_nat (sid v l))) 0 ltac:(lia) ltac:(lia) ltac:(lia)).
    cbn [depth_from deref] in Run. rewrite N in Run. cbn [bind] in Run.
    unfold entry in Run. rewrite In_ in Run. cbn [option_Z_eqb] in Run.
    assert (E : (sid v d =? sid v l) = false) by (apply Z.eqb_neq; lia).
    rewrite E in Run. change (0 <? INT_MAX) with true in Run. cbv iota in Run.
    rewrite (Run' (Z.to_nat (sid v l)) (0 + 1)) in Run by lia.
    assert (Q : 0 + 1 + k' = 0 + k) by congruence. lia.
Qed.

Lemma path_members_in (a L : Lambda) (p : list Lambda) :
  path v a p L -> In L (rpo v) /\ forall x, In x p -> In x (rpo v).
Proof.
  induction 1 as [a Ha | a p b c Hp IH Hc Hb].
  - split; auto. intros x [<- | []]. auto.
  - destruct IH as (_ & IH). split; auto.
    intros x Hx. apply in_app_or in Hx. destruct Hx as [Hx | [<- | []]]; auto.
Qed.

Lemma above_on_path (t : Nodes) :
  shaped v t ->
  forall a p L, In a (entries v) -> path v a p L ->
    forall d, above t d (sid v L) -> exists x, In x p /\ sid v x = d.
Proof.
  intros (St & R & Fix & _) a p L Ha Hp.
  induction Hp as [a Ha' | a p b c Hp IH Hcr Hb]; intros d Hd.
  - exists a. split; [simpl; auto |].
    destruct (entry_root a Ha) as (_ & Z0).
    pose proof (above_range _ _ _ R (numbered_range a Ha') Hd). lia.
  - assert (Self : exists x, In x (p ++ [c]) /\ sid v x = sid v c).
    { exists c. split; auto. apply in_or_app. right. simpl. auto. }
    destruct (above_inv _ _ _ Hd) as [-> | Hup]; [exact Self |].
    destruct (body_or_root c Hcr) as [Z0 | Hbd].
    + pose proof (above_range _ _ _ R (numbered_range c Hcr) Hd).
      assert (d = sid v c) by lia. subst d. exact Self.
    + destruct (Fix c Hbd) as (Up & _).
      destruct (IH Ha d) as (x & Hx & Ex).
      * eapply above_trans; [exact Hup | now apply Up].
      * exists x. split; auto. apply in_or_app. now left.
Qed.

(** X5: in the finished tree, [lca(i, j)] of two lambdas of the scope
    returns a lambda of the scope whatever the order of its arguments,
    [lca(i, i)] is [i], and the result dominates both: every path of the
    scope from the entry to [i] or to [j] passes through it. *)
Theorem lca_common_dominator (fuel : nat) :
  ((length (rpo v) + 1) * (length (rpo v) + 1) <= fuel)%nat ->
  exists t, create v true fuel = Done t /\
    forall i j, In i (rpo v) -> In j (rpo v) ->
      exists c, lca_lambda v true fuel t i j = Done c /\
                lca_lambda v true fuel t j i = Done c /\
                In c (rpo v) /\
                (i = j -> c = i) /\
                forall a p, In a (entries v) ->
                            path v a p i \/ path v a p j -> In c p.
Proof.
  intros F. destruct (create_shaped fuel F) as (t & C & Sh).
  pose proof Sh as (St & R & _).
  exists t. split; [exact C |]. intros i j Hi Hj.
  pose proof (numbered_range i Hi) as Ri. pose proof (numbered_range j Hj) as Rj.
  assert (Fl : forall x y, 0 <= x < size v -> 0 <= y < size v ->
                           (Z.to_nat x + Z.to_nat y < fuel)%nat).
  { intros x y Hx Hy. unfold size in *. nia. }
  destruct (lca_returns t St R fuel _ _ Ri Rj (Fl _ _ Ri Rj)) as (c & L1 & Ai & Aj & G1).
  destruct (lca_returns t St R fuel _ _ Rj Ri (Fl _ _ Rj Ri)) as (c' & L2 & Aj' & Ai' & G2).
  assert (Rc : 0 <= c < size v) by (pose proof (above_range _ _ _ R Ri Ai); lia).
  assert (Rc' : 0 <= c' < size v) by (pose proof (above_range _ _ _ R Rj Aj'); lia).
  assert (c' = c).
  { apply above_antisym with (nodes := t); auto. }
  subst c'.
  destruct (rooted_node t _ R Rc) as (n & d & N & Hn & Sn & _).
  exists (lambda_ n). split; [| split; [| split; [exact Hn | split]]].
  - unfold lca_lambda. rewrite !(lookup_returns t _ R) by auto. cbn [bind].
    rewrite L1. cbn [bind deref]. now rewrite N.
  - unfold lca_lambda. rewrite !(lookup_returns t _ R) by auto. cbn [bind].
    rewrite L2. cbn [bind deref]. now rewrite N.
  - intros ->. apply numbered_inj; auto. rewrite Sn.
    apply above_antisym with (nodes := t); auto. apply G1; constructor.
  - intros a p Ha [Hp | Hp].
    + destruct (above_on_path t Sh a p i Ha Hp c Ai) as (x & Hx & Ex).
      assert (x = lambda_ n); [| now subst].
      apply numbered_inj; auto; [| congruence].
      destruct (path_members_in a i p Hp) as (_ & M). now apply M.
    + destruct (above_on_path t Sh a p j Ha Hp c Aj) as (x & Hx & Ex).
      assert (x = lambda_ n); [| now subst].
      apply numbered_inj; auto; [| congruence].
      destruct (path_members_in a j p Hp) as (_ & M). now apply M.
Qed.

End DominatorTermination.

Section DominatorProperty.
Import DomTree.

Variable v : ScopeView.

Lemma path_members (a L : Lambda) (p : list Lambda) :
  path v a p L -> In L (rpo v) /\ In L p /\ forall x, In x p -> In x (rpo v).
Proof.
  induction 1 as [a Ha | a p b c Hp IH Hc Hb].
  - repeat split; simpl; auto. intros x [<- | []]. auto.
  - destruct IH as (_ & _ & IH). repeat split; auto.
    + apply in_or_app. right. simpl. auto.
    + intros x Hx. apply in_app_or in Hx. destruct Hx as [Hx | [<- | []]]; auto.
Qed.

Lemma NoDup_map_app_neq {A B : Type} (f : A -> B) (l1 l2 : list A) (x y : A) :
  NoDup (map f (l1 ++ l2)) -> In x l1 -> In y l2 -> f x <> f y.
Proof.
  rewrite map_app. intros H Hx Hy E.
  apply NoDup_app_remove_l in H as H2.
  induction l1 as [|z l1 IH]; simpl in *; [contradiction |].
  inversion H as [|? ? Hz Hnd]; subst.
  destruct Hx as [-> | Hx].
  - apply Hz. apply in_or_app. right. rewrite E. now apply in_map.
  - now apply IH.
Qed.

(** When [create] returns, every path of the scope from an entry to a
    lambda [L] passes through [idom(L)], however many entries there are. *)
Lemma dominates_when_created (fuel : nat) (t : Nodes) :
  NoDup (map (sid v) (rpo v)) ->
  create v true fuel = Done t ->
  forall a p L,
    In a (entries v) -> path v a p L ->
    exists d, idom v true t L = Done d /\ In d p.
Proof.
  intros Hinj Hc.
  unfold create in Hc.
  destruct (alloc_nodes v true (rpo v) (fun _ => None)) as [n1| |] eqn:E1;
    simpl in Hc; try discriminate.
  destruct (init_entries v true (entries v) n1) as [n2| |] eqn:E2;
    simpl in Hc; try discriminate.
  destruct (init_body v true (body v) n2) as [n3| |] eqn:E3;
    simpl in Hc; try discriminate.
  destruct (iterate v true fuel fuel (body v) n3) as [n4| |] eqn:E4;
    simpl in Hc; try discriminate.
  pose proof (alloc_nodes_range v true _ _ _ E1) as R.
  assert (S1 : slotted v true n1).
  { apply (alloc_nodes_slotted v true _ _ _ E1). intros k n H. discriminate. }
  pose proof (alloc_nodes_owned v true _ Hinj _ _ E1) as O1.
  destruct (init_entries_spec v true _ _ _ E2) as (K2 & _ & Es2).
  destruct (init_body_spec v true _ _ _ E3) as (K3 & T3).
  destruct (iterate_spec v true _ _ _ _ _ E4) as (K4 & T4 & Fix).
  pose proof (add_children_spec v true _ _ _ Hc) as AC.
  assert (K : keeps n1 n4) by (eapply keeps_trans; [eapply keeps_trans |]; eauto).
  assert (S4 : slotted v true n4) by (eapply keeps_slotted; eauto).
  assert (O4 : forall l, In l (rpo v) -> exists n, n4 (index v true l) = Some n /\ lambda_ n = l).
  { intros l Hl. destruct (O1 l Hl) as (n & N & Ln). specialize (K (index v true l)).
    rewrite N in K. destruct K as (n' & N' & L'). exists n'. split; auto. congruence. }
  assert (Split : rpo v = entries v ++ body v)
    by (unfold entries, body; symmetry; apply firstn_skipn).
  assert (Root : forall e, In e (entries v) ->
                           exists n, n4 (index v true e) = Some n /\
                                     idom_ n = Some (index v true e)).
  { intros e He. destruct (Es2 e He) as (n & N & I). exists n. split; auto.
    rewrite T4, T3; auto; intros l Hl E;
      apply (NoDup_map_app_neq (sid v) (entries v) (body v) e l); auto;
      now rewrite <- Split. }
  assert (Inner : forall l, In l (body v) ->
                            exists n c, n4 (index v true l) = Some n /\
                                        idom_ n = Some c /\
                                        forall q, In q (preds v l) ->
                                                  above n4 c (index v true q)).
  { intros l Hl. destruct (sweep_fixed v true _ _ _ Fix l Hl) as (n & c & N & I & NI).
    exists n, c. repeat split; auto. intros q Hq.
    destruct (new_idom_of_above v true fuel n4 S4 _ _ _ NI) as (_ & P).
    destruct (P q Hq) as (c' & Ec & A). inversion Ec; subst. exact A. }
  assert (Q : forall a p L,
             In a (entries v) -> path v a p L ->
             forall d, above n4 d (index v true L) ->
                       exists x, In x p /\ index v true x = d).
  { intros a p L Ha Hp. induction Hp as [a Ha' | a p b c Hp IH Hcr Hb]; intros d Hd.
    - destruct (Root a Ha) as (n & N & I).
      rewrite (above_root n4 _ d n N I Hd). exists a. simpl. auto.
    - assert (Self : exists x, In x (p ++ [c]) /\ index v true x = index v true c).
      { exists c. split; auto. apply in_or_app. right. simpl. auto. }
      inversion Hd as [E | x n y Hx Hy Hup E]; [exact Self |].
      rewrite Split in Hcr. apply in_app_or in Hcr. destruct Hcr as [He | Hbd].
      + destruct (Root c He) as (m & M & I).
        rewrite (above_root n4 _ d m M I Hd). exact Self.
      + destruct (Inner c Hbd) as (m & c0 & M & I & P).
        rewrite M in Hx. inversion Hx; subst m. rewrite I in Hy. inversion Hy; subst y.
        destruct (IH Ha d) as (x' & Hx' & Ex).
        * eapply above_trans; [exact Hup | now apply P].
        * exists x'. split; auto. apply in_or_app. now left. }
  intros a p L Ha Hp.
  destruct (path_members a L p Hp) as (HL & _ & Hmem).
  destruct (O4 L HL) as (n & N & Ln).
  assert (I : exists c, idom_ n = Some c).
  { rewrite Split in HL. apply in_app_or in HL. destruct HL as [He | Hb].
    - destruct (Root L He) as (m & M & I). rewrite N in M. inversion M; subst. eauto.
    - destruct (Inner L Hb) as (m & c & M & I & _). rewrite N in M. inversion M; subst.
      eauto. }
  destruct I as (c & I).
  destruct (Q a p L Ha Hp c) as (x & Hx & Ex).
  { eapply above_idom; eauto. constructor. }
  exists x. split; auto.
  destruct (O4 x (Hmem x Hx)) as (nx & Nx & Lx). rewrite Ex in Nx.
  pose proof (AC (index v true L)) as AL. rewrite N in AL.
  destruct AL as (n' & N' & _ & I').
  pose proof (AC c) as Ac. rewrite Nx in Ac. destruct Ac as (nx' & Nx' & Lx' & _).
  unfold idom, lookup, at_.
  assert (Rg : (0 <=? index v true L) && (index v true L <? size v) = true).
  { specialize (R L HL). apply andb_true_iff. split; [apply Z.leb_le | apply Z.ltb_lt]; lia. }
  rewrite Rg. cbn [bind]. rewrite N'. cbn [bind deref]. rewrite N'. cbn [bind].
  rewrite I', I. cbn [deref]. rewrite Nx'. cbn [bind]. congruence.
Qed.

(** What [create] has built when it returns: every entry is its own
    [idom_], and the [idom_] of a body lambda is above all its
    predecessors. *)
Lemma created_fixed (fuel : nat) (t : Nodes) :
  NoDup (map (sid v) (rpo v)) ->
  create v true fuel = Done t ->
  exists n4,
    (forall e, In e (entries v) ->
               exists n, n4 (index v true e) = Some n /\
                         idom_ n = Some (index v true e)) /\
    (forall l, In l (body v) ->
               exists n c, n4 (index v true l) = Some n /\ idom_ n = Some c /\
                           forall q, In q (preds v l) -> above n4 c (index v true q)).
Proof.
  intros Hinj Hc.
  unfold create in Hc.
  destruct (alloc_nodes v true (rpo v) (fun _ => None)) as [n1| |] eqn:E1;
    simpl in Hc; try discriminate.
  destruct (init_entries v true (entries v) n1) as [n2| |] eqn:E2;
    simpl in Hc; try discriminate.
  destruct (init_body v true (body v) n2) as [n3| |] eqn:E3;
    simpl in Hc; try discriminate.
  destruct (iterate v true fuel fuel (body v) n3) as [n4| |] eqn:E4;
    simpl in Hc; try discriminate.
  assert (S1 : slotted v true n1).
  { apply (alloc_nodes_slotted v true _ _ _ E1). intros k n H. discriminate. }
  destruct (init_entries_spec v true _ _ _ E2) as (K2 & _ & Es2).
  destruct (init_body_spec v true _ _ _ E3) as (K3 & T3).
  destruct (iterate_spec v true _ _ _ _ _ E4) as (K4 & T4 & Fix).
  assert (K : keeps n1 n4) by (eapply keeps_trans; [eapply keeps_trans |]; eauto).
  assert (S4 : slotted v true n4) by (eapply keeps_slotted; eauto).
  assert (Split : rpo v = entries v ++ body v)
    by (unfold entries, body; symmetry; apply firstn_skipn).
  exists n4. split.
  - intros e He. destruct (Es2 e He) as (n & N & I). exists n. split; auto.
    rewrite T4, T3; auto; intros l Hl E;
      apply (NoDup_map_app_neq (sid v) (entries v) (body v) e l); auto;
      now rewrite <- Split.
  - intros l Hl. destruct (sweep_fixed v true _ _ _ Fix l Hl) as (n & c & N & I & NI).
    exists n, c. repeat split; auto. intros q Hq.
    destruct (new_idom_of_above v true fuel n4 S4 _ _ _ NI) as (_ & P).
    destruct (P q Hq) as (c' & Ec & A). inversion Ec; subst. exact A.
Qed.

Lemma NoDup_map_eq {A B : Type} (f : A -> B) (l : list A) (x y : A) :
  NoDup (map f l) -> In x l -> In y l -> f x = f y -> x = y.
Proof.
  induction l as [|z l IH]; simpl; [contradiction |].
  intros H Hx Hy E. inversion H as [|? ? Hz Hnd]; subst.
  destruct Hx as [-> | Hx], Hy as [-> | Hy]; auto.
  - exfalso. apply Hz. rewrite E. now apply in_map.
  - exfalso. apply Hz. rewrite <- E. now apply in_map.
Qed.

(** No tree for a lambda that two entries jump to: both entries are
    their own [idom_], and nothing is above both. *)
Lemma create_meets_no_root (fuel : nat) (t : Nodes) (L e0 e1 : Lambda) :
  NoDup (map (sid v) (rpo v)) ->
  In e0 (entries v) -> In e1 (entries v) -> e0 <> e1 ->
  In L (body v) -> In e0 (preds v L) -> In e1 (preds v L) ->
  create v true fuel <> Done t.
Proof.
  intros Hinj H0 H1 Hne HL P0 P1 Hc.
  destruct (created_fixed fuel t Hinj Hc) as (n4 & Root & Inner).
  destruct (Root e0 H0) as (m0 & M0 & I0). destruct (Root e1 H1) as (m1 & M1 & I1).
  destruct (Inner L HL) as (n & c & _ & _ & A).
  pose proof (above_root n4 _ c m0 M0 I0 (A e0 P0)) as C0.
  pose proof (above_root n4 _ c m1 M1 I1 (A e1 P1)) as C1.
  apply Hne. apply (NoDup_map_eq (sid v) (rpo v)); auto.
  - rewrite <- (firstn_skipn (num_entries v) (rpo v)). apply in_or_app. now left.
  - rewrite <- (firstn_skipn (num_entries v) (rpo v)). apply in_or_app. now left.
  - change (index v true e0 = index v true e1). congruence.
Qed.

(** The tree of the post-dominators is not even allocated on a scope
    whose lambdas carry the [backwards_sid] that [Lambda::Lambda] gave
    them: the first [nodes_[index(lambda)]] is out of range. *)
Lemma create_backwards_faults (fuel : nat) (l : Lambda) (rest : list Lambda) :
  rpo v = l :: rest ->
  backwards_sid v l = size_t_bottom ->
  size v <= size_t_bottom ->
  create v false fuel = Fault.
Proof.
  intros Hr Hb Hs. unfold create. rewrite Hr. cbn [alloc_nodes]. unfold at_, index.
  rewrite Hb.
  assert (E : (size_t_bottom <? size v) = false) by (apply Z.ltb_ge; exact Hs).
  rewrite E, andb_false_r. reflexivity.
Qed.

End DominatorProperty.


Section DominatorExamples.
Import DomTree Examples.

Lemma diamond_numbered :
  numbered diamond_view /\
  num_entries diamond_view = 1%nat /\
  (forall l, In l (body diamond_view) ->
             exists p, In p (preds diamond_view l) /\
                       sid diamond_view p < sid diamond_view l) /\
  (forall l p, In l (rpo diamond_view) -> In p (preds diamond_view l) ->
               In p (rpo diamond_view)).
Proof.
  split; [| split; [reflexivity | split]].
  - intros [|[|[|[|i]]]] l H; simpl in H; inversion H; subst; try reflexivity.
    destruct i; discriminate.
  - intros l H. simpl in H.
    destruct H as [<- | [<- | [<- | []]]];
      [exists 0%nat | exists 0%nat | exists 1%nat]; simpl; split; auto; lia.
  - intros l p H. simpl in H.
    destruct H as [<- | [<- | [<- | [<- | []]]]]; simpl; tauto.
Defined.

(** The diamond of the specification's scenario: [idom(B) = idom(C) =
    idom(D) = A]. *)
Example idom_diamond :
  (do t <- create diamond_view true 3;
   do b <- idom diamond_view true t 1%nat;
   do c <- idom diamond_view true t 2%nat;
   do d <- idom diamond_view true t 3%nat;
   Done [b; c; d]) = Done [0; 0; 0]%nat.
Proof. vm_compute. reflexivity. Qed.

Lemma lca_two_roots (nodes : Nodes) (fuel : nat) :
  nodes 0 = Some (mkNode 0%nat (Some 0) []) ->
  nodes 1 = Some (mkNode 1%nat (Some 1) []) ->
  lca two_entries true fuel nodes (Some 0) (Some 1) = OutOfFuel.
Proof.
  intros H0 H1. induction fuel as [|f IH]; [reflexivity |].
  cbn [lca]. unfold node_index. cbn [deref]. rewrite H0, H1. cbn [bind lambda_].
  change (index two_entries true 0%nat) with 0.
  change (index two_entries true 1%nat) with 1.
  cbn [Z.eqb Z.ltb Z.compare Pos.compare]. exact IH.
Qed.

Lemma create_two_entries (fuel : nat) :
  create two_entries true fuel = OutOfFuel.
Proof.
  unfold create.
  destruct (alloc_nodes two_entries true (rpo two_entries) (fun _ => None))
    as [n1| |] eqn:E1; [| vm_compute in E1; discriminate E1 ..].
  vm_compute in E1. inversion E1 as [N1]. clear E1. cbn [bind]. subst n1.
  match goal with |- context [init_entries _ _ _ ?n] =>
    destruct (init_entries two_entries true (entries two_entries) n)
      as [n2| |] eqn:E2; [| vm_compute in E2; discriminate E2 ..] end.
  vm_compute in E2. inversion E2 as [N2]. clear E2. cbn [bind]. subst n2.
  match goal with |- context [init_body _ _ _ ?n] =>
    destruct (init_body two_entries true (body two_entries) n)
      as [n3| |] eqn:E3; [| vm_compute in E3; discriminate E3 ..] end.
  vm_compute in E3. inversion E3 as [N3]. clear E3. cbn [bind]. subst n3.
  match goal with |- context [iterate _ _ _ _ _ ?n] => set (n3 := n) end.
  assert (H0 : n3 0 = Some (mkNode 0%nat (Some 0) [])) by reflexivity.
  assert (H1 : n3 1 = Some (mkNode 1%nat (Some 1) [])) by reflexivity.
  assert (H2 : n3 2 = Some (mkNode 2%nat (Some 0) [])) by reflexivity.
  destruct fuel as [|f]; [reflexivity |].
  cbn [iterate].
  change (body two_entries) with [2%nat].
  cbn [sweep]. unfold lookup, at_.
  change (index two_entries true 2%nat) with 2.
  change ((0 <=? 2) && (2 <? size two_entries)) with true.
  cbn [bind]. rewrite H2. cbn [bind deref]. rewrite H2. cbn [bind].
  change (tree_preds two_entries true 2%nat) with [0; 1]%nat.
  cbn [new_idom_of]. unfold lookup, at_.
  change (index two_entries true 0%nat) with 0.
  change (index two_entries true 1%nat) with 1.
  change ((0 <=? 0) && (0 <? size two_entries)) with true.
  change ((0 <=? 1) && (1 <? size two_entries)) with true.
  cbn [bind]. rewrite H0, H1. cbn [bind].
  rewrite (lca_two_roots n3 (S f) H0 H1). reflexivity.
Qed.

(** The scope of the two entries as [Scope(world, {E0, E1})] builds it
    when [L] uses a parameter of [E1]: [analyze] inserts [E0], [E1] and,
    as a user of the parameter, [L]; [process] numbers them, and
    [two_entries] is the view of the result. *)
Lemma two_entries_built :
  exists sc w,
    Scope.Scope_new join_succs join_preds 3 1 [0; 1]%nat [0; 1; 2]%nat fresh_world
      = Done (sc, w) /\
    views join_preds two_entries sc (Scope.heap w) /\
    (forall l, backwards_sid two_entries l = Scope.backwards_sid_ (Scope.heap w l)).
Proof.
  eexists. eexists. split; [vm_compute; reflexivity |]. split; [split; [| split; [| split]] |].
  - reflexivity.
  - reflexivity.
  - intros [|[|[|l]]]; reflexivity.
  - intros [|[|[|l]]]; reflexivity.
  - intros [|[|[|l]]]; reflexivity.
Qed.

(** C2: [DomTree::create] does not build the trees it is meant to.
    - Forwards, on a scope with several entries: whenever two different
      entries are among the predecessors of a body lambda, [create]
      returns no tree, whatever the number of steps it is given.  On the
      scope of the entries [E0], [E1] and the lambda [L] that both jump
      to, as [Scope] builds it, it does not return at all: the fixed-point
      loop calls [lca(E0, E1)], both are their own [idom_], and the loop
      of [lca] moves the pointer of greater index to itself for ever.
    - Backwards ([forwards = false]): [index] is [backwards_sid], which
      is [size_t(-1)] on every lambda, so that the first access
      [nodes_[index(lambda)]] of [create] is out of range; no
      post-dominator tree is built on any scope, the diamond of one
      entry included. *)
Theorem create_builds_no_tree :
  (forall v fuel t L e0 e1,
      NoDup (map (sid v) (rpo v)) ->
      In e0 (entries v) -> In e1 (entries v) -> e0 <> e1 ->
      In L (body v) -> In e0 (preds v L) -> In e1 (preds v L) ->
      create v true fuel <> Done t) /\
  (exists sc w,
      Scope.Scope_new join_succs join_preds 3 1 [0; 1]%nat [0; 1; 2]%nat fresh_world
        = Done (sc, w) /\
      views join_preds two_entries sc (Scope.heap w) /\
      (forall l, backwards_sid two_entries l = Scope.backwards_sid_ (Scope.heap w l))) /\
  (forall fuel, create two_entries true fuel = OutOfFuel) /\
  (forall v fuel l rest,
      rpo v = l :: rest ->
      backwards_sid v l = size_t_bottom ->
      size v <= size_t_bottom ->
      create v false fuel = Fault) /\
  (forall fuel, create two_entries false fuel = Fault) /\
  (forall fuel, create diamond_view false fuel = Fault).
Proof.
  split; [| split; [| split; [| split; [| split]]]].
  - intros v fuel t L e0 e1. apply create_meets_no_root.
  - exact two_entries_built.
  - exact create_two_entries.
  - intros v fuel l rest. apply create_backwards_faults.
  - intros fuel. apply (create_backwards_faults two_entries fuel 0%nat [1; 2]%nat);
      [reflexivity | reflexivity | apply Z.leb_le; vm_compute; reflexivity].
  - intros fuel. apply (create_backwards_faults diamond_view fuel 0%nat [2; 1; 3]%nat);
      [reflexivity | reflexivity | apply Z.leb_le; vm_compute; reflexivity].
Qed.

(** The two general parts at the scope of the two entries and at the
    diamond. *)
Lemma create_builds_no_tree_witness :
  (forall fuel t, create two_entries true fuel <> Done t) /\
  (forall fuel, create diamond_view false fuel = Fault).
Proof.
  split.
  - intros fuel t.
    apply (proj1 create_builds_no_tree two_entries fuel t 2%nat 0%nat 1%nat).
    + repeat constructor; simpl; intuition discriminate.
    + simpl. auto.
    + simpl. auto.
    + discriminate.
    + simpl. auto.
    + simpl. auto.
    + simpl. auto.
  - intros fuel.
    apply (proj1 (proj2 (proj2 (proj2 create_builds_no_tree)))
             diamond_view fuel 0%nat [2; 1; 3]%nat).
    + reflexivity.
    + reflexivity.
    + apply Z.leb_le. vm_compute. reflexivity.
Defined.

Lemma idom_precedes_witness :
  exists t, create diamond_view true 25 = Done t /\
    (forall e, In e (entries diamond_view) -> idom diamond_view true t e = Done e) /\
    (forall l, In l (body diamond_view) ->
       exists d, idom diamond_view true t l = Done d /\ In d (rpo diamond_view) /\
                 sid diamond_view d < sid diamond_view l).
Proof.
  destruct diamond_numbered as (Hnum & Hone & Hlow & Hin).
  apply (idom_precedes diamond_view Hnum Hone Hlow Hin 25). simpl. lia.
Defined.

Lemma idom_is_lca_of_preds_witness :
  exists t, create diamond_view true 25 = Done t /\
    forall l, In l (body diamond_view) ->
      exists d, idom diamond_view true t l = Done d /\
                new_idom_of diamond_view true 25 t (preds diamond_view l) None
                = Done (Some (sid diamond_view d)).
Proof.
  destruct diamond_numbered as (Hnum & Hone & Hlow & Hin).
  apply (idom_is_lca_of_preds diamond_view Hnum Hone Hlow Hin 25). simpl. lia.
Defined.

Lemma children_follow_idom_witness :
  exists t, create diamond_view true 25 = Done t /\
    forall l, In l (rpo diamond_view) ->
      exists n, t (sid diamond_view l) = Some n /\ lambda_ n = l /\
                NoDup (children_ n) /\
                forall x, In x (rpo diamond_view) ->
                  (In (sid diamond_view x) (children_ n) <->
                   In x (body diamond_view) /\ idom diamond_view true t x = Done l).
Proof.
  destruct diamond_numbered as (Hnum & Hone & Hlow & Hin).
  apply (children_follow_idom diamond_view Hnum Hone Hlow Hin 25). simpl. lia.
Defined.

(** The children of the entry of the diamond are its three other
    lambdas, in reverse postorder. *)
Example children_diamond :
  (do t <- create diamond_view true 25;
   do n <- deref t (Some 0);
   Done (children_ n)) = Done [1; 2; 3].
Proof. vm_compute. reflexivity. Qed.

Lemma depth_counts_idoms_witness :
  exists t, create diamond_view true 25 = Done t /\
    forall l, In l (rpo diamond_view) ->
      exists k, depth diamond_view true 25 t l = Done k /\
        0 <= k <= sid diamond_view l /\
        (In l (entries diamond_view) -> k = 0) /\
        (In l (body diamond_view) ->
           exists d k', idom diamond_view true t l = Done d /\
                        depth diamond_view true 25 t d = Done k' /\ k = k' + 1).
Proof.
  destruct diamond_numbered as (Hnum & Hone & Hlow & Hin).
  apply (depth_counts_idoms diamond_view Hnum Hone Hlow Hin 25).
  - simpl. lia.
  - unfold size, INT_MAX. simpl. lia.
Defined.

Lemma lca_common_dominator_witness :
  exists t, create diamond_view true 25 = Done t /\
    forall i j, In i (rpo diamond_view) -> In j (rpo diamond_view) ->
      exists c, lca_lambda diamond_view true 25 t i j = Done c /\
                lca_lambda diamond_view true 25 t j i = Done c /\
                In c (rpo diamond_view) /\
                (i = j -> c = i) /\
                forall a p, In a (entries diamond_view) ->
                            path diamond_view a p i \/ path diamond_view a p j ->
                            In c p.
Proof.
  destruct diamond_numbered as (Hnum & Hone & Hlow & Hin).
  apply (lca_common_dominator diamond_view Hnum Hone Hlow Hin 25). simpl. lia.
Defined.

(** In the diamond, [lca(B, C)] is [A]. *)
Example lca_diamond :
  (do t <- create diamond_view true 25; lca_lambda diamond_view true 25 t 1%nat 2%nat)
  = Done 0%nat.
Proof. vm_compute. reflexivity. Qed.

End DominatorExamples.

(** ** The pass manager *)

Section PassMgrFacts.
Import PassMgr.

Variable Pass : Type.

Local Abbreviation PassMgr := (PassMgr.PassMgr Pass).
Local Abbreviation lookup := (@PassMgr.lookup Pass).
Local Abbreviation map := (@PassMgr.map Pass).
Local Abbreviation cur_state := (@PassMgr.cur_state Pass).
Local Abbreviation set_cur_state := (@PassMgr.set_cur_state Pass).

Lemma resolves_end (m : Def2Def) (k r : Def) :
  resolves m k r -> m r = None \/ m r = Some r.
Proof.
  induction 1 as [k v Hk [Hv | ->] | k v r Hk Hv Hne _ IH]; auto.
Qed.

Lemma resolves_key (m : Def2Def) (k r : Def) : resolves m k r -> m k <> None.
Proof. intros H. inversion H; congruence. Qed.

Lemma resolves_fun (m : Def2Def) (k r r' : Def) :
  resolves m k r -> resolves m k r' -> r = r'.
Proof.
  intros H. revert r'.
  induction H as [k v Hk Hv | k v r Hk Hv Hne _ IH]; intros r' H'.
  - inversion H' as [k' v' Hk' Hv' | k' v' r'' Hk' Hv' Hne' Hr']; subst.
    + congruence.
    + rewrite Hk in Hk'. inversion Hk'; subst v'. destruct Hv; congruence.
  - inversion H' as [k' v' Hk' Hv' | k' v' r'' Hk' Hv' Hne' Hr']; subst.
    + rewrite Hk in Hk'. inversion Hk'; subst. destruct Hv'; congruence.
    + rewrite Hk in Hk'. inversion Hk'; subst v'. now apply IH.
Qed.

Lemma assign_eq (m : Def2Def) (k v : Def) : assign m k v k = Some v.
Proof. unfold assign. now rewrite Nat.eqb_refl. Qed.

Lemma assign_neq (m : Def2Def) (k v x : Def) : x <> k -> assign m k v x = m x.
Proof. intros H. unfold assign. apply Nat.eqb_neq in H. now rewrite H. Qed.

(** Pointing a key straight at the end of its chain changes no chain. *)
Lemma assign_resolves (m : Def2Def) (k r : Def) :
  resolves m k r ->
  forall x y, resolves m x y -> resolves (assign m k r) x y.
Proof.
  intros Hk x y H.
  assert (End_ : resolves (assign m k r) k r).
  { destruct (Nat.eq_dec r k) as [-> | Hne].
    - apply resolves_stop; [apply assign_eq | now right].
    - destruct (resolves_end _ _ _ Hk) as [E | E].
      + apply resolves_stop; [apply assign_eq |]. left. now rewrite assign_neq.
      + apply resolves_step with (v := r); auto.
        * apply assign_eq.
        * rewrite assign_neq by auto. congruence.
        * apply resolves_stop; [now rewrite assign_neq | now right]. }
  induction H as [x v Hx Hv | x v y Hx Hv Hne Hvy IH].
  - destruct (Nat.eq_dec x k) as [-> | Hxk].
    + assert (v = r).
      { apply (resolves_fun m k); auto. now apply resolves_stop. }
      subst v. exact End_.
    + apply resolves_stop; [now rewrite assign_neq |].
      destruct Hv as [Hv | ->]; [| now right]. left.
      rewrite assign_neq; auto. intros ->. apply (resolves_key _ _ _ Hk). exact Hv.
  - destruct (Nat.eq_dec x k) as [-> | Hxk].
    + assert (y = r).
      { apply (resolves_fun m k); auto. eapply resolves_step; eauto. }
      subst y. exact End_.
    + apply resolves_step with (v := v); auto.
      * now rewrite assign_neq.
      * destruct (Nat.eq_dec v k) as [-> | Hvk].
        -- rewrite assign_eq. discriminate.
        -- now rewrite assign_neq.
Qed.

(** The private [lookup] follows a chain to its end and leaves the map
    with the same keys and the same chains. *)
Lemma lookup_at_resolves (m : Def2Def) (k r : Def) :
  resolves m k r ->
  exists fuel m',
    (forall fuel', (fuel <= fuel')%nat -> lookup_at fuel' m k = Done (m', r)) /\
    m' k = Some r /\
    (forall x, m x = None <-> m' x = None) /\
    (forall x y, resolves m x y -> resolves m' x y).
Proof.
  induction 1 as [k v Hk Hv | k v r Hk Hv Hne Hr IH].
  - exists 1%nat, m. repeat split; auto.
    intros [|f] Hf; [lia |]. cbn [lookup_at]. rewrite Hk.
    destruct Hv as [Hv | ->].
    + now rewrite Hv.
    + rewrite Hk, Nat.eqb_refl. reflexivity.
  - destruct IH as (fuel & m1 & Run & _ & Keys & Pres).
    exists (S fuel), (assign m1 k r). repeat split.
    + intros [|f] Hf; [lia |]. cbn [lookup_at]. rewrite Hk.
      destruct (m v) as [second|] eqn:Ev; [| congruence].
      apply Nat.eqb_neq in Hne. rewrite Hne. cbn [negb].
      rewrite (Run f) by lia. reflexivity.
    + apply assign_eq.
    + intros Hx. destruct (Nat.eq_dec x k) as [-> | Hxk]; [congruence |].
      rewrite assign_neq by auto. now apply Keys.
    + intros Hx. destruct (Nat.eq_dec x k) as [-> | Hxk].
      * rewrite assign_eq in Hx. discriminate.
      * rewrite assign_neq in Hx by auto. now apply Keys.
    + intros x y Hxy. apply assign_resolves.
      * apply Pres. eapply resolves_step; eauto.
      * now apply Pres.
Qed.

Lemma cur_state_back (mgr : PassMgr) (s : State) :
  cur_state mgr = Done s -> states_ Pass mgr = removelast (states_ Pass mgr) ++ [s].
Proof.
  unfold PassMgr.cur_state. intros H.
  destruct (states_ Pass mgr) as [|x l] eqn:E; [discriminate |].
  assert (Hne : x :: l <> []) by discriminate.
  rewrite (app_removelast_last x Hne) at 1. f_equal. f_equal.
  rewrite <- (rev_involutive (x :: l)).
  destruct (rev (x :: l)) as [|y r] eqn:R; [discriminate |].
  inversion H; subst y. simpl. now rewrite last_last.
Qed.

Lemma cur_state_set (mgr : PassMgr) (s : State) :
  cur_state (set_cur_state mgr s) = Done s.
Proof.
  unfold PassMgr.cur_state, PassMgr.set_cur_state. cbn [states_].
  now rewrite rev_app_distr.
Qed.

(** X6: [lookup] of a definition whose chain of replacements ends in [r]
    returns [r]; afterwards the definition maps straight to [r] (path
    compression), the map has the keys it had, and every chain still ends
    where it ended. *)
Theorem lookup_follows_chain (mgr : PassMgr) (s : State) (old_def r : Def) :
  cur_state mgr = Done s ->
  resolves (old2new s) old_def r ->
  exists fuel m',
    (forall fuel', (fuel <= fuel')%nat ->
       lookup fuel' old_def mgr = Done (set_cur_state mgr (with_old2new s m'), Some r)) /\
    m' old_def = Some r /\
    (forall x, old2new s x = None <-> m' x = None) /\
    (forall x y, resolves (old2new s) x y -> resolves m' x y).
Proof.
  intros Hs Hr.
  destruct (lookup_at_resolves _ _ _ Hr) as (fuel & m' & Run & Hk & Keys & Pres).
  exists fuel, m'. repeat split; auto; try now apply Keys.
  intros fuel' Hf. unfold PassMgr.lookup. rewrite Hs. cbn [bind].
  destruct (old2new s old_def) eqn:E; [| now apply resolves_key in Hr].
  rewrite (Run fuel' Hf). reflexivity.
Qed.

Lemma lookup_at_cycle (m : Def2Def) (a b : Def) (fuel : nat) :
  m a = Some b -> m b = Some a -> a <> b -> lookup_at fuel m a = OutOfFuel.
Proof.
  revert a b. induction fuel as [|fuel IH]; intros a b Ha Hb Hne; [reflexivity |].
  cbn [lookup_at]. rewrite Ha, Hb.
  assert (E : (b =? a)%nat = false) by (apply Nat.eqb_neq; congruence).
  rewrite E. cbn [negb]. rewrite (IH b a); auto.
Qed.

(** X7: when two definitions replace each other, [lookup] of either one
    never returns: the recursion of the private [lookup] goes round the
    cycle, whatever number of nested calls it is given. *)
Theorem lookup_cycle_diverges (mgr : PassMgr) (s : State) (a b : Def) (fuel : nat) :
  cur_state mgr = Done s ->
  old2new s a = Some b -> old2new s b = Some a -> a <> b ->
  lookup fuel a mgr = OutOfFuel.
Proof.
  intros Hs Ha Hb Hne. unfold PassMgr.lookup. rewrite Hs. cbn [bind]. rewrite Ha.
  now rewrite (lookup_at_cycle _ a b).
Qed.

Lemma with_old2new_same (s : State) : with_old2new s (old2new s) = s.
Proof. now destruct s. Qed.

Lemma set_cur_state_same (mgr : PassMgr) (s : State) :
  cur_state mgr = Done s -> set_cur_state mgr s = mgr.
Proof.
  intros H. unfold PassMgr.set_cur_state. rewrite <- (cur_state_back mgr s H).
  now destruct mgr.
Qed.

(** X8: [map] is an [emplace]: on a definition that is mapped already it
    returns the new definition but leaves the manager as it was, so that
    the first replacement stays. *)
Theorem map_keeps_first (mgr : PassMgr) (s : State) (old_def new_def : Def) :
  cur_state mgr = Done s ->
  old2new s old_def <> None ->
  map old_def new_def mgr = Done (mgr, new_def).
Proof.
  intros Hs Hk. unfold PassMgr.map. rewrite Hs. cbn [bind]. unfold emplace.
  destruct (old2new s old_def); [| congruence].
  now rewrite with_old2new_same, (set_cur_state_same _ _ Hs).
Qed.

Lemma emplace_new (m : Def2Def) (k v : Def) :
  m k = None -> emplace m k v = assign m k v.
Proof. intros H. unfold emplace. now rewrite H. Qed.

Lemma resolves_grows (m : Def2Def) (k v x y : Def) :
  m k = None -> resolves m x y -> y <> k -> resolves (assign m k v) x y.
Proof.
  intros Hk H Hy. induction H as [x w Hx Hw | x w y Hx Hw Hne _ IH].
  - assert (x <> k) by congruence.
    apply resolves_stop; [now rewrite assign_neq |].
    destruct Hw as [Hw | ->]; [| now right]. left. now rewrite assign_neq.
  - assert (x <> k) by congruence. assert (w <> k) by congruence.
    apply resolves_step with (v := w); auto; rewrite assign_neq; auto.
Qed.

(** X9: after [map(old_def, new_def)] on a definition that was not mapped,
    [lookup(old_def)] returns [new_def] when that is no key, and the end
    of the chain of [new_def] otherwise (a transitive replacement),
    provided that chain does not end in [old_def] itself. *)
Theorem map_then_lookup (mgr : PassMgr) (s : State) (old_def new_def r : Def) :
  cur_state mgr = Done s ->
  old2new s old_def = None ->
  (old2new s new_def = None /\ r = new_def) \/
  (resolves (old2new s) new_def r /\ r <> old_def) ->
  exists mgr1 fuel mgr2,
    map old_def new_def mgr = Done (mgr1, new_def) /\
    forall fuel', (fuel <= fuel')%nat ->
      lookup fuel' old_def mgr1 = Done (mgr2, Some r).
Proof.
  intros Hs Hold Hnew.
  set (m1 := assign (old2new s) old_def new_def).
  set (s1 := with_old2new s m1).
  assert (R : resolves m1 old_def r).
  { destruct Hnew as [[Hn ->] | [Hr Hne]].
    - apply resolves_stop; [apply assign_eq |].
      destruct (Nat.eq_dec new_def old_def) as [-> | Hne]; [now right | left].
      unfold m1. now rewrite assign_neq.
    - assert (new_def <> old_def).
      { intros ->. now apply resolves_key in Hr. }
      apply resolves_step with (v := new_def); auto.
      + apply assign_eq.
      + unfold m1. rewrite assign_neq by auto. now apply resolves_key in Hr.
      + now apply resolves_grows. }
  destruct (lookup_at_resolves _ _ _ R) as (fuel & m' & Run & _).
  exists (set_cur_state mgr s1), fuel, (set_cur_state (set_cur_state mgr s1) (with_old2new s1 m')).
  split.
  - unfold PassMgr.map. rewrite Hs. cbn [bind]. now rewrite emplace_new.
  - intros fuel' Hf. unfold PassMgr.lookup. rewrite cur_state_set. cbn [bind].
    change (old2new s1) with m1. unfold m1 at 1. rewrite assign_eq.
    now rewrite (Run fuel' Hf).
Qed.

End PassMgrFacts.

Section PassMgrExamples.
Import PassMgr Examples.

Lemma lookup_follows_chain_witness :
  exists fuel m',
    (forall fuel', (fuel <= fuel')%nat ->
       lookup unit fuel' 1%nat chain_mgr
       = Done (set_cur_state unit chain_mgr (with_old2new chain_state m'),
               Some 3%nat)) /\
    m' 1%nat = Some 3%nat.
Proof.
  destruct (lookup_follows_chain unit chain_mgr chain_state 1%nat 3%nat)
    as (fuel & m' & Run & Hk & _).
  - reflexivity.
  - apply resolves_step with (v := 2%nat); [reflexivity | discriminate | discriminate |].
    apply resolves_stop; [reflexivity | now left].
  - exists fuel, m'. auto.
Defined.

Lemma lookup_cycle_diverges_witness :
  lookup unit 100 5%nat chain_mgr = OutOfFuel.
Proof.
  apply (lookup_cycle_diverges unit chain_mgr chain_state 5%nat 6%nat);
    [reflexivity | reflexivity | reflexivity | discriminate].
Defined.

Lemma map_keeps_first_witness :
  map unit 1%nat 7%nat chain_mgr = Done (chain_mgr, 7%nat).
Proof.
  apply (map_keeps_first unit chain_mgr chain_state);
    [reflexivity | discriminate].
Defined.

Lemma map_then_lookup_witness :
  exists mgr1 fuel mgr2,
    map unit 9%nat 1%nat chain_mgr = Done (mgr1, 1%nat) /\
    forall fuel', (fuel <= fuel')%nat ->
      lookup unit fuel' 9%nat mgr1 = Done (mgr2, Some 3%nat).
Proof.
  apply (map_then_lookup unit chain_mgr chain_state 9%nat 1%nat 3%nat);
    [reflexivity | reflexivity |].
  right. split; [| discriminate].
  apply resolves_step with (v := 2%nat); [reflexivity | discriminate | discriminate |].
  apply resolves_stop; [reflexivity | now left].
Defined.

End PassMgrExamples.

(** ** The order of uses *)

Section UseOrderFacts.
Import UseOrder.

Lemma UseLT_lex (a b : Use) :
  UseLT a b = true <->
  gid (def_ a) < gid (def_ b) \/
  (gid (def_ a) = gid (def_ b) /\ index_ a < index_ b).
Proof.
  unfold UseLT. cbn zeta.
  rewrite orb_true_iff, andb_true_iff, !Z.ltb_lt, Z.eqb_eq. tauto.
Qed.

Lemma UseLT_not (a b : Use) :
  UseLT a b = false <->
  ~ (gid (def_ a) < gid (def_ b) \/
     (gid (def_ a) = gid (def_ b) /\ index_ a < index_ b)).
Proof.
  rewrite <- UseLT_lex. destruct (UseLT a b); split; congruence.
Qed.

(** X10: [UseLT] is a strict order on uses, and two uses that it does not
    tell apart have the same user gid and the same index: the ordered set
    [uses_] holds one entry per (user, operand index), sorted by gid and
    then by index. *)
Theorem UseLT_strict_total (a b c : Use) :
  UseLT a a = false /\
  (UseLT a b = true -> UseLT b a = false) /\
  (UseLT a b = true -> UseLT b c = true -> UseLT a c = true) /\
  (UseLT a b = false /\ UseLT b a = false <->
   gid (def_ a) = gid (def_ b) /\ index_ a = index_ b).
Proof.
  rewrite !UseLT_not, !UseLT_lex. lia.
Qed.

End UseOrderFacts.

(** ** Successors *)

Section Successors.
Import IR.

Lemma enqueue_new (ops queue done : list Def) :
  exists new,
    fst (enqueue ops queue done) = queue ++ new /\
    NoDup new /\
    (forall x, In x new -> ~ In x done /\ In x ops) /\
    (forall x, In x (snd (enqueue ops queue done)) <-> In x done \/ In x new) /\
    incl ops (snd (enqueue ops queue done)).
Proof.
  revert queue done. induction ops as [|o ops IH]; intros queue done; simpl.
  - exists []. rewrite app_nil_r.
    split; [reflexivity |]. split; [constructor |]. split; [intros x [] |].
    split; [intros x; simpl; tauto | intros x []].
  - destruct (existsb (Def_eqb o) done) eqn:E.
    + destruct (IH queue done) as (new & Q & N & F & D & I).
      exists new. repeat split; auto.
      * now apply F.
      * right. now apply F.
      * now apply D.
      * now apply D.
      * intros x [<- | Hx]; [| now apply I].
        apply D. left. now apply existsb_Def_eqb.
    + assert (Ho : ~ In o done).
      { intros H. apply existsb_Def_eqb in H. congruence. }
      destruct (IH (queue ++ [o]) (o :: done)) as (new & Q & N & F & D & I).
      exists (o :: new). repeat split.
      * rewrite Q, <- app_assoc. reflexivity.
      * constructor; auto. intros H. apply F in H. apply (proj1 H). now left.
      * destruct H as [<- | H]; auto. apply F in H. intros Hd. apply (proj1 H). now right.
      * destruct H as [<- | H]; [now left | right; now apply F].
      * intros H. apply D in H. simpl in *. tauto.
      * intros H. apply D. simpl in *. tauto.
      * intros x [<- | Hx]; [| now apply I]. apply D. left. now left.
Qed.

Lemma mentions_ops (l : nat) (d : Def) :
  isa_lambda d = None ->
  mentions l d = true <-> exists o, In o (primop_ops d) /\ mentions l o = true.
Proof.
  destruct d as [g|a i|t|t x|c t f|k t ops]; simpl; intros H; try discriminate.
  - split; [discriminate | intros (o & [] & _)].
  - split; [discriminate | intros (o & [] & _)].
  - split; [discriminate | intros (o & [] & _)].
  - rewrite !orb_true_iff. split.
    + intros [[Hc | Ht] | Hf]; eauto 6.
    + intros (o & [<- | [<- | [<- | []]]] & Ho); auto.
  - apply existsb_exists.
Qed.

Section Work.

Variable next : Def -> list Def.
Variable good : Def -> Prop.
Variable start : list Def.

Local Abbreviation worked := (IR.worked next good start).

Lemma worked_start :
  (forall x, In x start -> good x) ->
  worked (fst (enqueue start [] [])) (snd (enqueue start [] [])) [].
Proof.
  intros Hg. destruct (enqueue_new start [] []) as (new & Q & N & F & D & I).
  simpl in Q. constructor.
  - intros x Hx. apply D. right. now rewrite Q in Hx.
  - now rewrite Q.
  - constructor.
  - contradiction.
  - intros d Hd. left. rewrite Q. apply D in Hd. destruct Hd as [[] | Hd]. exact Hd.
  - intros d Hd. apply D in Hd. destruct Hd as [[] | Hd]. apply Hg. now apply F.
  - exact I.
Qed.

Lemma worked_lambda (queue done : list Def) (result : list nat) (l : nat) :
  worked (DLambda l :: queue) done result -> worked queue done (result ++ [l]).
Proof.
  intros [Qd Qo Ro Rl Dd Dg Do].
  inversion Qo as [|? ? Hnot Qo']; subst.
  constructor; auto.
  - intros x Hx. apply Qd. now right.
  - apply NoDup_app; [exact Ro | repeat constructor; intros [] | ].
    intros x Hx [<- | []]. apply (proj2 (Rl _ Hx)). now left.
  - intros x Hx. apply in_app_or in Hx. destruct Hx as [Hx | [<- | []]].
    + destruct (Rl _ Hx) as (A & B). split; auto. intros H. apply B. now right.
    + split; auto. apply Qd. now left.
  - intros d Hd. destruct (Dd d Hd) as [[<- | Hq] | Hp].
    + right. simpl. apply in_or_app. right. now left.
    + now left.
    + right. destruct (isa_lambda d); auto. apply in_or_app. now left.
Qed.

Lemma worked_node (queue done : list Def) (result : list nat) (def : Def) :
  isa_lambda def = None ->
  (good def -> forall x, In x (next def) -> good x) ->
  worked (def :: queue) done result ->
  worked (fst (enqueue (next def) queue done))
         (snd (enqueue (next def) queue done)) result.
Proof.
  intros Hn Hg [Qd Qo Ro Rl Dd Dg Do].
  inversion Qo as [|? ? Hnot Qo']; subst.
  destruct (enqueue_new (next def) queue done) as (new & Q & N & F & D & I).
  rewrite Q. constructor; auto.
  - intros x Hx. apply D. apply in_app_or in Hx. destruct Hx as [Hx | Hx]; auto.
    left. apply Qd. now right.
  - apply NoDup_app; auto. intros x Hx Hx'. apply (proj1 (F x Hx')). apply Qd. now right.
  - intros l Hl. destruct (Rl _ Hl) as (A & B). split; [apply D; now left |].
    intros H. apply in_app_or in H. destruct H as [H | H].
    + apply B. now right.
    + now apply (proj1 (F _ H)).
  - intros d Hd. apply D in Hd. destruct Hd as [Hd | Hd].
    + destruct (Dd d Hd) as [[<- | Hq] | Hp].
      * right. rewrite Hn. exact I.
      * left. apply in_or_app. now left.
      * right. destruct (isa_lambda d); auto.
        intros x Hx. apply D. left. now apply Hp.
    + left. apply in_or_app. now right.
  - intros d Hd. apply D in Hd. destruct Hd as [Hd | Hd]; [auto |].
    apply Hg; [apply Dg, Qd; now left | now apply F].
  - intros x Hx. apply D. left. now apply Do.
Qed.

End Work.

Lemma below_ops (ops : list Def) (def : Def) :
  isa_lambda def = None -> below ops def ->
  forall x, In x (primop_ops def) -> below ops x.
Proof.
  intros Hn Hb x Hx l Hm. apply Hb. apply mentions_ops; auto. exists x. auto.
Qed.

Lemma queued_closed (ops done : list Def) (result : list nat) (l : nat) :
  worked primop_ops (below ops) ops [] done result ->
  forall d, In d done -> mentions l d = true -> In l result.
Proof.
  intros [Qd Qo Ro Rl Dd Ds Do] d. 
  induction d as [g|a i|t|t x|c t f IHc IHt IHf|k t os IH] using Def_induction;
    intros Hd Hm; simpl in Hm; try discriminate.
  - apply Nat.eqb_eq in Hm. subst g. destruct (Dd _ Hd) as [[] | Hp]. exact Hp.
  - destruct (Dd _ Hd) as [[] | Hp]. simpl in Hp.
    rewrite !orb_true_iff in Hm. destruct Hm as [[Hm | Hm] | Hm].
    + apply IHc; auto. apply Hp. simpl. auto.
    + apply IHt; auto. apply Hp. simpl. auto.
    + apply IHf; auto. apply Hp. simpl. auto.
  - destruct (Dd _ Hd) as [[] | Hp]. simpl in Hp.
    apply existsb_exists in Hm. destruct Hm as (o & Ho & Hm).
    rewrite Forall_forall in IH. apply (IH o Ho); auto.
Qed.

Lemma succs_loop_queued (ops : list Def) (fuel : nat) :
  forall queue done result r,
    worked primop_ops (below ops) ops queue done result ->
    succs_loop fuel queue done result = Done r ->
    exists done', worked primop_ops (below ops) ops [] done' r.
Proof.
  induction fuel as [|fuel IH]; intros [|def queue] done result r Q; cbn [succs_loop];
    try discriminate.
  - intros E. inversion E; subst. eauto.
  - intros E. inversion E; subst. eauto.
  - destruct (isa_lambda def) as [l|] eqn:Il.
    + destruct def; try discriminate. inversion Il; subst. apply IH.
      now apply worked_lambda.
    + pose proof (worked_node _ _ _ _ _ _ _ Il
                    (fun G => below_ops ops def Il G) Q) as Q'.
      destruct (enqueue (primop_ops def) queue done) as [q d]. apply IH. exact Q'.
Qed.

Lemma succs_spec (w : World) (this : nat) (r : Lambda) (ops : list Def) :
  get_lambda w this = Done r ->
  non_null (ops_ r) = Done ops ->
  exists ss, succs w this = Done ss /\ NoDup ss /\
             forall l, In l ss <-> exists o, In o ops /\ mentions l o = true.
Proof.
  intros G N. destruct (succs_returns w this r ops G N) as (ss & E).
  exists ss. split; [exact E |].
  unfold succs in E. rewrite G in E. cbn [bind] in E. rewrite N in E. cbn [bind] in E.
  assert (Q : worked primop_ops (below ops) ops
                (fst (enqueue ops [] [])) (snd (enqueue ops [] [])) []).
  { apply worked_start. intros x Hx l Hm. eauto. }
  destruct (enqueue ops [] []) as [q d]. simpl in Q.
  destruct (succs_loop_queued ops _ _ _ _ _ Q E) as (done' & Q').
  split; [exact (result_once _ _ _ _ _ _ Q') |].
  intros l. split.
  - intros Hl. destruct (result_left _ _ _ _ _ _ Q' l Hl) as (Hd & _).
    apply (done_good _ _ _ _ _ _ Q' (DLambda l) Hd l). simpl. apply Nat.eqb_refl.
  - intros (o & Ho & Hm). apply (queued_closed ops done' ss l Q' o); auto.
    now apply (done_start _ _ _ _ _ _ Q').
Qed.

(** X11: on a lambda without null operands, [succs] returns, without
    repetition, exactly the lambdas that an operand (callee or argument)
    reaches through primops and selects, not through another lambda. *)
Theorem succs_reaches (w : World) (this : nat) (r : Lambda) (ops : list Def) :
  get_lambda w this = Done r ->
  non_null (ops_ r) = Done ops ->
  exists ss, succs w this = Done ss /\ NoDup ss /\
             forall l, In l ss <-> exists o, In o ops /\ mentions l o = true.
Proof. apply succs_spec. Qed.

Lemma succs_reaches_witness :
  exists ss, succs Examples.join_world 1 = Done ss /\ NoDup ss /\
             forall l, In l ss <->
                       exists o, In o [DLambda 0; Examples.seven] /\ mentions l o = true.
Proof.
  eapply (succs_reaches Examples.join_world 1); reflexivity.
Defined.

Lemma non_null_hd (ops : list (option Def)) (l : list Def) (o : option Def)
  (rest : list (option Def)) :
  ops = o :: rest -> non_null ops = Done l -> exists d tl, o = Some d /\ l = d :: tl.
Proof.
  intros -> H. simpl in H. destruct o as [d|]; [| discriminate].
  destruct (non_null rest) as [tl| |]; simpl in H; try discriminate.
  inversion H. eauto.
Qed.

(** X12: every direct successor is a successor: what [direct_succs] returns
    is among what [succs] returns. *)
Theorem direct_succs_are_succs (w : World) (this : nat) (r : Lambda)
  (ops : list Def) (ds : list nat) :
  get_lambda w this = Done r ->
  non_null (ops_ r) = Done ops ->
  direct_succs w this = Done ds ->
  exists ss, succs w this = Done ss /\ incl ds ss.
Proof.
  intros G N D. destruct (succs_spec w this r ops G N) as (ss & E & _ & C).
  exists ss. split; [exact E |].
  unfold direct_succs in D. rewrite G in D. cbn [bind] in D.
  destruct (ops_ r) as [|o rest] eqn:Eo.
  - inversion D; subst. intros x [].
  - destruct (non_null_hd _ _ _ _ eq_refl N) as (d & tl & -> & ->).
    destruct d as [g|a i|t|t x|c tv fv|k t os]; try (inversion D; subst; intros y []; fail).
    + inversion D; subst. intros y [<- | []]. apply C.
      exists (DLambda g). split; [now left | simpl; apply Nat.eqb_refl].
    + destruct (isa_lambda tv) as [t|] eqn:It; [| discriminate].
      destruct (isa_lambda fv) as [f|] eqn:If; [| discriminate].
      destruct tv; try discriminate. destruct fv; try discriminate.
      inversion It; inversion If; subst. inversion D; subst.
      intros y [<- | [<- | []]]; apply C; eexists; (split; [now left |]); simpl;
        rewrite Nat.eqb_refl, ?orb_true_r; reflexivity.
Qed.
Lemma direct_succs_are_succs_witness :
  exists ss, succs Examples.join_world 1 = Done ss /\ incl [0%nat] ss.
Proof.
  eapply (direct_succs_are_succs Examples.join_world 1); reflexivity.
Defined.

End Successors.

(** ** Predecessors *)

Section Predecessors.
Import IR.

Context {gids : Gids}.

Lemma In_distinct (x : Def) (l : list Def) : In x (distinct l) <-> In x l.
Proof.
  induction l as [|y l IH]; simpl; [tauto |].
  rewrite filter_In, IH. split.
  - intros [H | [H _]]; auto.
  - intros [H | H]; auto. destruct (Def_eqb y x) eqn:E.
    + left. now apply Def_eqb_eq.
    + right. auto.
Qed.

Lemma live_iff (t : OpTable) (d : Def) :
  In d (world_nodes t) <->
  exists ops o, In ops t /\ In (Some o) ops /\ In d (subterms o).
Proof.
  unfold world_nodes. rewrite In_distinct, in_flat_map. split.
  - intros (ops & Ho & H). apply in_flat_map in H. destruct H as ([o|] & Hs & H).
    + exists ops, o. auto.
    + destruct H.
  - intros (ops & o & Ho & Hs & H). exists ops. split; auto.
    apply in_flat_map. exists (Some o). auto.
Qed.

Lemma subterms_self (d : Def) : In d (subterms d).
Proof. destruct d; simpl; auto. Qed.

Lemma subterms_ops (o : Def) :
  forall d x, In d (subterms o) -> In x (primop_ops d) -> In x (subterms o).
Proof.
  induction o as [g|a i|t|t y|c t f IHc IHt IHf|k t os IH] using Def_induction;
    intros d x Hd Hx; simpl in Hd.
  - destruct Hd as [<- | []]. destruct Hx.
  - destruct Hd as [<- | []]. destruct Hx.
  - destruct Hd as [<- | []]. destruct Hx.
  - destruct Hd as [<- | []]. destruct Hx.
  - simpl. right. destruct Hd as [<- | Hd].
    + simpl in Hx. rewrite !in_app_iff.
      destruct Hx as [<- | [<- | [<- | []]]]; auto using subterms_self.
    + rewrite !in_app_iff in *. destruct Hd as [Hd | [Hd | Hd]]; eauto.
  - simpl. right. rewrite Forall_forall in IH. destruct Hd as [<- | Hd].
    + simpl in Hx. apply in_flat_map. exists x. split; auto. apply subterms_self.
    + apply in_flat_map in Hd. destruct Hd as (o & Ho & Hd).
      apply in_flat_map. exists o. split; auto. eapply IH; eauto.
Qed.

Lemma live_ops (t : OpTable) (d x : Def) :
  In d (world_nodes t) -> In x (primop_ops d) -> In x (world_nodes t).
Proof.
  rewrite !live_iff. intros (ops & o & Ho & Hs & Hd) Hx.
  exists ops, o. repeat split; auto. eapply subterms_ops; eauto.
Qed.

Lemma indexed_nth {A : Type} (l : list A) (i k : nat) (x : A) :
  In (k, x) (indexed i l) <-> (i <= k)%nat /\ nth_error l (k - i) = Some x.
Proof.
  revert i. induction l as [|y l IH]; intros i; simpl.
  - split; [contradiction | intros [_ H]; destruct (k - i)%nat; discriminate].
  - rewrite IH. split.
    + intros [E | [Hk Hn]].
      * inversion E; subst. rewrite Nat.sub_diag. auto.
      * split; [lia |]. replace (k - i)%nat with (S (k - S i)) by lia. exact Hn.
    + intros [Hk Hn]. destruct (k - i)%nat as [|m] eqn:E.
      * left. simpl in Hn. inversion Hn. f_equal. lia.
      * right. split; [lia |]. simpl in Hn. replace (k - S i)%nat with m by lia. exact Hn.
Qed.

Lemma In_uses_in (user : Def) (ops : list (option Def)) (d x : Def) :
  In x (map snd (uses_in user ops d)) <-> x = user /\ In (Some d) ops.
Proof.
  unfold uses_in. rewrite map_map. simpl. rewrite in_map_iff. split.
  - intros ([i s] & <- & H). apply filter_In in H. destruct H as [H E]. simpl in E.
    split; auto. apply indexed_nth in H. destruct H as [_ H]. apply nth_error_In in H.
    destruct s as [y|]; [| discriminate]. simpl in E. apply Def_eqb_eq in E. now subst.
  - intros [-> H]. apply In_nth_error in H. destruct H as (i & H).
    exists (i, Some d). split; auto. apply filter_In. split.
    + apply indexed_nth. split; [lia |]. now rewrite Nat.sub_0_r.
    + simpl. apply Def_eqb_refl.
Qed.

(** The users of a definition: the lambdas that hold it in a slot and
    the live nodes that have it as an operand. *)
Lemma users_of_iff (t : OpTable) (d x : Def) :
  In x (users_of t d) <->
  (exists g ops, x = DLambda g /\ nth_error t g = Some ops /\ In (Some d) ops) \/
  (In x (world_nodes t) /\ In d (primop_ops x)).
Proof.
  unfold users_of, uses_of.
  rewrite sort_uses_users, map_app, in_app_iff, !flat_map_concat_map,
    !concat_map, !map_map, <- !flat_map_concat_map, !in_flat_map.
  split.
  - intros [([g ops] & Hg & H) | (s & Hs & H)].
    + apply In_uses_in in H. destruct H as [-> H]. left. exists g, ops.
      apply indexed_nth in Hg. rewrite Nat.sub_0_r in Hg. simpl. tauto.
    + apply In_uses_in in H. destruct H as [-> H]. right. split; auto.
      apply in_map_iff in H. destruct H as (y & E & H). now inversion E; subst.
  - intros [(g & ops & -> & Hg & H) | [Hx H]].
    + left. exists (g, ops). split.
      * apply indexed_nth. split; [lia |]. now rewrite Nat.sub_0_r.
      * apply In_uses_in. auto.
    + right. exists x. split; auto. apply In_uses_in. split; auto.
      now apply in_map.
Qed.

Lemma users_upward (t : OpTable) (l : nat) (d x : Def) :
  mentions l d = true -> In x (users_of t d) -> upward t l x.
Proof.
  intros Hm Hx. apply users_of_iff in Hx.
  destruct Hx as [(g & ops & -> & Hg & H) | [Hx H]].
  - exists ops, d. auto.
  - assert (Hn : isa_lambda x = None) by (destruct x; try reflexivity; destruct H).
    assert (M : mentions l x = true) by (apply mentions_ops; eauto).
    destruct x; try discriminate; simpl; auto.
Qed.

Lemma upward_users (t : OpTable) (l : nat) (def : Def) :
  isa_lambda def = None -> upward t l def ->
  forall x, In x (users_of t def) -> upward t l x.
Proof.
  intros Hn Hu x Hx. apply (users_upward t l def); auto.
  destruct def; try discriminate; apply Hu.
Qed.

Lemma preds_loop_worked (t : OpTable) (l : nat) (start : list Def) (fuel : nat) :
  forall queue done result r,
    worked (users_of t) (upward t l) start queue done result ->
    preds_loop fuel t queue done result = Done r ->
    exists done', worked (users_of t) (upward t l) start [] done' r.
Proof.
  induction fuel as [|fuel IH]; intros [|def queue] done result r Q; cbn [preds_loop];
    try discriminate.
  - intros E. inversion E; subst. eauto.
  - intros E. inversion E; subst. eauto.
  - destruct (isa_lambda def) as [g|] eqn:Il.
    + destruct def; try discriminate. inversion Il; subst. apply IH.
      now apply worked_lambda.
    + pose proof (worked_node _ _ _ _ _ _ _ Il
                    (fun G => upward_users t l def Il G) Q) as Q'.
      change (users_of t def) with (map snd (uses_of t def)) in Q'.
      destruct (enqueue (map snd (uses_of t def)) queue done) as [q d]. apply IH. exact Q'.
Qed.

(** Whatever is live and reaches [l] has been met when the walk of
    [preds] from [l] is over. *)
Lemma worked_reached (t : OpTable) (l : nat) (done : list Def) (result : list nat) :
  worked (users_of t) (upward t l) (users_of t (DLambda l)) [] done result ->
  forall d, In d (world_nodes t) -> mentions l d = true ->
            incl (users_of t d) done.
Proof.
  intros [Qd Qo Ro Rl Dd Dg Do].
  assert (Step : forall d x, In d (world_nodes t) -> isa_lambda d = None ->
                             In x (primop_ops d) -> incl (users_of t x) done ->
                             incl (users_of t d) done).
  { intros d x Hd Hn Hx Hi.
    assert (In d done).
    { apply Hi. apply users_of_iff. right. auto. }
    destruct (Dd d H) as [[] | Hp]. now rewrite Hn in Hp. }
  intros d.
  induction d as [g|a i|ty|ty y|c tv f IHc IHt IHf|k ty os IH] using Def_induction;
    intros Hd Hm; simpl in Hm; try discriminate.
  - apply Nat.eqb_eq in Hm. subst g. exact Do.
  - rewrite !orb_true_iff in Hm. destruct Hm as [[Hm | Hm] | Hm].
    + apply (Step _ c); simpl; auto. apply IHc; auto.
      apply (live_ops t _ c Hd). simpl. auto.
    + apply (Step _ tv); simpl; auto. apply IHt; auto.
      apply (live_ops t _ tv Hd). simpl. auto.
    + apply (Step _ f); simpl; auto. apply IHf; auto.
      apply (live_ops t _ f Hd). simpl. auto.
  - apply existsb_exists in Hm. destruct Hm as (o & Ho & Hm).
    rewrite Forall_forall in IH.
    apply (Step _ o); simpl; auto. apply IH; auto.
    apply (live_ops t _ o Hd). simpl. auto.
Qed.

Lemma preds_spec (w : World) (this : nat) :
  exists ps, preds w this = Done ps /\ NoDup ps /\
             forall p, In p ps <-> holds (all_ops w) p this.
Proof.
  destruct (preds_returns w this) as (ps & E). exists ps. split; [exact E |].
  unfold preds, preds_of in E. set (t := all_ops w) in *.
  assert (Q : worked (users_of t) (upward t this) (users_of t (DLambda this))
                (fst (enqueue (users_of t (DLambda this)) [] []))
                (snd (enqueue (users_of t (DLambda this)) [] [])) []).
  { apply worked_start. intros x Hx. apply (users_upward t this (DLambda this)); auto.
    simpl. apply Nat.eqb_refl. }
  change (users_of t (DLambda this)) with (map snd (uses_of t (DLambda this))) in Q.
  destruct (enqueue (map snd (uses_of t (DLambda this))) [] []) as [q d]. simpl in Q.
  destruct (preds_loop_worked t this _ _ _ _ _ _ Q E) as (done' & Q').
  split; [exact (result_once _ _ _ _ _ _ Q') |].
  intros p. split.
  - intros Hp. destruct (result_left _ _ _ _ _ _ Q' p Hp) as (Hd & _).
    exact (done_good _ _ _ _ _ _ Q' (DLambda p) Hd).
  - intros (ops & o & Hg & Ho & Hm).
    assert (Hl : In o (world_nodes t)).
    { apply live_iff. exists ops, o. split; [eapply nth_error_In; eauto |].
      split; auto. apply subterms_self. }
    assert (Hin : In (DLambda p) done').
    { apply (worked_reached t this done' ps Q' o Hl Hm).
      apply users_of_iff. left. exists p, ops. auto. }
    destruct (done_dealt _ _ _ _ _ _ Q' _ Hin) as [[] | H]. exact H.
Qed.

Lemma non_null_In (l : list (option Def)) :
  forall ops, non_null l = Done ops -> forall o, In (Some o) l <-> In o ops.
Proof.
  induction l as [|[d|] l IH]; intros ops H o; simpl in H.
  - inversion H; subst. simpl. tauto.
  - destruct (non_null l) as [r| |]; simpl in H; try discriminate.
    inversion H; subst. simpl. rewrite (IH r eq_refl). split.
    + intros [E | E]; auto. inversion E. auto.
    + intros [-> | E]; auto.
  - discriminate.
Qed.

(** X13: [preds] returns, without repetition, exactly the lambdas that
    hold in an operand slot (as callee or argument) a definition that
    reaches this lambda through primops and selects, not through another
    lambda. *)
Theorem preds_are_holders (w : World) (this : nat) :
  exists ps, preds w this = Done ps /\ NoDup ps /\
             forall p, In p ps <->
                       exists r o, get_lambda w p = Done r /\ In (Some o) (ops_ r) /\
                                   mentions this o = true.
Proof.
  destruct (preds_spec w this) as (ps & E & N & H). exists ps. split; auto. split; auto.
  intros p. rewrite H. unfold holds, all_ops. split.
  - intros (ops & o & Hg & Ho & Hm). rewrite nth_error_map in Hg.
    destruct (nth_error (lambdas w) p) as [r|] eqn:Er; [| discriminate].
    inversion Hg; subst. exists r, o. split; auto. now apply get_lambda_Done.
  - intros (r & o & Hg & Ho & Hm). apply get_lambda_Done in Hg.
    exists (ops_ r), o. rewrite nth_error_map, Hg. auto.
Qed.

(** X14: successors and predecessors are two views of the same edges: for
    a lambda [p] without null operands, [l] is among the successors of
    [p] exactly when [p] is among the predecessors of [l]. *)
Theorem succs_preds_dual (w : World) (p l : nat) (r : Lambda) (ops : list Def) :
  get_lambda w p = Done r ->
  non_null (ops_ r) = Done ops ->
  exists ss ps, succs w p = Done ss /\ preds w l = Done ps /\
                (In l ss <-> In p ps).
Proof.
  intros G N. destruct (succs_spec w p r ops G N) as (ss & Es & _ & Hs).
  destruct (preds_spec w l) as (ps & Ep & _ & Hp).
  exists ss, ps. split; auto. split; auto. rewrite Hs, Hp. unfold holds, all_ops. split.
  - intros (o & Ho & Hm). exists (ops_ r), o. apply get_lambda_Done in G.
    rewrite nth_error_map, G. split; auto. split; auto.
    now apply (non_null_In _ _ N).
  - intros (ops' & o & Hg & Ho & Hm). apply get_lambda_Done in G.
    rewrite nth_error_map, G in Hg. inversion Hg; subst.
    exists o. split; auto. now apply (non_null_In _ _ N).
Qed.

End Predecessors.

Section PredecessorsExamples.
Import IR Examples.

#[local] Existing Instance test_gids.

Lemma succs_preds_dual_witness :
  exists ss ps, succs join_world 1 = Done ss /\
                preds join_world 0 = Done ps /\
                (In 0%nat ss <-> In 1%nat ps).
Proof.
  eapply (succs_preds_dual join_world 1 0); reflexivity.
Defined.

End PredecessorsExamples.

(** ** The frame of the SSA construction *)

Section Frame.
Import IR SSA.

Context {memory : Memory} {gids : Gids}.

Ltac bind_inv H :=
  match type of H with
  | bind ?m _ = Done _ =>
      let E := fresh "E" in
      destruct m eqn:E; cbn [bind] in H; [| discriminate H | discriminate H]
  end.

Lemma settled_refl (r : Lambda) : settled r r.
Proof. repeat split; auto. exists []. now rewrite app_nil_r. Qed.

Lemma settled_trans (a b c : Lambda) : settled a b -> settled b c -> settled a c.
Proof.
  intros (S1 & P1 & (m1 & E1) & L1) (S2 & P2 & (m2 & E2) & L2).
  repeat split; try congruence; [| lia].
  exists (m1 ++ m2). now rewrite E2, E1, app_assoc.
Qed.

Lemma stable_refl (w : World) : stable w w.
Proof.
  repeat split; auto.
  - intros l r H. exists r. split; auto. apply settled_refl.
  - exists []. now rewrite app_nil_r.
Qed.

Lemma stable_trans (a b c : World) : stable a b -> stable b c -> stable a c.
Proof.
  intros (L1 & G1 & m1 & C1) (L2 & G2 & m2 & C2). repeat split; try congruence.
  - intros l r H. destruct (G1 l r H) as (r1 & H1 & S1).
    destruct (G2 l r1 H1) as (r2 & H2 & S2). exists r2. split; auto.
    eapply settled_trans; eauto.
  - exists (m1 ++ m2). now rewrite C2, C1, app_assoc.
Qed.

Lemma stable_set (w : World) (l : nat) (r r' : Lambda) :
  get_lambda w l = Done r -> settled r r' -> stable w (set_lambda w l r').
Proof.
  intros G S. repeat split.
  - simpl. apply length_list_set.
  - intros k rk Hk. destruct (Nat.eq_dec k l) as [-> | Hne].
    + exists r'. split; [now apply get_set_lambda with (r := r) |]. congruence.
    + exists rk. split; [| apply settled_refl].
      apply get_lambda_Done. simpl. rewrite nth_error_list_set_neq by auto.
      now apply get_lambda_Done.
  - exists []. simpl. now rewrite app_nil_r.
Qed.

Lemma stable_cerr (w : World) (s : list string) :
  stable w (mkWorld (lambdas w) (cerr w ++ s)).
Proof.
  repeat split; auto.
  - intros l r H. exists r. split; [exact H | apply settled_refl].
  - now exists s.
Qed.

Lemma stable_replace (a b : Def) (w : World) : stable w (replace a b w).
Proof.
  repeat split.
  - unfold replace. simpl. apply length_map.
  - intros l r H. apply get_lambda_Done in H. eexists. split.
    + apply get_lambda_Done. unfold replace. simpl. rewrite nth_error_map, H. reflexivity.
    + unfold settled. simpl. rewrite length_map. repeat split; auto.
      exists []. now rewrite app_nil_r.
  - exists []. simpl. now rewrite app_nil_r.
Qed.

Lemma settled_tracked (r : Lambda) (tv : list (option Def)) :
  (length (tracked_values_ r) <= length tv)%nat -> settled r (with_tracked r tv).
Proof. intros H. repeat split; auto. exists []. simpl. now rewrite app_nil_r. Qed.

Lemma settled_ops (r : Lambda) (ops : list (option Def)) : settled r (with_ops r ops).
Proof. repeat split; auto. exists []. simpl. now rewrite app_nil_r. Qed.

Lemma settled_visited (r : Lambda) (b : bool) : settled r (with_visited r b).
Proof. repeat split; auto. exists []. simpl. now rewrite app_nil_r. Qed.

Lemma settled_todos (r : Lambda) (t : list Todo) : settled r (with_todos r t).
Proof. repeat split; auto. exists []. simpl. now rewrite app_nil_r. Qed.

Lemma settled_pi (r : Lambda) (more : list Ty) : settled r (with_pi r (pi_ r ++ more)).
Proof. repeat split; auto. now exists more. Qed.

Lemma find_tracker_stable (this : nat) (h : Z) (w w' : World) (s : option Def) :
  find_tracker this h w = Done (w', s) -> stable w w'.
Proof.
  intros H.
  destruct (get_lambda w this) as [r| |] eqn:E;
    [| unfold find_tracker in H; rewrite E in H; discriminate H ..].
  destruct (find_tracker_inv _ _ _ _ _ _ E H) as (tv & -> & _ & L).
  apply (stable_set _ _ _ _ E), settled_tracked, L.
Qed.

Lemma set_value_stable (this : nat) (h : Z) (d d' : Def) (w w' : World) :
  set_value this h d w = Done (w', d') -> stable w w'.
Proof.
  unfold set_value. intros H. bind_inv H. destruct a as [w1 s].
  bind_inv H. inversion H; subst.
  eapply stable_trans; [eapply find_tracker_stable; eauto |].
  apply (stable_set _ _ _ _ E0), settled_tracked. now rewrite length_list_set.
Qed.

Lemma return_bottom_stable (this : nat) (h : Z) (type : Ty) (name : string)
  (w w' : World) (d : Def) :
  return_bottom this h type name w = Done (w', d) -> stable w w'.
Proof.
  unfold return_bottom. intros H.
  eapply stable_trans; [apply stable_cerr | eapply set_value_stable; eauto].
Qed.

Lemma append_param_stable (this : nat) (type : Ty) (w w' : World) (d : Def) :
  append_param this type w = Done (w', d) -> stable w w'.
Proof.
  unfold append_param. intros H. bind_inv H. inversion H; subst.
  apply (stable_set _ _ _ _ E), settled_pi.
Qed.

Lemma set_op_stable (this i : nat) (d : Def) (w w' : World) :
  set_op this i d w = Done w' -> stable w w'.
Proof.
  unfold set_op. intros H. bind_inv H.
  destruct (i <? length (ops_ a))%nat; [| discriminate].
  inversion H; subst. apply (stable_set _ _ _ _ E), settled_ops.
Qed.

Lemma update_peeks_stable (index : nat) (b : Def) (peeks : list (option Def * nat)) :
  forall w w', update_peeks index b peeks w = Done w' -> stable w w'.
Proof.
  induction peeks as [|[d from] peeks IH]; intros w w' H; simpl in H.
  - inversion H. apply stable_refl.
  - bind_inv H. eapply stable_trans; [| eapply IH; eauto].
    eapply set_op_stable. exact E.
Qed.

Section Loops.

Variable get : nat -> World -> outcome (World * Def).
Hypothesis get_stable : forall pred w w' d, get pred w = Done (w', d) -> stable w w'.

Lemma same_of_preds_stable (preds : list nat) :
  forall same w w' s, same_of_preds get preds same w = Done (w', s) -> stable w w'.
Proof.
  induction preds as [|p preds IH]; intros same w w' s H; simpl in H.
  - inversion H. apply stable_refl.
  - bind_inv H. destruct a as [w1 def]. apply get_stable in E.
    destruct same as [|s0|].
    + eapply stable_trans; eauto.
    + destruct (negb (Def_eqb s0 def)).
      * inversion H; subst. exact E.
      * eapply stable_trans; eauto.
    + eapply stable_trans; eauto.
Qed.

Lemma wire_pred_stable (index pred : nat) (w w' : World) :
  wire_pred get index pred w = Done w' -> stable w w'.
Proof.
  unfold wire_pred. intros H. bind_inv H.
  destruct (empty a); [discriminate |]. bind_inv H.
  destruct (negb (length a0 =? 1)%nat); [discriminate |].
  match type of H with bind (get_lambda ?w1 _) _ = _ => set (w1_ := w1) in * end.
  assert (S1 : stable w w1_).
  { subst w1_. destruct (num_args a <=? index)%nat; [| apply stable_refl].
    apply (stable_set _ _ _ _ E), settled_ops. }
  bind_inv H. bind_inv H. destruct a2; [discriminate |]. bind_inv H.
  destruct a2 as [w2 d]. apply get_stable in E3. apply set_op_stable in H.
  eapply stable_trans; [exact S1 |]. eapply stable_trans; eauto.
Qed.

Lemma wire_preds_stable (index : nat) (preds : list nat) :
  forall w w', wire_preds get index preds w = Done w' -> stable w w'.
Proof.
  induction preds as [|p preds IH]; intros w w' H; simpl in H.
  - inversion H. apply stable_refl.
  - bind_inv H. eapply stable_trans; [eapply wire_pred_stable; eauto | eauto].
Qed.

End Loops.

Section Retries.

Variable rec : nat -> Def -> World -> outcome (World * Def).
Hypothesis rec_stable : forall l p w w' d, rec l p w = Done (w', d) -> stable w w'.

Lemma retry_succ_stable (param user : Def) (succ : nat) (w w' : World) :
  retry_succ rec param user succ w = Done w' -> stable w w'.
Proof.
  unfold retry_succ. intros H. bind_inv H.
  destruct (empty a); [discriminate |].
  destruct (index_of user (tl (ops_ a)) 0) as [j|].
  - bind_inv H. destruct (negb (Def_eqb param a0)).
    + bind_inv H. destruct a1 as [w1 d]. inversion H; subst. eapply rec_stable; eauto.
    + inversion H. apply stable_refl.
  - inversion H. apply stable_refl.
Qed.

Lemma retry_succs_stable (param user : Def) (succs : list nat) :
  forall w w', retry_succs rec param user succs w = Done w' -> stable w w'.
Proof.
  induction succs as [|s succs IH]; intros w w' H; simpl in H.
  - inversion H. apply stable_refl.
  - bind_inv H. eapply stable_trans; [eapply retry_succ_stable; eauto | eauto].
Qed.

Lemma retry_uses_stable (param : Def) (uses : list Def) :
  forall w w', retry_uses rec param uses w = Done w' -> stable w w'.
Proof.
  induction uses as [|t uses IH]; intros w w' H; simpl in H.
  - inversion H. apply stable_refl.
  - bind_inv H. eapply stable_trans; [| eauto].
    unfold retry_use in E. destruct (isa_lambda t).
    + bind_inv E. eapply retry_succs_stable; eauto.
    + inversion E. apply stable_refl.
Qed.

End Retries.

Lemma try_remove_stable (fuel : nat) :
  forall this param w w' d,
    try_remove_trivial_param fuel this param w = Done (w', d) -> stable w w'.
Proof.
  induction fuel as [|fuel IH]; intros this param w w' d H; [discriminate |].
  cbn [try_remove_trivial_param] in H.
  destruct param as [g|lambda index|t|t x|c t f|k t os]; try discriminate.
  destruct (negb (lambda =? this)%nat); [discriminate |].
  bind_inv H. destruct (negb (is_sealed_ a)); [discriminate |].
  bind_inv H. bind_inv H. destruct a1 as [[same|]|].
  - bind_inv H. bind_inv H. bind_inv H. bind_inv H. inversion H; subst.
    eapply stable_trans; [apply stable_replace |].
    eapply stable_trans; [eapply update_peeks_stable; eauto |].
    eapply retry_uses_stable; [| eauto]. intros; eapply IH; eauto.
  - discriminate.
  - inversion H. apply stable_refl.
Qed.

Lemma get_value_fix_stable (fuel : nat) :
  (forall this h type name w w' d,
      get_value fuel this h type name w = Done (w', d) -> stable w w') /\
  (forall this todo w w' d,
      fix_todo fuel this todo w = Done (w', d) -> stable w w').
Proof.
  induction fuel as [|fuel [IHg IHf]]; [split; intros; discriminate |]. split.
  - intros this h type name w w' d H. cbn [get_value] in H.
    bind_inv H. destruct a as [w0 tracker]. apply find_tracker_stable in E.
    eapply stable_trans; [exact E |]. clear E.
    destruct tracker as [def|]; [inversion H; apply stable_refl |].
    bind_inv H. destruct (parent_ a) as [parent|];
      [| eapply return_bottom_stable; eauto].
    destruct (negb (parent =? this)%nat); [eapply IHg; eauto |].
    destruct (negb (is_sealed_ a)).
    { bind_inv H. destruct a0 as [w1 param]. bind_inv H.
      eapply stable_trans; [eapply append_param_stable; eauto |].
      eapply stable_trans; [| eapply set_value_stable; eauto].
      apply (stable_set _ _ _ _ E1), settled_todos. }
    bind_inv H. destruct a0 as [|p1 [|p2 ps]].
    + eapply return_bottom_stable; eauto.
    + bind_inv H. destruct a0 as [w1 def].
      eapply stable_trans; [eapply IHg; eauto | eapply set_value_stable; eauto].
    + destruct (is_visited_ a).
      { bind_inv H. destruct a0 as [w1 param].
        eapply stable_trans; [eapply append_param_stable; eauto |].
        eapply set_value_stable; eauto. }
      bind_inv H. destruct a0 as [w2 same]. bind_inv H.
      assert (S1 : stable w0 (set_lambda w0 this (with_visited a true)))
        by apply (stable_set _ _ _ _ E), settled_visited.
      assert (S2 : stable (set_lambda w0 this (with_visited a true)) w2)
        by (eapply same_of_preds_stable
              with (get := fun pred => get_value fuel pred h type name);
            [intros; eapply IHg; eauto | exact E1]).
      assert (S3 : stable w2 (set_lambda w2 this (with_visited a0 false)))
        by apply (stable_set _ _ _ _ E2), settled_visited.
      eapply stable_trans; [exact S1 |]. eapply stable_trans; [exact S2 |].
      eapply stable_trans; [exact S3 |].
      destruct same as [|sd|]; [discriminate | inversion H; apply stable_refl |].
      bind_inv H. destruct a1 as [w4 tracker]. apply find_tracker_stable in E3.
      eapply stable_trans; [exact E3 |].
      bind_inv H. destruct a1 as [w5 index]. bind_inv H. destruct a1 as [w6 d6].
      assert (S45 : stable w4 w5).
      { destruct tracker as [[g|l i|t|t x|c t f|k t os]|]; try discriminate;
          try (inversion E4; subst; apply stable_refl).
        bind_inv E4. bind_inv E4. destruct a2 as [w5' p]. inversion E4; subst.
        eapply append_param_stable; eauto. }
      eapply stable_trans; [exact S45 |].
      eapply stable_trans; [eapply IHf; eauto | eapply set_value_stable; eauto].
  - intros this todo w w' d H. cbn [fix_todo] in H.
    bind_inv H. bind_inv H. destruct (negb (is_sealed_ a)); [discriminate |].
    bind_inv H. bind_inv H.
    eapply stable_trans; [| eapply try_remove_stable; eauto].
    eapply wire_preds_stable
      with (get := fun pred => get_value fuel pred (todo_handle todo)
                                 (todo_type todo) (todo_name todo));
      [intros; eapply IHg; eauto | eauto].
Qed.
Lemma fix_todos_stable (fuel this : nat) (todos : list Todo) :
  forall w w', fix_todos fuel this todos w = Done w' -> stable w w'.
Proof.
  induction todos as [|t todos IH]; intros w w' H; simpl in H.
  - inversion H. apply stable_refl.
  - bind_inv H. destruct a as [w1 d].
    eapply stable_trans; [eapply (proj2 (get_value_fix_stable fuel)); eauto | eauto].
Qed.

(** A value that has been set is bound. *)
Lemma set_value_bound (w : World) (this : nat) (r : Lambda) (h : Z) (v : Def) :
  get_lambda w this = Done r ->
  (Z.to_nat h < length (tracked_values_ r))%nat ->
  exists w' tv,
    set_value this h v w = Done (w', v) /\
    w' = set_lambda w this (with_tracked r tv) /\
    nth_error tv (Z.to_nat h) = Some (Some v).
Proof.
  intros Hg L. pose proof (set_value_in_range w this r h v Hg L) as Sv.
  eexists; eexists. split; [exact Sv |]. split; [reflexivity |].
  now apply nth_error_list_set_eq.
Qed.

(** X15: a read of a variable, whatever it has to do, keeps the frame of
    the construction: no lambda is added or removed, none is sealed or
    unsealed, none changes its parent, every lambda keeps the parameters
    it had (new ones come after them), no value table gets shorter, and
    the diagnostics already written stay. *)
Theorem get_value_keeps_frame (fuel this : nat) (h : Z) (type : Ty) (name : string)
  (w w' : World) (d : Def) :
  get_value fuel this h type name w = Done (w', d) -> stable w w'.
Proof. apply (proj1 (get_value_fix_stable fuel)). Qed.

(** X16: a lambda is sealed once.  A [seal] that returns leaves the lambda
    sealed with no todo pending, leaves every other lambda sealed or
    unsealed as it was, and a second [seal] of the same lambda fails its
    assertion. *)
Theorem seal_once (fuel this : nat) (w w' : World) :
  seal fuel this w = Done w' ->
  (exists r', get_lambda w' this = Done r' /\
              is_sealed_ r' = true /\ todos_ r' = []) /\
  (forall l r, l <> this -> get_lambda w l = Done r ->
               exists r', get_lambda w' l = Done r' /\
                          is_sealed_ r' = is_sealed_ r) /\
  (forall fuel', seal fuel' this w' = Fault).
Proof.
  unfold seal at 1. intros H. bind_inv H.
  destruct (is_sealed_ a) eqn:Sa; [discriminate |]. bind_inv H. bind_inv H.
  inversion H; subst w'. clear H.
  pose proof (fix_todos_stable _ _ _ _ _ E0) as (_ & G & _).
  destruct (G this _ (get_set_lambda _ _ _ (with_sealed a true) E)) as (r2 & G2 & S2 & _).
  assert (a1 = r2) by congruence. subst a1. simpl in S2.
  pose proof (get_set_lambda _ _ _ (with_todos r2 []) E1) as G3.
  split; [| split].
  - eexists. split; [exact G3 |]. simpl. auto.
  - intros l r Hl Hr.
    assert (H1 : get_lambda (set_lambda w this (with_sealed a true)) l = Done r).
    { apply get_lambda_Done. simpl. rewrite nth_error_list_set_neq by auto.
      now apply get_lambda_Done. }
    destruct (G l r H1) as (r' & G' & S' & _). exists r'. split; [| exact S'].
    apply get_lambda_Done. simpl. rewrite nth_error_list_set_neq by auto.
    now apply get_lambda_Done.
  - intros fuel'. unfold seal. rewrite G3. cbn [bind]. simpl. now rewrite S2.
Qed.

(** X17, for every handle but [size_t(-1)] whose table [resize] can
    deliver ([handle + 1] slots are within the limit): a variable read in
    an unsealed function head without a value for it becomes a new
    parameter of the lambda: the read returns the parameter with the next
    index, the type of the lambda grows by the type asked for, a todo for
    (handle, index, type, name) is queued behind the pending ones, the
    operands stay, and every later read of the handle returns that
    parameter and changes nothing. *)
Theorem get_value_unsealed (fuel : nat) (w : World) (this : nat) (r : Lambda) (h : Z)
  (type : Ty) (name : string) :
  get_lambda w this = Done r ->
  0 <= h < size_t_modulus - 1 ->
  h < slots_limit ->
  parent_ r = Some this ->
  is_sealed_ r = false ->
  (forall d, nth_error (tracked_values_ r) (Z.to_nat h) <> Some (Some d)) ->
  exists w' r',
    get_value (S fuel) this h type name w = Done (w', DParam this (length (pi_ r))) /\
    get_lambda w' this = Done r' /\
    pi_ r' = pi_ r ++ [type] /\
    todos_ r' = todos_ r ++ [mkTodo h (length (pi_ r)) type name] /\
    ops_ r' = ops_ r /\
    is_sealed_ r' = false /\
    (forall fuel' type' name',
        get_value (S fuel') this h type' name' w' =
        Done (w', DParam this (length (pi_ r)))).
Proof.
  intros Hg Hh Hl Hp Hs Hn.
  destruct (find_tracker_spec w this r h Hg Hh Hl) as (N & F). cbv zeta in N, F.
  set (tv := tracked_values_ r ++
             repeat None (Z.to_nat h + 1 - length (tracked_values_ r))) in *.
  assert (S0 : nth (Z.to_nat h) (tracked_values_ r) None = None).
  { destruct (nth_error (tracked_values_ r) (Z.to_nat h)) as [[d|]|] eqn:Q.
    - exfalso. apply (Hn d). reflexivity.
    - now apply nth_error_nth.
    - apply nth_overflow. now apply nth_error_None. }
  rewrite S0 in N, F.
  assert (Lt : (Z.to_nat h < length tv)%nat) by (apply nth_error_Some; congruence).
  set (r0 := with_tracked r tv) in *. set (w0 := set_lambda w this r0) in *.
  assert (G0 : get_lambda w0 this = Done r0) by (eapply get_set_lambda; eauto).
  set (r1 := with_pi r0 (pi_ r0 ++ [type])).
  set (w1 := set_lambda w0 this r1).
  assert (G1 : get_lambda w1 this = Done r1) by (eapply get_set_lambda; eauto).
  set (r2 := with_todos r1 (todos_ r1 ++ [mkTodo h (length (pi_ r0)) type name])).
  set (w2 := set_lambda w1 this r2).
  assert (G2 : get_lambda w2 this = Done r2) by (eapply get_set_lambda; eauto).
  destruct (set_value_bound w2 this r2 h (DParam this (length (pi_ r))) G2 Lt)
    as (w' & tv' & Sv & Ew & Nv).
  assert (G' : get_lambda w' this = Done (with_tracked r2 tv'))
    by (subst w'; eapply get_set_lambda; eauto).
  exists w', (with_tracked r2 tv'). split; [| repeat split; auto].
  - cbn [get_value]. rewrite F. cbn [bind]. rewrite G0. cbn [bind].
    replace (parent_ r0) with (Some this) by (symmetry; exact Hp).
    rewrite Nat.eqb_refl. cbn [negb].
    replace (is_sealed_ r0) with false by (symmetry; exact Hs). cbn [negb].
    unfold append_param. rewrite G0. cbn [bind]. fold r1. fold w1.
    rewrite G1. cbn [bind]. fold r2. fold w2. exact Sv.
  - intros fuel' type' name'.
    apply (bound_get_value w' this (with_tracked r2 tv') h _ fuel' type' name');
      [exact G' | exact Nv].
Qed.

(** X18: in a sealed function head with exactly one predecessor, a variable
    without a value is the predecessor's value of it: the read returns
    what the read in the predecessor returns, binds it to the handle, and
    every later read of the handle returns it and changes nothing. *)
Theorem get_value_single_pred (fuel : nat) (w w0 w1 : World) (this pred : nat)
  (r : Lambda) (h : Z) (type : Ty) (name : string) (d : Def) :
  get_lambda w this = Done r ->
  0 <= h < size_t_modulus - 1 ->
  parent_ r = Some this ->
  is_sealed_ r = true ->
  preds w this = Done [pred] ->
  find_tracker this h w = Done (w0, None) ->
  get_value fuel pred h type name w0 = Done (w1, d) ->
  exists w2,
    get_value (S fuel) this h type name w = Done (w2, d) /\
    stable w w2 /\
    (forall fuel' type' name',
        get_value (S fuel') this h type' name' w2 = Done (w2, d)).
Proof.
  intros Hg Hh Hp Hs Hpreds F Hv.
  destruct (find_tracker_inv _ _ _ _ _ _ Hg F) as (tv & E0 & N0 & _).
  assert (Lt : (Z.to_nat h < length tv)%nat) by (apply nth_error_Some; congruence).
  assert (G0 : get_lambda w0 this = Done (with_tracked r tv))
    by (subst w0; eapply get_set_lambda; eauto).
  assert (P0 : preds w0 this = Done [pred]).
  { subst w0. rewrite <- Hpreds. exact (preds_set_tracked w this r tv (cerr w) this Hg). }
  pose proof (proj1 (get_value_fix_stable fuel) _ _ _ _ _ _ _ Hv) as St.
  destruct St as (L1 & Gs & C1).
  destruct (Gs this _ G0) as (r1 & G1 & _ & _ & _ & L01).
  cbn [tracked_values_ with_tracked] in L01.
  assert (Lt1 : (Z.to_nat h < length (tracked_values_ r1))%nat) by lia.
  destruct (set_value_bound w1 this r1 h d G1 Lt1) as (w2 & tv2 & Sv & Ew & Nv).
  exists w2. split; [| split].
  - cbn [get_value]. rewrite F. cbn [bind]. rewrite G0. cbn [bind].
    replace (parent_ (with_tracked r tv)) with (Some this) by (symmetry; exact Hp).
    rewrite Nat.eqb_refl. cbn [negb].
    replace (is_sealed_ (with_tracked r tv)) with true by (symmetry; exact Hs).
    cbn [negb]. rewrite P0. cbn [bind]. rewrite Hv. cbn [bind]. exact Sv.
  - eapply stable_trans; [eapply find_tracker_stable; eauto |].
    eapply stable_trans; [exact (conj L1 (conj Gs C1)) |].
    eapply set_value_stable; eauto.
  - intros fuel' type' name'.
    apply (bound_get_value w2 this (with_tracked r1 tv2) h d fuel' type' name');
      [subst w2; eapply get_set_lambda; eauto | exact Nv].
Qed.

(** X19: [clear] forgets every value of the lambda: whatever had been set,
    each handle but [size_t(-1)] whose table [resize] can deliver
    ([handle + 1] slots are within the limit) reads as null afterwards,
    and nothing but the value table of the lambda has changed. *)
Theorem clear_forgets (w : World) (this : nat) (r : Lambda) (h : Z) :
  get_lambda w this = Done r ->
  0 <= h < size_t_modulus - 1 ->
  h < slots_limit ->
  exists w1 w2,
    clear this w = Done w1 /\
    w1 = set_lambda w this (with_tracked r []) /\
    find_tracker this h w1 = Done (w2, None).
Proof.
  intros Hg Hh Hl. unfold clear. rewrite Hg. cbn [bind].
  set (w1 := set_lambda w this (with_tracked r [])).
  assert (G1 : get_lambda w1 this = Done (with_tracked r []))
    by (eapply get_set_lambda; eauto).
  destruct (find_tracker_spec w1 this _ h G1 Hh Hl) as (_ & F). cbv zeta in F.
  cbn [tracked_values_ with_tracked] in F.
  replace (nth (Z.to_nat h) (@nil (option Def)) None) with (@None Def) in F
    by now destruct (Z.to_nat h).
  eexists; eexists. split; [reflexivity |]. split; [reflexivity | exact F].
Qed.

End Frame.

Section FrameExamples.
Import IR SSA Examples.

#[local] Existing Instance test_memory.
#[local] Existing Instance test_gids.

Lemma get_value_keeps_frame_witness :
  exists w' d, get_value 3 0%nat 0 5%nat "x" join_world = Done (w', d) /\
               stable join_world w'.
Proof.
  eexists; eexists. split; [vm_compute; reflexivity |].
  eapply (get_value_keeps_frame 3 0%nat 0 5%nat "x"). vm_compute. reflexivity.
Defined.

Lemma seal_once_witness :
  exists w', seal 5 0%nat pending_world = Done w' /\
    (exists r', get_lambda w' 0%nat = Done r' /\
                is_sealed_ r' = true /\ todos_ r' = []) /\
    (forall l r, l <> 0%nat -> get_lambda pending_world l = Done r ->
                 exists r', get_lambda w' l = Done r' /\
                            is_sealed_ r' = is_sealed_ r) /\
    (forall fuel', seal fuel' 0%nat w' = Fault).
Proof.
  eexists. split; [vm_compute; reflexivity |].
  apply (seal_once 5 0%nat pending_world). vm_compute. reflexivity.
Defined.

Lemma get_value_unsealed_witness :
  exists w' r',
    get_value 1 0%nat 0 5%nat "x" open_world = Done (w', DParam 0 0) /\
    get_lambda w' 0%nat = Done r' /\
    pi_ r' = [5%nat] /\
    todos_ r' = [mkTodo 0 0 5%nat "x"] /\
    ops_ r' = [] /\
    is_sealed_ r' = false /\
    (forall fuel' type' name',
        get_value (S fuel') 0%nat 0 type' name' w' = Done (w', DParam 0 0)).
Proof.
  apply (get_value_unsealed 0 open_world 0%nat
           (mkLambda [] [] (Some 0%nat) false false [] []) 0 5%nat "x").
  - reflexivity.
  - unfold size_t_modulus. lia.
  - reflexivity.
  - reflexivity.
  - reflexivity.
  - intros d. destruct (Z.to_nat 0); discriminate.
Defined.

Lemma get_value_single_pred_witness :
  exists w2,
    get_value 3 2%nat 0 5%nat "x" chain_world = Done (w2, bottom 5%nat) /\
    stable chain_world w2 /\
    (forall fuel' type' name',
        get_value (S fuel') 2%nat 0 type' name' w2 = Done (w2, bottom 5%nat)).
Proof.
  eapply (get_value_single_pred 2 chain_world _ _ 2%nat 0%nat _ 0 5%nat "x").
  - reflexivity.
  - unfold size_t_modulus. lia.
  - reflexivity.
  - reflexivity.
  - vm_compute. reflexivity.
  - vm_compute. reflexivity.
  - vm_compute. reflexivity.
Defined.

Lemma clear_forgets_witness :
  exists w1 w2,
    clear 1%nat open_world = Done w1 /\
    w1 = set_lambda open_world 1%nat
           (with_tracked (mkLambda [Some (DLambda 0)] [] (Some 1%nat) true false
                            [Some seven] []) []) /\
    find_tracker 1%nat 0 w1 = Done (w2, None).
Proof.
  apply (clear_forgets open_world 1%nat _ 0).
  - reflexivity.
  - unfold size_t_modulus. lia.
  - reflexivity.
Defined.

End FrameExamples.

(** ** The marks of the mangler *)

Section ManglerMarks.
Import IR Mangler.

Variable specialize : list Ty -> list Ty.
Variable rebuild : Def -> list Def -> Def.
Variable m : Mangler.

Local Abbreviation mangle := (Mangler.mangle specialize rebuild m).
Local Abbreviation mangle_head := (Mangler.mangle_head specialize).

Ltac bind_inv H :=
  match type of H with
  | bind ?m _ = Done _ =>
      let E := fresh "E" in
      destruct m eqn:E; cbn [bind] in H; [| discriminate H | discriminate H]
  end.

Lemma mangle_visited (d n : Def) (st : State) :
  lookup (marks st) d = Some n -> mangle d st = Done (n, st).
Proof. intros H. destruct d; cbn [Mangler.mangle]; now rewrite H. Qed.

Lemma lookup_map_to (def to d : Def) (st : State) :
  lookup (marks (snd (map_to def to st))) d =
  if Def_eqb def d then Some to else lookup (marks st) d.
Proof. reflexivity. Qed.

Lemma lookup_map_params (o nl : nat) (d : Def) (n : nat) :
  forall i st,
    (forall k, d <> DParam o k) ->
    lookup (marks (map_params o nl i n st)) d = lookup (marks st) d.
Proof.
  induction n as [|n IH]; intros i st Hd; cbn [map_params]; auto.
  rewrite IH by auto. rewrite lookup_map_to.
  now rewrite (Def_eqb_neq (DParam o i) d) by (intros E; apply (Hd i); congruence).
Qed.

Lemma visited_map_params (o nl : nat) (d : Def) (n : nat) :
  forall i st,
    lookup (marks st) d <> None ->
    lookup (marks (map_params o nl i n st)) d <> None.
Proof.
  induction n as [|n IH]; intros i st Hd; cbn [map_params]; auto.
  apply IH. rewrite lookup_map_to. destruct (Def_eqb (DParam o i) d); congruence.
Qed.

Lemma world_map_params (o nl : nat) (n : nat) :
  forall i st, world (map_params o nl i n st) = world st.
Proof. induction n as [|n IH]; intros i st; cbn [map_params]; auto. now rewrite IH. Qed.

Lemma mangle_head_marks (olambda : nat) (st st' : State) (n : Def) :
  mangle_head olambda st = Done (n, st') ->
  lookup (marks st') (DLambda olambda) = Some n /\
  (forall d, lookup (marks st) d <> None -> lookup (marks st') d <> None) /\
  exists r, lambdas (world st') = lambdas (world st) ++ [r] /\ is_stub r /\
            cerr (world st') = cerr (world st).
Proof.
  unfold Mangler.mangle_head. intros H. bind_inv H. destruct a as [w1 nl].
  bind_inv H. bind_inv H. cbn [map_to] in H. inversion H; subst. clear H.
  unfold stub in E. bind_inv E. unfold new_lambda in E. inversion E; subst. clear E.
  split; [| split].
  - rewrite lookup_map_params by discriminate. cbn [marks lookup].
    now rewrite Def_eqb_refl.
  - intros d Hd. apply visited_map_params. cbn [marks lookup].
    destruct (Def_eqb (DLambda olambda) d); congruence.
  - rewrite world_map_params. cbn [world lambdas IR.cerr].
    eexists. split; [reflexivity |]. repeat split.
Qed.

Lemma grows_refl (st : State) : grows st st.
Proof. split; auto. exists []. now rewrite app_nil_r. Qed.

Lemma grows_trans (a b c : State) : grows a b -> grows b c -> grows a c.
Proof.
  intros (V1 & m1 & L1 & F1 & C1) (V2 & m2 & L2 & F2 & C2). split; auto.
  exists (m1 ++ m2). rewrite L2, L1, app_assoc. repeat split; try congruence.
  apply Forall_app; auto.
Qed.

Lemma grows_map_to (def to : Def) (st : State) : grows st (snd (map_to def to st)).
Proof.
  split.
  - intros d Hd. rewrite lookup_map_to. destruct (Def_eqb def d); congruence.
  - exists []. cbn. now rewrite app_nil_r.
Qed.

Lemma mangle_grows (odef : Def) :
  forall st st' n, mangle odef st = Done (n, st') -> grows st st'.
Proof.
  induction odef as [g|l i|t|t x|c t f IHc IHt IHf|k t ops IH] using Def_induction;
    intros st st' n H; cbn [Mangler.mangle] in H;
    (destruct (lookup (marks st) _) eqn:L; [inversion H; subst; apply grows_refl |]).
  - destruct (scope_contains m g).
    + destruct (mangle_head_marks _ _ _ _ H) as (_ & V & r & Lr & Sr & Cr).
      split; auto. exists [r]. repeat split; auto.
    + inversion H; subst. apply (grows_map_to (DLambda g) (DLambda g)).
  - inversion H; subst. apply (grows_map_to (DParam l i) (DParam l i)).
  - inversion H; subst. apply (grows_map_to (DBottom t) (DBottom t)).
  - inversion H; subst. apply (grows_map_to (DPrimLit t x) (DPrimLit t x)).
  - bind_inv H. destruct a as [c' st1]. bind_inv H. destruct a as [t' st2].
    bind_inv H. destruct a as [f' st3]. inversion H; subst.
    eapply grows_trans; [eapply IHc; eauto |].
    eapply grows_trans; [eapply IHt; eauto |].
    eapply grows_trans; [eapply IHf; eauto |].
    match goal with |- grows _ (mkState _ ((?a, ?b) :: _)) =>
      apply (grows_map_to a b) end.
  - bind_inv H. destruct a as [nops st1]. inversion H; subst.
    eapply grows_trans;
      [| match goal with |- grows _ (mkState _ ((?a, ?b) :: _)) =>
           apply (grows_map_to a b) end].
    clear H L. revert st nops st1 E.
    induction IH as [|o rest Ho _ IHrest]; intros st nops st1 E.
    + inversion E; subst. apply grows_refl.
    + bind_inv E. destruct a as [n1 st2]. bind_inv E. destruct a as [ns st3].
      inversion E; subst.
      eapply grows_trans; [eapply Ho; eauto | eapply IHrest; eauto].
Qed.

(** X20: [mangle] visits a definition once.  When it returns, the result
    is what the definition is mapped to, and mangling the definition
    again returns the same result and changes nothing. *)
Theorem mangle_memoizes (odef n : Def) (st st' : State) :
  mangle odef st = Done (n, st') ->
  lookup (marks st') odef = Some n /\
  mangle odef st' = Done (n, st').
Proof.
  intros H.
  assert (L : lookup (marks st') odef = Some n).
  { destruct (lookup (marks st) odef) as [n0|] eqn:L0.
    - rewrite (mangle_visited _ _ _ L0) in H. inversion H; subst. exact L0.
    - destruct odef as [g|l i|t|t x|c t f|k t ops]; cbn [Mangler.mangle] in H;
        rewrite L0 in H.
      + destruct (scope_contains m g).
        * apply (mangle_head_marks _ _ _ _ H).
        * inversion H; subst. cbn. now rewrite Nat.eqb_refl.
      + inversion H; subst. cbn [marks lookup]. now rewrite Def_eqb_refl.
      + inversion H; subst. cbn [marks lookup]. now rewrite Def_eqb_refl.
      + inversion H; subst. cbn [marks lookup]. now rewrite Def_eqb_refl.
      + bind_inv H. destruct a as [c' st1]. bind_inv H. destruct a as [t' st2].
        bind_inv H. destruct a as [f' st3]. inversion H; subst.
        cbn [marks lookup]. now rewrite Def_eqb_refl.
      + bind_inv H. destruct a as [nops st1]. inversion H; subst.
        cbn [marks lookup]. now rewrite Def_eqb_refl. }
  split; [exact L | now apply mangle_visited].
Qed.

(** X21: [mangle] of a definition only adds: a definition that was mapped
    before is mapped afterwards, the lambdas of the world are the ones
    there were, unchanged, followed by the stubs that were created
    (unterminated, unsealed, without values), and nothing is written to
    the diagnostics. *)
Theorem mangle_creates_stubs (odef n : Def) (st st' : State) :
  mangle odef st = Done (n, st') ->
  (forall d, lookup (marks st) d <> None -> lookup (marks st') d <> None) /\
  exists more, lambdas (world st') = lambdas (world st) ++ more /\
               Forall is_stub more /\
               cerr (world st') = cerr (world st).
Proof. apply mangle_grows. Qed.

End ManglerMarks.

(** ** The parameters of the new entry *)

Section EntryParams.
Import IR Mangler.

Variable oentry nentry : nat.

Lemma position_above (k : nat) (l : list nat) :
  Forall (fun d => k < d)%nat l -> position k l = None.
Proof.
  induction 1 as [|d ds Hd _ IH]; cbn [position]; auto.
  assert (Q : (d =? k)%nat = false) by (apply Nat.eqb_neq; lia).
  now rewrite Q, IH.
Qed.

Lemma filter_above (k : nat) (l : list nat) :
  Forall (fun d => k <= d)%nat l -> filter (fun d => d <? k)%nat l = [].
Proof.
  induction 1 as [|d ds Hd _ IH]; cbn [filter]; auto.
  assert (Q : (d <? k)%nat = false) by (apply Nat.ltb_ge; lia).
  now rewrite Q.
Qed.

Lemma map_entry_params_spec (n : nat) :
  forall op np to_drop drop_with st,
    StronglySorted lt to_drop ->
    Forall (fun d => op <= d)%nat to_drop ->
    (length to_drop <= length drop_with)%nat ->
    exists st',
      map_entry_params oentry nentry n op np to_drop drop_with st = Done st' /\
      world st' = world st /\
      (forall d, (forall k, (op <= k < op + n)%nat -> d <> DParam oentry k) ->
                 lookup (marks st') d = lookup (marks st) d) /\
      (forall k, (op <= k < op + n)%nat ->
                 lookup (marks st') (DParam oentry k) =
                 match position k to_drop with
                 | Some i => nth_error drop_with i
                 | None => Some (DParam nentry
                             (np + (k - op)
                              - length (filter (fun d => d <? k)%nat to_drop)))
                 end).
Proof.
  induction n as [|n IH]; intros op np to_drop drop_with st Hs Hge Hlen.
  - exists st. repeat split; auto. intros k Hk. lia.
  - cbn [map_entry_params]. destruct to_drop as [|d ds].
    + destruct (IH (S op) (S np) [] drop_with
                  (snd (map_to (DParam oentry op) (DParam nentry np) st)))
        as (st' & E & W & F & P); auto.
      exists st'. split; [exact E |]. split; [exact W |]. split.
      * intros x Hx. rewrite F by (intros k Hk; apply Hx; lia).
        rewrite lookup_map_to.
        now rewrite Def_eqb_neq by (intros Q; apply (Hx op); [lia | congruence]).
      * intros k Hk. destruct (Nat.eq_dec k op) as [-> | Hne].
        -- rewrite F by (intros k Hk' Q; inversion Q; lia).
           rewrite lookup_map_to, Def_eqb_refl. cbn. do 2 f_equal. lia.
        -- rewrite P by lia. cbn. do 2 f_equal. lia.
    + inversion Hs as [|? ? Hs' Hd]; subst. inversion Hge as [|? ? Hop Hge']; subst.
      destruct (d =? op)%nat eqn:Ed.
      * apply Nat.eqb_eq in Ed. subst d.
        destruct drop_with as [|c cs]; [simpl in Hlen; lia |].
        destruct (IH (S op) np ds cs (snd (map_to (DParam oentry op) c st)))
          as (st' & E & W & F & P); auto.
        { simpl in Hlen. lia. }
        exists st'. split; [exact E |]. split; [exact W |]. split.
        -- intros x Hx. rewrite F by (intros k Hk; apply Hx; lia).
           rewrite lookup_map_to.
           now rewrite Def_eqb_neq by (intros Q; apply (Hx op); [lia | congruence]).
        -- intros k Hk. destruct (Nat.eq_dec k op) as [-> | Hne].
           ++ rewrite F by (intros k Hk' Q; inversion Q; lia).
              rewrite lookup_map_to, Def_eqb_refl. cbn [position].
              now rewrite Nat.eqb_refl.
           ++ rewrite P by lia. cbn [position filter].
              assert (Q1 : (op =? k)%nat = false) by (apply Nat.eqb_neq; lia).
              assert (Q2 : (op <? k)%nat = true) by (apply Nat.ltb_lt; lia).
              rewrite Q1, Q2. destruct (position k ds) as [i|]; [reflexivity |].
              cbn [length]. do 2 f_equal. lia.
      * apply Nat.eqb_neq in Ed.
        assert (Hgt : Forall (fun a => S op <= a)%nat (d :: ds)).
        { constructor; [lia |]. eapply Forall_impl; [| exact Hd].
          intros a Ha. simpl in Ha. lia. }
        destruct (IH (S op) (S np) (d :: ds) drop_with
                    (snd (map_to (DParam oentry op) (DParam nentry np) st)))
          as (st' & E & W & F & P); auto.
        exists st'. split; [exact E |]. split; [exact W |]. split.
        -- intros x Hx. rewrite F by (intros k Hk; apply Hx; lia).
           rewrite lookup_map_to.
           now rewrite Def_eqb_neq by (intros Q; apply (Hx op); [lia | congruence]).
        -- intros k Hk. destruct (Nat.eq_dec k op) as [-> | Hne].
           ++ rewrite F by (intros k Hk' Q; inversion Q; lia).
              rewrite lookup_map_to, Def_eqb_refl.
              rewrite position_above
                by (eapply Forall_impl; [| exact Hgt]; intros a Ha; simpl in Ha; lia).
              rewrite filter_above by (constructor; auto).
              cbn [length]. do 2 f_equal. lia.
           ++ rewrite P by lia. destruct (position k (d :: ds)); [reflexivity |].
              do 2 f_equal. lia.
Qed.


End EntryParams.

Section ManglerExamples.
Import IR Mangler Examples.

Lemma mangle_memoizes_witness :
  exists n st',
    mangle (fun t => t) plain_rebuild loop_mangler (n_minus_1 (DParam 0 1)) loop_state
      = Done (n, st') /\
    lookup (marks st') (n_minus_1 (DParam 0 1)) = Some n /\
    mangle (fun t => t) plain_rebuild loop_mangler (n_minus_1 (DParam 0 1)) st'
      = Done (n, st').
Proof.
  eexists; eexists. split; [vm_compute; reflexivity |].
  eapply (mangle_memoizes (fun t => t) plain_rebuild loop_mangler
           (n_minus_1 (DParam 0 1)) _ loop_state).
  vm_compute. reflexivity.
Defined.

Lemma mangle_creates_stubs_witness :
  exists n st',
    mangle (fun t => t) plain_rebuild loop_mangler
      (DSelect (DParam 0 1) (DLambda 0) (DLambda 5)) (mkState loop_world []) = Done (n, st') /\
    (forall d, lookup (marks (mkState loop_world [])) d <> None ->
               lookup (marks st') d <> None) /\
    exists more, lambdas (world st') = lambdas loop_world ++ more /\
                 Forall is_stub more /\
                 cerr (world st') = cerr loop_world.
Proof.
  eexists; eexists. split; [vm_compute; reflexivity |].
  eapply (mangle_creates_stubs (fun t => t) plain_rebuild loop_mangler
           (DSelect (DParam 0 1) (DLambda 0) (DLambda 5)) _ (mkState loop_world [])).
  vm_compute. reflexivity.
Defined.


End ManglerExamples.

(** ** What the numbering gives the analyses *)

Section Treading.
Import Scope.

Variable lam_succs lam_preds : Lambda -> list Lambda.
Variable sc : Scope.
Variable pass : nat.
Variable M : list Lambda.
Hypothesis M_nodup : NoDup M.

Local Abbreviation ready := (Scope.ready sc pass M).
Local Abbreviation walk := (Scope.walk pass M).
Local Abbreviation tread := (Scope.tread lam_succs pass).

Ltac bind_inv H :=
  match type of H with
  | bind ?m _ = Done _ =>
      let E := fresh "E" in
      destruct m eqn:E; cbn [bind] in H; [| discriminate H | discriminate H]
  end.

Lemma tread_refl (O : Lambda -> Prop) (h : Heap) : tread O h h.
Proof. constructor; intros; congruence. Qed.

Lemma tread_trans (O : Lambda -> Prop) (h h1 h2 : Heap) (i i1 i2 : Z) :
  walk h i h1 i1 -> walk h1 i1 h2 i2 ->
  tread O h h1 -> tread O h1 h2 -> tread O h h2.
Proof.
  intros [C1 K1 O1 N1 S1] [C2 K2 O2 N2 S2] [D1 P1] [D2 P2]. constructor.
  - intros a b Ha Ha' Hb Hb' E.
    destruct (is_visited pass a h1) eqn:Va, (is_visited pass b h1) eqn:Vb.
    + apply D1; auto. rewrite <- (O2 a Va), <- (O2 b Vb). exact E.
    + exfalso. pose proof (proj2 (N1 a Ha Va)). pose proof (proj2 (N2 b Vb Hb')).
      rewrite (O2 a Va) in E. lia.
    + exfalso. pose proof (proj2 (N1 b Hb Vb)). pose proof (proj2 (N2 a Va Ha')).
      rewrite (O2 b Vb) in E. lia.
    + apply D2; auto.
  - intros l Hl Hl'. destruct (is_visited pass l h1) eqn:Vl.
    + destruct (P1 l Hl Vl) as (p & Hp & [Op | (A & B & C)]).
      * exists p. auto.
      * exists p. split; auto. right. repeat split; auto.
        rewrite (O2 l Vl), (O2 p B). exact C.
    + destruct (P2 l Vl Hl') as (p & Hp & [Op | (A & B & C)]).
      * exists p. auto.
      * exists p. split; auto. right. repeat split; auto.
        destruct (is_visited pass p h) eqn:Vp; auto.
        rewrite (K1 p Vp) in A. discriminate.
Qed.

Lemma number_succs_tread (f : nat)
  (rec : Lambda -> Z -> Heap -> outcome (Heap * Z)) (O : Lambda -> Prop) :
  (forall cur i h h' i',
      ready f h i -> In cur M -> is_visited pass cur h = false ->
      rec cur i h = Done (h', i') ->
      walk h i h' i' /\
      ((exists p, O p /\ In cur (lam_succs p)) -> tread O h h')) ->
  forall succs i h h' i',
    ready f h i ->
    (forall s, In s succs -> exists p, O p /\ In s (lam_succs p)) ->
    number_succs rec sc pass succs i h = Done (h', i') ->
    walk h i h' i' /\ tread O h h'.
Proof.
  intros Hrec succs. induction succs as [|succ rest IH]; intros i h h' i' Hr Hs H;
    cbn [number_succs] in H.
  - inversion H; subst. split; [apply walk_refl | apply tread_refl].
  - assert (Hrest : forall s, In s rest -> exists p, O p /\ In s (lam_succs p))
      by (intros s Q; apply Hs; now right).
    destruct (contains sc succ h) eqn:Ec; cbn [andb] in H; [| now apply IH].
    destruct (is_visited pass succ h) eqn:Ev; cbn [negb] in H; [now apply IH |].
    bind_inv H. destruct a as [h1 i1].
    assert (Hin : In succ M) by (destruct Hr as (_ & Hc & _); now apply Hc).
    destruct (Hrec succ i h h1 i1 Hr Hin Ev E) as [W1 T1].
    specialize (T1 (Hs succ (or_introl eq_refl))).
    destruct (IH i1 h1 h' i' (ready_walk _ _ _ _ _ _ _ _ Hr W1) Hrest H) as [W2 T2].
    split; [eapply walk_trans; eauto | eapply tread_trans; eauto].
Qed.

Lemma number_tread (fuel : nat) :
  forall cur i h h' i',
    ready fuel h i -> In cur M -> is_visited pass cur h = false ->
    number lam_succs lam_preds fuel sc true pass cur i h = Done (h', i') ->
    walk h i h' i' /\
    forall O : Lambda -> Prop, (exists p, O p /\ In cur (lam_succs p)) -> tread O h h'.
Proof.
  induction fuel as [|f IH]; intros cur i h h' i' Hr Hin Hv H; [discriminate |].
  assert (W : walk h i h' i').
  { destruct (number_walk lam_succs lam_preds sc pass M M_nodup (S f) cur i h Hr Hin Hv)
      as (h'' & i'' & E & W). rewrite E in H. inversion H; subst. exact W. }
  split; [exact W |]. intros O HO.
  destruct (walk_visit_first sc pass M M_nodup cur h i f Hr Hin Hv) as (Hr1 & _).
  cbn [number] in H. bind_inv H. destruct a as [h2 i2]. inversion H; subst. clear H.
  destruct (number_succs_tread f _ (eq cur) (fun c j g g' j' A B C D =>
              conj (proj1 (IH c j g g' j' A B C D))
                   (proj2 (IH c j g g' j' A B C D) (eq cur)))
              (lam_succs cur) i _ h2 i2 Hr1) as [[C2 K2 O2 N2 S2] [D2 P2]]; auto.
  { intros s Hs. exists cur. auto. }
  assert (V1 : forall l, is_visited pass l (visit_first pass cur h)
                         = (l =? cur)%nat || is_visited pass l h)
    by (intros; apply is_visited_visit_first).
  assert (Vc : is_visited pass cur h2 = true).
  { apply K2. rewrite V1, Nat.eqb_refl. reflexivity. }
  assert (New : forall l, l <> cur -> is_visited pass l h = false ->
                          is_visited pass l (visit_first pass cur h) = false).
  { intros l Hne Hl. rewrite V1, Hl. apply Nat.eqb_neq in Hne. now rewrite Hne. }
  assert (Sid : forall l, l <> cur -> sid_ (set_sid cur i2 h2 l) = sid_ (h2 l)).
  { intros l Hne. rewrite sid_set_sid. apply Nat.eqb_neq in Hne. now rewrite Hne. }
  assert (Sc : sid_ (set_sid cur i2 h2 cur) = i2)
    by (rewrite sid_set_sid, Nat.eqb_refl; reflexivity).
  constructor.
  - intros a b Ha Ha' Hb Hb' Q. rewrite is_visited_set_sid in Ha', Hb'.
    destruct (Nat.eq_dec a cur) as [-> | Na], (Nat.eq_dec b cur) as [-> | Nb]; auto.
    + exfalso. rewrite Sc, (Sid b Nb) in Q.
      pose proof (proj2 (N2 b (New b Nb Hb) Hb')). lia.
    + exfalso. rewrite Sc, (Sid a Na) in Q.
      pose proof (proj2 (N2 a (New a Na Ha) Ha')). lia.
    + rewrite (Sid a Na), (Sid b Nb) in Q. apply D2; auto.
  - intros l Hl Hl'. rewrite is_visited_set_sid in Hl'.
    destruct (Nat.eq_dec l cur) as [-> | Nl].
    + destruct HO as (p & Op & Hp). exists p. auto.
    + destruct (P2 l (New l Nl Hl) Hl') as (p & Hp & [<- | (A & B & C)]).
      * exists cur. split; auto. right. rewrite is_visited_set_sid.
        repeat split; auto. rewrite Sc, (Sid l Nl).
        pose proof (proj2 (N2 l (New l Nl Hl) Hl')). lia.
      * assert (Np : p <> cur).
        { intros ->. rewrite V1, Nat.eqb_refl in A. discriminate. }
        exists p. split; auto. right. rewrite is_visited_set_sid.
        repeat split; auto.
        -- rewrite V1 in A. apply orb_false_iff in A. tauto.
        -- now rewrite (Sid l Nl), (Sid p Np).
Qed.

Lemma number_entries_tread (fuel : nat) (O : Lambda -> Prop) (entries : list Lambda) :
  forall i h h' i',
    ready fuel h i ->
    (forall e, In e entries -> O e) ->
    number_entries lam_succs lam_preds fuel sc pass entries i h = Done (h', i') ->
    walk h i h' i' /\ tread O h h'.
Proof.
  induction entries as [|e rest IH]; intros i h h' i' Hr HO H; cbn [number_entries] in H.
  - inversion H; subst. split; [apply walk_refl | apply tread_refl].
  - bind_inv H. destruct a as [h1 i1].
    destruct (number_succs_tread fuel _ O (fun c j g g' j' A B C D =>
                conj (proj1 (number_tread fuel c j g g' j' A B C D))
                     (proj2 (number_tread fuel c j g g' j' A B C D) O))
                (lam_succs e) i h h1 i1 Hr) as [W1 T1]; auto.
    { intros s Hs. exists e. split; auto. apply HO. now left. }
    destruct (IH i1 h1 h' i' (ready_walk _ _ _ _ _ _ _ _ Hr W1)) as [W2 T2]; auto.
    { intros x Hx. apply HO. now right. }
    split; [eapply walk_trans; eauto | eapply tread_trans; eauto].
Qed.

End Treading.

Section Positions.
Import Scope.

Lemma increasing_from (lo : Z) (s : list Z) :
  StronglySorted Z.lt s -> Forall (fun x => lo <= x) s ->
  forall i x, nth_error s i = Some x -> lo + Z.of_nat i <= x.
Proof.
  intros Hs. revert lo. induction Hs as [|a r Hr IH Ha]; intros lo Hlo i x Hi.
  - destruct i; discriminate.
  - inversion Hlo as [|? ? Hlo1 Hlo2]; subst. destruct i as [|i]; simpl in Hi.
    + inversion Hi; subst. lia.
    + assert (Q : lo + 1 + Z.of_nat i <= x).
      { apply IH; auto. eapply Forall_impl; [| exact Ha]. intros y Hy. simpl in Hy. lia. }
      lia.
Qed.

Lemma increasing_upto (hi : Z) (s : list Z) :
  StronglySorted Z.lt s -> Forall (fun x => x < hi) s ->
  forall i x, nth_error s i = Some x -> x <= hi - Z.of_nat (length s - i).
Proof.
  intros Hs. induction Hs as [|a r Hr IH Ha]; intros Hhi i x Hi.
  - destruct i; discriminate.
  - inversion Hhi as [|? ? Hhi1 Hhi2]; subst. destruct i as [|i]; simpl in Hi.
    + inversion Hi; subst. destruct r as [|b r'].
      * simpl. lia.
      * assert (Q : b <= hi - Z.of_nat (length (b :: r') - 0))
          by (apply IH; auto).
        inversion Ha; subst. simpl length in *. lia.
    + specialize (IH Hhi2 i x Hi). simpl length.
      replace (S (length r) - S i)%nat with (length r - i)%nat by lia. exact IH.
Qed.

Lemma sorted_positions (h : Heap) (l : list Lambda) :
  StronglySorted (sid_le h) l ->
  NoDup l ->
  (forall a b, In a l -> In b l -> sid_ (h a) = sid_ (h b) -> a = b) ->
  (forall a, In a l -> 0 <= sid_ (h a) < Z.of_nat (length l)) ->
  forall i a, nth_error l i = Some a -> sid_ (h a) = Z.of_nat i.
Proof.
  intros Hs Hnd Hinj Hr i a Hi.
  assert (St : StronglySorted Z.lt (map (fun x => sid_ (h x)) l)).
  { clear Hr Hi. induction Hs as [|x r Hsr IH Hx]; simpl; constructor.
    - inversion Hnd; subst. apply IH; auto.
      intros; apply Hinj; simpl; auto.
    - inversion Hnd as [|? ? Hxr _]; subst.
      apply Forall_map. apply Forall_forall. intros y Hy.
      rewrite Forall_forall in Hx. specialize (Hx y Hy). unfold sid_le in Hx.
      assert (sid_ (h x) <> sid_ (h y)).
      { intros Q. apply Hxr. rewrite (Hinj x y); simpl; auto. }
      lia. }
  assert (N : nth_error (map (fun x => sid_ (h x)) l) i = Some (sid_ (h a)))
    by (rewrite nth_error_map, Hi; reflexivity).
  assert (Li : (i < length l)%nat) by (apply nth_error_Some; congruence).
  pose proof (increasing_from 0 _ St) as A.
  pose proof (increasing_upto (Z.of_nat (length l)) _ St) as B.
  rewrite length_map in B.
  assert (F1 : Forall (fun x => 0 <= x) (map (fun x => sid_ (h x)) l)).
  { apply Forall_map, Forall_forall. intros y Hy. apply Hr; auto. }
  assert (F2 : Forall (fun x => x < Z.of_nat (length l)) (map (fun x => sid_ (h x)) l)).
  { apply Forall_map, Forall_forall. intros y Hy. apply Hr; auto. }
  specialize (A F1 i _ N). specialize (B F2 i _ N). lia.
Qed.

Lemma sorted_filter (h : Heap) (f : Lambda -> bool) (l : list Lambda) :
  StronglySorted (sid_le h) l -> StronglySorted (sid_le h) (filter f l).
Proof.
  induction 1 as [|x r Hr IH Hx]; simpl; [constructor |].
  destruct (f x); auto. constructor; auto.
  apply Forall_forall. intros y Hy. apply filter_In in Hy.
  rewrite Forall_forall in Hx. apply Hx. tauto.
Qed.

Variable pass : nat.

Lemma scope_set_scope (l x : Lambda) (s : option nat) (h : Heap) :
  scope_ (set_scope l s h x) = if (x =? l)%nat then s else scope_ (h x).
Proof. unfold set_scope, upd. now destruct (x =? l)%nat. Qed.

Lemma convert_scope_other (num : Z) (h : Heap) (x l : Lambda) :
  l <> x -> scope_ (convert pass num h x l) = scope_ (h l).
Proof.
  intros Hne. apply Nat.eqb_neq in Hne. unfold convert.
  destruct (is_visited pass x h).
  - now rewrite scope_set_sid.
  - now rewrite scope_set_sid, scope_set_scope, Hne.
Qed.

Lemma convert_scope_self (num : Z) (h : Heap) (x : Lambda) :
  scope_ (convert pass num h x x) = if is_visited pass x h then scope_ (h x) else None.
Proof.
  unfold convert. destruct (is_visited pass x h).
  - now rewrite scope_set_sid.
  - now rewrite scope_set_sid, scope_set_scope, Nat.eqb_refl.
Qed.

Lemma convert_all_scope (num : Z) (L : list Lambda) :
  forall h,
    NoDup L ->
    let h4 := fold_left (convert pass num) L h in
    (forall l, In l L ->
               scope_ (h4 l) = if is_visited pass l h then scope_ (h l) else None) /\
    (forall l, ~ In l L -> scope_ (h4 l) = scope_ (h l)).
Proof.
  induction L as [|x rest IH]; intros h Hnd; simpl.
  - split; auto. contradiction.
  - inversion Hnd as [|? ? Hx Hnd']; subst.
    destruct (IH (convert pass num h x) Hnd') as (A & B). split.
    + intros l [-> | Hl].
      * rewrite B by auto. apply convert_scope_self.
      * assert (Hne : l <> x) by (intros ->; contradiction).
        rewrite (A l Hl), (convert_scope_other num h x l Hne).
        now rewrite (proj2 (convert_other pass num h x l Hne)).
    + intros l Hl.
      assert (Hne : l <> x) by (intros ->; apply Hl; now left).
      rewrite B by (intros Q; apply Hl; now right).
      apply (convert_scope_other num h x l Hne).
Qed.

End Positions.

Section ProcessOrder.
Import Scope.

Variable lam_succs lam_preds : Lambda -> list Lambda.

Lemma process_orders (fuel : nat) (entries : list Lambda) (sc : Scope) (w : World) :
  entries <> [] ->
  NoDup entries ->
  incl entries (rpo_ sc) ->
  NoDup (rpo_ sc) ->
  (forall l, contains sc l (heap w) = true <-> In l (rpo_ sc)) ->
  (forall l, (cur_pass_ (heap w l) <= pass_counter w)%nat) ->
  Z.of_nat (length (rpo_ sc)) < size_t_modulus ->
  (length (rpo_ sc) <= fuel)%nat ->
  exists sc' w',
    process lam_succs lam_preds fuel entries sc w = Done (sc', w') /\
    this sc' = this sc /\
    NoDup (rpo sc') /\
    incl (rpo sc') (rpo_ sc) /\
    (forall i e, nth_error entries i = Some e -> nth_error (rpo sc') i = Some e) /\
    (forall i l, nth_error (rpo sc') i = Some l -> sid_ (heap w' l) = Z.of_nat i) /\
    (forall l, contains sc' l (heap w') = true <-> In l (rpo sc')) /\
    (forall l, In l (rpo sc') -> ~ In l entries ->
               exists p, In p (rpo sc') /\ In l (lam_succs p) /\
                         sid_ (heap w' p) < sid_ (heap w' l)).
Proof.
  intros Hne Hnd Hinc HM Hcc Hfresh Hsize Hfuel.
  assert (Hc : forall l, contains sc l (heap w) = true -> In l (rpo_ sc))
    by (intros l; apply Hcc).
  set (pass := S (pass_counter w)).
  set (M := rpo_ sc) in *. set (h0 := heap w) in *.
  set (k := length entries).
  assert (Hk : (1 <= k)%nat).
  { subst k. destruct entries; [congruence | simpl; lia]. }
  assert (V0 : forall l, is_visited pass l h0 = false).
  { intros l. unfold is_visited. apply Nat.eqb_neq. specialize (Hfresh l).
    subst pass h0. lia. }
  assert (U0 : length (unvisited pass M h0) = length M).
  { unfold unvisited. f_equal. apply forallb_filter_id. apply forallb_forall.
    intros l _. now rewrite V0. }
  set (h1 := fold_left (fun h e => visit_first pass e h) entries h0).
  destruct (mark_entries pass entries h0) as (V1 & S1 & C1). fold h1 in V1, S1, C1.
  assert (U1 : (length (unvisited pass M h1) + k = length M)%nat).
  { rewrite <- U0. apply mark_entries_count; auto. }
  assert (R1 : ready sc pass M fuel h1 0).
  { repeat split; try lia. intros l Hl. apply Hc.
    now rewrite <- (contains_scope sc l h0 h1 (C1 l)). }
  destruct (number_entries_walk lam_succs lam_preds sc pass M HM fuel entries 0 h1 R1)
    as (h2 & num0 & E2 & W2).
  destruct (number_entries_tread lam_succs lam_preds sc pass M HM fuel
              (fun p => In p entries) entries 0 h1 h2 num0 R1 (fun e He => He) E2)
    as [_ [D2 P2]].
  destruct W2 as [Cnt K2 O2 N2 S2].
  pose proof (number_back_spec pass (rev entries) num0 h2) as NB.
  destruct (number_back (rev entries) num0 h2) as [h3 num] eqn:E3.
  rewrite length_rev in NB. fold k in NB.
  destruct NB as (En & J3 & X3 & V3 & C3); [now apply NoDup_rev | lia | lia |].
  assert (Hnum : num = Z.of_nat (length M) - Z.of_nat (length (unvisited pass M h2))) by lia.
  assert (U3 : unvisited pass M h3 = unvisited pass M h2) by now apply unvisited_ext.
  assert (Ve : forall e, In e entries -> is_visited pass e h3 = true).
  { intros e He. rewrite V3. apply K2. rewrite V1.
    apply In_existsb_eqb in He. now rewrite He. }
  assert (Pe : forall i e, nth_error entries i = Some e ->
                           sid_ (h3 e) = num0 + Z.of_nat k - 1 - Z.of_nat i).
  { intros i e Hi.
    assert (Li : (i < k)%nat) by (apply (nth_error_Some entries i); congruence).
    rewrite (J3 (k - S i)%nat e).
    - lia.
    - rewrite nth_error_rev. fold k.
      assert (Q : (k - S i <? k)%nat = true) by (apply Nat.ltb_lt; lia).
      rewrite Q. replace (k - S (k - S i))%nat with i by lia. exact Hi. }
  assert (Fresh : forall l, ~ In l entries -> is_visited pass l h1 = false).
  { intros l Hn. rewrite V1, V0, orb_false_r.
    destruct (existsb (Nat.eqb l) entries) eqn:Q; auto.
    apply In_existsb_eqb in Q. contradiction. }
  assert (Same : forall l, ~ In l entries -> sid_ (h3 l) = sid_ (h2 l)).
  { intros l Hn. apply X3. rewrite <- in_rev. exact Hn. }
  assert (Po : forall l, In l M -> is_visited pass l h3 = true -> ~ In l entries ->
                         0 <= sid_ (h3 l) < num0).
  { intros l Hl Hv Hn. rewrite V3 in Hv. rewrite (Same l Hn).
    apply N2; auto. }
  assert (Pr : forall l, In l M -> is_visited pass l h3 = true ->
                         0 <= sid_ (h3 l) < num).
  { intros l Hl Hv. destruct (in_dec Nat.eq_dec l entries) as [He | He].
    - destruct (@In_nth_error Lambda entries l He) as (i & Hi). rewrite (Pe i l Hi).
      assert (Li : (i < k)%nat) by (apply (nth_error_Some entries i); congruence).
      lia.
    - specialize (Po l Hl Hv He). lia. }
  (* the postorder numbers are pairwise different *)
  assert (Dp : forall a b, In a M -> In b M ->
                           is_visited pass a h3 = true -> is_visited pass b h3 = true ->
                           sid_ (h3 a) = sid_ (h3 b) -> a = b).
  { intros a b Ha Hb Va Vb Q.
    destruct (in_dec Nat.eq_dec a entries) as [Ea | Ea],
             (in_dec Nat.eq_dec b entries) as [Eb | Eb].
    - destruct (@In_nth_error Lambda entries a Ea) as (ia & Hia).
      destruct (@In_nth_error Lambda entries b Eb) as (ib & Hib).
      rewrite (Pe ia a Hia), (Pe ib b Hib) in Q.
      assert (ia = ib) by lia. subst. congruence.
    - exfalso. destruct (@In_nth_error Lambda entries a Ea) as (ia & Hia).
      assert (Li : (ia < k)%nat) by (apply (nth_error_Some entries ia); congruence).
      rewrite (Pe ia a Hia) in Q. specialize (Po b Hb Vb Eb). lia.
    - exfalso. destruct (@In_nth_error Lambda entries b Eb) as (ib & Hib).
      assert (Li : (ib < k)%nat) by (apply (nth_error_Some entries ib); congruence).
      rewrite (Pe ib b Hib) in Q. specialize (Po a Ha Va Ea). lia.
    - rewrite V3 in Va, Vb. rewrite (Same a Ea), (Same b Eb) in Q.
      apply D2; auto. }
  (* the conversion *)
  set (h4 := fold_left (convert pass num) M h3).
  destruct (convert_all pass num M h3 HM) as (A4 & _ & V4). fold h4 in A4, V4.
  destruct (convert_all_scope pass num M h3 HM) as (Sc4 & Sc4'). fold h4 in Sc4, Sc4'.
  assert (S4 : forall l, In l M -> is_visited pass l h3 = true ->
                         sid_ (h4 l) = num - 1 - sid_ (h3 l)).
  { intros l Hl Hv. rewrite (A4 l Hl), Hv. apply wrap_small.
    specialize (Pr l Hl Hv). lia. }
  assert (B4 : forall l, In l M -> is_visited pass l h3 = false ->
                         sid_ (h4 l) = size_t_bottom).
  { intros l Hl Hv. now rewrite (A4 l Hl), Hv. }
  assert (Sc0 : forall l, scope_ (h3 l) = scope_ (h0 l)).
  { intros l. now rewrite C3, S2, C1. }
  (* the sort and the cut *)
  set (low := fun x => sid_ (h4 x) <? size_t_bottom).
  assert (Low : forall l, In l M -> low l = is_visited pass l h3).
  { intros l Hl. unfold low. destruct (is_visited pass l h3) eqn:Hv.
    - rewrite (S4 l Hl Hv). specialize (Pr l Hl Hv). apply Z.ltb_lt.
      rewrite size_t_bottom_eq. unfold size_t_modulus in Hsize. lia.
    - rewrite (B4 l Hl Hv). apply Z.ltb_irrefl. }
  assert (Len : length (filter low (sort h4 M)) = Z.to_nat num).
  { rewrite (filter_perm_length low _ _ (sort_perm h4 M)).
    rewrite (filter_ext_in low (fun l => is_visited pass l h3) M Low).
    assert (Q : (length (filter (fun l => is_visited pass l h3) M)
                 + length (unvisited pass M h3) = length M)%nat)
      by exact (filter_split_length (fun l => is_visited pass l h3) M).
    rewrite U3 in Q. lia. }
  assert (Cut : firstn (Z.to_nat num) (sort h4 M) = filter low (sort h4 M)).
  { rewrite <- Len.
    apply (sorted_prefix h4 size_t_bottom (sort h4 M) (sort_sorted h4 M)). }
  set (R := firstn (Z.to_nat num) (sort h4 M)) in *.
  assert (Rpo : forall l, In l R <-> In l M /\ is_visited pass l h3 = true).
  { intros l. rewrite Cut, filter_In. split.
    - intros [Hl Hlow].
      assert (Hm : In l M) by (eapply Permutation_in; [apply sort_perm | exact Hl]).
      split; auto. now rewrite <- Low.
    - intros [Hl Hv]. split.
      + eapply Permutation_in; [symmetry; apply sort_perm | exact Hl].
      + now rewrite Low. }
  assert (Rnd : NoDup R).
  { rewrite Cut. apply NoDup_filter.
    eapply Permutation_NoDup; [symmetry; apply sort_perm | exact HM]. }
  assert (Rlen : length R = Z.to_nat num) by (rewrite Cut; exact Len).
  assert (Pos : forall i l, nth_error R i = Some l -> sid_ (h4 l) = Z.of_nat i).
  { apply sorted_positions; auto.
    - rewrite Cut. apply sorted_filter, sort_sorted.
    - intros a b Ha Hb Q. apply Rpo in Ha, Hb. destruct Ha as [Ha Va], Hb as [Hb Vb].
      rewrite (S4 a Ha Va), (S4 b Hb Vb) in Q. apply Dp; auto. lia.
    - intros a Ha. apply Rpo in Ha. destruct Ha as [Ha Va].
      rewrite (S4 a Ha Va), Rlen. specialize (Pr a Ha Va). lia. }
  assert (Se : forall i e, nth_error entries i = Some e -> sid_ (h4 e) = Z.of_nat i).
  { intros i e Hi.
    assert (He : In e entries) by (eapply nth_error_In; eauto).
    rewrite S4; auto. rewrite (Pe i e Hi). lia. }
  exists (with_rpo sc R), (mkWorld h4 (pass_counter (fst (new_pass w)))).
  split; [| split; [| split; [| split; [| split; [| split; [| split]]]]]].
  - unfold process. cbn [new_pass]. cbn [heap pass_counter]. fold pass h0 h1.
    rewrite E2. cbn [bind]. rewrite E3.
    assert (Q1 : (num <=? Z.of_nat (size sc)) = true).
    { apply Z.leb_le. unfold size. fold M. lia. }
    assert (Q2 : (1 <=? num) = true) by (apply Z.leb_le; lia).
    rewrite Q1, Q2. cbn [negb]. reflexivity.
  - reflexivity.
  - exact Rnd.
  - intros l Hl. apply Rpo in Hl. tauto.
  - intros i e Hi.
    assert (He : In e entries) by (eapply nth_error_In; eauto).
    assert (Hr : In e R) by (apply Rpo; split; auto).
    destruct (In_nth_error _ _ Hr) as (j & Hj). cbn [rpo rpo_ with_rpo].
    pose proof (Pos j e Hj) as Q. rewrite (Se i e Hi) in Q.
    assert (i = j) by lia. subst. exact Hj.
  - exact Pos.
  - intros l. cbn [rpo rpo_ with_rpo heap]. unfold contains. cbn [this with_rpo].
    split.
    + intros Hcl. destruct (in_dec Nat.eq_dec l M) as [Hl | Hl].
      * apply Rpo. split; auto. rewrite (Sc4 l Hl) in Hcl.
        destruct (is_visited pass l h3); [reflexivity | discriminate].
      * exfalso. apply Hl, Hc. unfold contains. fold h0.
        now rewrite <- Sc0, <- (Sc4' l Hl).
    + intros Hl. apply Rpo in Hl. destruct Hl as [Hl Hv].
      rewrite (Sc4 l Hl), Hv, Sc0.
      apply (proj2 (Hcc l)) in Hl. exact Hl.
  - intros l Hl Hn. cbn [rpo rpo_ with_rpo heap] in *.
    apply Rpo in Hl. destruct Hl as [Hl Hv].
    assert (Hv2 : is_visited pass l h2 = true) by (rewrite <- V3; exact Hv).
    destruct (P2 l (Fresh l Hn) Hv2) as (p & Hp & [Ep | (A & B & C)]).
    + exists p. assert (Hpm : In p M) by (apply Hinc; exact Ep).
      split; [apply Rpo; split; auto |]. split; auto.
      destruct (@In_nth_error Lambda entries p Ep) as (ip & Hip).
      assert (Li : (ip < k)%nat) by (apply (nth_error_Some entries ip); congruence).
      rewrite (Se ip p Hip), (S4 l Hl Hv). specialize (Po l Hl Hv Hn). lia.
    + destruct (N2 p A B) as [Hpm _].
      assert (Hpv : is_visited pass p h3 = true) by (rewrite V3; exact B).
      assert (Hpn : ~ In p entries).
      { intros Q. apply In_existsb_eqb in Q. rewrite V1, Q in A. discriminate. }
      exists p. split; [apply Rpo; split; auto |]. split; auto.
      rewrite (S4 l Hl Hv), (S4 p Hpm Hpv), (Same l Hn), (Same p Hpn). lia.
Qed.

End ProcessOrder.

Section Following.
Import Scope.

Variable lam_succs lam_preds : Lambda -> list Lambda.
Variable sc : Scope.
Variable pass : nat.
Variable M entries : list Lambda.
Hypothesis M_nodup : NoDup M.

Local Abbreviation ready := (Scope.ready sc pass M).
Local Abbreviation walk := (Scope.walk pass M).
Local Abbreviation agrees := (Scope.agrees lam_succs sc pass M entries).
Local Abbreviation extends := (Scope.extends lam_succs M).
Local Abbreviation spec_dfs := (Scope.spec_dfs lam_succs M).
Local Abbreviation spec_visit := (Scope.spec_visit lam_succs M).
Local Abbreviation reaches := (Scope.reaches lam_succs M entries).

Ltac bind_inv H :=
  match type of H with
  | bind ?m _ = Done _ =>
      let E := fresh "E" in
      destruct m eqn:E; cbn [bind] in H; [| discriminate H | discriminate H]
  end.

Lemma among_In (l : Lambda) (s : list Lambda) : among l s = true <-> In l s.
Proof. apply In_existsb_eqb. Qed.

Lemma among_not_In (l : Lambda) (s : list Lambda) : among l s = false <-> ~ In l s.
Proof.
  rewrite <- among_In. destruct (among l s); split; congruence.
Qed.

Lemma spec_dfs_S (fuel : nat) (cur : Lambda) (t : Trail) :
  spec_dfs (S fuel) cur t =
  (fst (fold_left (spec_visit fuel) (lam_succs cur) (cur :: fst t, snd t)),
   snd (fold_left (spec_visit fuel) (lam_succs cur) (cur :: fst t, snd t)) ++ [cur]).
Proof. reflexivity. Qed.

Lemma extends_refl (t : Trail) : extends t t.
Proof.
  constructor.
  - apply incl_refl.
  - exists []. rewrite app_nil_r. split; [reflexivity |]. split; [constructor |].
    intros x. simpl. tauto.
  - intros l H1 H2. contradiction.
Qed.

Lemma extends_trans (t t1 t2 : Trail) : extends t t1 -> extends t1 t2 -> extends t t2.
Proof.
  intros [S1 (n1 & E1 & D1 & N1) C1] [S2 (n2 & E2 & D2 & N2) C2]. constructor.
  - eapply incl_tran; eauto.
  - exists (n1 ++ n2). split; [| split].
    + rewrite E2, E1. now rewrite app_assoc.
    + apply NoDup_app; auto.
      intros x H1 H2. apply N1 in H1. apply N2 in H2. tauto.
    + intros x. rewrite in_app_iff, N1, N2. split.
      * intros [[A B] | [A B]]; split; auto.
      * intros [A B]. destruct (in_dec Nat.eq_dec x (fst t1)); auto.
  - intros l Hl Hn s Hs Hm. destruct (in_dec Nat.eq_dec l (fst t1)) as [I | I].
    + apply S2. eapply C1; eauto.
    + eapply C2; eauto.
Qed.

Lemma walk_count_le (h h' : Heap) (i i' : Z) :
  walk h i h' i' ->
  (length (unvisited pass M h') <= length (unvisited pass M h))%nat.
Proof. intros [C _ _ _ _]. lia. Qed.

(** The test of the loop of [number] is the test of the traversal. *)
Lemma visit_agrees (h : Heap) (i : Z) (t : Trail) (s : Lambda) :
  agrees h i t ->
  contains sc s h && negb (is_visited pass s h) =
  among s M && negb (among s (fst t)).
Proof.
  intros [Am As _ _ _ _ _]. f_equal.
  - destruct (contains sc s h) eqn:E.
    + symmetry. apply among_In. now apply Am.
    + symmetry. apply among_not_In. intros Q. apply Am in Q. congruence.
  - f_equal. destruct (is_visited pass s h) eqn:E.
    + symmetry. apply among_In. now apply As.
    + symmetry. apply among_not_In. intros Q. apply As in Q. congruence.
Qed.

(** The loop over the successors keeps the walk and the traversal
    together, when every nested call does. *)
Lemma number_succs_agrees (f1 f2 : nat)
  (rec : Lambda -> Z -> Heap -> outcome (Heap * Z)) :
  (forall cur i h h' i' t,
      ready f1 h i -> (length (unvisited pass M h) <= f2)%nat -> agrees h i t ->
      In cur M -> is_visited pass cur h = false -> reaches cur ->
      rec cur i h = Done (h', i') ->
      walk h i h' i' /\ agrees h' i' (spec_dfs f2 cur t) /\
      extends t (spec_dfs f2 cur t) /\ In cur (fst (spec_dfs f2 cur t))) ->
  forall ss i h h' i' t,
    ready f1 h i -> (length (unvisited pass M h) <= f2)%nat -> agrees h i t ->
    (forall s, In s ss -> In s M -> reaches s) ->
    number_succs rec sc pass ss i h = Done (h', i') ->
    walk h i h' i' /\
    agrees h' i' (fold_left (spec_visit f2) ss t) /\
    extends t (fold_left (spec_visit f2) ss t) /\
    (forall s, In s ss -> In s M -> In s (fst (fold_left (spec_visit f2) ss t))).
Proof.
  intros Hrec ss. induction ss as [|s rest IH]; intros i h h' i' t Hr Hf Ha Hs H;
    cbn [number_succs fold_left] in *.
  - inversion H; subst. split; [apply walk_refl |]. split; [exact Ha |].
    split; [apply extends_refl |]. intros s [].
  - assert (Hrest : forall x, In x rest -> In x M -> reaches x)
      by (intros x Q; apply Hs; now right).
    pose proof (visit_agrees h i t s Ha) as T.
    unfold Scope.spec_visit at 2 4 6. fold (Scope.spec_visit lam_succs M).
    rewrite <- T.
    destruct (contains sc s h && negb (is_visited pass s h)) eqn:Q.
    + apply andb_true_iff in Q. destruct Q as [Qc Qv]. apply negb_true_iff in Qv.
      bind_inv H. destruct a as [h1 i1].
      assert (Hin : In s M) by (apply (agrees_members _ _ _ _ _ _ _ _ Ha); exact Qc).
      destruct (Hrec s i h h1 i1 t Hr Hf Ha Hin Qv (Hs s (or_introl eq_refl) Hin) E)
        as (W1 & A1 & X1 & I1).
      destruct (IH i1 h1 h' i' _ (ready_walk _ _ _ _ _ _ _ _ Hr W1)
                  (Nat.le_trans _ _ _ (walk_count_le _ _ _ _ W1) Hf) A1 Hrest H)
        as (W2 & A2 & X2 & I2).
      split; [eapply walk_trans; eauto |]. split; [exact A2 |].
      split; [eapply extends_trans; eauto |].
      intros x [<- | Hx] Hm; [| now apply I2].
      apply (extends_seen _ _ _ _ X2). exact I1.
    + destruct (IH i h h' i' t Hr Hf Ha Hrest H) as (W2 & A2 & X2 & I2).
      split; [exact W2 |]. split; [exact A2 |]. split; [exact X2 |].
      intros x [<- | Hx] Hm; [| now apply I2].
      apply (extends_seen _ _ _ _ X2).
      apply (agrees_seen _ _ _ _ _ _ _ _ Ha).
      apply (agrees_members _ _ _ _ _ _ _ _ Ha) in Hm. rewrite Hm in Q.
      cbn [andb] in Q. now apply negb_false_iff in Q.
Qed.

(** [number] on a member that has not been reached does what the
    traversal of the specification does from it. *)
Lemma number_agrees (f1 : nat) :
  forall f2 cur i h h' i' t,
    ready f1 h i -> (length (unvisited pass M h) <= f2)%nat -> agrees h i t ->
    In cur M -> is_visited pass cur h = false -> reaches cur ->
    number lam_succs lam_preds f1 sc true pass cur i h = Done (h', i') ->
    walk h i h' i' /\ agrees h' i' (spec_dfs f2 cur t) /\
    extends t (spec_dfs f2 cur t) /\ In cur (fst (spec_dfs f2 cur t)).
Proof.
  induction f1 as [|f IH]; intros f2 cur i h h' i' t Hr Hf Ha Hin Hv Hre H;
    [discriminate |].
  assert (W : walk h i h' i').
  { destruct (number_walk lam_succs lam_preds sc pass M M_nodup (S f) cur i h Hr Hin Hv)
      as (h'' & i'' & E & W). rewrite E in H. inversion H; subst. exact W. }
  split; [exact W |].
  destruct (walk_visit_first sc pass M M_nodup cur h i f Hr Hin Hv) as (Hr1 & U1).
  destruct f2 as [|g]; [exfalso; lia |].
  assert (Ns : ~ In cur (fst t)).
  { intros Q. apply (agrees_seen _ _ _ _ _ _ _ _ Ha) in Q. congruence. }
  set (h1 := visit_first pass cur h) in *.
  set (t1 := (cur :: fst t, snd t) : Trail).
  assert (A1 : agrees h1 i t1).
  { destruct Ha as [Am As Ac Ad Ao Ai Ar]. constructor; unfold t1; cbn [fst snd].
    - intros l. rewrite <- Am. unfold h1.
      now rewrite (contains_scope sc l h _ (scope_visit_first pass cur l h)).
    - intros l. unfold h1. rewrite is_visited_visit_first. cbn [In].
      rewrite orb_true_iff, Nat.eqb_eq, As. split; intros [Q | Q]; auto.
    - exact Ac.
    - intros k l Hk. unfold h1. rewrite sid_visit_first. now apply Ad.
    - intros x Hx. right. now apply Ao.
    - intros x [<- | Hx]; auto.
    - intros x [<- | Hx]; auto. }
  cbn [number] in H. fold h1 in H. bind_inv H. destruct a as [h2 i2].
  inversion H; subst h' i'. clear H.
  destruct (number_succs_agrees f g _ (fun c j x x' j' u => IH g c j x x' j' u)
              (lam_succs cur) i h1 h2 i2 t1 Hr1) as (W2 & A2 & X2 & I2); auto.
  { lia. }
  { intros s Hs Hm. eapply reaches_succ; eauto. }
  rewrite spec_dfs_S. fold t1.
  set (t2 := fold_left (spec_visit g) (lam_succs cur) t1) in *.
  destruct X2 as [S2 (news & E2 & D2 & N2) C2].
  change (fst t1) with (cur :: fst t) in S2, N2, C2.
  change (snd t1) with (snd t) in E2.
  assert (Ic : In cur (fst t2)) by (apply S2; now left).
  assert (Nn : ~ In cur news).
  { intros Q. apply N2 in Q. destruct Q as [_ Q]. apply Q. now left. }
  assert (No : ~ In cur (snd t2)).
  { rewrite E2. intros Q. apply in_app_or in Q. destruct Q as [Q | Q]; auto.
    apply Ns. now apply (agrees_done _ _ _ _ _ _ _ _ Ha). }
  destruct A2 as [Am As Ac Ad Ao Ai Ar].
  destruct W2 as [C2' K2 O2 New2 Sc2]. destruct Hr as (Hf1 & Hc & Hi & Hw).
  assert (Wi : wrap (i2 + 1) = i2 + 1) by (apply wrap_small; lia).
  split; [| split].
  - constructor; cbn [fst snd].
    + intros l. rewrite <- Am.
      now rewrite (contains_scope sc l h2 _ (scope_set_sid cur l i2 h2)).
    + intros l. now rewrite is_visited_set_sid.
    + rewrite Wi, length_app. simpl. lia.
    + intros k l Hk. rewrite sid_set_sid.
      destruct (Nat.lt_ge_cases k (length (snd t2))) as [Lk | Lk].
      * rewrite nth_error_app1 in Hk by exact Lk.
        assert (l <> cur) by (intros ->; apply No; eapply nth_error_In; eauto).
        apply Nat.eqb_neq in H. rewrite H. now apply Ad.
      * rewrite nth_error_app2 in Hk by exact Lk.
        destruct (k - length (snd t2))%nat as [|j] eqn:Ej; simpl in Hk.
        -- inversion Hk; subst l. rewrite Nat.eqb_refl. lia.
        -- destruct j; discriminate.
    + intros x Hx. apply in_app_or in Hx. destruct Hx as [Hx | [<- | []]]; auto.
    + exact Ai.
    + exact Ar.
  - constructor; cbn [fst snd].
    + intros x Hx. apply S2. now right.
    + exists (news ++ [cur]). split; [| split].
      * rewrite E2. now rewrite app_assoc.
      * apply NoDup_app; auto.
        -- repeat constructor. intros [].
        -- intros x Hx [<- | []]. contradiction.
      * intros x. rewrite in_app_iff, N2. cbn [In]. split.
        -- intros [[A B] | [<- | []]]; split; auto.
        -- intros [A B]. destruct (Nat.eq_dec cur x) as [-> | Ne]; auto.
           left. split; auto. intros [Q | Q]; auto.
    + intros l Hl Hn s Hs Hm. destruct (Nat.eq_dec cur l) as [<- | Ne].
      * now apply I2.
      * apply (C2 l); auto. intros [Q | Q]; auto.
  - exact Ic.
Qed.

(** So does the walk from the successors of the entries. *)
Lemma number_entries_agrees (fuel f2 : nat) (es : list Lambda) :
  forall i h h' i' t,
    ready fuel h i -> (length (unvisited pass M h) <= f2)%nat -> agrees h i t ->
    (forall e, In e es -> reaches e) ->
    number_entries lam_succs lam_preds fuel sc pass es i h = Done (h', i') ->
    let t' := fold_left (fun t e => fold_left (spec_visit f2) (lam_succs e) t) es t in
    agrees h' i' t' /\ extends t t' /\
    (forall e s, In e es -> In s (lam_succs e) -> In s M -> In s (fst t')).
Proof.
  induction es as [|e rest IH]; intros i h h' i' t Hr Hf Ha He H;
    cbn [number_entries fold_left] in *.
  - inversion H; subst. split; [exact Ha |]. split; [apply extends_refl |].
    intros e s [].
  - bind_inv H. destruct a as [h1 i1].
    destruct (number_succs_agrees fuel f2 _
                (fun c j x x' j' u => number_agrees fuel f2 c j x x' j' u)
                (lam_succs e) i h h1 i1 t Hr Hf Ha) as (W1 & A1 & X1 & I1); auto.
    { intros s Hs Hm. eapply reaches_succ; eauto. apply He. now left. }
    destruct (IH i1 h1 h' i' _ (ready_walk _ _ _ _ _ _ _ _ Hr W1)
                (Nat.le_trans _ _ _ (walk_count_le _ _ _ _ W1) Hf) A1
                (fun x Hx => He x (or_intror Hx)) H) as (A2 & X2 & I2).
    split; [exact A2 |]. split; [eapply extends_trans; eauto |].
    intros x s [<- | Hx] Hs Hm; [| eapply I2; eauto].
    apply (extends_seen _ _ _ _ X2). now apply I1.
Qed.

End Following.

Section ProcessReference.
Import Scope.

Variable lam_succs lam_preds : Lambda -> list Lambda.

Lemma nth_error_same {A : Type} (l l' : list A) :
  (forall i, nth_error l i = nth_error l' i) -> l = l'.
Proof.
  revert l'. induction l as [|x r IH]; intros [|y r'] H; auto.
  - discriminate (H 0%nat).
  - discriminate (H 0%nat).
  - pose proof (H 0%nat) as H0. simpl in H0. inversion H0; subst. f_equal.
    apply IH. intros i. exact (H (S i)).
Qed.


End ProcessReference.


Section ScopeUse.
Import Scope.

Variable lam_succs lam_preds : Lambda -> list Lambda.

Local Abbreviation process := (Scope.process lam_succs lam_preds).

Lemma process_keeps (fuel : nat) (entries : list Lambda) (sc sc' : Scope) (w w' : World) :
  process fuel entries sc w = Done (sc', w') ->
  this sc' = this sc /\ num_entries_ sc' = num_entries_ sc /\
  succs_ sc' = succs_ sc /\ preds_ sc' = preds_ sc.
Proof.
  unfold Scope.process. cbn [new_pass].
  destruct (number_entries _ _ _ _ _ _ _ _) as [[h2 num0]| |]; cbn [bind];
    try discriminate.
  destruct (number_back _ _ _) as [h3 num].
  destruct (negb (num <=? Z.of_nat (size sc))); [discriminate |].
  destruct (negb (1 <=? num)); [discriminate |].
  intros H. inversion H; subst. repeat split.
Qed.




(** X26: a dominator tree can be built on every scope of one entry.  When
    the predecessor lists of the graph are the inverse of its successor
    lists and [process] has numbered the scope, [DomTree::create] on the
    view of the scope returns, and the immediate dominator of a member
    [L] lies on every path of the scope from the entry to [L]. *)
Theorem domtree_of_scope (fuel fuel' : nat) (e : Lambda) (sc sc' : Scope) (w w' : World)
  (v : DomTree.ScopeView) :
  In e (rpo_ sc) ->
  NoDup (rpo_ sc) ->
  (forall l, contains sc l (heap w) = true <-> In l (rpo_ sc)) ->
  (forall l, (cur_pass_ (heap w l) <= pass_counter w)%nat) ->
  Z.of_nat (length (rpo_ sc)) < size_t_modulus ->
  (length (rpo_ sc) <= fuel)%nat ->
  num_entries_ sc = 1%nat ->
  (forall l p, In p (lam_preds l) <-> In l (lam_succs p)) ->
  process fuel [e] sc w = Done (sc', w') ->
  DomTree.views lam_preds v sc' (heap w') ->
  ((length (rpo sc') + 1) * (length (rpo sc') + 1) <= fuel')%nat ->
  exists t,
    DomTree.create v true fuel' = Done t /\
    forall p L, DomTree.path v e p L ->
                exists d, DomTree.idom v true t L = Done d /\ In d p.
Proof.
  intros He HM Hcc Hfresh Hsize Hfuel Hone Hdual P (Vr & Vn & Vp & Vs) Hfuel'.
  destruct (process_orders lam_succs lam_preds fuel [e] sc w) as
    (sc1 & w1 & P1 & _ & Nd & Inc & En & Pos & Mem & Low); auto.
  { discriminate. }
  { repeat constructor. intros []. }
  { intros x [<- | []]. exact He. }
  fold process in P1. rewrite P in P1. inversion P1; subst sc1 w1. clear P1.
  destruct (process_keeps _ _ _ _ _ _ P) as (_ & Kn & _).
  assert (E0 : nth_error (rpo sc') 0 = Some e) by (apply (En 0%nat); reflexivity).
  assert (Hnum : DomTree.numbered v).
  { intros i l Hi. rewrite Vs. apply Pos. now rewrite <- Vr. }
  assert (Hv1 : DomTree.num_entries v = 1%nat) by congruence.
  assert (Hbody : forall l, In l (DomTree.body v) -> In l (rpo sc') /\ l <> e).
  { intros l Hl. unfold DomTree.body in Hl. rewrite Hv1, Vr in Hl.
    destruct (rpo sc') as [|x r] eqn:Er; [discriminate |].
    simpl in E0. inversion E0; subst x. simpl in Hl. split; [now right |].
    inversion Nd; subst. intros ->. contradiction. }
  assert (Hlow : forall l, In l (DomTree.body v) ->
                           exists p, In p (DomTree.preds v l) /\
                                     DomTree.sid v p < DomTree.sid v l).
  { intros l Hl. destruct (Hbody l Hl) as [Hr Hne].
    destruct (Low l Hr) as (p & Hp & Hs & Hlt).
    { intros [-> | []]. congruence. }
    exists p. rewrite Vp, !Vs. split; [| exact Hlt].
    apply filter_In. split; [now apply Hdual | now apply Mem]. }
  assert (Hin : forall l p, In l (DomTree.rpo v) -> In p (DomTree.preds v l) ->
                            In p (DomTree.rpo v)).
  { intros l p _ Hp. rewrite Vp in Hp. apply filter_In in Hp.
    rewrite Vr. apply Mem. tauto. }
  destruct (create_returns v Hnum Hv1 Hlow Hin fuel') as (t & C).
  { now rewrite Vr. }
  exists t. split; [exact C |]. intros p L Hp.
  apply (dominates_when_created v fuel' t (numbered_NoDup v Hnum Hv1) C e p L); auto.
  unfold DomTree.entries. rewrite Hv1, Vr.
  destruct (rpo sc') as [|x r]; [discriminate |]. simpl in E0. inversion E0. now left.
Qed.

(** The table of [ANYDSL2_SCOPE_SUCC_PRED]: a slot written for a key
    holds the value of the key. *)
Lemma fold_set_hit {A : Type} (key : Lambda -> nat) (val : Lambda -> A) (i : nat) (V : A)
  (L : list Lambda) :
  forall T,
    (i < length T)%nat ->
    (forall x, In x L -> key x = i -> val x = V) ->
    (exists x, In x L /\ key x = i) \/ nth_error T i = Some V ->
    nth_error (fold_left (fun t x => IR.list_set t (key x) (val x)) L T) i = Some V.
Proof.
  induction L as [|x L IH]; intros T Hi Hv H; cbn [fold_left].
  - destruct H as [(x & [] & _) | H]; exact H.
  - apply IH.
    + now rewrite length_list_set.
    + intros y Hy. apply Hv. now right.
    + destruct (Nat.eq_dec (key x) i) as [E | E].
      * right. rewrite E. rewrite nth_error_list_set_eq by exact Hi.
        f_equal. apply Hv; auto. now left.
      * destruct H as [(y & [-> | Hy] & Ky) | H].
        -- contradiction.
        -- left. exists y. auto.
        -- right. rewrite nth_error_list_set_neq by auto. exact H.
Qed.

Lemma restricted_slot (all : Lambda -> list Lambda) (sc : Scope) (h : Heap)
  (i : nat) (l : Lambda) :
  (forall j x, nth_error (rpo_ sc) j = Some x -> sid_ (h x) = Z.of_nat j) ->
  nth_error (rpo_ sc) i = Some l ->
  nth_error (restricted all sc h) i = Some (filter (fun s => contains sc s h) (all l)).
Proof.
  intros Hpos Hi. unfold restricted.
  apply (fold_set_hit (fun x => Z.to_nat (sid_ (h x)))
           (fun x => filter (fun s => contains sc s h) (all x))).
  - rewrite repeat_length. unfold size. apply nth_error_Some. congruence.
  - intros x Hx Kx. destruct (In_nth_error _ _ Hx) as (j & Hj).
    rewrite (Hpos j x Hj) in Kx. assert (j = i) by lia. subst. congruence.
  - left. exists l. split; [eapply nth_error_In; eauto |].
    rewrite (Hpos i l Hi). lia.
Qed.

(** X27: on a scope whose [rpo()] is in the order of the sids,
    [Scope::succs] and [Scope::preds] of a member return the members among
    its successors and predecessors, in their order; the first call fills
    the table, and every later call for a member returns the same from
    the table and leaves the scope object as it is. *)
Theorem scope_succs_members (sc : Scope) (h : Heap) (lambda : Lambda) :
  succs_ sc = None ->
  preds_ sc = None ->
  (forall i l, nth_error (rpo_ sc) i = Some l -> sid_ (h l) = Z.of_nat i) ->
  (forall l, In l (rpo_ sc) -> contains sc l h = true) ->
  In lambda (rpo_ sc) ->
  exists sc1 sc2,
    succs lam_succs sc lambda h =
      Done (sc1, filter (fun s => contains sc s h) (lam_succs lambda)) /\
    preds lam_preds sc1 lambda h =
      Done (sc2, filter (fun s => contains sc s h) (lam_preds lambda)) /\
    forall l, In l (rpo_ sc) ->
      succs lam_succs sc2 l h =
        Done (sc2, filter (fun s => contains sc s h) (lam_succs l)) /\
      preds lam_preds sc2 l h =
        Done (sc2, filter (fun s => contains sc s h) (lam_preds l)).
Proof.
  intros Hs Hp Hpos Hmem Hin.
  set (ts := restricted lam_succs sc h). set (tp := restricted lam_preds sc h).
  set (sc1 := mkScope (this sc) (rpo_ sc) (num_entries_ sc) (num_exits_ sc)
                (Some ts) (preds_ sc) (backwards_rpo_ sc)).
  set (sc2 := mkScope (this sc) (rpo_ sc) (num_entries_ sc) (num_exits_ sc)
                (Some ts) (Some tp) (backwards_rpo_ sc)).
  assert (Slot : forall all l, In l (rpo_ sc) ->
            nth_error (restricted all sc h) (Z.to_nat (sid_ (h l)))
            = Some (filter (fun s => contains sc s h) (all l))).
  { intros all l Hl. destruct (In_nth_error _ _ Hl) as (i & Hi).
    rewrite (Hpos i l Hi), Nat2Z.id. now apply restricted_slot. }
  exists sc1, sc2. split; [| split].
  - unfold succs. rewrite (Hmem lambda Hin), Hs. cbn [negb]. fold ts.
    unfold ts. rewrite (Slot lam_succs lambda Hin). reflexivity.
  - unfold preds. change (contains sc1 lambda h) with (contains sc lambda h).
    rewrite (Hmem lambda Hin). cbn [negb]. cbn [preds_ sc1]. rewrite Hp.
    change (restricted lam_preds sc1 h) with tp.
    unfold tp. rewrite (Slot lam_preds lambda Hin). reflexivity.
  - intros l Hl. split.
    + unfold succs. change (contains sc2 l h) with (contains sc l h).
      rewrite (Hmem l Hl). cbn [negb succs_ sc2].
      unfold ts. rewrite (Slot lam_succs l Hl). reflexivity.
    + unfold preds. change (contains sc2 l h) with (contains sc l h).
      rewrite (Hmem l Hl). cbn [negb preds_ sc2].
      unfold tp. rewrite (Slot lam_preds l Hl). reflexivity.
Qed.

End ScopeUse.

Section ScopeUseExamples.
Import Scope Examples.

Lemma diamond_ready :
  [0%nat] <> [] /\
  NoDup [0%nat] /\
  incl [0%nat] (rpo_ (fst diamond_analyzed)) /\
  NoDup (rpo_ (fst diamond_analyzed)) /\
  (forall l, contains (fst diamond_analyzed) l (heap (snd diamond_analyzed)) = true <->
             In l (rpo_ (fst diamond_analyzed))) /\
  (forall l, (cur_pass_ (heap (snd diamond_analyzed) l)
              <= pass_counter (snd diamond_analyzed))%nat) /\
  Z.of_nat (length (rpo_ (fst diamond_analyzed))) < size_t_modulus /\
  (length (rpo_ (fst diamond_analyzed)) <= 5)%nat.
Proof.
  change (rpo_ (fst diamond_analyzed)) with [0; 3; 1; 4; 2]%nat.
  split; [discriminate |].
  split; [repeat constructor; intros [] |].
  split; [intros l [<- | []]; simpl; auto |].
  split; [repeat constructor; simpl; intuition discriminate |].
  split; [| split; [| split]].
  - intros l. do 5 (destruct l as [|l]; [simpl; tauto |]).
    split; [intros H; discriminate H | simpl; intuition discriminate].
  - intros l. do 5 (destruct l as [|l]; [simpl; lia |]). simpl. lia.
  - reflexivity.
  - simpl. lia.
Defined.





Lemma diamond_dual (l p : Lambda) : In p (diamond_preds l) <-> In l (diamond_succs p).
Proof.
  destruct l as [|[|[|[|l]]]], p as [|[|[|[|p]]]]; simpl; intuition discriminate.
Defined.

Lemma domtree_of_scope_witness :
  exists t,
    DomTree.create diamond_view true 25 = Done t /\
    forall p L, DomTree.path diamond_view 0%nat p L ->
                exists d, DomTree.idom diamond_view true t L = Done d /\ In d p.
Proof.
  destruct diamond_ready as (_ & _ & _ & H4 & H5 & H6 & H7 & H8).
  apply (domtree_of_scope diamond_succs diamond_preds 5 25 0%nat
           (fst diamond_analyzed) (fst diamond_processed)
           (snd diamond_analyzed) (snd diamond_processed) diamond_view).
  - simpl. auto.
  - exact H4.
  - exact H5.
  - exact H6.
  - exact H7.
  - exact H8.
  - reflexivity.
  - exact diamond_dual.
  - vm_compute. reflexivity.
  - split; [reflexivity | split; [reflexivity | split]].
    + intros [|[|[|[|l]]]]; reflexivity.
    + intros [|[|[|[|[|l]]]]]; reflexivity.
  - replace (rpo (fst diamond_processed)) with [0; 2; 1; 3]%nat
      by (vm_compute; reflexivity).
    simpl. lia.
Defined.

Lemma scope_succs_members_witness :
  exists sc1 sc2,
    succs diamond_succs (fst diamond_processed) 0%nat (heap (snd diamond_processed)) =
      Done (sc1, [1; 2]%nat) /\
    preds diamond_preds sc1 0%nat (heap (snd diamond_processed)) = Done (sc2, []) /\
    forall l, In l (rpo_ (fst diamond_processed)) ->
      succs diamond_succs sc2 l (heap (snd diamond_processed)) =
        Done (sc2, filter (fun s => contains (fst diamond_processed) s
                                      (heap (snd diamond_processed)))
                     (diamond_succs l)) /\
      preds diamond_preds sc2 l (heap (snd diamond_processed)) =
        Done (sc2, filter (fun s => contains (fst diamond_processed) s
                                      (heap (snd diamond_processed)))
                     (diamond_preds l)).
Proof.
  apply (scope_succs_members diamond_succs diamond_preds
           (fst diamond_processed) (heap (snd diamond_processed)) 0%nat).
  - vm_compute. reflexivity.
  - vm_compute. reflexivity.
  - intros i l H.
    replace (rpo_ (fst diamond_processed)) with [0; 2; 1; 3]%nat in H
      by (vm_compute; reflexivity).
    destruct i as [|[|[|[|i]]]]; cbn [nth_error] in H;
      [injection H as <-; vm_compute; reflexivity ..
      | destruct i; discriminate H].
  - intros l H.
    replace (rpo_ (fst diamond_processed)) with [0; 2; 1; 3]%nat in H
      by (vm_compute; reflexivity).
    destruct H as [<- | [<- | [<- | [<- | []]]]]; vm_compute; reflexivity.
  - replace (rpo_ (fst diamond_processed)) with [0; 2; 1; 3]%nat
      by (vm_compute; reflexivity).
    left. reflexivity.
Defined.

End ScopeUseExamples.
